(** * NSPSO and extended ACO (gi_aco_mo): a shallow embedding

    The development follows two files of the repository:

    - [src/algorithms/nspso.cpp]: the non-dominated sorting particle swarm
      optimiser (the constructor, [nspso::evolve], [nspso::set_seed],
      [nspso::minfit], [nspso::compute_maxmin], [nspso::euclidian_distance],
      [nspso::compute_niche_count]);
    - [include/pagmo/algorithms/giACOmo.hpp]: the extended ant colony
      optimiser (the two constructors, [gi_aco_mo::evolve], [set_seed],
      [set_verbosity], [penalty_computation], [pheromone_computation],
      [update_SA], [generate_new_ants]).

    Conventions of the embedding.

    - A C++ [double] is an exact rational ([Q]); the only non-finite value the
      code manufactures, [std::numeric_limits<double>::infinity()], appears in
      penalties and is the extra constructor of [xdouble].
    - [std::vector<T>] is [list T].  [operator[]] outside [0, size) is
      undefined behaviour in C++; the checked accessors of [Vec] return
      [None] there, and a call that runs into it has the outcome
      [UndefinedBehaviour].
    - Machine integers keep their width where the code depends on it: the
      generation counter of both [evolve] methods is an [unsigned] of 32
      bits whose increment wraps ([unsigned_succ]), and the sum of
      [pheromone_computation] is accumulated in an [int]
      ([int_of_double]).  A generation loop takes a bound on the number of
      its iterations; a call whose loop does not end within any bound has
      the outcome [Diverged].
    - Code of the surrounding framework that the two files call but do not
      define is an interface: the records [problem] and [population], the
      classes [Services] (numeric functions, random engine) and
      [Utilities] (sorting utilities). *)

From Stdlib Require Import String.
From Stdlib Require Import List Arith ZArith QArith Qabs Qminmax Lia Bool Permutation.
Import ListNotations.

Set Implicit Arguments.

(** * Vectors with checked indexing *)

Module Vec.

(** [v[i]] as an rvalue. *)
Definition get {A} (v : list A) (i : nat) : option A := nth_error v i.

(** [v[i] = x]: defined only for [i < v.size()]. *)
Fixpoint set {A} (v : list A) (i : nat) (x : A) : option (list A) :=
  match v, i with
  | [], _ => None
  | _ :: t, O => Some (x :: t)
  | h :: t, S i' =>
      match set t i' x with
      | Some t' => Some (h :: t')
      | None => None
      end
  end.

(** [v.push_back(x)]. *)
Definition push_back {A} (v : list A) (x : A) : list A := v ++ [x].

End Vec.

Definition vector_double := list Q.

(** [a < b] on doubles, as a boolean. *)
Definition Qltb (a b : Q) : bool := negb (Qle_bool b a).

(** * The MaxMin kernel of NSPSO *)

Module MaxMin.

(** [fit[i][f]]; the kernel is only called on rectangular matrices, where
    every access below is in range. *)
Definition cell (fit : list vector_double) (i f : nat) : Q :=
  nth f (nth i fit []) 0.

(** One iteration of the loop of [minfit]: [if (tmp < min) min = tmp]. *)
Definition min_step {A} (g : A -> Q) (mn : Q) (a : A) : Q :=
  if Qltb (g a) mn then g a else mn.

(** One iteration of the inner loop of [compute_maxmin]:
    [if (i != j) { tmp = ...; if (tmp > maxmin[i]) maxmin[i] = tmp; }]. *)
Definition max_step {A} (skip : A -> bool) (g : A -> Q) (mx : Q) (a : A) : Q :=
  if skip a then mx else if Qltb mx (g a) then g a else mx.

(** [nspso::minfit]. *)
Definition minfit (i j : nat) (fit : list vector_double) : Q :=
  fold_left
    (min_step (fun f => cell fit i f - cell fit j f))
    (seq 0 (length (nth i fit [])))
    (cell fit i 0 - cell fit j 0).

(** Body of the outer loop of [nspso::compute_maxmin]: the value left in
    [maxmin[i]]. *)
Definition maxmin_at (fit : list vector_double) (i : nat) : Q :=
  let np := length fit in
  fold_left
    (max_step (Nat.eqb i) (fun j => minfit i j fit))
    (seq 0 np)
    (minfit i ((i + 1) mod np) fit).

(** [nspso::compute_maxmin]: entries [0 .. np-1] of the output vector (the
    callers size [maxmin] to [fit.size()]). *)
Definition compute_maxmin (fit : list vector_double) : vector_double :=
  map (maxmin_at fit) (seq 0 (length fit)).

(** Rectangular fitness matrix with [n] objectives. *)
Definition rectangular (n : nat) (fit : list vector_double) : Prop :=
  forall r, In r fit -> length r = n.

(** Pareto dominance between rows [j] and [i] of [fit] (glossary of the
    specification): [j] is no worse everywhere and better somewhere. *)
Definition dominates (n : nat) (fit : list vector_double) (j i : nat) : Prop :=
  (forall k, (k < n)%nat -> cell fit j k <= cell fit i k) /\
  (exists k, (k < n)%nat /\ cell fit j k < cell fit i k).

Definition non_dominated (n : nat) (fit : list vector_double) (i : nat) : Prop :=
  forall j, (j < length fit)%nat -> j <> i -> ~ dominates n fit j i.

(** Row [j] carries the same fitness vector as row [i]. *)
Definition same_row (n : nat) (fit : list vector_double) (j i : nat) : Prop :=
  forall k, (k < n)%nat -> cell fit j k == cell fit i k.


End MaxMin.

(** Inputs of the examples on the MaxMin kernel. *)

Module MaxMinInputs.

(** Two particles with the same fitness vector. *)
Definition twin_fit : list vector_double := [[1; 1]; [1; 1]].

(** Scenario 7 of the specification: three mutually non-dominated points. *)
Definition front_fit : list vector_double := [[0; 1]; [1; 0]; [1 # 2; 1 # 2]].

End MaxMinInputs.

(** * Doubles with infinity *)

(** Penalties are the one place where the code stores
    [std::numeric_limits<double>::infinity()]. *)
Inductive xdouble : Type :=
| Fin (q : Q)
| Inf.

(** [a < b]. *)
Definition xltb (a b : xdouble) : bool :=
  match a, b with
  | Fin x, Fin y => Qltb x y
  | Fin _, Inf => true
  | Inf, _ => false
  end.

(** [a <= b]. *)
Definition xleb (a b : xdouble) : bool := negb (xltb b a).

(** [a == b]. *)
Definition xeqb (a b : xdouble) : bool :=
  match a, b with
  | Fin x, Fin y => Qeq_bool x y
  | Inf, Inf => true
  | _, _ => false
  end.

Definition is_inf (a : xdouble) : bool :=
  match a with Inf => true | Fin _ => false end.

(** A double used as a subscript is converted to [size_t] by truncation; the
    conversion is undefined for a negative or non-finite value. *)
Definition subscript_of (a : xdouble) : option nat :=
  match a with
  | Fin q =>
      let z := Z.quot (Qnum q) (Zpos (Qden q)) in
      if (0 <=? z)%Z then Some (Z.to_nat z) else None
  | Inf => None
  end.

(** [std::sort(v.begin(), v.end())] on doubles. *)
Fixpoint sort_insert (a : xdouble) (l : list xdouble) : list xdouble :=
  match l with
  | [] => [a]
  | b :: t => if xltb b a then b :: sort_insert a t else a :: l
  end.

Definition std_sort (l : list xdouble) : list xdouble :=
  fold_right sort_insert [] l.

(** * The framework interface *)

Module Pagmo.

(** Modelled from the spec: the problem abstraction of section 6 ([bounds],
    [n_x], [n_ix], [n_obj], [n_ec], [n_ic], [is_stochastic], [fitness]).  The
    class itself is not part of the sources.  [get_nc] is the number of
    constraints the framework declares; the specification keeps it apart
    from the residuals [n_ec], [n_ic] carried in the tail of the fitness
    vector. *)
Record problem : Type := {
  get_nx : nat;
  get_nix : nat;
  get_nobj : nat;
  get_nec : nat;
  get_nic : nat;
  get_nc : nat;
  get_lb : vector_double;
  get_ub : vector_double;
  is_stochastic : bool;
  fitness : vector_double -> vector_double
}.

(** [n_f = n_obj + n_ec + n_ic]. *)
Definition get_nf (p : problem) : nat := (get_nobj p + get_nec p + get_nic p)%nat.

(** Modelled from the spec: the population abstraction of section 6, an
    indexed sequence of decision vectors with their fitness vectors. *)
Record population : Type := {
  get_x : list vector_double;
  get_f : list vector_double
}.

Definition size (pop : population) : nat := length (get_x pop).

(** [pop.set_xf(i, x, f)]: replace at index, no fitness evaluation. *)
Definition set_xf (pop : population) (i : nat) (x f : vector_double) : option population :=
  match Vec.set (get_x pop) i x, Vec.set (get_f pop) i f with
  | Some xs, Some fs => Some {| get_x := xs; get_f := fs |}
  | _, _ => None
  end.

(** A line of the log: [(gen, fevals, ideal_point)]. *)
Definition log_line_type : Type := (nat * nat * vector_double)%type.

(** What a call of [evolve] leaves behind when it returns. *)
Record evolved : Type := {
  ev_pop : population;
  ev_fevals : nat;
  ev_log : list log_line_type
}.

(** The [return pop;] statements of the two [evolve] methods. *)
Inductive exit_point : Type :=
| NothingToDo      (* the generation count is 0 *)
| StopImpstop      (* count_impstop reached m_impstop *)
| StopEvalstop     (* count_evalstop reached m_evalstop *)
| StopFstop        (* an objective value reached m_fstop *)
| LoopDone.        (* after the last generation *)

(** Control flow of a statement inside a function whose [return] carries an
    [R]. *)
Inductive flow (R A : Type) : Type :=
| Go (a : A)                          (* falls through *)
| Return (why : exit_point) (r : R)   (* [return pop;] *)
| Throw                               (* [pagmo_throw(std::invalid_argument, ...)] *)
| Undefined                           (* a subscript outside its vector *)
| Spin.                               (* a loop that does not end *)

Arguments Go {R A} a.
Arguments Return {R A} why r.
Arguments Throw {R A}.
Arguments Undefined {R A}.
Arguments Spin {R A}.

Definition bind {R A B} (m : flow R A) (k : A -> flow R B) : flow R B :=
  match m with
  | Go a => k a
  | Return w r => Return w r
  | Throw => Throw
  | Undefined => Undefined
  | Spin => Spin
  end.

(** A checked vector access as a statement. *)
Definition checked {R A} (o : option A) : flow R A :=
  match o with
  | Some a => Go a
  | None => Undefined
  end.

(** The result of a whole call. *)
Inductive outcome : Type :=
| Returned (why : exit_point) (r : evolved)
| Threw
| UndefinedBehaviour
| Diverged.

(** External numeric and random services: [std::sqrt], [std::pow] (a
    square [pow(x, 2)] is written [x * x] in the embedding), the Mersenne
    twister and the distributions drawn from it. *)
Class Services : Type := {
  sqrt : Q -> Q;
  pow : Q -> Q -> Q;
  engine : Type;
  (** [std::mt19937 g(seed)] and [m_e.seed(seed)]. *)
  seeded : nat -> engine;
  (** [std::normal_distribution<double>(mean, stddev)(g)]. *)
  normal_distribution : Q -> Q -> engine -> Q * engine;
  (** [std::uniform_real_distribution<double>(0, 1)(g)]. *)
  uniform_real : engine -> Q * engine;
  (** [uniform_real_from_range(a, b, g)]. *)
  uniform_real_from_range : Q -> Q -> engine -> Q * engine;
  (** [std::uniform_int_distribution<unsigned>(a, b)(g)]. *)
  uniform_int : N -> N -> engine -> N * engine;
  (** [std::shuffle(v.begin(), v.end(), g)]. *)
  shuffle : list nat -> engine -> list nat * engine
}.

End Pagmo.

Declare Scope flow_scope.
Notation "x <- m ;; k" := (Pagmo.bind m (fun x => k))
  (at level 61, m at next level, right associativity) : flow_scope.
Notation "' p <- m ;; k" := (Pagmo.bind m (fun p => k))
  (at level 61, p pattern, m at next level, right associativity) : flow_scope.

(** Sequencing of checked accesses. *)
Definition obind {A B} (m : option A) (k : A -> option B) : option B :=
  match m with
  | Some a => k a
  | None => None
  end.

Declare Scope checked_scope.
Notation "x <~ m ;; k" := (obind m (fun x => k))
  (at level 61, m at next level, right associativity) : checked_scope.
Notation "' p <~ m ;; k" := (obind m (fun p => k))
  (at level 61, p pattern, m at next level, right associativity) : checked_scope.

(** * Machine integers *)

(** [++gen] on an [unsigned] counter: the successor modulo [2^32]. *)
Definition unsigned_succ (gen : N) : N := ((gen + 1) mod 2 ^ 32)%N.

(** The largest [int]. *)
Definition int_max : Z := 2147483647.

(** The conversion of a double to [int]: the fractional part is dropped, and
    the conversion is undefined when the result is not an [int]. *)
Definition int_of_double (q : Q) : option Z :=
  let z := Z.quot (Qnum q) (Zpos (Qden q)) in
  if ((- int_max - 1 <=? z) && (z <=? int_max))%Z then Some z else None.

(** * The extended ant colony optimiser, [gi_aco_mo]

    [giACOmo.hpp] is not accepted by a C++ compiler as it stands.  The
    embedding reads its ill-formed phrases in the one way that keeps the
    surrounding statement meaningful:
    - a loop or branch condition [c && v=0] is [c && v==0] (flag test);
      likewise [j=m_ker-1] inside a condition is [j==m_ker-1];
    - [T==0 & T_2==0] is the conjunction of the two tests;
    - [sort_list(jj)] and [omega(k)] are [sort_list[jj]] and [omega[k]];
    - [SA[i]={p, X[..], fit[..]}] builds the row [p] followed by the
      entries of the two vectors;
    - [std::min(std::abs(v),0)] is [min(|v|, 0)] on doubles. *)

Module GiAcoMo.
Import Pagmo.

Section Algorithm.
Context {services : Services}.
Local Open Scope checked_scope.
Local Open Scope flow_scope.

(** The data members of the class.  [m_gen] is an [unsigned]; [m_impstop],
    [m_evalstop] and [m_paretomax] are [int]s.  [m_ker], an [int] too, only
    serves as a size and as a bound compared with sizes, and is a natural
    number here. *)
Record gi_aco_mo : Type := {
  m_gen : nat;
  m_acc : Q;
  m_fstop : Q;
  m_impstop : Z;
  m_evalstop : Z;
  m_focus : Q;
  m_ker : nat;
  m_oracle : Q;
  m_paretomax : Z;
  m_epsilon : Q;
  m_e : engine;
  m_seed : nat;
  m_verbosity : nat;
  m_log : list log_line_type
}.

(** The single-objective constructor; [None] stands for the
    [std::invalid_argument] it throws.  It leaves [m_paretomax] and
    [m_epsilon] without a value; nothing reads them, and they are 0 here. *)
Definition construct (gen : nat) (acc fstop : Q) (impstop evalstop : Z)
  (focus : Q) (ker : nat) (oracle : Q) (seed : nat) : option gi_aco_mo :=
  if Qle_bool 1 acc || Qltb acc 0 then None
  else if Qle_bool 1 focus || Qltb focus 0 then None
  else if Qltb oracle 0 then None
  else Some {| m_gen := gen; m_acc := acc; m_fstop := fstop;
               m_impstop := impstop; m_evalstop := evalstop;
               m_focus := focus; m_ker := ker; m_oracle := oracle;
               m_paretomax := 0; m_epsilon := 0;
               m_e := seeded seed; m_seed := seed;
               m_verbosity := 0; m_log := [] |}.

(** The multi-objective constructor. *)
Definition construct_mo (gen : nat) (acc fstop : Q) (impstop evalstop : Z)
  (focus : Q) (ker : nat) (oracle : Q) (paretomax : Z) (epsilon : Q)
  (seed : nat) : option gi_aco_mo :=
  if Qle_bool 1 acc || Qltb acc 0 then None
  else if Qle_bool 1 focus || Qltb focus 0 then None
  else if Qltb oracle 0 then None
  else if Qle_bool 1 epsilon || Qltb epsilon 0 then None
  else Some {| m_gen := gen; m_acc := acc; m_fstop := fstop;
               m_impstop := impstop; m_evalstop := evalstop;
               m_focus := focus; m_ker := ker; m_oracle := oracle;
               m_paretomax := paretomax; m_epsilon := epsilon;
               m_e := seeded seed; m_seed := seed;
               m_verbosity := 0; m_log := [] |}.

Definition with_engine (a : gi_aco_mo) (e : engine) (seed : nat) : gi_aco_mo :=
  {| m_gen := m_gen a; m_acc := m_acc a; m_fstop := m_fstop a;
     m_impstop := m_impstop a; m_evalstop := m_evalstop a;
     m_focus := m_focus a; m_ker := m_ker a; m_oracle := m_oracle a;
     m_paretomax := m_paretomax a; m_epsilon := m_epsilon a;
     m_e := e; m_seed := seed;
     m_verbosity := m_verbosity a; m_log := m_log a |}.

(** [set_seed]. *)
Definition set_seed (a : gi_aco_mo) (seed : nat) : gi_aco_mo :=
  with_engine a (seeded seed) seed.

(** [set_verbosity]. *)
Definition set_verbosity (a : gi_aco_mo) (level : nat) : gi_aco_mo :=
  {| m_gen := m_gen a; m_acc := m_acc a; m_fstop := m_fstop a;
     m_impstop := m_impstop a; m_evalstop := m_evalstop a;
     m_focus := m_focus a; m_ker := m_ker a; m_oracle := m_oracle a;
     m_paretomax := m_paretomax a; m_epsilon := m_epsilon a;
     m_e := m_e a; m_seed := m_seed a;
     m_verbosity := level; m_log := m_log a |}.

(** [m_log.clear()]. *)
Definition clear_log (a : gi_aco_mo) : gi_aco_mo :=
  {| m_gen := m_gen a; m_acc := m_acc a; m_fstop := m_fstop a;
     m_impstop := m_impstop a; m_evalstop := m_evalstop a;
     m_focus := m_focus a; m_ker := m_ker a; m_oracle := m_oracle a;
     m_paretomax := m_paretomax a; m_epsilon := m_epsilon a;
     m_e := m_e a; m_seed := m_seed a;
     m_verbosity := m_verbosity a; m_log := [] |}.

(** A row of the solution archive: column 0 holds the penalty, columns
    [1 ..] the decision vector followed by the fitness vector. *)
Record sa_row : Type := {
  row_penalty : xdouble;
  row_cells : vector_double
}.

(** [SA[r][c]] for a column [c >= 1]. *)
Definition row_get (r : sa_row) (c : nat) : option Q :=
  match c with
  | O => None
  | S k => Vec.get (row_cells r) k
  end.

(** [SA[r][c] = v] for a column [c >= 1]. *)
Definition row_set (r : sa_row) (c : nat) (v : Q) : option sa_row :=
  match c with
  | O => None
  | S k =>
      cells <~ Vec.set (row_cells r) k v ;;
      Some {| row_penalty := row_penalty r; row_cells := cells |}
  end.

(** ** Feasibility screen (lines 297-311) *)

(** [for (i_nec = 1; i_nec <= NEC && T == 0; ++i_nec)
       if (std::abs(fit[i][i_nec]) > m_acc) T = 1;] *)
Fixpoint equality_screen (acc : Q) (fi : vector_double) (idx : list nat)
  (T : bool) : option bool :=
  match idx with
  | [] => Some T
  | i_nec :: rest =>
      if T then Some T
      else
        v <~ Vec.get fi i_nec ;;
        equality_screen acc fi rest (Qltb acc (Qabs v))
  end.

(** [for (i_nic = 1; i_nic <= NIC && T_2 == 0; ++i_nic)
       if (fit[i][i_nic] >= -m_acc) T_2 = 1;] *)
Fixpoint inequality_screen (acc : Q) (fi : vector_double) (idx : list nat)
  (T_2 : bool) : option bool :=
  match idx with
  | [] => Some T_2
  | i_nic :: rest =>
      if T_2 then Some T_2
      else
        v <~ Vec.get fi i_nic ;;
        inequality_screen acc fi rest (Qle_bool (- acc) v)
  end.

(** ** [penalty_computation] *)

(** [std::min(a, b)]. *)
Definition std_min (a b : Q) : Q := if Qltb b a then b else a.

(** [std::max(a, b)]. *)
Definition std_max (a b : Q) : Q := if Qltb a b then b else a.

(** The local constant [L] that selects the norm of the residual. *)
Definition norm_choice : nat := 2.

(** The loop over the equality constraints; the state is
    [(ec_sum_1, ec_sum_2, max_ec)]. *)
Fixpoint ec_loop (f : vector_double) (nfunc : nat) (idx : list nat)
  (st : Q * Q * Q) : option (Q * Q * Q) :=
  match idx with
  | [] => Some st
  | i :: rest =>
      let '(ec_sum_1, ec_sum_2, max_ec) := st in
      v <~ Vec.get f i ;;
      ec_loop f nfunc rest
        (ec_sum_1 + Qabs v,
         ec_sum_2 + Qabs v * Qabs v,
         if (nfunc <? i)%nat && Qltb max_ec v then v else max_ec)
  end.

(** The loop over the inequality constraints; the state is
    [(ic_sum_1, ic_sum_2, min_ic)]. *)
Fixpoint ic_loop (f : vector_double) (first : nat) (idx : list nat)
  (st : Q * Q * Q) : option (Q * Q * Q) :=
  match idx with
  | [] => Some st
  | j :: rest =>
      let '(ic_sum_1, ic_sum_2, min_ic) := st in
      v <~ Vec.get f j ;;
      ic_loop f first rest
        (ic_sum_1 + std_min (Qabs v) 0,
         ic_sum_2 + std_min (Qabs v) 0 * std_min (Qabs v) 0,
         if (first <? j)%nat && Qltb v min_ic then v else min_ic)
  end.

(** The oracle penalty of one fitness vector.  [max_ec] and [min_ic] start
    from [f[nfunc]] and [f[nfunc+nec]] (lines 590-591); the second subscript
    lies one past the end of a fitness vector that carries no inequality
    residual. *)
Definition penalty_computation (a : gi_aco_mo) (prob : problem)
  (f : vector_double) : option Q :=
  let nec := get_nec prob in
  let nfunc := get_nobj prob in
  max_ec <~ Vec.get f nfunc ;;
  min_ic <~ Vec.get f (nfunc + nec) ;;
  '(ec_sum_1, ec_sum_2, max_ec) <~
    ec_loop f nfunc (seq nfunc nec) (0, 0, max_ec) ;;
  '(ic_sum_1, ic_sum_2, min_ic) <~
    ic_loop f (nfunc + nec) (seq (nfunc + nec) (get_nf prob - (nfunc + nec)))
      (0, 0, min_ic) ;;
  let res :=
    if (norm_choice =? 1)%nat then ec_sum_1 - ic_sum_1
    else if (norm_choice =? 2)%nat then sqrt (ec_sum_2 + ic_sum_2)
    else std_max max_ec min_ic in
  fitness <~ Vec.get f 0 ;;
  let oracle := m_oracle a in
  let diff := Qabs (fitness - oracle) in
  let alpha :=
    if Qle_bool fitness oracle then 0
    else if Qltb oracle fitness && Qltb res (diff / 3) then
      (diff * (6 * sqrt 3 - 2) / (6 * sqrt 3) - res) / (diff - res)
    else if Qltb oracle fitness && Qle_bool (diff / 3) res && Qle_bool res diff then
      1 - 1 / (2 * sqrt (diff / res))
    else 1 / 2 * sqrt (diff / res) in
  Some (if Qltb oracle fitness && Qltb res (diff / 3)
        then alpha * diff + (1 - alpha) * res
        else - diff).

(** ** The penalties of one generation (lines 280-324) *)

(** The loop over the individuals.  [penalties] already holds the [NP]
    entries of its declaration [vector_double penalties(NP)]; every
    individual appends one more. *)
Fixpoint screen_loop {R} (a : gi_aco_mo) (prob : problem) (ret : R)
  (fit : list vector_double) (idx : list nat)
  (penalties : list xdouble) (feasible_set : nat)
  : flow R (list xdouble * nat) :=
  match idx with
  | [] => Go (penalties, feasible_set)
  | i :: rest =>
      fi <- checked (Vec.get fit i) ;;
      stop <- (if Qeq_bool (m_fstop a) 0 then Go false
               else f0 <- checked (Vec.get fi 0) ;;
                    Go (Qle_bool f0 (m_fstop a))) ;;
      if stop : bool then Return StopFstop ret
      else
        T <- checked (equality_screen (m_acc a) fi (seq 1 (get_nec prob)) false) ;;
        T_2 <- checked (inequality_screen (m_acc a) fi (seq 1 (get_nic prob)) false) ;;
        if negb T && negb T_2 then
          p <- checked (penalty_computation a prob fi) ;;
          screen_loop a prob ret fit rest
            (Vec.push_back penalties (Fin p)) (S feasible_set)
        else
          screen_loop a prob ret fit rest
            (Vec.push_back penalties Inf) feasible_set
  end.

(** ** The positions of the sorted penalties (lines 332-369) *)

(** The scan of [sort_list] for position [i]. *)
Definition listed (i : nat) (sort_list : list nat) : bool :=
  existsb (Nat.eqb i) sort_list.

(** The inner loop over [i], for one [j]; it ends at the first push. *)
Fixpoint find_position (j : nat) (sj : xdouble) (penalties : list xdouble)
  (i : nat) (sort_list : list nat) : list nat :=
  match penalties with
  | [] => sort_list
  | p :: rest =>
      if xeqb sj p && negb (is_inf sj) then
        if (j =? 0)%nat then Vec.push_back sort_list i
        else if listed i sort_list
             then find_position j sj rest (S i) sort_list
             else Vec.push_back sort_list i
      else find_position j sj rest (S i) sort_list
  end.

(** The outer loop over [j]. *)
Fixpoint build_sort_list (sorted_penalties : list xdouble) (j : nat)
  (penalties : list xdouble) (sort_list : list nat) : list nat :=
  match sorted_penalties with
  | [] => sort_list
  | sj :: rest =>
      build_sort_list rest (S j) penalties
        (find_position j sj penalties 0 sort_list)
  end.

(** ** First filling of the archive (lines 385-388) *)

(** [SA[i]={penalties[sorted_penalties[i]], X[sort_list[i]], fit[sort_list[i]]}]
    for [i = 0 .. m_ker-1]. *)
Fixpoint init_SA (penalties sorted_penalties : list xdouble)
  (sort_list : list nat) (X fit : list vector_double)
  (idx : list nat) (SA : list sa_row) : option (list sa_row) :=
  match idx with
  | [] => Some SA
  | i :: rest =>
      sp <~ Vec.get sorted_penalties i ;;
      at_ <~ subscript_of sp ;;
      pen <~ Vec.get penalties at_ ;;
      si <~ Vec.get sort_list i ;;
      x <~ Vec.get X si ;;
      f <~ Vec.get fit si ;;
      SA' <~ Vec.set SA i {| row_penalty := pen; row_cells := x ++ f |} ;;
      init_SA penalties sorted_penalties sort_list X fit rest SA'
  end.

(** ** [update_SA] *)

(** The re-ordering loop: [variables[i] = pop.get_x()[sorted_list[i]]] and
    the same for [objectives]. *)
Fixpoint reorder (pop : population) (sorted_list : list nat) (i : nat)
  (variables objectives : list vector_double)
  : option (list vector_double * list vector_double) :=
  match sorted_list with
  | [] => Some (variables, objectives)
  | s :: rest =>
      x <~ Vec.get (get_x pop) s ;;
      variables' <~ Vec.set variables i x ;;
      f <~ Vec.get (get_f pop) s ;;
      objectives' <~ Vec.set objectives i f ;;
      reorder pop rest (S i) variables' objectives'
  end.

(** [row[first + t] = src[t]] for [t = 0 .. count-1]. *)
Fixpoint write_cells (row : sa_row) (first : nat) (src : vector_double)
  (ts : list nat) : option sa_row :=
  match ts with
  | [] => Some row
  | t :: rest =>
      v <~ Vec.get src t ;;
      row' <~ row_set row (first + t) v ;;
      write_cells row' first src rest
  end.

(** The counters and flags [update_SA] works on. *)
Record counters : Type := {
  N_impstop : Z;
  N_evalstop : Z;
  N_impstop_count : bool;
  N_evalstop_count : bool
}.

(** The inner loop over the candidates [i] for the archive slot [j]; it runs
    while [count == 0].  The result carries [count_2]. *)
Fixpoint scan_candidates (nx : nat) (variables objectives : list vector_double)
  (sorted_vector : list xdouble) (j : nat) (idx : list nat)
  (SA : list sa_row) (count_2 : bool) (c : counters)
  : option (list sa_row * bool * counters) :=
  match idx with
  | [] => Some (SA, count_2, c)
  | i :: rest =>
      sv <~ Vec.get sorted_vector i ;;
      row <~ Vec.get SA j ;;
      if xleb sv (row_penalty row) then
        v0 <~ Vec.get variables 0 ;;
        vi <~ Vec.get variables i ;;
        row1 <~ write_cells {| row_penalty := sv; row_cells := row_cells row |}
                 1 vi (seq 0 (length v0)) ;;
        o0 <~ Vec.get objectives 0 ;;
        oi <~ Vec.get objectives i ;;
        row2 <~ write_cells row1 (1 + nx) oi (seq 0 (length o0)) ;;
        SA' <~ Vec.set SA j row2 ;;
        let c' :=
          if (j =? 0)%nat && negb (length o0 =? 0)%nat
          then {| N_impstop := N_impstop c; N_evalstop := 0;
                  N_impstop_count := N_impstop_count c;
                  N_evalstop_count := true |}
          else c in
        scan_candidates nx variables objectives sorted_vector j rest SA' true c'
      else Some (SA, count_2, c)
  end.

(** The outer loop over the archive slots, from [m_ker-1] down to 0, while
    [count_2 == 1]. *)
Fixpoint walk_archive (ker nx : nat) (variables objectives : list vector_double)
  (sorted_vector : list xdouble) (candidates : list nat) (js : list nat)
  (SA : list sa_row) (count_2 : bool) (c : counters)
  : option (list sa_row * counters) :=
  match js with
  | [] => Some (SA, c)
  | j :: rest =>
      if count_2 then
        '(SA', count_2', c') <~
          scan_candidates nx variables objectives sorted_vector j candidates
            SA false c ;;
        let c'' :=
          if negb count_2' && (S j =? ker)%nat
          then {| N_impstop := 0; N_evalstop := N_evalstop c';
                  N_impstop_count := true;
                  N_evalstop_count := N_evalstop_count c' |}
          else c' in
        walk_archive ker nx variables objectives sorted_vector candidates rest
          SA' count_2' c''
      else Some (SA, c)
  end.

Definition update_SA (a : gi_aco_mo) (prob : problem) (pop : population)
  (sorted_vector : list xdouble) (sorted_list : list nat)
  (Solution_Archive : list sa_row) (n_impstop n_evalstop : Z)
  : option (list sa_row * Z * Z) :=
  '(variables, objectives) <~
    reorder pop sorted_list 0 (get_x pop) (get_f pop) ;;
  '(SA, c) <~
    walk_archive (m_ker a) (get_nx prob) variables objectives sorted_vector
      (seq 0 (length sorted_list)) (rev (seq 0 (m_ker a)))
      Solution_Archive true
      {| N_impstop := n_impstop; N_evalstop := n_evalstop;
         N_impstop_count := false; N_evalstop_count := false |} ;;
  let ni := if N_impstop_count c then N_impstop c else (N_impstop c + 1)%Z in
  let ne := if N_evalstop_count c then N_evalstop c else (N_evalstop c + 1)%Z in
  Some (SA, ni, ne).

(** ** [pheromone_computation] *)

(** [vector_double J(m_ker); std::iota(std::begin(J), std::end(J), 1);]:
    the doubles [1, 2, ..., m_ker]. *)
Definition iota (ker : nat) : vector_double :=
  map (fun j => inject_Z (Z.of_nat j)) (seq 1 ker).

(** [std::accumulate(first, last, 0)]: the initial value [0] is an [int], so
    the accumulator is an [int], and every step converts the double
    [acc + *it] back to [int]. *)
Fixpoint accumulate (J : vector_double) (acc : Z) : option Z :=
  match J with
  | [] => Some acc
  | x :: rest =>
      acc' <~ int_of_double (inject_Z acc + x) ;;
      accumulate rest acc'
  end.

(** [double sum = std::accumulate(J.begin(), J.end(), 0);] *)
Definition weight_sum (ker : nat) : option Q :=
  s <~ accumulate (iota ker) 0 ;;
  Some (inject_Z s).

(** The loop that fills [OMEGA]:
    [for (k = 0; k < m_ker; ++k) OMEGA.push_back((m_ker-k+1.0)/sum);] *)
Definition omega_weights (ker : nat) : option vector_double :=
  sum <~ weight_sum ker ;;
  Some (map (fun k => (inject_Z (Z.of_nat ker) - inject_Z (Z.of_nat k) + 1) / sum)
          (seq 0 ker)).

(** [|SA[r1][h] - SA[r2][h]|]. *)
Definition gap (SA : list sa_row) (r1 r2 h : nat) : option Q :=
  a1 <~ Vec.get SA r1 ;;
  x1 <~ row_get a1 h ;;
  a2 <~ Vec.get SA r2 ;;
  x2 <~ row_get a2 h ;;
  Some (Qabs (x1 - x2)).

(** The innermost loop over [k], updating [(D_min, D_max)]. *)
Fixpoint spread_inner (SA : list sa_row) (h count : nat) (ks : list nat)
  (d : Q * Q) : option (Q * Q) :=
  match ks with
  | [] => Some d
  | k :: rest =>
      let '(D_min, D_max) := d in
      g <~ gap SA count k h ;;
      spread_inner SA h count rest
        (if Qltb g D_min then g else D_min,
         if Qltb D_max g then g else D_max)
  end.

(** The loop over [count = 1 .. m_ker-2]. *)
Fixpoint spread_outer (ker : nat) (SA : list sa_row) (h : nat)
  (counts : list nat) (d : Q * Q) : option (Q * Q) :=
  match counts with
  | [] => Some d
  | count :: rest =>
      d' <~ spread_inner SA h count (seq (count + 1) (ker - (count + 1))) d ;;
      spread_outer ker SA h rest d'
  end.

(** The standard deviation of variable [h] (columns are numbered from 1). *)
Definition sigma_of (a : gi_aco_mo) (prob : problem) (SA : list sa_row)
  (h : nat) : option Q :=
  d0 <~ gap SA 0 1 h ;;
  '(D_min, D_max) <~
    spread_outer (m_ker a) SA h (seq 1 (m_ker a - 2)) (d0, d0) ;;
  let gen := inject_Z (Z.of_nat (m_gen a)) in
  if Qeq_bool (m_focus a) 0 then Some ((D_max - D_min) / gen)
  else
    u <~ Vec.get (get_ub prob) (h - 1) ;;
    l <~ Vec.get (get_lb prob) (h - 1) ;;
    if Qltb ((u - l) / m_focus a) ((D_max - D_min) / gen)
    then Some ((u - l) / m_focus a)
    else Some ((D_max - D_min) / gen).

Fixpoint sigma_loop (a : gi_aco_mo) (prob : problem) (SA : list sa_row)
  (hs : list nat) (SIGMA : vector_double) : option vector_double :=
  match hs with
  | [] => Some SIGMA
  | h :: rest =>
      s <~ sigma_of a prob SA h ;;
      sigma_loop a prob SA rest (Vec.push_back SIGMA s)
  end.

(** The two pheromone vectors [(OMEGA, SIGMA)], both empty on entry. *)
Definition pheromone_computation (a : gi_aco_mo) (prob : problem)
  (SA : list sa_row) : option (vector_double * vector_double) :=
  OMEGA <~ omega_weights (m_ker a) ;;
  SIGMA <~ sigma_loop a prob SA (seq 1 (get_nx prob)) [] ;;
  Some (OMEGA, SIGMA).

(** ** [generate_new_ants] *)

(** The loop over the kernels [k] for one variable [h]. *)
Fixpoint kernel_loop (omega sigma : vector_double) (SA : list sa_row) (h : nat)
  (ks : list nat) (g_h : Q) (generator : engine) : option (Q * engine) :=
  match ks with
  | [] => Some (g_h, generator)
  | k :: rest =>
      row <~ Vec.get SA k ;;
      mean <~ row_get row (1 + h) ;;
      sd <~ Vec.get sigma h ;;
      w <~ Vec.get omega k ;;
      let '(draw, generator') := normal_distribution mean sd generator in
      kernel_loop omega sigma SA h rest (g_h + w * draw) generator'
  end.

(** The loop over the variables [h] of one ant. *)
Fixpoint variable_loop (omega sigma : vector_double) (SA : list sa_row)
  (hs : list nat) (X_new_k : vector_double) (generator : engine)
  : option (vector_double * engine) :=
  match hs with
  | [] => Some (X_new_k, generator)
  | h :: rest =>
      '(g_h, generator') <~
        kernel_loop omega sigma SA h (seq 0 (length SA)) 0 generator ;;
      variable_loop omega sigma SA rest (Vec.push_back X_new_k g_h) generator'
  end.

(** The loop over the ants. *)
Fixpoint ant_loop (omega sigma : vector_double) (SA : list sa_row) (n_con : nat)
  (js : list nat) (X_new : list vector_double) (generator : engine)
  : option (list vector_double) :=
  match js with
  | [] => Some X_new
  | _ :: rest =>
      '(X_new_k, generator') <~
        variable_loop omega sigma SA (seq 0 n_con) [] generator ;;
      ant_loop omega sigma SA n_con rest (Vec.push_back X_new X_new_k) generator'
  end.

(** The generator is a local [std::mt19937] seeded with [m_seed] on every
    call. *)
Definition generate_new_ants (a : gi_aco_mo) (omega sigma : vector_double)
  (SA : list sa_row) (n_con pop_size : nat) : option (list vector_double) :=
  ant_loop omega sigma SA n_con (seq 0 pop_size) [] (seeded (m_seed a)).

(** ** [evolve] *)

(** The loop that evaluates the new ants and stores them (lines 423-432). *)
Fixpoint store_ants (prob : problem) (new_ants : list vector_double)
  (idx : list nat) (pop : population) (fevals : nat)
  : option (population * nat) :=
  match idx with
  | [] => Some (pop, fevals)
  | i :: rest =>
      ant <~ Vec.get new_ants i ;;
      let f := fitness prob ant in
      pop' <~ set_xf pop i ant f ;;
      store_ants prob new_ants rest pop' (S fevals)
  end.

(** What the generation loop carries from one iteration to the next. *)
Record colony : Type := {
  c_pop : population;
  c_SA : list sa_row;
  c_fevals : nat
}.

(** One iteration of the main loop.  The counters [count_impstop] and
    [count_evalstop] are declared in the body of the loop. *)
Definition generation (a : gi_aco_mo) (prob : problem) (NP gen : nat)
  (c : colony) : flow colony colony :=
  let pop := c_pop c in
  let count_impstop := 0%Z in
  let count_evalstop := 0%Z in
  if (1 <? get_nobj prob)%nat then Go c
  else
    let X := get_x pop in
    let fit := get_f pop in
    if negb (m_impstop a =? 0)%Z && (m_impstop a <=? count_impstop)%Z
    then Return StopImpstop c
    else if negb (m_evalstop a =? 0)%Z && (m_evalstop a <=? count_evalstop)%Z
    then Return StopEvalstop c
    else
      '(penalties, feasible_set) <-
        screen_loop a prob c fit (seq 0 NP) (repeat (Fin 0) NP) 0%nat ;;
      if (1 <=? feasible_set)%nat then
        let sort_list := repeat 0%nat (length penalties) in
        let sorted_penalties := std_sort penalties in
        let sort_list := build_sort_list sorted_penalties 0 penalties sort_list in
        '(SA, count_impstop, count_evalstop) <-
          (if (gen =? 1)%nat then
             if (feasible_set <? m_ker a)%nat then Throw
             else
               SA <- checked (init_SA penalties sorted_penalties sort_list X fit
                                (seq 0 (m_ker a)) (c_SA c)) ;;
               Go (SA,
                   if negb (m_impstop a =? 0)%Z then (count_impstop + 1)%Z
                   else count_impstop,
                   count_evalstop)
           else
             checked (update_SA a prob pop sorted_penalties sort_list (c_SA c)
                        count_impstop count_evalstop)) ;;
        '(omega, sigma) <- checked (pheromone_computation a prob SA) ;;
        new_ants <- checked (generate_new_ants a omega sigma SA (get_nx prob) NP) ;;
        '(pop', fevals') <- checked (store_ants prob new_ants (seq 0 NP) pop (c_fevals c)) ;;
        Go {| c_pop := pop'; c_SA := SA; c_fevals := fevals' |}
      else Throw.

(** [for (decltype(m_gen) gen = 1u; gen <= m_gen; gen++)], entered with the
    counter at [gen].  The counter is an [unsigned] and wraps around at
    [2^32]; [fuel] bounds the number of iterations. *)
Fixpoint main_loop (fuel : nat) (a : gi_aco_mo) (prob : problem) (NP : nat)
  (gen : N) (c : colony) : flow colony colony :=
  if (gen <=? N.of_nat (m_gen a))%N then
    match fuel with
    | O => Spin
    | S fuel' =>
        c' <- generation a prob NP (N.to_nat gen) c ;;
        main_loop fuel' a prob NP (unsigned_succ gen) c'
    end
  else Go c.

(** [gi_aco_mo::evolve].  [fevals] is the evaluation counter of the problem
    on entry; [fuel] bounds the iterations of the generation loop.  The
    algorithm is returned with its log as the call leaves it. *)
Definition evolve (fuel : nat) (a : gi_aco_mo) (prob : problem)
  (pop : population) (fevals : nat) : gi_aco_mo * outcome :=
  let dim := get_nx prob in
  let NP := size pop in
  let NIC := get_nic prob in
  let NEC := get_nec prob in
  let NOBJ := get_nobj prob in
  if (NP =? 0)%nat then (a, Threw)
  else if is_stochastic prob then (a, Threw)
  else if negb (get_nc prob =? 0)%nat then (a, Threw)
  else if (m_gen a =? 0)%nat then
    (a, Returned NothingToDo
          {| ev_pop := pop; ev_fevals := fevals; ev_log := m_log a |})
  else if (NP <? m_ker a)%nat then (a, Threw)
  else
    let a' := clear_log a in
    let SA :=
      repeat {| row_penalty := Fin 1;
                row_cells := repeat 1 (dim + NOBJ + NEC + NIC) |} (m_ker a) in
    let finish why c :=
      Returned why {| ev_pop := c_pop c; ev_fevals := c_fevals c;
                      ev_log := m_log a' |} in
    (a',
     match main_loop fuel a' prob NP 1
             {| c_pop := pop; c_SA := SA; c_fevals := fevals |} with
     | Go c => finish LoopDone c
     | Return why c => finish why c
     | Throw => Threw
     | Undefined => UndefinedBehaviour
     | Spin => Diverged
     end).

(** ** The algorithm objects of a program *)

(** What the user sets: the arguments of the constructors other than the
    seed, and the verbosity. *)
Definition configuration (a : gi_aco_mo) :=
  (m_gen a, m_acc a, m_fstop a, m_impstop a, m_evalstop a, m_focus a,
   m_ker a, m_oracle a, m_paretomax a, m_epsilon a, m_verbosity a).

(** The engine is in the state [seed] puts it in: the object comes out of a
    constructor or of [set_seed] with that seed. *)
Definition seeded_with (seed : nat) (a : gi_aco_mo) : Prop :=
  m_e a = seeded seed /\ m_seed a = seed.

(** A call that comes back to its caller, by [return] or by an exception. *)
Definition comes_back (o : outcome) : Prop :=
  match o with
  | Returned _ _ | Threw => True
  | UndefinedBehaviour | Diverged => False
  end.

(** The objects a program can hold: built by a constructor, then passed
    through [set_seed], [set_verbosity] and the calls of [evolve] that come
    back. *)
Inductive reachable : gi_aco_mo -> Prop :=
| reach_construct gen acc fstop impstop evalstop focus ker oracle seed a :
    construct gen acc fstop impstop evalstop focus ker oracle seed = Some a ->
    reachable a
| reach_construct_mo gen acc fstop impstop evalstop focus ker oracle
    paretomax epsilon seed a :
    construct_mo gen acc fstop impstop evalstop focus ker oracle
      paretomax epsilon seed = Some a ->
    reachable a
| reach_set_seed a seed : reachable a -> reachable (set_seed a seed)
| reach_set_verbosity a level : reachable a -> reachable (set_verbosity a level)
| reach_evolve fuel a prob pop fevals :
    reachable a ->
    comes_back (snd (evolve fuel a prob pop fevals)) ->
    reachable (fst (evolve fuel a prob pop fevals)).

End Algorithm.
End GiAcoMo.

(** * The non-dominated sorting particle swarm optimiser, [nspso] *)

Module Nspso.
Import Pagmo.

(** Modelled from the spec: the utilities of section 6 that [nspso.cpp]
    calls and does not define.  [fast_non_dominated_sorting] stands for the
    first component of its result, the list of fronts, the only one the
    algorithm uses.  [sort_indices] is [std::sort] on an index vector with
    the given comparator. *)
Class Utilities : Type := {
  fast_non_dominated_sorting : list vector_double -> list (list nat);
  sort_population_mo : list vector_double -> list nat;
  ideal : list vector_double -> vector_double;
  nadir : list vector_double -> vector_double;
  sort_indices : (nat -> nat -> bool) -> list nat -> list nat
}.

Section Algorithm.
Context {services : Services} {utilities : Utilities}.
Local Open Scope checked_scope.
Local Open Scope flow_scope.

(** The data members of the class; [m_gen] is an [unsigned]. *)
Record nspso : Type := {
  m_gen : nat;
  m_min_w : Q;
  m_max_w : Q;
  m_c1 : Q;
  m_c2 : Q;
  m_chi : Q;
  m_v_coeff : Q;
  m_leader_selection_range : nat;
  m_diversity_mechanism : String.string;
  m_velocity : list vector_double;
  m_e : engine;
  m_seed : nat;
  m_verbosity : nat;
  m_log : list log_line_type
}.

(** The constructor; [None] stands for the [std::invalid_argument] it
    throws. *)
Definition construct (gen : nat) (min_w max_w c1 c2 chi v_coeff : Q)
  (leader_selection_range : nat) (diversity_mechanism : String.string) (seed : nat)
  : option nspso :=
  if Qle_bool min_w 0 || Qle_bool max_w 0 || Qle_bool c1 0 || Qle_bool c2 0
     || Qle_bool chi 0 then None
  else if Qltb max_w min_w then None
  else if Qle_bool v_coeff 0 || Qltb 1 v_coeff then None
  else if (100 <? leader_selection_range)%nat then None
  else if negb (String.eqb diversity_mechanism "crowding distance"%string)
          && negb (String.eqb diversity_mechanism "niche count"%string)
          && negb (String.eqb diversity_mechanism "max min"%string) then None
  else Some {| m_gen := gen; m_min_w := min_w; m_max_w := max_w;
               m_c1 := c1; m_c2 := c2; m_chi := chi; m_v_coeff := v_coeff;
               m_leader_selection_range := leader_selection_range;
               m_diversity_mechanism := diversity_mechanism;
               m_velocity := []; m_e := seeded seed; m_seed := seed;
               m_verbosity := 0; m_log := [] |}.

(** The mutable members: velocity cache, engine, seed, verbosity, log. *)
Definition with_state (a : nspso) (velocity : list vector_double) (e : engine)
  (seed verbosity : nat) (log : list log_line_type) : nspso :=
  {| m_gen := m_gen a; m_min_w := m_min_w a; m_max_w := m_max_w a;
     m_c1 := m_c1 a; m_c2 := m_c2 a; m_chi := m_chi a;
     m_v_coeff := m_v_coeff a;
     m_leader_selection_range := m_leader_selection_range a;
     m_diversity_mechanism := m_diversity_mechanism a;
     m_velocity := velocity; m_e := e; m_seed := seed;
     m_verbosity := verbosity; m_log := log |}.

(** [nspso::set_seed]. *)
Definition set_seed (a : nspso) (seed : nat) : nspso :=
  with_state a (m_velocity a) (seeded seed) seed (m_verbosity a) (m_log a).

(** [set_verbosity]. *)
Definition set_verbosity (a : nspso) (level : nat) : nspso :=
  with_state a (m_velocity a) (m_e a) (m_seed a) level (m_log a).

(** [struct nspso_individual]. *)
Record nspso_individual : Type := {
  cur_x : vector_double;
  best_x : vector_double;
  cur_v : vector_double;
  cur_f : vector_double;
  best_f : vector_double
}.

(** [nspso_individual()]. *)
Definition blank : nspso_individual :=
  {| cur_x := []; best_x := []; cur_v := []; cur_f := []; best_f := [] |}.

(** ** Velocity band and velocity cache (lines 138-160) *)

(** [for (i = 0; i < n_x; ++i) { vwidth = (ub[i]-lb[i])*m_v_coeff;
       minv[i] = -1.*vwidth; maxv[i] = vwidth; }] *)
Fixpoint band_loop (v_coeff : Q) (lb ub : vector_double) (idx : list nat)
  (minv maxv : vector_double) : option (vector_double * vector_double) :=
  match idx with
  | [] => Some (minv, maxv)
  | i :: rest =>
      u <~ Vec.get ub i ;;
      l <~ Vec.get lb i ;;
      let vwidth := (u - l) * v_coeff in
      minv' <~ Vec.set minv i (- (1) * vwidth) ;;
      maxv' <~ Vec.set maxv i vwidth ;;
      band_loop v_coeff lb ub rest minv' maxv'
  end.

Definition velocity_band (a : nspso) (prob : problem)
  : option (vector_double * vector_double) :=
  let n_x := get_nx prob in
  band_loop (m_v_coeff a) (get_lb prob) (get_ub prob) (seq 0 n_x)
    (repeat 0 n_x) (repeat 0 n_x).

(** The inner loop over [j]:
    [m_velocity[i][j] = uniform_real_from_range(minv[j], maxv[j], m_e)]. *)
Fixpoint sample_row (minv maxv : vector_double) (js : list nat)
  (row : vector_double) (e : engine) : option (vector_double * engine) :=
  match js with
  | [] => Some (row, e)
  | j :: rest =>
      lo <~ Vec.get minv j ;;
      hi <~ Vec.get maxv j ;;
      let '(r, e') := uniform_real_from_range lo hi e in
      row' <~ Vec.set row j r ;;
      sample_row minv maxv rest row' e'
  end.

(** The outer loop over the particles [i]. *)
Fixpoint sample_rows (minv maxv : vector_double) (n_x : nat) (idx : list nat)
  (velocity : list vector_double) (e : engine)
  : option (list vector_double * engine) :=
  match idx with
  | [] => Some (velocity, e)
  | i :: rest =>
      row <~ Vec.get velocity i ;;
      '(row', e') <~ sample_row minv maxv (seq 0 n_x) row e ;;
      velocity' <~ Vec.set velocity i row' ;;
      sample_rows minv maxv n_x rest velocity' e'
  end.

(** [if (m_velocity.size() != swarm_size) { ... }]: the cache is kept when
    its size is the swarm size and sampled afresh otherwise. *)
Definition init_velocity (minv maxv : vector_double) (n_x swarm_size : nat)
  (velocity : list vector_double) (e : engine)
  : option (list vector_double * engine) :=
  if negb (length velocity =? swarm_size)%nat then
    sample_rows minv maxv n_x (seq 0 swarm_size)
      (repeat (repeat 0 n_x) swarm_size) e
  else Some (velocity, e).

(** ** Copy of the population into [next_pop_list] (lines 162-171) *)

(** [v[i].field = ...]: an update of the element at [i]. *)
Definition modify {A} (v : list A) (i : nat) (f : A -> A) : option (list A) :=
  x <~ Vec.get v i ;;
  Vec.set v i (f x).

Definition set_cur_x (v : vector_double) (p : nspso_individual) :=
  {| cur_x := v; best_x := best_x p; cur_v := cur_v p;
     cur_f := cur_f p; best_f := best_f p |}.
Definition set_best_x (v : vector_double) (p : nspso_individual) :=
  {| cur_x := cur_x p; best_x := v; cur_v := cur_v p;
     cur_f := cur_f p; best_f := best_f p |}.
Definition set_cur_v (v : vector_double) (p : nspso_individual) :=
  {| cur_x := cur_x p; best_x := best_x p; cur_v := v;
     cur_f := cur_f p; best_f := best_f p |}.
Definition set_cur_f (v : vector_double) (p : nspso_individual) :=
  {| cur_x := cur_x p; best_x := best_x p; cur_v := cur_v p;
     cur_f := v; best_f := best_f p |}.
Definition set_best_f (v : vector_double) (p : nspso_individual) :=
  {| cur_x := cur_x p; best_x := best_x p; cur_v := cur_v p;
     cur_f := cur_f p; best_f := v |}.

(** The body of the loop, for the particle [i]. *)
Definition copy_particle (pop : population) (velocity : list vector_double)
  (i : nat) (next_pop_list : list nspso_individual)
  : option (list nspso_individual) :=
  l0 <~ Vec.set next_pop_list i blank ;;
  x <~ Vec.get (get_x pop) i ;;
  l1 <~ modify l0 i (set_cur_x x) ;;
  l2 <~ modify l1 i (set_best_x x) ;;
  v <~ Vec.get velocity i ;;
  l3 <~ modify l2 i (set_cur_v v) ;;
  f <~ Vec.get (get_f pop) i ;;
  l4 <~ modify l3 i (set_cur_f f) ;;
  modify l4 i (set_best_f f).

Fixpoint copy_loop (pop : population) (velocity : list vector_double)
  (idx : list nat) (next_pop_list : list nspso_individual)
  : option (list nspso_individual) :=
  match idx with
  | [] => Some next_pop_list
  | i :: rest =>
      l <~ copy_particle pop velocity i next_pop_list ;;
      copy_loop pop velocity rest l
  end.

(** [std::vector<nspso_individual> next_pop_list;] followed by the loop over
    [i = 0 .. swarm_size-1]. *)
Definition copy_population (pop : population) (velocity : list vector_double)
  (swarm_size : nat) : option (list nspso_individual) :=
  copy_loop pop velocity (seq 0 swarm_size) [].

(** ** Leader set under the niche-count mechanism (lines 220-273) *)

(** [nspso::euclidian_distance]. *)
Fixpoint squared_gaps (x y : vector_double) (i : nat) (sum : Q) : option Q :=
  match x with
  | [] => Some sum
  | xi :: rest =>
      yi <~ Vec.get y i ;;
      squared_gaps rest y (S i) (sum + (xi - yi) * (xi - yi))
  end.

Definition euclidian_distance (x y : vector_double) : option Q :=
  sum <~ squared_gaps x y 0 0 ;;
  Some (sqrt sum).

(** The inner loop of [nspso::compute_niche_count], for one [i]. *)
Fixpoint niche_row (chromosomes : list vector_double) (ci : vector_double)
  (i : nat) (others : list vector_double) (count : list nat)
  (delta : Q) : option (list nat) :=
  match others with
  | [] => Some count
  | cj :: rest =>
      d <~ euclidian_distance ci cj ;;
      count' <~ (if Qltb d delta then modify count i S else Some count) ;;
      niche_row chromosomes ci i rest count' delta
  end.

Fixpoint niche_rows (chromosomes : list vector_double) (idx : list nat)
  (count : list nat) (delta : Q) : option (list nat) :=
  match idx with
  | [] => Some count
  | i :: rest =>
      ci <~ Vec.get chromosomes i ;;
      count' <~ niche_row chromosomes ci i chromosomes count delta ;;
      niche_rows chromosomes rest count' delta
  end.

(** [nspso::compute_niche_count]. *)
Definition compute_niche_count (count : list nat)
  (chromosomes : list vector_double) (delta : Q) : option (list nat) :=
  niche_rows chromosomes (seq 0 (length chromosomes))
    (repeat 0%nat (length count)) delta.

(** [non_dom_chromosomes[i] = next_pop_list[ndf[0][i]].best_x]. *)
Fixpoint gather (next_pop_list : list nspso_individual) (front : list nat)
  (i : nat) (non_dom_chromosomes : list vector_double)
  : option (list vector_double) :=
  match front with
  | [] => Some non_dom_chromosomes
  | p :: rest =>
      q <~ Vec.get next_pop_list p ;;
      l <~ Vec.set non_dom_chromosomes i (best_x q) ;;
      gather next_pop_list rest (S i) l
  end.

(** [n - 1] on [size_t], as a double. *)
Definition size_minus_one (n : nat) : Q :=
  if (n =? 0)%nat then inject_Z (2 ^ 64 - 1) else inject_Z (Z.of_nat n - 1).

(** The product [delta *= nadir_point[i] - ideal_point[i]]. *)
Fixpoint volume (nadir_point ideal_point : vector_double) (i : nat)
  (delta : Q) : option Q :=
  match nadir_point with
  | [] => Some delta
  | n_i :: rest =>
      i_i <~ Vec.get ideal_point i ;;
      volume rest ideal_point (S i) (delta * (n_i - i_i))
  end.

(** The Fonseca-Fleming setting of [delta]. *)
Definition fonseca_fleming (nf : nat) (nadir_point ideal_point : vector_double)
  (ndc : nat) : option Q :=
  if (nf =? 2)%nat then
    n0 <~ Vec.get nadir_point 0 ;; i0 <~ Vec.get ideal_point 0 ;;
    n1 <~ Vec.get nadir_point 1 ;; i1 <~ Vec.get ideal_point 1 ;;
    Some (((n0 - i0) + (n1 - i1)) / size_minus_one ndc)
  else if (nf =? 3)%nat then
    n0 <~ Vec.get nadir_point 0 ;; i0 <~ Vec.get ideal_point 0 ;;
    n1 <~ Vec.get nadir_point 1 ;; i1 <~ Vec.get ideal_point 1 ;;
    n2 <~ Vec.get nadir_point 2 ;; i2 <~ Vec.get ideal_point 2 ;;
    let d1 := n0 - i0 in
    let d2 := n1 - i1 in
    let d3 := n2 - i2 in
    let ndc_size := inject_Z (Z.of_nat ndc) in
    Some (sqrt (4 * d2 * d1 * ndc_size + 4 * d3 * d1 * ndc_size
                + 4 * d2 * d3 * ndc_size + d1 * d1 + d2 * d2 + d3 * d3
                - 2 * d2 * d1 - 2 * d3 * d1 - 2 * d2 * d3 + d1 + d2 + d3)
          / (2 * (ndc_size - 1)))
  else
    delta <~ volume nadir_point ideal_point 0 1 ;;
    Some (pow delta (1 / inject_Z (Z.of_nat (length nadir_point)))
          / inject_Z (Z.of_nat ndc)).

(** [best_non_dom_indices[i] = ndf[0][sort_list[i]]]. *)
Fixpoint place_sorted (front sort_list : list nat) (i : nat)
  (best_non_dom_indices : list nat) : option (list nat) :=
  match sort_list with
  | [] => Some best_non_dom_indices
  | s :: rest =>
      p <~ Vec.get front s ;;
      l <~ Vec.set best_non_dom_indices i p ;;
      place_sorted front rest (S i) l
  end.

(** The inner loop of the padding: [best_non_dom_indices[i] = ndf[f][i]]
    while [min_pop_size > 0]. *)
Fixpoint pad_front (front : list nat) (i : nat)
  (best_non_dom_indices : list nat) (min_pop_size : nat)
  : option (list nat * nat) :=
  match front with
  | [] => Some (best_non_dom_indices, min_pop_size)
  | p :: rest =>
      if (0 <? min_pop_size)%nat then
        l <~ Vec.set best_non_dom_indices i p ;;
        pad_front rest (S i) l (min_pop_size - 1)
      else Some (best_non_dom_indices, min_pop_size)
  end.

Fixpoint pad_fronts (ndf : list (list nat)) (best_non_dom_indices : list nat)
  (min_pop_size : nat) : option (list nat) :=
  match ndf with
  | [] => Some best_non_dom_indices
  | front :: rest =>
      if (0 <? min_pop_size)%nat then
        '(l, m) <~ pad_front front 0 best_non_dom_indices min_pop_size ;;
        pad_fronts rest l m
      else Some best_non_dom_indices
  end.

Definition niche_leaders (prob : problem) (fit : list vector_double)
  (ndf : list (list nat)) (next_pop_list : list nspso_individual)
  : option (list nat) :=
  front0 <~ Vec.get ndf 0 ;;
  non_dom_chromosomes <~ gather next_pop_list front0 0 [] ;;
  let nadir_point := nadir fit in
  let ideal_point := ideal fit in
  delta <~ fonseca_fleming (get_nf prob) nadir_point ideal_point
             (length non_dom_chromosomes) ;;
  count <~ compute_niche_count (repeat 0%nat (length non_dom_chromosomes))
             non_dom_chromosomes delta ;;
  let sort_list :=
    sort_indices (fun idx1 idx2 => (nth idx1 count 0 <? nth idx2 count 0)%nat)
      (seq 0 (length count)) in
  if (1 <? length front0)%nat then place_sorted front0 sort_list 0 []
  else pad_fronts ndf [] 2.

(** ** Leader set under the MaxMin mechanism (lines 274-294) *)

(** [compute_maxmin(maxmin, fit)]: the kernel overwrites the first
    [fit.size()] entries of [maxmin]. *)
Definition store_maxmin (maxmin : vector_double) (fit : list vector_double)
  : option vector_double :=
  if (length fit <=? length maxmin)%nat
  then Some (MaxMin.compute_maxmin fit ++ skipn (length fit) maxmin)
  else None.

(** [for (i = 1u; i < size && maxmin[best[i]] < 0; ++i);] *)
Fixpoint negative_run (maxmin : vector_double) (best : list nat)
  (positions : list nat) (i : nat) : option nat :=
  match positions with
  | [] => Some i
  | k :: rest =>
      b <~ Vec.get best k ;;
      m <~ Vec.get maxmin b ;;
      if Qltb m 0 then negative_run maxmin best rest (S k) else Some k
  end.

Definition maxmin_leaders (fit : list vector_double) (swarm_size : nat)
  : option (list nat) :=
  maxmin <~ store_maxmin (repeat 0 swarm_size) fit ;;
  let sort_list_2 :=
    sort_indices (fun idx1 idx2 => Qltb (nth idx1 maxmin 0) (nth idx2 maxmin 0))
      (seq 0 swarm_size) in
  let best_non_dom_indices := sort_list_2 in
  i <~ negative_run maxmin best_non_dom_indices
         (seq 1 (length best_non_dom_indices - 1)) 1 ;;
  let i := if (i <? 2)%nat then 2%nat else i in
  if (i <=? length best_non_dom_indices)%nat
  then Some (firstn i best_non_dom_indices)
  else None.

(** ** The leader set of one generation *)

Definition leader_set (a : nspso) (prob : problem) (fit : list vector_double)
  (fnds_res : list (list nat)) (next_pop_list : list nspso_individual)
  (swarm_size : nat) : option (list nat) :=
  if String.eqb (m_diversity_mechanism a) "crowding distance"%string then
    Some (sort_population_mo fit)
  else if String.eqb (m_diversity_mechanism a) "niche count"%string then
    niche_leaders prob fit fnds_res next_pop_list
  else maxmin_leaders fit swarm_size.

(** ** Moving a particle (lines 302-371) *)

(** [ext]: [static_cast<unsigned>(ceil(size * range / 100)) - 1], at least 1.
    The product and the quotient are computed on unsigned integers, and the
    subtraction wraps around at 0. *)
Definition leader_extent (leaders range : nat) : N :=
  let q := N.of_nat (leaders * range / 100) in
  let ext := if (q =? 0)%N then (2 ^ 32 - 1)%N else (q - 1)%N in
  if (ext <? 1)%N then 1%N else ext.

(** The do-while loop that draws the leader; [fuel] bounds the number of
    draws. *)
Fixpoint draw_leader {R} (fuel : nat) (best_non_dom_indices : list nat)
  (ext : N) (idx : nat) (e : engine) : flow R (nat * engine) :=
  match fuel with
  | O => Spin
  | S fuel' =>
      let '(leader_idx, e') := uniform_int 0 ext e in
      b <- checked (Vec.get best_non_dom_indices (N.to_nat leader_idx)) ;;
      if (b =? idx)%nat
      then draw_leader fuel' best_non_dom_indices ext idx e'
      else Go (N.to_nat leader_idx, e')
  end.

(** The body of the loop over the coordinates, up to the two stores: the
    pair [(v, x)] written to [new_vel[i]] and [new_dvs[i]]. *)
Definition move_coordinate (a : nspso) (w r1 r2 : Q)
  (cur_vel best_dvs cur_dvs leader minv maxv lb ub : vector_double) (i : nat)
  : option (Q * Q) :=
  cv <~ Vec.get cur_vel i ;;
  bd <~ Vec.get best_dvs i ;;
  cd <~ Vec.get cur_dvs i ;;
  ld <~ Vec.get leader i ;;
  let v := w * cv + m_c1 a * r1 * (bd - cd) + m_c2 a * r2 * (ld - cd) in
  mx <~ Vec.get maxv i ;;
  v <~ (if Qltb mx v then Some mx
        else mn <~ Vec.get minv i ;;
             Some (if Qltb v mn then mn else v)) ;;
  let x := cd + m_chi a * v in
  u <~ Vec.get ub i ;;
  if Qltb u x then Some (0, u)
  else
    l <~ Vec.get lb i ;;
    if Qltb x l then Some (0, l) else Some (v, x).

Fixpoint move_loop (a : nspso) (w r1 r2 : Q)
  (cur_vel best_dvs cur_dvs leader minv maxv lb ub : vector_double)
  (idx : list nat) (new_dvs new_vel : vector_double)
  : option (vector_double * vector_double) :=
  match idx with
  | [] => Some (new_dvs, new_vel)
  | i :: rest =>
      '(v, x) <~ move_coordinate a w r1 r2 cur_vel best_dvs cur_dvs leader
                   minv maxv lb ub i ;;
      new_vel' <~ Vec.set new_vel i v ;;
      new_dvs' <~ Vec.set new_dvs i x ;;
      move_loop a w r1 r2 cur_vel best_dvs cur_dvs leader minv maxv lb ub
        rest new_dvs' new_vel'
  end.

(** What the generation loop carries from one iteration to the next. *)
Record swarm : Type := {
  s_pop : population;
  s_list : list nspso_individual;
  s_e : engine;
  s_fevals : nat;
  s_log : list log_line_type
}.

(** The body of the loop over the particles, for the particle [idx]. *)
Definition move_particle {R} (fuel : nat) (a : nspso) (prob : problem)
  (minv maxv : vector_double) (swarm_size : nat) (w : Q)
  (best_non_dom_indices : list nat) (idx : nat)
  (st : list nspso_individual * engine * nat)
  : flow R (list nspso_individual * engine * nat) :=
  let '(next_pop_list, e, fevals) := st in
  let n_cx := (get_nx prob - get_nix prob)%nat in
  p <- checked (Vec.get next_pop_list idx) ;;
  let best_dvs := best_x p in
  let cur_dvs := cur_x p in
  let cur_vel := cur_v p in
  let ext := leader_extent (length best_non_dom_indices)
               (m_leader_selection_range a) in
  '(leader_idx, e1) <- draw_leader fuel best_non_dom_indices ext idx e ;;
  lead <- checked (b <~ Vec.get best_non_dom_indices leader_idx ;;
                   q <~ Vec.get next_pop_list b ;;
                   Some (best_x q)) ;;
  let '(r1, e2) := uniform_real e1 in
  let '(r2, e3) := uniform_real e2 in
  '(new_dvs, new_vel) <-
    checked (move_loop a w r1 r2 cur_vel best_dvs cur_dvs lead minv maxv
               (get_lb prob) (get_ub prob) (seq 0 (length cur_dvs))
               (repeat 0 n_cx) (repeat 0 n_cx)) ;;
  let l0 := Vec.push_back next_pop_list blank in
  let f := fitness prob new_dvs in
  l5 <- checked (l1 <~ modify l0 (idx + swarm_size) (set_cur_x new_dvs) ;;
                 l2 <~ modify l1 (idx + swarm_size) (set_best_x new_dvs) ;;
                 l3 <~ modify l2 (idx + swarm_size) (set_cur_v new_vel) ;;
                 l4 <~ modify l3 (idx + swarm_size) (set_cur_f f) ;;
                 modify l4 (idx + swarm_size) (set_best_f f)) ;;
  Go (l5, e3, S fevals).

Fixpoint move_particles {R} (fuel : nat) (a : nspso) (prob : problem)
  (minv maxv : vector_double) (swarm_size : nat) (w : Q)
  (best_non_dom_indices : list nat) (idx : list nat)
  (st : list nspso_individual * engine * nat)
  : flow R (list nspso_individual * engine * nat) :=
  match idx with
  | [] => Go st
  | i :: rest =>
      st' <- move_particle fuel a prob minv maxv swarm_size w
               best_non_dom_indices i st ;;
      move_particles fuel a prob minv maxv swarm_size w
        best_non_dom_indices rest st'
  end.

(** ** Environmental selection (lines 376-436) *)

(** A whole front is pushed:
    [for (j = 0; j < front.size(); ++j) { best[i] = front[j]; ++i; }] *)
Fixpoint absorb_front (front : list nat) (best_next_pop_indices : list nat)
  (i : nat) : option (list nat * nat) :=
  match front with
  | [] => Some (best_next_pop_indices, i)
  | p :: rest =>
      l <~ Vec.set best_next_pop_indices i p ;;
      absorb_front rest l (S i)
  end.

(** The front that overflows, after the shuffle:
    [for (j = 0; i < swarm_size; ++j) { best[i] = front[j]; ++i; }] *)
Fixpoint fill_from (front : list nat) (js : list nat)
  (best_next_pop_indices : list nat) (i : nat) : option (list nat * nat) :=
  match js with
  | [] => Some (best_next_pop_indices, i)
  | j :: rest =>
      p <~ Vec.get front j ;;
      l <~ Vec.set best_next_pop_indices i p ;;
      fill_from front rest l (S i)
  end.

(** The loop over the fronts, [while i < swarm_size]. *)
Fixpoint front_loop (swarm_size : nat) (ndf_next : list (list nat))
  (best_next_pop_indices : list nat) (i : nat) (e : engine)
  : option (list nat * engine) :=
  match ndf_next with
  | [] => Some (best_next_pop_indices, e)
  | front :: rest =>
      if (i <? swarm_size)%nat then
        if (length front <? swarm_size - i)%nat then
          '(l, i') <~ absorb_front front best_next_pop_indices i ;;
          front_loop swarm_size rest l i' e
        else
          let '(shuffled, e') := shuffle front e in
          '(l, i') <~ fill_from shuffled (seq 0 (swarm_size - i))
                        best_next_pop_indices i ;;
          front_loop swarm_size rest l i' e'
      else Some (best_next_pop_indices, e)
  end.

(** The branch [m_diversity_mechanism != "max min"].  [fnds_res] is the
    sorting of the current population computed at the top of the
    generation; the sorting of the combined fitness, [fnds_res_next], is
    computed and the fronts are then taken from [fnds_res]. *)
Definition select_by_fronts (swarm_size : nat) (fnds_res : list (list nat))
  (next_pop_fit : list vector_double) (e : engine)
  : option (list nat * engine) :=
  let fnds_res_next := fast_non_dominated_sorting next_pop_fit in
  let ndf_next := fnds_res in
  front_loop swarm_size ndf_next (repeat 0%nat swarm_size) 0 e.

(** The branch of the MaxMin mechanism; [sort_list_3] has [swarm_size]
    entries. *)
Definition select_by_maxmin (swarm_size : nat)
  (next_pop_fit : list vector_double) : option (list nat) :=
  maxmin <~ store_maxmin (repeat 0 (2 * swarm_size)) next_pop_fit ;;
  let sort_list_3 :=
    sort_indices (fun idx1 idx2 => Qltb (nth idx1 maxmin 0) (nth idx2 maxmin 0))
      (seq 0 swarm_size) in
  if (swarm_size <=? length sort_list_3)%nat
  then Some (firstn swarm_size sort_list_3)
  else None.

(** [tmp_pop[i] = next_pop_list[best_next_pop_indices[i]]]. *)
Fixpoint pick (next_pop_list : list nspso_individual)
  (best_next_pop_indices : list nat) (idx : list nat)
  (tmp_pop : list nspso_individual) : option (list nspso_individual) :=
  match idx with
  | [] => Some tmp_pop
  | i :: rest =>
      b <~ Vec.get best_next_pop_indices i ;;
      p <~ Vec.get next_pop_list b ;;
      l <~ Vec.set tmp_pop i p ;;
      pick next_pop_list best_next_pop_indices rest l
  end.

(** Step 3 of a generation: the [swarm_size] survivors of the combined
    buffer. *)
Definition environmental_selection (a : nspso) (swarm_size : nat)
  (fnds_res : list (list nat)) (next_pop_list : list nspso_individual)
  (e : engine) : option (list nspso_individual * engine) :=
  let next_pop_fit := map best_f next_pop_list in
  '(best_next_pop_indices, e') <~
    (if negb (String.eqb (m_diversity_mechanism a) "max min"%string)
     then select_by_fronts swarm_size fnds_res next_pop_fit e
     else l <~ select_by_maxmin swarm_size next_pop_fit ;; Some (l, e)) ;;
  tmp_pop <~ pick next_pop_list best_next_pop_indices (seq 0 swarm_size)
               (repeat blank swarm_size) ;;
  Some (tmp_pop, e').

(** Step 4: [pop.set_xf(i, next_pop_list[i].cur_x, next_pop_list[i].cur_f)]. *)
Fixpoint write_back (next_pop_list : list nspso_individual) (idx : list nat)
  (pop : population) : option population :=
  match idx with
  | [] => Some pop
  | i :: rest =>
      p <~ Vec.get next_pop_list i ;;
      pop' <~ set_xf pop i (cur_x p) (cur_f p) ;;
      write_back next_pop_list rest pop'
  end.

(** ** [nspso::evolve] *)

(** One iteration of the main loop. *)
Definition generation {R} (fuel : nat) (a : nspso) (prob : problem)
  (minv maxv : vector_double) (swarm_size gen : nat) (s : swarm)
  : flow R swarm :=
  let pop := s_pop s in
  let fit := get_f pop in
  let fnds_res := fast_non_dominated_sorting fit in
  let log :=
    if (0 <? m_verbosity a)%nat
       && ((gen mod m_verbosity a =? 1)%nat || (m_verbosity a =? 1)%nat)
    then Vec.push_back (s_log s) (gen, s_fevals s, ideal (get_f pop))
    else s_log s in
  best_non_dom_indices <-
    checked (leader_set a prob fit fnds_res (s_list s) swarm_size) ;;
  let w := m_max_w a
           - (m_max_w a - m_min_w a) / inject_Z (Z.of_nat (m_gen a))
             * inject_Z (Z.of_nat gen) in
  '(next_pop_list, e, fevals) <-
    move_particles fuel a prob minv maxv swarm_size w best_non_dom_indices
      (seq 0 swarm_size) (s_list s, s_e s, s_fevals s) ;;
  '(survivors, e') <-
    checked (environmental_selection a swarm_size fnds_res next_pop_list e) ;;
  pop' <- checked (write_back survivors (seq 0 swarm_size) pop) ;;
  Go {| s_pop := pop'; s_list := survivors; s_e := e';
        s_fevals := fevals; s_log := log |}.

(** [for (decltype(m_gen) gen = 1u; gen <= m_gen; gen++)], entered with the
    counter at [gen].  The counter is an [unsigned] and wraps around at
    [2^32]; [rounds] bounds the number of iterations, [fuel] the draws of
    each leader loop. *)
Fixpoint main_loop {R} (rounds fuel : nat) (a : nspso) (prob : problem)
  (minv maxv : vector_double) (swarm_size : nat) (gen : N) (s : swarm)
  : flow R swarm :=
  if (gen <=? N.of_nat (m_gen a))%N then
    match rounds with
    | O => Spin
    | S rounds' =>
        s' <- generation fuel a prob minv maxv swarm_size (N.to_nat gen) s ;;
        main_loop rounds' fuel a prob minv maxv swarm_size (unsigned_succ gen) s'
    end
  else Go s.

(** The statements of [evolve] after the early return for [m_gen == 0];
    none of them is a [return]. *)
Definition evolve_body (fuel : nat) (a : nspso) (prob : problem)
  (pop : population) (fevals : nat) : flow Empty_set (nspso * evolved) :=
  let n_x := get_nx prob in
  let swarm_size := size pop in
  '(minv, maxv) <- checked (velocity_band a prob) ;;
  '(velocity, e) <-
    checked (init_velocity minv maxv n_x swarm_size (m_velocity a) (m_e a)) ;;
  next_pop_list <- checked (copy_population pop velocity swarm_size) ;;
  s <- main_loop fuel fuel a prob minv maxv swarm_size 1
         {| s_pop := pop; s_list := next_pop_list; s_e := e;
            s_fevals := fevals; s_log := [] |} ;;
  Go (with_state a velocity (s_e s) (m_seed a) (m_verbosity a) (s_log s),
      {| ev_pop := s_pop s; ev_fevals := s_fevals s; ev_log := s_log s |}).

(** [nspso::evolve].  [fevals] is the evaluation counter of the problem on
    entry; [fuel] bounds the iterations of the generation loop and the draws
    of each leader loop.  The algorithm is returned as the call leaves it. *)
Definition evolve (fuel : nat) (a : nspso) (prob : problem)
  (pop : population) (fevals : nat) : nspso * outcome :=
  if (get_nx prob =? 0)%nat then (a, Threw)
  else if is_stochastic prob then (a, Threw)
  else if negb (get_nc prob =? 0)%nat then (a, Threw)
  else if (get_nf prob <? 2)%nat then (a, Threw)
  else if (size pop =? 0)%nat then (a, Threw)
  else if (m_gen a =? 0)%nat then
    (a, Returned NothingToDo
          {| ev_pop := pop; ev_fevals := fevals; ev_log := m_log a |})
  else
    match evolve_body fuel a prob pop fevals with
    | Go (a', r) => (a', Returned LoopDone r)
    | Return _ r => match r with end
    | Throw => (a, Threw)
    | Undefined => (a, UndefinedBehaviour)
    | Spin => (a, Diverged)
    end.

(** ** The algorithm objects of a program *)

(** What the user sets: the arguments of the constructor other than the
    seed, and the verbosity. *)
Definition configuration (a : nspso) :=
  (m_gen a, m_min_w a, m_max_w a, m_c1 a, m_c2 a, m_chi a, m_v_coeff a,
   m_leader_selection_range a, m_diversity_mechanism a, m_verbosity a).

(** The engine is in the state [seed] puts it in: the object comes out of
    the constructor or of [set_seed] with that seed. *)
Definition seeded_with (seed : nat) (a : nspso) : Prop :=
  m_e a = seeded seed /\ m_seed a = seed.

(** A call that comes back to its caller, by [return] or by an exception. *)
Definition comes_back (o : outcome) : Prop :=
  match o with
  | Returned _ _ | Threw => True
  | UndefinedBehaviour | Diverged => False
  end.

(** The objects a program can hold: built by the constructor, then passed
    through [set_seed], [set_verbosity] and the calls of [evolve] that come
    back. *)
Inductive reachable : nspso -> Prop :=
| reach_construct gen min_w max_w c1 c2 chi v_coeff range mechanism seed a :
    construct gen min_w max_w c1 c2 chi v_coeff range mechanism seed = Some a ->
    reachable a
| reach_set_seed a seed : reachable a -> reachable (set_seed a seed)
| reach_set_verbosity a level : reachable a -> reachable (set_verbosity a level)
| reach_evolve fuel a prob pop fevals :
    reachable a ->
    comes_back (snd (evolve fuel a prob pop fevals)) ->
    reachable (fst (evolve fuel a prob pop fevals)).

End Algorithm.
End Nspso.

(** * Reference instances of the external services

    Executable stand-ins for the services above; the examples run the
    algorithms on them. *)

Module Reference.

(** A square root that is exact on ratios of perfect squares. *)
Definition root (q : Q) : Q := Z.sqrt (Qnum q) # Pos.sqrt (Qden q).

(** A power with the exponent truncated to an integer. *)
Definition power (x y : Q) : Q := Qpower x (Z.quot (Qnum y) (Zpos (Qden y))).

(** The engine is a counter; the [n]-th unit draw is [(n mod 4) / 4]. *)
Definition unit_draw (g : nat) : Q * nat :=
  (inject_Z (Z.of_nat (g mod 4)) / 4, S g).

Definition range_draw (a b : Q) (g : nat) : Q * nat :=
  let '(u, g') := unit_draw g in (a + u * (b - a), g').

(** The [n]-th normal draw is [mean + stddev * ((n mod 3) - 1)]. *)
Definition normal_draw (mean stddev : Q) (g : nat) : Q * nat :=
  (mean + stddev * inject_Z (Z.of_nat (g mod 3) - 1), S g).

Definition int_draw (a b : N) (g : nat) : N * nat :=
  ((a + N.of_nat g mod (b - a + 1))%N, S g).

Definition services : Pagmo.Services :=
  {| Pagmo.sqrt := root;
     Pagmo.pow := power;
     Pagmo.engine := nat;
     Pagmo.seeded := fun seed => seed;
     Pagmo.normal_distribution := normal_draw;
     Pagmo.uniform_real := unit_draw;
     Pagmo.uniform_real_from_range := range_draw;
     Pagmo.uniform_int := int_draw;
     Pagmo.shuffle := fun l g => (rev l, S g) |}.

(** Pareto dominance of [a] over [b], on vectors of the same length. *)
Fixpoint no_worse (a b : vector_double) : bool :=
  match a, b with
  | x :: a', y :: b' => Qle_bool x y && no_worse a' b'
  | _, _ => true
  end.

Fixpoint better_somewhere (a b : vector_double) : bool :=
  match a, b with
  | x :: a', y :: b' => Qltb x y || better_somewhere a' b'
  | _, _ => false
  end.

Definition dominates (a b : vector_double) : bool :=
  no_worse a b && better_somewhere a b.

(** The members of [remaining] that no member of [remaining] dominates. *)
Definition first_front (fit : list vector_double) (remaining : list nat) : list nat :=
  filter
    (fun i => negb (existsb (fun j => dominates (nth j fit []) (nth i fit [])) remaining))
    remaining.

(** Modelled from the spec: non-dominated fronts in order, by peeling the
    non-dominated members off the remaining indices. *)
Fixpoint peel (fuel : nat) (fit : list vector_double) (remaining : list nat)
  : list (list nat) :=
  match fuel, remaining with
  | O, _ => []
  | _, [] => []
  | S fuel', _ =>
      let front := first_front fit remaining in
      front :: peel fuel' fit
                 (filter (fun i => negb (existsb (Nat.eqb i) front)) remaining)
  end.

Definition fronts (fit : list vector_double) : list (list nat) :=
  peel (length fit) fit (seq 0 (length fit)).

(** Componentwise minimum and maximum of the rows. *)
Fixpoint pointwise (pick : Q -> Q -> Q) (a b : vector_double) : vector_double :=
  match a, b with
  | x :: a', y :: b' => pick x y :: pointwise pick a' b'
  | _, _ => []
  end.

Definition extreme (pick : Q -> Q -> Q) (fit : list vector_double) : vector_double :=
  match fit with
  | [] => []
  | r :: rest => fold_left (pointwise pick) rest r
  end.

(** Insertion sort of an index vector by a comparator. *)
Fixpoint insert_by (lt : nat -> nat -> bool) (a : nat) (l : list nat) : list nat :=
  match l with
  | [] => [a]
  | b :: t => if lt a b then a :: l else b :: insert_by lt a t
  end.

(** Modelled from the spec: the utilities of section 6.  The ranking of
    [sort_population_mo] lists the fronts in order and keeps the index order
    inside a front. *)
Definition utilities : Nspso.Utilities :=
  {| Nspso.fast_non_dominated_sorting := fronts;
     Nspso.sort_population_mo := fun fit => concat (fronts fit);
     Nspso.ideal := extreme (fun x y => if Qltb y x then y else x);
     Nspso.nadir := extreme (fun x y => if Qltb x y then y else x);
     Nspso.sort_indices := fun lt l => fold_right (insert_by lt) [] l |}.

End Reference.

(** Inputs of the examples on [gi_aco_mo]. *)

Module AcoInputs.
Import Pagmo.

(** A two-objective problem on one variable. *)
Definition two_objectives (stochastic : bool) : problem :=
  {| get_nx := 1; get_nix := 0; get_nobj := 2; get_nec := 0; get_nic := 0;
     get_nc := 0; get_lb := [0]; get_ub := [10];
     is_stochastic := stochastic;
     fitness := fun x => [1; 2] |}.

Definition pair_pop : population :=
  {| get_x := [[5]; [7]]; get_f := [[1; 2]; [2; 1]] |}.

(** A single-objective problem with one inequality residual in the tail of
    the fitness vector and no constraint declared to the framework. *)
Definition one_inequality : problem :=
  {| get_nx := 1; get_nix := 0; get_nobj := 1; get_nec := 0; get_nic := 1;
     get_nc := 0; get_lb := [0]; get_ub := [10];
     is_stochastic := false;
     fitness := fun x => [1; -5] |}.

(** Individual 0 violates the inequality ([3 >= -1/2]); individuals 1 and 2
    are feasible. *)
Definition trio_pop : population :=
  {| get_x := [[5]; [7]; [8]]; get_f := [[1; 3]; [1; -5]; [1; -5]] |}.

(** Two feasible individuals, the first below the oracle. *)
Definition feasible_pair : population :=
  {| get_x := [[5]; [7]]; get_f := [[0; -5]; [1; -5]] |}.

(** A single-objective problem with one equality and one inequality
    residual. *)
Definition two_residuals : problem :=
  {| get_nx := 1; get_nix := 0; get_nobj := 1; get_nec := 1; get_nic := 1;
     get_nc := 0; get_lb := [0]; get_ub := [10];
     is_stochastic := false;
     fitness := fun x => [1; 0; -5] |}.

(** One individual: objective 1, equality residual 0, inequality residual
    -5. *)
Definition solo_pop : population :=
  {| get_x := [[5]]; get_f := [[1; 0; -5]] |}.

(** An unconstrained single-objective problem. *)
Definition unconstrained : problem :=
  {| get_nx := 1; get_nix := 0; get_nobj := 1; get_nec := 0; get_nic := 0;
     get_nc := 0; get_lb := [0]; get_ub := [10];
     is_stochastic := false;
     fitness := fun x => [1] |}.

Definition plain_pop : population :=
  {| get_x := [[5]; [7]]; get_f := [[1]; [1]] |}.

(** An algorithm with accuracy 1/2, oracle 1, archive size [ker], no
    [fstop], no focus, on the reference services, as the single-objective
    constructor builds it for [seed]. *)
Definition colony_with (seed gen : nat) (impstop evalstop : Z) (ker : nat)
  : @GiAcoMo.gi_aco_mo Reference.services :=
  {| GiAcoMo.m_gen := gen; GiAcoMo.m_acc := 1 # 2; GiAcoMo.m_fstop := 0;
     GiAcoMo.m_impstop := impstop; GiAcoMo.m_evalstop := evalstop;
     GiAcoMo.m_focus := 0; GiAcoMo.m_ker := ker; GiAcoMo.m_oracle := 1;
     GiAcoMo.m_paretomax := 0; GiAcoMo.m_epsilon := 0;
     GiAcoMo.m_e := @Pagmo.seeded Reference.services seed;
     GiAcoMo.m_seed := seed;
     GiAcoMo.m_verbosity := 0%nat; GiAcoMo.m_log := [] |}.

Definition colony_of : nat -> Z -> Z -> nat -> @GiAcoMo.gi_aco_mo Reference.services :=
  colony_with 7.

End AcoInputs.

(** * The statements of the specification on [gi_aco_mo] *)

Module AcoSpec.

(** Feasibility as the specification words it: every equality residual
    [f[n_obj + k]] within [acc] in absolute value, every inequality residual
    [f[n_obj + n_ec + k]] below [-acc]. *)
Definition feasible (acc : Q) (n_obj n_ec n_ic : nat) (f : vector_double) : bool :=
  forallb
    (fun k => match Vec.get f (n_obj + k) with
              | Some v => Qle_bool (Qabs v) acc
              | None => false
              end)
    (seq 0 n_ec)
  && forallb
       (fun k => match Vec.get f (n_obj + n_ec + k) with
                 | Some v => Qltb v (- acc)
                 | None => false
                 end)
       (seq 0 n_ic).

(** Rows in ascending order of penalty. *)
Fixpoint ascending (penalties : list xdouble) : bool :=
  match penalties with
  | p :: (q :: _) as rest => xleb p q && ascending rest
  | _ => true
  end.

(** The archive invariant of the specification: [ker] rows, every row a
    feasible candidate, penalties in ascending order.  The fitness vector of
    a row follows its [n_x] decision variables. *)
Definition archive_invariant {services : Pagmo.Services}
  (a : GiAcoMo.gi_aco_mo) (prob : Pagmo.problem) (SA : list GiAcoMo.sa_row) : bool :=
  (length SA =? GiAcoMo.m_ker a)%nat
  && forallb
       (fun row =>
          feasible (GiAcoMo.m_acc a) (Pagmo.get_nobj prob) (Pagmo.get_nec prob)
            (Pagmo.get_nic prob)
            (skipn (Pagmo.get_nx prob) (GiAcoMo.row_cells row)))
       SA
  && ascending (map GiAcoMo.row_penalty SA).

(** The sum of a vector of weights. *)
Definition total (w : vector_double) : Q := fold_right Qplus 0 w.

End AcoSpec.

(** Inputs of the examples on [nspso]. *)

Module NspsoInputs.
Import Pagmo.

(** Two objectives on one variable in [0, 1]. *)
Definition line_problem : problem :=
  {| get_nx := 1; get_nix := 0; get_nobj := 2; get_nec := 0; get_nic := 0;
     get_nc := 0; get_lb := [0]; get_ub := [1];
     is_stochastic := false;
     fitness := fun x => match x with
                         | [v] => [v; 1 - v]
                         | _ => [0; 0]
                         end |}.

(** Two particles, the first dominating the second. *)
Definition duo_pop : population :=
  {| get_x := [[1 # 2]; [1]]; get_f := [[1; 1]; [2; 2]] |}.

(** An algorithm on the reference services, as the constructor builds it
    for [seed]. *)
Definition swarm_with (seed gen : nat) (mechanism : String.string)
  : @Nspso.nspso Reference.services :=
  {| Nspso.m_gen := gen; Nspso.m_min_w := 1 # 2; Nspso.m_max_w := 1;
     Nspso.m_c1 := 1; Nspso.m_c2 := 1; Nspso.m_chi := 1;
     Nspso.m_v_coeff := 1 # 2; Nspso.m_leader_selection_range := 100;
     Nspso.m_diversity_mechanism := mechanism;
     Nspso.m_velocity := [];
     Nspso.m_e := @Pagmo.seeded Reference.services seed;
     Nspso.m_seed := seed;
     Nspso.m_verbosity := 0%nat; Nspso.m_log := [] |}.

Definition swarm_of : nat -> String.string -> @Nspso.nspso Reference.services :=
  swarm_with 3.

(** A particle at [x] with fitness [f] and velocity [v]. *)
Definition particle (x : Q) (f : vector_double) (v : Q) : Nspso.nspso_individual :=
  {| Nspso.cur_x := [x]; Nspso.best_x := [x]; Nspso.cur_v := [v];
     Nspso.cur_f := f; Nspso.best_f := f |}.

(** The combined buffer of a swarm of two after the move: the two current
    particles followed by two offspring that dominate both of them. *)
Definition combined : list Nspso.nspso_individual :=
  [particle (1 # 2) [1; 1] 0; particle 1 [2; 2] 0;
   particle 0 [0; 0] (1 # 4); particle (1 # 4) [1 # 2; 1 # 2] (1 # 4)].

End NspsoInputs.

(** * The statements of the specification on [nspso] *)

Module NspsoSpec.

(** The selection as the specification words it: the fronts are those of
    the combined fitness matrix. *)
Definition select_by_combined_fronts
  {services : Pagmo.Services} {utilities : Nspso.Utilities}
  (swarm_size : nat) (next_pop_fit : list vector_double) (e : Pagmo.engine)
  : option (list nat * Pagmo.engine) :=
  Nspso.front_loop swarm_size (Nspso.fast_non_dominated_sorting next_pop_fit)
    (repeat 0%nat swarm_size) 0 e.

Section Band.
Variable v_coeff : Q.
Variables lb ub : vector_double.

(** [x] is within the band [(ub[j] - lb[j]) * v_coeff] of coordinate [j]. *)
Definition in_band (j : nat) (x : Q) : Prop :=
  forall l u,
    Vec.get lb j = Some l -> Vec.get ub j = Some u ->
    Qabs x <= (u - l) * v_coeff.

(** A velocity vector within the band of every coordinate. *)
Definition banded (v : vector_double) : Prop :=
  forall j x, Vec.get v j = Some x -> in_band j x.

(** A particle whose velocity is within the band. *)
Definition particle_banded (p : Nspso.nspso_individual) : Prop :=
  banded (Nspso.cur_v p).

(** [lo] is a lower end, [hi] an upper end, of an interval around 0 inside
    the band of coordinate [j]. *)
Definition lower_end (j : nat) (lo : Q) : Prop :=
  forall l u,
    Vec.get lb j = Some l -> Vec.get ub j = Some u ->
    - ((u - l) * v_coeff) <= lo /\ lo <= 0.

Definition upper_end (j : nat) (hi : Q) : Prop :=
  forall l u,
    Vec.get lb j = Some l -> Vec.get ub j = Some u ->
    0 <= hi /\ hi <= (u - l) * v_coeff.

(** Every entry of [minv] is a lower end, every entry of [maxv] an upper
    end. *)
Definition ends_ok (minv maxv : vector_double) : Prop :=
  (forall j lo, Vec.get minv j = Some lo -> lower_end j lo) /\
  (forall j hi, Vec.get maxv j = Some hi -> upper_end j hi).

End Band.

(** The velocity update of the specification for one coordinate: the
    inertia term, the pull of the personal best and the pull of the
    leader. *)
Definition updated_velocity (w c1 r1 c2 r2 cv bd cd ld : Q) : Q :=
  w * cv + c1 * r1 * (bd - cd) + c2 * r2 * (ld - cd).

(** [v] clamped to the interval [lo, hi]. *)
Definition clamped (lo hi v : Q) : Q := Qmax lo (Qmin hi v).

End NspsoSpec.

(** Further inputs of the examples on [gi_aco_mo]. *)

Module AcoCases.
Import Pagmo.

(** An algorithm as the single-objective constructor builds it, with the
    objective stopping criterion at [fstop]. *)
Definition colony_stopping_at (fstop : Q) (gen ker : nat)
  : @GiAcoMo.gi_aco_mo Reference.services :=
  {| GiAcoMo.m_gen := gen; GiAcoMo.m_acc := 1 # 2; GiAcoMo.m_fstop := fstop;
     GiAcoMo.m_impstop := 0; GiAcoMo.m_evalstop := 0;
     GiAcoMo.m_focus := 0; GiAcoMo.m_ker := ker; GiAcoMo.m_oracle := 1;
     GiAcoMo.m_paretomax := 0; GiAcoMo.m_epsilon := 0;
     GiAcoMo.m_e := @Pagmo.seeded Reference.services 7;
     GiAcoMo.m_seed := 7%nat;
     GiAcoMo.m_verbosity := 0%nat; GiAcoMo.m_log := [] |}.

(** Two feasible individuals on the problem with one inequality residual:
    the first has objective 3, the second objective 1. *)
Definition late_stopper : population :=
  {| get_x := [[5]; [7]]; get_f := [[3; -5]; [1; -5]] |}.

End AcoCases.

(** Further inputs of the examples on the pheromone values. *)

Module AcoArchives.
Import Pagmo.

(** An algorithm as the single-objective constructor builds it, with the
    given focus. *)
Definition colony_focused_on (focus : Q) (gen ker : nat)
  : @GiAcoMo.gi_aco_mo Reference.services :=
  {| GiAcoMo.m_gen := gen; GiAcoMo.m_acc := 1 # 2; GiAcoMo.m_fstop := 0;
     GiAcoMo.m_impstop := 0; GiAcoMo.m_evalstop := 0;
     GiAcoMo.m_focus := focus; GiAcoMo.m_ker := ker; GiAcoMo.m_oracle := 1;
     GiAcoMo.m_paretomax := 0; GiAcoMo.m_epsilon := 0;
     GiAcoMo.m_e := @Pagmo.seeded Reference.services 7;
     GiAcoMo.m_seed := 7%nat;
     GiAcoMo.m_verbosity := 0%nat; GiAcoMo.m_log := [] |}.

(** A row of the archive of a problem with one variable and a fitness
    vector of two entries. *)
Definition archive_row (penalty x f0 f1 : Q) : GiAcoMo.sa_row :=
  {| GiAcoMo.row_penalty := Fin penalty; GiAcoMo.row_cells := [x; f0; f1] |}.

(** Three rows at the positions 1, 4 and 9. *)
Definition spread_archive : list GiAcoMo.sa_row :=
  [archive_row (-2) 1 1 0; archive_row (-1) 4 1 0; archive_row 0 9 1 0].

End AcoArchives.

(** Further inputs of the examples on [nspso]. *)

Module NspsoCases.
Import Pagmo.

(** The line problem with its one variable declared an integer. *)
Definition integer_line : problem :=
  {| get_nx := 1; get_nix := 1; get_nobj := 2; get_nec := 0; get_nic := 0;
     get_nc := 0; get_lb := [0]; get_ub := [1];
     is_stochastic := false;
     fitness := fun x => match x with
                         | [v] => [v; 1 - v]
                         | _ => [0; 0]
                         end |}.

(** The working buffer of a swarm of two at rest. *)
Definition resting_pair : list Nspso.nspso_individual :=
  [NspsoInputs.particle (1 # 2) [1; 1] 0; NspsoInputs.particle 1 [2; 2] 0].

(** The state of the generation loop on that swarm. *)
Definition resting_swarm : @Nspso.swarm Reference.services :=
  {| Nspso.s_pop := NspsoInputs.duo_pop;
     Nspso.s_list := resting_pair;
     Nspso.s_e := @Pagmo.seeded Reference.services 5;
     Nspso.s_fevals := 0; Nspso.s_log := [] |}.

End NspsoCases.

(** * The niche count in words *)

Module NspsoNiche.
Section Neighbours.
Context {services : Pagmo.Services}.

(** The Euclidean distance of two points with as many coordinates: the
    square root of the sum, over the coordinates, of the squared
    differences. *)
Definition squared_difference (p : Q * Q) : Q :=
  (fst p - snd p) * (fst p - snd p).

Definition distance (x y : vector_double) : Q :=
  Pagmo.sqrt (fold_left Qplus (map squared_difference (combine x y)) 0).

(** [cj] lies at a distance below [delta] from [ci]. *)
Definition close_by (delta : Q) (ci cj : vector_double) : bool :=
  Qltb (distance ci cj) delta.

(** The number of chromosomes at a distance below [delta] from [ci]. *)
Definition neighbours (delta : Q) (chromosomes : list vector_double)
  (ci : vector_double) : nat :=
  length (filter (close_by delta ci) chromosomes).

End Neighbours.
End NspsoNiche.

(** * The screen of [gi_aco_mo] in words *)

Module AcoScreening.

(** The individual with fitness vector [fi] passes the two screening loops:
    no entry among 1 .. NEC exceeds [acc] in absolute value and no entry
    among 1 .. NIC reaches [-acc]. *)
Definition screened_in (acc : Q) (nec nic : nat) (fi : vector_double) : bool :=
  negb (existsb (fun k => Qltb acc (Qabs (nth k fi 0))) (seq 1 nec))
  && negb (existsb (fun k => Qle_bool (- acc) (nth k fi 0)) (seq 1 nic)).

End AcoScreening.

(** * Properties *)

Lemma Qltb_true (a b : Q) : Qltb a b = true <-> a < b.
Proof.
  unfold Qltb. rewrite negb_true_iff. split; intro H.
  - apply Qnot_le_lt. intro L. apply Qle_bool_iff in L. congruence.
  - destruct (Qle_bool b a) eqn:E; [|reflexivity].
    apply Qle_bool_iff in E. exfalso. exact (Qlt_not_le _ _ H E).
Qed.

Lemma Qltb_false (a b : Q) : Qltb a b = false <-> b <= a.
Proof.
  unfold Qltb. rewrite negb_false_iff. apply Qle_bool_iff.
Qed.

(** ** Running minimum and maximum of a loop *)

Section Folds.
Variable A : Type.
Variable g : A -> Q.

Lemma fold_min_lower (l : list A) (init : Q) :
  fold_left (MaxMin.min_step g) l init <= init /\
  forall a, In a l -> fold_left (MaxMin.min_step g) l init <= g a.
Proof.
  revert init. induction l as [|x l IH]; intro init; simpl.
  - split; [apply Qle_refl | intros a []].
  - destruct (IH ((MaxMin.min_step g) init x)) as [H1 H2].
    assert (Hs : (MaxMin.min_step g) init x <= init /\ (MaxMin.min_step g) init x <= g x).
    { unfold MaxMin.min_step. destruct (Qltb (g x) init) eqn:E.
      - apply Qltb_true in E. split; [apply Qlt_le_weak; exact E | apply Qle_refl].
      - apply Qltb_false in E. split; [apply Qle_refl | exact E]. }
    destruct Hs as [Hs1 Hs2]. split.
    + eapply Qle_trans; eassumption.
    + intros a [<-|Ha]; [eapply Qle_trans; eassumption | apply H2; exact Ha].
Qed.

Lemma fold_min_attained (l : list A) (init : Q) :
  fold_left (MaxMin.min_step g) l init = init \/
  exists a, In a l /\ fold_left (MaxMin.min_step g) l init = g a.
Proof.
  revert init. induction l as [|x l IH]; intro init; simpl.
  - left; reflexivity.
  - destruct (IH ((MaxMin.min_step g) init x)) as [H|[a [Ha H]]].
    + rewrite H. unfold MaxMin.min_step. destruct (Qltb (g x) init).
      * right. exists x. split; [left; reflexivity | reflexivity].
      * left; reflexivity.
    + right. exists a. split; [right; exact Ha | exact H].
Qed.

Variable skip : A -> bool.

Lemma fold_max_upper (l : list A) (init : Q) :
  init <= fold_left (MaxMin.max_step skip g) l init /\
  forall a, In a l -> skip a = false -> g a <= fold_left (MaxMin.max_step skip g) l init.
Proof.
  revert init. induction l as [|x l IH]; intro init; simpl.
  - split; [apply Qle_refl | intros a []].
  - destruct (IH ((MaxMin.max_step skip g) init x)) as [H1 H2].
    assert (Hs : init <= (MaxMin.max_step skip g) init x /\ (skip x = false -> g x <= (MaxMin.max_step skip g) init x)).
    { unfold MaxMin.max_step. destruct (skip x).
      - split; [apply Qle_refl | discriminate].
      - destruct (Qltb init (g x)) eqn:E.
        + apply Qltb_true in E. split; [apply Qlt_le_weak; exact E | intros _; apply Qle_refl].
        + apply Qltb_false in E. split; [apply Qle_refl | intros _; exact E]. }
    destruct Hs as [Hs1 Hs2]. split.
    + eapply Qle_trans; eassumption.
    + intros a [<-|Ha] Hk; [eapply Qle_trans; [apply Hs2; exact Hk | exact H1] | apply H2; assumption].
Qed.

Lemma fold_max_attained (l : list A) (init : Q) :
  fold_left (MaxMin.max_step skip g) l init = init \/
  exists a, In a l /\ skip a = false /\ fold_left (MaxMin.max_step skip g) l init = g a.
Proof.
  revert init. induction l as [|x l IH]; intro init; simpl.
  - left; reflexivity.
  - destruct (IH ((MaxMin.max_step skip g) init x)) as [H|[a [Ha [Hk H]]]].
    + rewrite H. unfold MaxMin.max_step. destruct (skip x) eqn:Ek.
      * left; reflexivity.
      * destruct (Qltb init (g x)).
        -- right. exists x. repeat split; [left; reflexivity | exact Ek].
        -- left; reflexivity.
    + right. exists a. repeat split; [right; exact Ha | exact Hk | exact H].
Qed.
End Folds.


(** ** The MaxMin kernel *)

Section MaxMinLoop.
Import MaxMin.
Variable fit : list vector_double.

Lemma successor_mod_other (np i : nat) :
  (2 <= np)%nat -> (i < np)%nat -> ((i + 1) mod np < np)%nat /\ (i + 1) mod np <> i.
Proof.
  intros Hnp Hi. split.
  - apply Nat.mod_upper_bound. lia.
  - destruct (Nat.eq_dec (i + 1) np) as [E|E].
    + rewrite E, Nat.Div0.mod_same. lia.
    + rewrite Nat.mod_small; lia.
Qed.

Lemma maxmin_at_upper (i j : nat) :
  (j < length fit)%nat -> j <> i -> minfit i j fit <= maxmin_at fit i.
Proof.
  intros Hj Hne. unfold maxmin_at.
  destruct (fold_max_upper (fun j => minfit i j fit) (Nat.eqb i) (seq 0 (length fit))
              (minfit i ((i + 1) mod length fit) fit)) as [_ H].
  apply (H j).
  - apply in_seq. lia.
  - apply Nat.eqb_neq. congruence.
Qed.

Lemma maxmin_at_attained (i : nat) :
  (2 <= length fit)%nat -> (i < length fit)%nat ->
  exists j, (j < length fit)%nat /\ j <> i /\ maxmin_at fit i = minfit i j fit.
Proof.
  intros Hnp Hi. unfold maxmin_at.
  destruct (fold_max_attained (fun j => minfit i j fit) (Nat.eqb i) (seq 0 (length fit))
              (minfit i ((i + 1) mod length fit) fit)) as [H|[j [Hj [Hk H]]]].
  - destruct (successor_mod_other Hnp Hi) as [Hlt Hne].
    exists ((i + 1) mod length fit)%nat. repeat split; assumption.
  - exists j. apply in_seq in Hj. apply Nat.eqb_neq in Hk.
    repeat split; [lia | congruence | exact H].
Qed.

Lemma compute_maxmin_nth (i : nat) :
  (i < length fit)%nat -> nth i (compute_maxmin fit) 0 = maxmin_at fit i.
Proof.
  intro Hi. unfold compute_maxmin.
  rewrite (nth_indep _ 0 (maxmin_at fit 0%nat)) by (rewrite length_map, length_seq; exact Hi).
  rewrite map_nth, seq_nth by exact Hi. reflexivity.
Qed.

End MaxMinLoop.

Section MaxMinFacts.
Import MaxMin.
Variable n : nat.
Variable fit : list vector_double.
Hypothesis Hrect : rectangular n fit.
Hypothesis Hn : (0 < n)%nat.

Lemma row_length (i : nat) : (i < length fit)%nat -> length (nth i fit []) = n.
Proof.
  intro Hi. apply Hrect. apply nth_In. exact Hi.
Qed.

Lemma minfit_lower (i j k : nat) :
  (i < length fit)%nat -> (k < n)%nat ->
  minfit i j fit <= cell fit i k - cell fit j k.
Proof.
  intros Hi Hk. unfold minfit. rewrite (row_length Hi).
  destruct (fold_min_lower (fun f => cell fit i f - cell fit j f) (seq 0 n)
              (cell fit i 0 - cell fit j 0)) as [_ H].
  apply (H k). apply in_seq. lia.
Qed.

Lemma minfit_attained (i j : nat) :
  (i < length fit)%nat ->
  exists k, (k < n)%nat /\ minfit i j fit = cell fit i k - cell fit j k.
Proof.
  intro Hi. unfold minfit. rewrite (row_length Hi).
  destruct (fold_min_attained (fun f => cell fit i f - cell fit j f) (seq 0 n)
              (cell fit i 0 - cell fit j 0)) as [H|[k [Hk H]]].
  - exists 0%nat. split; [exact Hn | exact H].
  - exists k. apply in_seq in Hk. split; [lia | exact H].
Qed.

Lemma minfit_negative_iff (i j : nat) :
  (i < length fit)%nat ->
  minfit i j fit < 0 <-> exists k, (k < n)%nat /\ cell fit i k < cell fit j k.
Proof.
  intro Hi. split.
  - intro H. destruct (minfit_attained j Hi) as [k [Hk E]].
    exists k. split; [exact Hk|]. rewrite E in H.
    apply Qlt_minus_iff in H. apply Qlt_minus_iff.
    setoid_replace (cell fit j k + - cell fit i k)
      with (0 + - (cell fit i k - cell fit j k)) by ring.
    exact H.
  - intros [k [Hk H]]. eapply Qle_lt_trans; [apply (minfit_lower j Hi Hk)|].
    apply Qlt_minus_iff.
    setoid_replace (0 + - (cell fit i k - cell fit j k))
      with (cell fit j k + - cell fit i k) by ring.
    apply Qlt_minus_iff in H. exact H.
Qed.

(** A row with a negative score is strictly better than every other row in
    some objective, and conversely. *)
Lemma maxmin_negative_iff (i : nat) :
  (2 <= length fit)%nat -> (i < length fit)%nat ->
  maxmin_at fit i < 0 <->
  forall j, (j < length fit)%nat -> j <> i ->
            exists k, (k < n)%nat /\ cell fit i k < cell fit j k.
Proof.
  intros Hnp Hi. split.
  - intros H j Hj Hne. apply (minfit_negative_iff j Hi).
    eapply Qle_lt_trans; [apply maxmin_at_upper; eassumption | exact H].
  - intro H. destruct (maxmin_at_attained fit Hnp Hi) as [j [Hj [Hne E]]].
    rewrite E. apply (minfit_negative_iff j Hi). apply H; assumption.
Qed.

End MaxMinFacts.

(** C6 (amended).  On a rectangular matrix with at least two rows and one
    objective, [compute_maxmin] leaves in entry [i] the maximum over
    [j <> i] of the minimum over [k] of [fit[i][k] - fit[j][k]]; that entry
    is negative exactly when row [i] is non-dominated and no other row
    carries the same fitness vector. *)
Theorem maxmin_negative_iff_strictly_non_dominated
  (n : nat) (fit : list vector_double) (i : nat) :
  MaxMin.rectangular n fit -> (0 < n)%nat ->
  (2 <= length fit)%nat -> (i < length fit)%nat ->
  let m := nth i (MaxMin.compute_maxmin fit) 0 in
  (forall j, (j < length fit)%nat -> j <> i -> MaxMin.minfit i j fit <= m) /\
  (exists j, (j < length fit)%nat /\ j <> i /\ m = MaxMin.minfit i j fit) /\
  (forall j,
      (forall k, (k < n)%nat ->
                 MaxMin.minfit i j fit <= MaxMin.cell fit i k - MaxMin.cell fit j k) /\
      (exists k, (k < n)%nat /\
                 MaxMin.minfit i j fit = MaxMin.cell fit i k - MaxMin.cell fit j k)) /\
  (m < 0 <->
   MaxMin.non_dominated n fit i /\
   forall j, (j < length fit)%nat -> j <> i -> ~ MaxMin.same_row n fit j i).
Proof.
  intros Hrect Hn Hnp Hi m. subst m.
  rewrite (@compute_maxmin_nth fit i Hi).
  split; [| split; [| split]].
  - intros j Hj Hne. apply maxmin_at_upper; assumption.
  - apply maxmin_at_attained; assumption.
  - intro j. split.
    + intros k Hk. apply (minfit_lower Hrect Hn j Hi Hk).
    + apply (minfit_attained Hrect Hn j Hi).
  - rewrite (maxmin_negative_iff Hrect Hn Hnp Hi). split.
    + intro H. split.
      * intros j Hj Hne [Hall _].
        destruct (H j Hj Hne) as [k [Hk Hlt]].
        exact (Qlt_not_le _ _ Hlt (Hall k Hk)).
      * intros j Hj Hne Hsame.
        destruct (H j Hj Hne) as [k [Hk Hlt]].
        apply (Qlt_not_eq _ _ Hlt). symmetry. apply Hsame. exact Hk.
    + intros [Hnd Hdup] j Hj Hne.
      apply (minfit_negative_iff Hrect Hn j Hi).
      destruct (Qlt_le_dec (MaxMin.minfit i j fit) 0) as [Hneg|Hpos]; [exact Hneg|].
      exfalso.
      assert (Hle : forall k, (k < n)%nat -> MaxMin.cell fit j k <= MaxMin.cell fit i k).
      { intros k Hk. pose proof (minfit_lower Hrect Hn j Hi Hk) as L.
        apply Qle_minus_iff.
        eapply Qle_trans; [exact Hpos|]. eapply Qle_trans; [exact L|].
        unfold Qminus. apply Qle_refl. }
      destruct (Qlt_le_dec (MaxMin.minfit j i fit) 0) as [Hneg'|Hpos'].
      * apply (minfit_negative_iff Hrect Hn i Hj) in Hneg'.
        apply (Hnd j Hj Hne). split; assumption.
      * apply (Hdup j Hj Hne). intros k Hk. apply Qle_antisym; [apply Hle; exact Hk|].
        pose proof (minfit_lower Hrect Hn i Hj Hk) as L.
        apply Qle_minus_iff.
        eapply Qle_trans; [exact Hpos'|]. eapply Qle_trans; [exact L|].
        unfold Qminus. apply Qle_refl.
Qed.

(** The scores of scenario 7: every point of the front scores below zero. *)
Lemma maxmin_front_witness :
  let m := nth 0 (MaxMin.compute_maxmin MaxMinInputs.front_fit) 0 in
  (forall j, (j < 3)%nat -> j <> 0%nat -> MaxMin.minfit 0 j MaxMinInputs.front_fit <= m) /\
  (exists j, (j < 3)%nat /\ j <> 0%nat /\ m = MaxMin.minfit 0 j MaxMinInputs.front_fit) /\
  (forall j,
      (forall k, (k < 2)%nat ->
                 MaxMin.minfit 0 j MaxMinInputs.front_fit
                 <= MaxMin.cell MaxMinInputs.front_fit 0 k - MaxMin.cell MaxMinInputs.front_fit j k) /\
      (exists k, (k < 2)%nat /\
                 MaxMin.minfit 0 j MaxMinInputs.front_fit
                 = MaxMin.cell MaxMinInputs.front_fit 0 k - MaxMin.cell MaxMinInputs.front_fit j k)) /\
  (m < 0 <->
   MaxMin.non_dominated 2 MaxMinInputs.front_fit 0 /\
   forall j, (j < 3)%nat -> j <> 0%nat -> ~ MaxMin.same_row 2 MaxMinInputs.front_fit j 0).
Proof.
  apply (@maxmin_negative_iff_strictly_non_dominated 2 MaxMinInputs.front_fit 0).
  - intros r [<-|[<-|[<-|[]]]]; reflexivity.
  - lia.
  - simpl; lia.
  - simpl; lia.
Defined.

(** C6 as stated fails on duplicated rows: row 0 of [twin_fit] is
    non-dominated, yet its score is 0. *)
Lemma maxmin_duplicate_rows_counterexample :
  ~ (nth 0 (MaxMin.compute_maxmin MaxMinInputs.twin_fit) 0 < 0 <->
     MaxMin.non_dominated 2 MaxMinInputs.twin_fit 0).
Proof.
  intros [_ H].
  assert (Hnd : MaxMin.non_dominated 2 MaxMinInputs.twin_fit 0).
  { intros j Hj Hne [_ [k [Hk Hlt]]].
    simpl in Hj.
    assert (j = 1%nat) by lia. subst j.
    assert (Hk' : k = 0%nat \/ k = 1%nat) by lia.
    destruct Hk' as [-> | ->]; vm_compute in Hlt; discriminate. }
  specialize (H Hnd). vm_compute in H. discriminate.
Qed.

(** ** Control flow *)

Section FlowFacts.
Import Pagmo.
Variables R A B : Type.

Lemma bind_return_inv (m : flow R A) (k : A -> flow R B) (w : exit_point) (r : R) :
  bind m k = Return w r ->
  m = Return w r \/ exists a, m = Go a /\ k a = Return w r.
Proof.
  destruct m as [a| w' r'| | |]; simpl; intro H; try discriminate.
  - right. exists a. split; [reflexivity | exact H].
  - left. injection H as -> ->. reflexivity.
Qed.

Lemma checked_never_returns (o : option A) (w : exit_point) (r : R) :
  checked o = Return w r -> False.
Proof.
  destruct o; discriminate.
Qed.

End FlowFacts.

(** ** [gi_aco_mo]: the multi-objective branch *)

Section AcoFacts.
Import Pagmo.
Context {services : Services}.

Lemma unsigned_succ_small (gen : N) :
  (gen < 2 ^ 32 - 1)%N -> unsigned_succ gen = (gen + 1)%N.
Proof.
  intro H. unfold unsigned_succ. apply N.mod_small. lia.
Qed.

Lemma unsigned_succ_bound (gen : N) : (unsigned_succ gen < 2 ^ 32)%N.
Proof.
  unfold unsigned_succ. apply N.mod_lt. discriminate.
Qed.

(** The generation loop on a problem with more than one objective: every
    iteration falls through with the colony as it found it. *)
Lemma aco_main_loop_multi_objective
  (a : GiAcoMo.gi_aco_mo) (prob : problem) (NP : nat) (fuel : nat) :
  (1 < get_nobj prob)%nat ->
  (N.of_nat (GiAcoMo.m_gen a) < 2 ^ 32 - 1)%N ->
  forall (gen : N) (c : GiAcoMo.colony),
    (N.of_nat (GiAcoMo.m_gen a) + 1 <= gen + N.of_nat fuel)%N ->
    GiAcoMo.main_loop fuel a prob NP gen c = Go c.
Proof.
  intros Hobj Hmax. apply Nat.ltb_lt in Hobj.
  induction fuel as [|fuel IH]; intros gen c Hfuel; cbn [GiAcoMo.main_loop].
  - replace (gen <=? N.of_nat (GiAcoMo.m_gen a))%N with false
      by (symmetry; apply N.leb_gt; lia).
    reflexivity.
  - destruct (gen <=? N.of_nat (GiAcoMo.m_gen a))%N eqn:E; [|reflexivity].
    apply N.leb_le in E.
    unfold GiAcoMo.generation. rewrite Hobj. cbn [bind].
    rewrite unsigned_succ_small by lia.
    apply IH. lia.
Qed.

(** With [m_gen] at the largest [unsigned], the test [gen <= m_gen] holds of
    every value of the counter. *)
Lemma aco_main_loop_multi_objective_spins
  (a : GiAcoMo.gi_aco_mo) (prob : problem) (NP : nat) (fuel : nat) :
  (1 < get_nobj prob)%nat ->
  (2 ^ 32 - 1 <= N.of_nat (GiAcoMo.m_gen a))%N ->
  forall (gen : N) (c : GiAcoMo.colony),
    (gen < 2 ^ 32)%N ->
    GiAcoMo.main_loop fuel a prob NP gen c = Spin.
Proof.
  intros Hobj Hmax. apply Nat.ltb_lt in Hobj.
  induction fuel as [|fuel IH]; intros gen c Hgen; cbn [GiAcoMo.main_loop];
    replace (gen <=? N.of_nat (GiAcoMo.m_gen a))%N with true
      by (symmetry; apply N.leb_le; lia).
  - reflexivity.
  - unfold GiAcoMo.generation. rewrite Hobj. cbn [bind].
    apply IH. apply unsigned_succ_bound.
Qed.

(** C10 (amended).  On a problem with more than one objective that is not
    stochastic and declares no constraint, with [0 < gen < 2^32 - 1], a
    non-empty population and [ker <= N], [evolve] returns the population it
    was given, decision vectors and fitness vectors alike, and the
    evaluation counter of the problem is the one found on entry.  The loop
    runs [gen] times; [fuel] is any bound on the iterations that allows as
    many. *)
Theorem aco_evolve_multi_objective_noop
  (fuel : nat) (a : GiAcoMo.gi_aco_mo) (prob : problem) (pop : population)
  (fevals : nat) :
  (1 < get_nobj prob)%nat ->
  (0 < GiAcoMo.m_gen a)%nat ->
  (N.of_nat (GiAcoMo.m_gen a) < 2 ^ 32 - 1)%N ->
  (GiAcoMo.m_gen a <= fuel)%nat ->
  (0 < size pop)%nat ->
  get_nc prob = 0%nat ->
  (GiAcoMo.m_ker a <= size pop)%nat ->
  is_stochastic prob = false ->
  GiAcoMo.evolve fuel a prob pop fevals =
  (GiAcoMo.clear_log a,
   Returned LoopDone {| ev_pop := pop; ev_fevals := fevals; ev_log := [] |}).
Proof.
  intros Hobj Hgen Hmax Hfuel Hsize Hnc Hker Hstoch.
  unfold GiAcoMo.evolve.
  replace (size pop =? 0)%nat with false by (symmetry; apply Nat.eqb_neq; lia).
  rewrite Hstoch, Hnc. simpl.
  replace (GiAcoMo.m_gen a =? 0)%nat with false by (symmetry; apply Nat.eqb_neq; lia).
  replace (size pop <? GiAcoMo.m_ker a)%nat with false by (symmetry; apply Nat.ltb_ge; lia).
  rewrite aco_main_loop_multi_objective; [reflexivity | exact Hobj | exact Hmax |].
  cbn [GiAcoMo.m_gen GiAcoMo.clear_log]. lia.
Qed.

(** With [gen = 2^32 - 1] the counter of the generation loop wraps around
    before the test [gen <= m_gen] can fail: on such a problem the call does
    not return, whatever the bound on the iterations. *)
Lemma aco_multi_objective_last_gen_never_returns
  (fuel : nat) (a : GiAcoMo.gi_aco_mo) (prob : problem) (pop : population)
  (fevals : nat) :
  (1 < get_nobj prob)%nat ->
  (2 ^ 32 - 1 <= N.of_nat (GiAcoMo.m_gen a))%N ->
  (0 < size pop)%nat ->
  get_nc prob = 0%nat ->
  (GiAcoMo.m_ker a <= size pop)%nat ->
  is_stochastic prob = false ->
  snd (GiAcoMo.evolve fuel a prob pop fevals) = Diverged.
Proof.
  intros Hobj Hmax Hsize Hnc Hker Hstoch.
  unfold GiAcoMo.evolve.
  replace (size pop =? 0)%nat with false by (symmetry; apply Nat.eqb_neq; lia).
  rewrite Hstoch, Hnc. simpl.
  replace (GiAcoMo.m_gen a =? 0)%nat with false by (symmetry; apply Nat.eqb_neq; lia).
  replace (size pop <? GiAcoMo.m_ker a)%nat with false by (symmetry; apply Nat.ltb_ge; lia).
  rewrite aco_main_loop_multi_objective_spins;
    [reflexivity | exact Hobj | exact Hmax | reflexivity].
Qed.

End AcoFacts.

(** The multi-objective run of the reference colony gives its input back. *)
Lemma aco_multi_objective_witness :
  GiAcoMo.evolve 3 (AcoInputs.colony_of 3 1 1 2) (AcoInputs.two_objectives false)
    AcoInputs.pair_pop 11 =
  (GiAcoMo.clear_log (AcoInputs.colony_of 3 1 1 2),
   Pagmo.Returned Pagmo.LoopDone
     {| Pagmo.ev_pop := AcoInputs.pair_pop; Pagmo.ev_fevals := 11;
        Pagmo.ev_log := [] |}).
Proof.
  apply aco_evolve_multi_objective_noop; simpl; try reflexivity;
    unfold Pagmo.size; simpl; lia.
Defined.

(** C10 as stated leaves the stochastic problems in: there [evolve] throws
    and returns no population. *)
Lemma aco_multi_objective_stochastic_counterexample :
  ((1 < Pagmo.get_nobj (AcoInputs.two_objectives true))%nat /\
   (0 < GiAcoMo.m_gen (AcoInputs.colony_of 3 1 1 2))%nat /\
   (0 < Pagmo.size AcoInputs.pair_pop)%nat /\
   Pagmo.get_nc (AcoInputs.two_objectives true) = 0%nat /\
   (GiAcoMo.m_ker (AcoInputs.colony_of 3 1 1 2) <= Pagmo.size AcoInputs.pair_pop)%nat) /\
  ~ (exists fuel why r,
        snd (GiAcoMo.evolve fuel (AcoInputs.colony_of 3 1 1 2)
               (AcoInputs.two_objectives true) AcoInputs.pair_pop 11)
        = Pagmo.Returned why r).
Proof.
  split.
  - unfold Pagmo.size; simpl. repeat split; lia.
  - intros [fuel [why [r H]]]. vm_compute in H. discriminate.
Qed.

(** ** [gi_aco_mo]: the stopping counters *)

(** Takes apart a hypothesis that says a sequence of statements ends in a
    [return]. *)
Ltac flow_inv H :=
  repeat (cbv beta in H;
          match type of H with
          | Pagmo.bind _ _ = Pagmo.Return _ _ =>
              apply bind_return_inv in H; destruct H as [H | [? [_ H]]]
          | Pagmo.checked _ = Pagmo.Return _ _ =>
              exfalso; exact (checked_never_returns _ H)
          | Pagmo.Throw = Pagmo.Return _ _ => discriminate H
          | Pagmo.Go _ = Pagmo.Return _ _ => discriminate H
          | (if ?b then _ else _) = Pagmo.Return _ _ => destruct b eqn:?
          | (let '(_, _) := ?p in _) = Pagmo.Return _ _ => destruct p
          end).

Section AcoStopping.
Import Pagmo.
Context {services : Services}.

Lemma screen_loop_exit (R : Type) (a : GiAcoMo.gi_aco_mo) (prob : problem) (ret : R)
  (fit : list vector_double) (idx : list nat) (penalties : list xdouble)
  (feasible_set : nat) (w : exit_point) (r : R) :
  GiAcoMo.screen_loop a prob ret fit idx penalties feasible_set = Return w r ->
  w = StopFstop /\ r = ret.
Proof.
  revert penalties feasible_set.
  induction idx as [|i idx IH]; intros penalties feasible_set H; simpl in H.
  - discriminate.
  - flow_inv H;
      try (injection H as <- <-; split; reflexivity);
      try (eapply IH; eassumption).
Qed.

Lemma generation_exit (a : GiAcoMo.gi_aco_mo) (prob : problem) (NP gen : nat)
  (c : GiAcoMo.colony) (w : exit_point) (r : GiAcoMo.colony) :
  (0 <= GiAcoMo.m_impstop a)%Z -> (0 <= GiAcoMo.m_evalstop a)%Z ->
  GiAcoMo.generation a prob NP gen c = Return w r -> w = StopFstop.
Proof.
  intros Himp Heval H. unfold GiAcoMo.generation in H.
  destruct (1 <? get_nobj prob)%nat; [discriminate|].
  destruct (negb (GiAcoMo.m_impstop a =? 0)%Z && (GiAcoMo.m_impstop a <=? 0)%Z) eqn:E1.
  { apply andb_true_iff in E1. destruct E1 as [E1 E2].
    apply negb_true_iff, Z.eqb_neq in E1. apply Z.leb_le in E2. lia. }
  destruct (negb (GiAcoMo.m_evalstop a =? 0)%Z && (GiAcoMo.m_evalstop a <=? 0)%Z) eqn:E3.
  { apply andb_true_iff in E3. destruct E3 as [E3 E4].
    apply negb_true_iff, Z.eqb_neq in E3. apply Z.leb_le in E4. lia. }
  apply bind_return_inv in H. destruct H as [H | [[penalties feasible_set] [_ H]]].
  - apply screen_loop_exit in H. apply H.
  - exfalso. flow_inv H.
Qed.

(** A [return] of the generation loop is the [return] of one of its
    iterations. *)
Lemma aco_main_loop_returns (a : GiAcoMo.gi_aco_mo) (prob : problem) (NP : nat)
  (fuel : nat) :
  forall (gen : N) (c : GiAcoMo.colony) (w : exit_point) (r : GiAcoMo.colony),
    GiAcoMo.main_loop fuel a prob NP gen c = Return w r ->
    exists gen' c', GiAcoMo.generation a prob NP gen' c' = Return w r.
Proof.
  induction fuel as [|fuel IH]; intros gen c w r H; cbn [GiAcoMo.main_loop] in H;
    destruct (gen <=? N.of_nat (GiAcoMo.m_gen a))%N; try discriminate.
  apply bind_return_inv in H. destruct H as [H | [c' [_ H]]].
  - eexists. eexists. exact H.
  - eapply IH. exact H.
Qed.

Lemma aco_main_loop_exit (a : GiAcoMo.gi_aco_mo) (prob : problem) (NP : nat)
  (fuel : nat) (gen : N) (c : GiAcoMo.colony) (w : exit_point)
  (r : GiAcoMo.colony) :
  (0 <= GiAcoMo.m_impstop a)%Z -> (0 <= GiAcoMo.m_evalstop a)%Z ->
  GiAcoMo.main_loop fuel a prob NP gen c = Return w r -> w = StopFstop.
Proof.
  intros Himp Heval H.
  apply aco_main_loop_returns in H. destruct H as [gen' [c' H]].
  eapply generation_exit; eassumption.
Qed.

(** C4, as the code has it.  The counters are locals of the loop body and
    start from 0 in every generation, so for stopping thresholds that are
    not negative the two tests on them never succeed: [evolve] never leaves
    through the [return] of [impstop] nor through the one of [evalstop]. *)
Theorem aco_stop_counters_never_fire
  (fuel : nat) (a : GiAcoMo.gi_aco_mo) (prob : problem) (pop : population)
  (fevals : nat) :
  (0 <= GiAcoMo.m_impstop a)%Z -> (0 <= GiAcoMo.m_evalstop a)%Z ->
  forall r,
    snd (GiAcoMo.evolve fuel a prob pop fevals) <> Returned StopImpstop r /\
    snd (GiAcoMo.evolve fuel a prob pop fevals) <> Returned StopEvalstop r.
Proof.
  intros Himp Heval r.
  assert (Hany : forall w, snd (GiAcoMo.evolve fuel a prob pop fevals) = Returned w r ->
                           w = NothingToDo \/ w = LoopDone \/ w = StopFstop).
  { intros w H. unfold GiAcoMo.evolve in H.
    destruct (size pop =? 0)%nat; [discriminate|].
    destruct (is_stochastic prob); [discriminate|].
    destruct (negb (get_nc prob =? 0)%nat); [discriminate|].
    destruct (GiAcoMo.m_gen a =? 0)%nat.
    { simpl in H. injection H as <- _. left; reflexivity. }
    destruct (size pop <? GiAcoMo.m_ker a)%nat; [discriminate|].
    simpl in H.
    destruct (GiAcoMo.main_loop _ _ _ _ _) as [c|w' c| | |] eqn:E; try discriminate.
    - injection H as <- _. right; left; reflexivity.
    - injection H as <- _. right; right.
      eapply aco_main_loop_exit; [ | | exact E]; assumption. }
  split; intro H; apply Hany in H; destruct H as [H|[H|H]]; discriminate.
Qed.

End AcoStopping.

(** With [impstop = 1] and two generations, the first generation fills the
    archive and the second one is entered in full. *)
Lemma aco_stop_counters_witness :
  snd (GiAcoMo.evolve 2 (AcoInputs.colony_of 2 1 0 2) AcoInputs.one_inequality
         AcoInputs.trio_pop 0)
  <> Pagmo.Returned Pagmo.StopImpstop
       {| Pagmo.ev_pop := AcoInputs.trio_pop; Pagmo.ev_fevals := 0;
          Pagmo.ev_log := [] |} /\
  snd (GiAcoMo.evolve 2 (AcoInputs.colony_of 2 1 0 2) AcoInputs.one_inequality
         AcoInputs.trio_pop 0)
  <> Pagmo.Returned Pagmo.StopEvalstop
       {| Pagmo.ev_pop := AcoInputs.trio_pop; Pagmo.ev_fevals := 0;
          Pagmo.ev_log := [] |}.
Proof.
  apply aco_stop_counters_never_fire; simpl; lia.
Defined.

(** ** [gi_aco_mo]: the feasibility screen and the penalties *)

Section FlowGo.
Import Pagmo.
Variables R A B : Type.

Lemma bind_go_inv (m : flow R A) (k : A -> flow R B) (b : B) :
  bind m k = Go b -> exists a, m = Go a /\ k a = Go b.
Proof.
  destruct m as [a| w' r'| | |]; simpl; intro H; try discriminate.
  exists a. split; [reflexivity | exact H].
Qed.

End FlowGo.

(** Takes apart a hypothesis that says a sequence of statements falls
    through. *)
Ltac flow_go H :=
  repeat (cbv beta in H;
          match type of H with
          | Pagmo.bind _ _ = Pagmo.Go _ =>
              let E := fresh "E" in
              apply bind_go_inv in H; destruct H as [? [E H]]
          | Pagmo.Throw = Pagmo.Go _ => discriminate H
          | Pagmo.Undefined = Pagmo.Go _ => discriminate H
          | Pagmo.Return _ _ = Pagmo.Go _ => discriminate H
          | (if ?b then _ else _) = Pagmo.Go _ => destruct b eqn:?
          | (let '(_, _) := ?p in _) = Pagmo.Go _ => destruct p
          end).

Section AcoScreen.
Import Pagmo.
Context {services : Services}.

Lemma screen_loop_appends (R : Type) (a : GiAcoMo.gi_aco_mo) (prob : problem)
  (ret : R) (fit : list vector_double) (idx : list nat) :
  forall (penalties : list xdouble) (feasible_set : nat)
         (penalties' : list xdouble) (feasible_set' : nat),
    GiAcoMo.screen_loop a prob ret fit idx penalties feasible_set
    = Go (penalties', feasible_set') ->
    exists tail, penalties' = penalties ++ tail /\ length tail = length idx.
Proof.
  induction idx as [|i idx IH]; intros penalties feasible_set penalties' feasible_set' H;
    simpl in H.
  - injection H as <- _. exists []. split; [symmetry; apply app_nil_r | reflexivity].
  - flow_go H;
      apply IH in H; destruct H as [tail [-> Hlen]]; unfold Vec.push_back;
      rewrite <- app_assoc; simpl;
      eexists; (split; [reflexivity | simpl; rewrite Hlen; reflexivity]).
Qed.

(** C5, as the code has it.  The vector of penalties is created with [NP]
    zero entries and every individual appends one more: when the loop over
    the individuals is through, the vector holds [2 * NP] entries, the first
    [NP] of them 0. *)
Theorem aco_penalties_twice_population
  (R : Type) (a : GiAcoMo.gi_aco_mo) (prob : problem) (ret : R)
  (fit : list vector_double) (NP : nat)
  (penalties : list xdouble) (feasible_set : nat) :
  GiAcoMo.screen_loop a prob ret fit (seq 0 NP) (repeat (Fin 0) NP) 0
  = Go (penalties, feasible_set) ->
  length penalties = (2 * NP)%nat /\
  firstn NP penalties = repeat (Fin 0) NP.
Proof.
  intro H. apply screen_loop_appends in H. destruct H as [tail [-> Hlen]].
  rewrite length_seq in Hlen. split.
  - rewrite length_app, repeat_length, Hlen. lia.
  - rewrite firstn_app, repeat_length, Nat.sub_diag. simpl.
    rewrite app_nil_r. apply firstn_all2. rewrite repeat_length. lia.
Qed.

End AcoScreen.

(** Two feasible individuals leave four penalties. *)
Lemma aco_penalties_witness :
  length [Fin 0; Fin 0; Fin (-1); Fin 0] = (2 * 2)%nat /\
  firstn 2 [Fin 0; Fin 0; Fin (-1); Fin 0] = repeat (Fin 0) 2.
Proof.
  apply (@aco_penalties_twice_population Reference.services unit
           (AcoInputs.colony_of 1 1 1 2) AcoInputs.one_inequality tt
           (Pagmo.get_f AcoInputs.feasible_pair) 2 _ 2%nat).
  vm_compute. reflexivity.
Defined.

(** The individual [[1; 0; -5]] is feasible in the words of the
    specification; the screen of the code tests the inequality on entry 1,
    the equality residual, and stores an infinite penalty. *)
Lemma aco_screen_reads_equality_residual :
  AcoSpec.feasible (1 # 2) 1 1 1 [1; 0; -5] = true /\
  GiAcoMo.screen_loop (AcoInputs.colony_of 1 1 1 1) AcoInputs.two_residuals tt
    (Pagmo.get_f AcoInputs.solo_pop) (seq 0 1) (repeat (Fin 0) 1) 0
  = Pagmo.Go ([Fin 0; Inf], 0%nat).
Proof.
  split; vm_compute; reflexivity.
Qed.

(** ** Checked vectors *)

Section VecFacts.
Variable A : Type.

Lemma vec_set_none (v : list A) (i : nat) (x : A) :
  (length v <= i)%nat -> Vec.set v i x = None.
Proof.
  revert i. induction v as [|h t IH]; intros i H; simpl.
  - reflexivity.
  - destruct i as [|i]; simpl in H; [lia|].
    rewrite IH by lia. reflexivity.
Qed.

Lemma vec_set_some (v : list A) (i : nat) (x : A) :
  (i < length v)%nat -> exists v', Vec.set v i x = Some v'.
Proof.
  revert i. induction v as [|h t IH]; intros i H; simpl in *.
  - lia.
  - destruct i as [|i]; [eexists; reflexivity|].
    destruct (IH i) as [t' E]; [lia|]. rewrite E. eexists; reflexivity.
Qed.

Lemma vec_set_length (v v' : list A) (i : nat) (x : A) :
  Vec.set v i x = Some v' -> length v' = length v.
Proof.
  revert i v'. induction v as [|h t IH]; intros i v' H; simpl in H.
  - discriminate.
  - destruct i as [|i].
    + injection H as <-. reflexivity.
    + destruct (Vec.set t i x) as [t'|] eqn:E; [|discriminate].
      injection H as <-. simpl. f_equal. eapply IH; eassumption.
Qed.

Lemma vec_get_set_same (v v' : list A) (i : nat) (x : A) :
  Vec.set v i x = Some v' -> Vec.get v' i = Some x.
Proof.
  revert i v'. induction v as [|h t IH]; intros i v' H; simpl in H.
  - discriminate.
  - destruct i as [|i].
    + injection H as <-. reflexivity.
    + destruct (Vec.set t i x) as [t'|] eqn:E; [|discriminate].
      injection H as <-. simpl. eapply IH; eassumption.
Qed.

Lemma vec_get_set_other (v v' : list A) (i j : nat) (x : A) :
  Vec.set v i x = Some v' -> j <> i -> Vec.get v' j = Vec.get v j.
Proof.
  revert i j v'. induction v as [|h t IH]; intros i j v' H Hne; simpl in H.
  - discriminate.
  - destruct i as [|i].
    + injection H as <-. destruct j as [|j]; [congruence | reflexivity].
    + destruct (Vec.set t i x) as [t'|] eqn:E; [|discriminate].
      injection H as <-. destruct j as [|j]; [reflexivity|].
      simpl. eapply IH; [eassumption | congruence].
Qed.

(** An entry of the vector after a store is the stored value or an entry of
    the vector before. *)
Lemma vec_set_in (v v' : list A) (i : nat) (x y : A) :
  Vec.set v i x = Some v' -> In y v' -> y = x \/ In y v.
Proof.
  revert i v'. induction v as [|h t IH]; intros i v' H Hy; simpl in H.
  - discriminate.
  - destruct i as [|i].
    + injection H as <-. destruct Hy as [<-|Hy]; [left; reflexivity | right; right; exact Hy].
    + destruct (Vec.set t i x) as [t'|] eqn:E; [|discriminate].
      injection H as <-. destruct Hy as [<-|Hy]; [right; left; reflexivity|].
      destruct (IH _ _ E Hy) as [->|Ht]; [left; reflexivity | right; right; exact Ht].
Qed.

End VecFacts.

(** Takes apart a hypothesis that says a sequence of checked accesses
    succeeds. *)
Ltac checked_inv H :=
  repeat (cbv beta in H;
          match type of H with
          | obind ?m _ = Some _ =>
              let E := fresh "E" in
              destruct m eqn:E; simpl obind in H; [|discriminate H]
          | None = Some _ => discriminate H
          | (if ?b then _ else _) = Some _ => destruct b eqn:?
          | (let '(_, _) := ?p in _) = Some _ => destruct p
          end).

(** ** [gi_aco_mo]: the first filling of the archive *)

Section AcoArchive.
Import Pagmo.
Context {services : Services}.

Lemma find_position_extends (j : nat) (sj : xdouble) (penalties : list xdouble) :
  forall (i : nat) (sort_list : list nat),
  exists tail, GiAcoMo.find_position j sj penalties i sort_list = sort_list ++ tail.
Proof.
  induction penalties as [|p rest IH]; intros i sort_list; simpl.
  - exists []. symmetry. apply app_nil_r.
  - destruct (xeqb sj p && negb (is_inf sj)).
    + destruct (j =? 0)%nat.
      * eexists. reflexivity.
      * destruct (GiAcoMo.listed i sort_list); [apply IH | eexists; reflexivity].
    + apply IH.
Qed.

Lemma build_sort_list_extends (sorted_penalties penalties : list xdouble) :
  forall (j : nat) (sort_list : list nat),
  exists tail,
    GiAcoMo.build_sort_list sorted_penalties j penalties sort_list = sort_list ++ tail.
Proof.
  induction sorted_penalties as [|sj rest IH]; intros j sort_list; simpl.
  - exists []. symmetry. apply app_nil_r.
  - destruct (find_position_extends j sj penalties 0 sort_list) as [t1 ->].
    destruct (IH (S j) (sort_list ++ t1)) as [t2 ->].
    exists (t1 ++ t2). symmetry. apply app_assoc.
Qed.

(** The positions pushed by the loop come after the [penalties.size()]
    zeros the vector [sort_list] is created with. *)
Lemma sort_list_starts_with_zeros (sorted_penalties penalties : list xdouble) (i : nat) :
  (i < length penalties)%nat ->
  Vec.get (GiAcoMo.build_sort_list sorted_penalties 0 penalties
             (repeat 0%nat (length penalties))) i = Some 0%nat.
Proof.
  intro Hi.
  destruct (build_sort_list_extends sorted_penalties penalties 0
              (repeat 0%nat (length penalties))) as [tail ->].
  unfold Vec.get. rewrite nth_error_app1 by (rewrite repeat_length; exact Hi).
  apply nth_error_repeat. exact Hi.
Qed.

Lemma init_SA_frame (penalties sorted_penalties : list xdouble) (sort_list : list nat)
  (X fit : list vector_double) (idx : list nat) :
  forall (SA SA' : list GiAcoMo.sa_row) (i : nat),
    GiAcoMo.init_SA penalties sorted_penalties sort_list X fit idx SA = Some SA' ->
    ~ In i idx -> Vec.get SA' i = Vec.get SA i.
Proof.
  induction idx as [|k idx IH]; intros SA SA' i H Hi; simpl in H.
  - injection H as <-. reflexivity.
  - checked_inv H. rewrite (IH _ _ i H) by (intro; apply Hi; right; assumption).
    eapply vec_get_set_other; [eassumption|]. intros ->. apply Hi. left; reflexivity.
Qed.

Lemma init_SA_rows (penalties sorted_penalties : list xdouble) (sort_list : list nat)
  (X fit : list vector_double) (idx : list nat) :
  (forall i, In i idx -> Vec.get sort_list i = Some 0%nat) ->
  forall (SA SA' : list GiAcoMo.sa_row) (i : nat) (row : GiAcoMo.sa_row),
    GiAcoMo.init_SA penalties sorted_penalties sort_list X fit idx SA = Some SA' ->
    In i idx -> Vec.get SA' i = Some row ->
    exists x0 f0,
      Vec.get X 0 = Some x0 /\ Vec.get fit 0 = Some f0 /\
      GiAcoMo.row_cells row = x0 ++ f0.
Proof.
  intro Hzero.
  induction idx as [|k idx IH]; intros SA SA' i row H Hi Hrow; simpl in H.
  - destruct Hi.
  - assert (Hk : Vec.get sort_list k = Some 0%nat) by (apply Hzero; left; reflexivity).
    assert (Hrest : forall i, In i idx -> Vec.get sort_list i = Some 0%nat)
      by (intros; apply Hzero; right; assumption).
    checked_inv H.
    destruct (in_dec Nat.eq_dec i idx) as [Hin|Hout].
    + eapply (IH Hrest); eassumption.
    + destruct Hi as [->|Hi]; [|contradiction].
      erewrite init_SA_frame in Hrow; [| exact H | exact Hout].
      erewrite vec_get_set_same in Hrow by eassumption.
      injection Hrow as <-. simpl.
      injection Hk as ->.
      eexists; eexists. repeat split; eassumption.
Qed.

(** C3, as the code has it.  In the first generation every row of the
    archive receives the decision vector and the fitness vector of the
    individual [sort_list[i]], and for [i < m_ker <= penalties.size()] that
    entry is one of the zeros [sort_list] was created with: every row holds
    individual 0, feasible or not. *)
Theorem aco_first_archive_holds_individual_zero
  (penalties sorted_penalties : list xdouble) (X fit : list vector_double)
  (ker : nat) (SA SA' : list GiAcoMo.sa_row) (i : nat) (row : GiAcoMo.sa_row) :
  (ker <= length penalties)%nat ->
  GiAcoMo.init_SA penalties sorted_penalties
    (GiAcoMo.build_sort_list sorted_penalties 0 penalties
       (repeat 0%nat (length penalties)))
    X fit (seq 0 ker) SA = Some SA' ->
  (i < ker)%nat ->
  Vec.get SA' i = Some row ->
  exists x0 f0,
    Vec.get X 0 = Some x0 /\ Vec.get fit 0 = Some f0 /\
    GiAcoMo.row_cells row = x0 ++ f0.
Proof.
  intros Hker H Hi Hrow.
  eapply init_SA_rows; [| exact H | | exact Hrow].
  - intros k Hk. apply in_seq in Hk. apply sort_list_starts_with_zeros. lia.
  - apply in_seq. lia.
Qed.

End AcoArchive.

(** The colony of three whose individual 0 violates its inequality
    constraint: both rows of the first archive hold individual 0. *)
Lemma aco_first_archive_witness :
  exists x0 f0,
    Vec.get (Pagmo.get_x AcoInputs.trio_pop) 0 = Some x0 /\
    Vec.get (Pagmo.get_f AcoInputs.trio_pop) 0 = Some f0 /\
    GiAcoMo.row_cells
      {| GiAcoMo.row_penalty := Fin 0; GiAcoMo.row_cells := [5; 1; 3] |}
    = x0 ++ f0.
Proof.
  apply (@aco_first_archive_holds_individual_zero
           [Fin 0; Fin 0; Fin 0; Inf; Fin 0; Fin 0]
           (std_sort [Fin 0; Fin 0; Fin 0; Inf; Fin 0; Fin 0])
           (Pagmo.get_x AcoInputs.trio_pop) (Pagmo.get_f AcoInputs.trio_pop)
           2
           (repeat {| GiAcoMo.row_penalty := Fin 1; GiAcoMo.row_cells := [1; 1; 1] |} 2)
           (repeat {| GiAcoMo.row_penalty := Fin 0; GiAcoMo.row_cells := [5; 1; 3] |} 2)
           0).
  - simpl; lia.
  - vm_compute. reflexivity.
  - lia.
  - reflexivity.
Defined.

(** After the first generation of that colony the archive holds two copies
    of the infeasible individual 0, and the invariant of the specification
    fails on it. *)
Lemma aco_first_archive_breaks_invariant :
  exists c,
    GiAcoMo.generation (AcoInputs.colony_of 2 1 0 2) AcoInputs.one_inequality 3 1
      {| GiAcoMo.c_pop := AcoInputs.trio_pop;
         GiAcoMo.c_SA :=
           repeat {| GiAcoMo.row_penalty := Fin 1;
                     GiAcoMo.row_cells := repeat 1 3 |} 2;
         GiAcoMo.c_fevals := 0 |}
    = Pagmo.Go c /\
    GiAcoMo.c_SA c
    = repeat {| GiAcoMo.row_penalty := Fin 0; GiAcoMo.row_cells := [5; 1; 3] |} 2 /\
    AcoSpec.feasible (1 # 2) 1 0 1 [1; 3] = false /\
    AcoSpec.archive_invariant (AcoInputs.colony_of 2 1 0 2) AcoInputs.one_inequality
      (GiAcoMo.c_SA c) = false.
Proof.
  eexists. split; [vm_compute; reflexivity|].
  repeat split; vm_compute; reflexivity.
Qed.

(** With [impstop = 1] the second generation of that colony does not return
    at the test of the counter: it goes on to [update_SA], whose re-ordering
    loop runs over the [sort_list.size()] entries of vectors of [NP]
    entries. *)
Lemma aco_second_generation_is_entered :
  snd (GiAcoMo.evolve 1 (AcoInputs.colony_of 1 1 0 2) AcoInputs.one_inequality
         AcoInputs.trio_pop 0)
  = Pagmo.Returned Pagmo.LoopDone
      {| Pagmo.ev_pop :=
           {| Pagmo.get_x := [[75 # 9]; [75 # 9]; [75 # 9]];
              Pagmo.get_f := [[1; -5]; [1; -5]; [1; -5]] |};
         Pagmo.ev_fevals := 3; Pagmo.ev_log := [] |} /\
  snd (GiAcoMo.evolve 2 (AcoInputs.colony_of 2 1 0 2) AcoInputs.one_inequality
         AcoInputs.trio_pop 0)
  = Pagmo.UndefinedBehaviour.
Proof.
  split; vm_compute; reflexivity.
Qed.

(** ** [gi_aco_mo]: the weights of the kernels *)

Section AcoWeights.

(** The sum of the integers [first, first + 1, ..., first + n - 1]. *)
Local Definition run_sum (first n : nat) : Z :=
  fold_right Z.add 0%Z (map Z.of_nat (seq first n)).

Lemma run_sum_nonneg (first n : nat) : (0 <= run_sum first n)%Z.
Proof.
  unfold run_sum. revert first.
  induction n as [|n IH]; intro first; simpl; [lia|].
  specialize (IH (S first)). lia.
Qed.

Lemma run_sum_closed_form (n : nat) :
  (2 * run_sum 1 n = Z.of_nat n * (Z.of_nat n + 1))%Z.
Proof.
  unfold run_sum. induction n as [|n IH].
  - reflexivity.
  - rewrite seq_S, map_app, fold_right_app. simpl fold_right.
    assert (G : forall (l : list Z) (z : Z),
               fold_right Z.add z l = (fold_right Z.add 0 l + z)%Z).
    { induction l as [|x l IHl]; intro z; simpl; [lia|]. rewrite IHl. lia. }
    rewrite G. lia.
Qed.

Lemma int_of_double_sum (acc j : Z) :
  int_of_double (inject_Z acc + inject_Z j)
  = if ((- int_max - 1 <=? acc + j) && (acc + j <=? int_max))%Z
    then Some (acc + j)%Z else None.
Proof.
  unfold int_of_double. cbn [Qnum Qden Qplus inject_Z Pos.mul].
  rewrite !Z.mul_1_r, Z.quot_1_r. reflexivity.
Qed.

(** The accumulator follows the partial sums as long as they are [int]s. *)
Lemma accumulate_run (n : nat) :
  forall (first : nat) (acc : Z),
    (0 <= acc <= int_max)%Z ->
    GiAcoMo.accumulate (map (fun j => inject_Z (Z.of_nat j)) (seq first n)) acc
    = if (acc + run_sum first n <=? int_max)%Z
      then Some (acc + run_sum first n)%Z else None.
Proof.
  unfold run_sum.
  induction n as [|n IH]; intros first acc Hacc; cbn [seq map GiAcoMo.accumulate fold_right].
  - rewrite Z.add_0_r.
    replace (acc <=? int_max)%Z with true by (symmetry; apply Z.leb_le; lia).
    reflexivity.
  - rewrite int_of_double_sum.
    pose proof (run_sum_nonneg (S first) n) as Hrest. unfold run_sum in Hrest.
    destruct ((- int_max - 1 <=? acc + Z.of_nat first)
              && (acc + Z.of_nat first <=? int_max))%Z eqn:E; cbn [obind].
    + apply andb_true_iff in E. destruct E as [_ E]. apply Z.leb_le in E.
      rewrite IH by lia. rewrite Z.add_assoc. reflexivity.
    + apply andb_false_iff in E. destruct E as [E|E]; apply Z.leb_gt in E.
      * unfold int_max in *. lia.
      * match goal with
        | |- None = (if ?b then _ else _) =>
            replace b with false by (symmetry; apply Z.leb_gt; lia)
        end.
        reflexivity.
Qed.

Lemma weight_sum_value (ker : nat) :
  GiAcoMo.weight_sum ker
  = if (run_sum 1 ker <=? int_max)%Z then Some (inject_Z (run_sum 1 ker)) else None.
Proof.
  unfold GiAcoMo.weight_sum, GiAcoMo.iota.
  rewrite accumulate_run by (unfold int_max; lia). rewrite Z.add_0_l.
  destruct (run_sum 1 ker <=? int_max)%Z; reflexivity.
Qed.

(** Up to [ker = 65535] the sum [1 + ... + ker] is an [int]. *)
Lemma weight_sum_in_range (ker : nat) :
  (Z.of_nat ker < 65536)%Z ->
  GiAcoMo.weight_sum ker = Some (inject_Z (run_sum 1 ker)).
Proof.
  intro H. rewrite weight_sum_value.
  replace (run_sum 1 ker <=? int_max)%Z with true; [reflexivity|].
  symmetry. apply Z.leb_le. unfold int_max.
  pose proof (run_sum_closed_form ker) as C.
  assert (Z.of_nat ker * (Z.of_nat ker + 1) <= 65535 * 65536)%Z
    by (apply Z.mul_le_mono_nonneg; lia).
  lia.
Qed.

(** From [ker = 65536] on the accumulator of [std::accumulate] leaves the
    range of [int]. *)
Lemma aco_weight_sum_leaves_int (ker : nat) :
  (65536 <= Z.of_nat ker)%Z ->
  GiAcoMo.weight_sum ker = None /\ GiAcoMo.omega_weights ker = None.
Proof.
  intro H.
  assert (E : GiAcoMo.weight_sum ker = None).
  { rewrite weight_sum_value.
    replace (run_sum 1 ker <=? int_max)%Z with false; [reflexivity|].
    symmetry. apply Z.leb_gt. unfold int_max.
    pose proof (run_sum_closed_form ker) as C.
    assert (65536 * 65537 <= Z.of_nat ker * (Z.of_nat ker + 1))%Z
      by (apply Z.mul_le_mono_nonneg; lia).
    lia. }
  split; [exact E|]. unfold GiAcoMo.omega_weights. rewrite E. reflexivity.
Qed.

Lemma inject_nat_succ (n : nat) :
  inject_Z (Z.of_nat (S n)) == inject_Z (Z.of_nat n) + 1.
Proof.
  rewrite Nat2Z.inj_succ. unfold Z.succ. rewrite inject_Z_plus. reflexivity.
Qed.

Lemma weight_sum_closed_form (ker : nat) :
  2 * inject_Z (run_sum 1 ker)
  == inject_Z (Z.of_nat ker) * (inject_Z (Z.of_nat ker) + 1).
Proof.
  change 2 with (inject_Z 2). change 1 with (inject_Z 1).
  rewrite <- inject_Z_plus, <- !inject_Z_mult.
  apply inject_Z_injective. apply run_sum_closed_form.
Qed.

Lemma total_app (l1 l2 : vector_double) :
  AcoSpec.total (l1 ++ l2) == AcoSpec.total l1 + AcoSpec.total l2.
Proof.
  induction l1 as [|x l1 IH]; simpl.
  - ring.
  - rewrite IH. ring.
Qed.

(** The sum of the first [n] weights the loop pushes, for a divisor [s]. *)
Lemma partial_weights (K s : Q) (n : nat) :
  2 * AcoSpec.total
        (map (fun k => (K - inject_Z (Z.of_nat k) + 1) / s) (seq 0 n))
  == (inject_Z (Z.of_nat n) * (2 * K + 2)
      - inject_Z (Z.of_nat n) * (inject_Z (Z.of_nat n) - 1)) * / s.
Proof.
  induction n as [|n IH].
  - simpl. unfold Qdiv. ring.
  - rewrite seq_S, map_app, total_app, Qmult_plus_distr_r, IH, inject_nat_succ.
    rewrite Nat.add_0_l. cbn [map AcoSpec.total fold_right].
    unfold Qdiv. ring.
Qed.

(** C7, as the code has it.  For an archive of [0 < ker < 65536] rows, where
    the [int] accumulator of [std::accumulate] holds the sum, the divisor is
    [S = ker (ker + 1) / 2]; the loop runs [k] from 0 to [ker - 1] and pushes
    [(ker - k + 1) / S]: the [ker] weights are [(ker + 1) / S, ..., 2 / S],
    and they sum to [1 + 2 / (ker + 1)], not to 1. *)
Theorem aco_omega_weights_sum (ker : nat) :
  (0 < ker)%nat ->
  (Z.of_nat ker < 65536)%Z ->
  exists (S : Q) (w : vector_double),
    GiAcoMo.weight_sum ker = Some S /\
    GiAcoMo.omega_weights ker = Some w /\
    S == inject_Z (Z.of_nat ker) * (inject_Z (Z.of_nat ker) + 1) / 2 /\
    length w = ker /\
    (forall k, (k < ker)%nat ->
       nth k w 0
       = (inject_Z (Z.of_nat ker) - inject_Z (Z.of_nat k) + 1) / S) /\
    AcoSpec.total w == 1 + 2 / (inject_Z (Z.of_nat ker) + 1) /\
    ~ AcoSpec.total w == 1.
Proof.
  intros Hker Hint.
  set (S := inject_Z (run_sum 1 ker)).
  set (w := map (fun k => (inject_Z (Z.of_nat ker) - inject_Z (Z.of_nat k) + 1) / S)
              (seq 0 ker)).
  assert (HW : GiAcoMo.weight_sum ker = Some S) by (apply weight_sum_in_range; exact Hint).
  assert (HK : 0 < inject_Z (Z.of_nat ker)).
  { change 0 with (inject_Z 0). rewrite <- Zlt_Qlt. lia. }
  assert (HK1 : 0 < inject_Z (Z.of_nat ker) + 1).
  { apply Qlt_trans with (inject_Z (Z.of_nat ker)); [exact HK|].
    rewrite <- (Qplus_0_r (inject_Z (Z.of_nat ker))) at 1.
    apply Qplus_lt_r. reflexivity. }
  assert (HS : S == inject_Z (Z.of_nat ker) * (inject_Z (Z.of_nat ker) + 1) / 2).
  { unfold S. rewrite <- weight_sum_closed_form. field. }
  assert (HT : AcoSpec.total w == 1 + 2 / (inject_Z (Z.of_nat ker) + 1)).
  { pose proof (partial_weights (inject_Z (Z.of_nat ker)) S ker) as P.
    fold w in P.
    apply (Qmult_inj_l _ _ 2); [discriminate|].
    rewrite P, HS. field.
    split; apply Qnot_eq_sym, Qlt_not_eq; assumption. }
  exists S, w.
  split; [exact HW|]. split; [|split; [exact HS|]].
  { unfold GiAcoMo.omega_weights. rewrite HW. reflexivity. }
  split; [|split; [|split; [exact HT|]]].
  - unfold w. rewrite length_map, length_seq. reflexivity.
  - intros k Hk. unfold w.
    rewrite (nth_indep _ 0 ((fun k => (inject_Z (Z.of_nat ker) - inject_Z (Z.of_nat k) + 1)
                                      / S) 0%nat))
      by (rewrite length_map, length_seq; exact Hk).
    rewrite (map_nth (fun k => (inject_Z (Z.of_nat ker) - inject_Z (Z.of_nat k) + 1) / S)).
    rewrite seq_nth by exact Hk. reflexivity.
  - rewrite HT. intro E.
    assert (Hpos : 0 < 2 / (inject_Z (Z.of_nat ker) + 1)).
    { apply Qlt_shift_div_l; [exact HK1|]. rewrite Qmult_0_l. reflexivity. }
    apply (Qlt_not_eq _ _ Hpos).
    apply (Qplus_inj_l _ _ 1). rewrite Qplus_0_r. symmetry. exact E.
Qed.

End AcoWeights.

(** An archive of two rows: the weights are [3/3] and [2/3]. *)
Lemma aco_omega_weights_witness :
  exists (S : Q) (w : vector_double),
    GiAcoMo.weight_sum 2 = Some S /\
    GiAcoMo.omega_weights 2 = Some w /\
    S == inject_Z (Z.of_nat 2) * (inject_Z (Z.of_nat 2) + 1) / 2 /\
    length w = 2%nat /\
    (forall k, (k < 2)%nat ->
       nth k w 0
       = (inject_Z (Z.of_nat 2) - inject_Z (Z.of_nat k) + 1) / S) /\
    AcoSpec.total w == 1 + 2 / (inject_Z (Z.of_nat 2) + 1) /\
    ~ AcoSpec.total w == 1.
Proof.
  apply (aco_omega_weights_sum (ker := 2)); simpl; lia.
Defined.

(** The weights of an archive of two rows, evaluated. *)
Lemma aco_omega_weights_of_two :
  GiAcoMo.omega_weights 2 = Some [3 # 3; 2 # 3] /\
  AcoSpec.total [3 # 3; 2 # 3] == 5 # 3.
Proof.
  split; reflexivity.
Qed.

(** ** [nspso]: the copy of the population into the working buffer *)

Section NspsoCopy.
Import Pagmo.
Context {services : Services} {utilities : Nspso.Utilities}.

(** The first statement of the loop stores into element 0 of a vector that
    was created empty. *)
Lemma copy_population_out_of_range
  (pop : population) (velocity : list vector_double) (n : nat) :
  Nspso.copy_population pop velocity (S n) = None.
Proof.
  unfold Nspso.copy_population. rewrite <- cons_seq. reflexivity.
Qed.

Lemma evolve_body_undefined (fuel : nat) (a : Nspso.nspso) (prob : problem)
  (pop : population) (fevals : nat) :
  size pop <> 0%nat ->
  Nspso.evolve_body fuel a prob pop fevals = Undefined.
Proof.
  intro Hsize. unfold Nspso.evolve_body.
  destruct (Nspso.velocity_band a prob) as [[minv maxv]|]; [|reflexivity].
  simpl.
  destruct (Nspso.init_velocity _ _ _ _ _ _) as [[velocity e]|]; [|reflexivity].
  simpl.
  destruct (size pop) as [|n]; [congruence|].
  rewrite copy_population_out_of_range. reflexivity.
Qed.

(** C2, as the code has it.  [next_pop_list] is created empty and the loop
    assigns to [next_pop_list[i]]: for a population that is not empty the
    very first index, 0, is outside the buffer, and a call that passes the
    checks with [gen > 0] never gets past the copy. *)
Theorem nspso_buffer_copy_out_of_range
  (fuel : nat) (a : Nspso.nspso) (prob : problem) (pop : population)
  (fevals : nat) :
  get_nx prob <> 0%nat ->
  is_stochastic prob = false ->
  get_nc prob = 0%nat ->
  (2 <= get_nf prob)%nat ->
  size pop <> 0%nat ->
  Nspso.m_gen a <> 0%nat ->
  (forall velocity, Nspso.copy_population pop velocity (size pop) = None) /\
  Nspso.evolve fuel a prob pop fevals = (a, UndefinedBehaviour).
Proof.
  intros Hnx Hstoch Hnc Hnf Hsize Hgen. split.
  - intro velocity. destruct (size pop) as [|n]; [congruence|].
    apply copy_population_out_of_range.
  - unfold Nspso.evolve.
    apply Nat.eqb_neq in Hnx, Hsize, Hgen. rewrite Hnx, Hstoch, Hnc, Hsize, Hgen.
    simpl.
    replace (get_nf prob <? 2)%nat with false by (symmetry; apply Nat.ltb_ge; exact Hnf).
    rewrite evolve_body_undefined by (apply Nat.eqb_neq; exact Hsize).
    reflexivity.
Qed.

End NspsoCopy.

(** A swarm of two on the line problem. *)
Lemma nspso_buffer_copy_witness :
  (forall velocity,
      Nspso.copy_population NspsoInputs.duo_pop velocity
        (Pagmo.size NspsoInputs.duo_pop) = None) /\
  Nspso.evolve (utilities := Reference.utilities) 10
    (NspsoInputs.swarm_of 1 "crowding distance") NspsoInputs.line_problem
    NspsoInputs.duo_pop 0
  = (NspsoInputs.swarm_of 1 "crowding distance", Pagmo.UndefinedBehaviour).
Proof.
  apply nspso_buffer_copy_out_of_range; simpl; try reflexivity;
    unfold Pagmo.size, Pagmo.get_nf; simpl; lia.
Defined.

(** ** [nspso]: environmental selection *)

Section VecForall.
Variable A : Type.
Variable P : A -> Prop.

Lemma vec_set_forall (v v' : list A) (i : nat) (x : A) :
  Vec.set v i x = Some v' -> Forall P v -> P x -> Forall P v'.
Proof.
  intros H Hv Hx. apply Forall_forall. intros y Hy.
  destruct (@vec_set_in _ _ _ _ _ _ H Hy) as [->|Hin]; [exact Hx|].
  rewrite Forall_forall in Hv. apply Hv. exact Hin.
Qed.

Lemma vec_get_forall (v : list A) (i : nat) (x : A) :
  Vec.get v i = Some x -> Forall P v -> P x.
Proof.
  intros H Hv. rewrite Forall_forall in Hv. apply Hv.
  eapply nth_error_In. exact H.
Qed.

End VecForall.

Section NspsoSelection.
Import Pagmo.
Context {services : Services} {utilities : Nspso.Utilities}.

(** What the algorithm relies on from [std::shuffle]: the result is a
    rearrangement of its argument. *)
Hypothesis shuffle_permutes :
  forall (l : list nat) (e : engine), Permutation (fst (shuffle l e)) l.

Variable P : nat -> Prop.

Lemma absorb_front_forall (front : list nat) :
  forall (best : list nat) (i : nat) (best' : list nat) (i' : nat),
    Nspso.absorb_front front best i = Some (best', i') ->
    Forall P front -> Forall P best -> Forall P best'.
Proof.
  induction front as [|p front IH]; intros best i best' i' H Hf Hb; simpl in H.
  - injection H as <- _. exact Hb.
  - checked_inv H. inversion Hf; subst.
    eapply IH; [exact H | assumption |].
    eapply vec_set_forall; eassumption.
Qed.

Lemma fill_from_forall (front : list nat) (js : list nat) :
  forall (best : list nat) (i : nat) (best' : list nat) (i' : nat),
    Nspso.fill_from front js best i = Some (best', i') ->
    Forall P front -> Forall P best -> Forall P best'.
Proof.
  induction js as [|j js IH]; intros best i best' i' H Hf Hb; simpl in H.
  - injection H as <- _. exact Hb.
  - checked_inv H.
    eapply IH; [exact H | assumption |].
    eapply vec_set_forall; [eassumption | assumption |].
    eapply vec_get_forall; eassumption.
Qed.

Lemma front_loop_forall (swarm_size : nat) (ndf_next : list (list nat)) :
  forall (best : list nat) (i : nat) (e : engine) (best' : list nat) (e' : engine),
    Nspso.front_loop swarm_size ndf_next best i e = Some (best', e') ->
    Forall (Forall P) ndf_next -> Forall P best -> Forall P best'.
Proof.
  induction ndf_next as [|front rest IH]; intros best i e best' e' H Hf Hb; simpl in H.
  - injection H as <- _. exact Hb.
  - inversion Hf as [|? ? Hfront Hrest]; subst.
    destruct (i <? swarm_size)%nat; [|injection H as <- _; exact Hb].
    destruct (length front <? swarm_size - i)%nat.
    + checked_inv H. eapply IH; [exact H | exact Hrest |].
      eapply absorb_front_forall; eassumption.
    + destruct (shuffle front e) as [shuffled e1] eqn:Es.
      checked_inv H. eapply IH; [exact H | exact Hrest |].
      eapply fill_from_forall; [eassumption | | exact Hb].
      apply Forall_forall. intros x Hx. rewrite Forall_forall in Hfront.
      apply Hfront. eapply Permutation_in; [|exact Hx].
      pose proof (shuffle_permutes front e) as Hp. rewrite Es in Hp. exact Hp.
Qed.

End NspsoSelection.

Section NspsoSurvivors.
Import Pagmo.
Context {services : Services} {utilities : Nspso.Utilities}.

Lemma pick_length (next_pop_list : list Nspso.nspso_individual)
  (best : list nat) (idx : list nat) :
  forall tmp_pop tmp_pop',
    Nspso.pick next_pop_list best idx tmp_pop = Some tmp_pop' ->
    length tmp_pop' = length tmp_pop.
Proof.
  induction idx as [|i idx IH]; intros tmp_pop tmp_pop' H; simpl in H.
  - injection H as <-. reflexivity.
  - checked_inv H. rewrite (IH _ _ H). eapply vec_set_length. eassumption.
Qed.

Lemma pick_frame (next_pop_list : list Nspso.nspso_individual)
  (best : list nat) (idx : list nat) :
  forall tmp_pop tmp_pop' i,
    Nspso.pick next_pop_list best idx tmp_pop = Some tmp_pop' ->
    ~ In i idx -> Vec.get tmp_pop' i = Vec.get tmp_pop i.
Proof.
  induction idx as [|k idx IH]; intros tmp_pop tmp_pop' i H Hi; simpl in H.
  - injection H as <-. reflexivity.
  - checked_inv H. rewrite (IH _ _ i H) by (intro; apply Hi; right; assumption).
    eapply vec_get_set_other; [eassumption|]. intros ->. apply Hi. left; reflexivity.
Qed.

Lemma pick_rows (next_pop_list : list Nspso.nspso_individual)
  (best : list nat) (idx : list nat) :
  forall tmp_pop tmp_pop' i p,
    Nspso.pick next_pop_list best idx tmp_pop = Some tmp_pop' ->
    In i idx -> Vec.get tmp_pop' i = Some p ->
    exists b, Vec.get best i = Some b /\ Vec.get next_pop_list b = Some p.
Proof.
  induction idx as [|k idx IH]; intros tmp_pop tmp_pop' i p H Hi Hp; simpl in H.
  - destruct Hi.
  - checked_inv H.
    destruct (in_dec Nat.eq_dec i idx) as [Hin|Hout].
    + eapply IH; eassumption.
    + destruct Hi as [->|Hi]; [|contradiction].
      erewrite pick_frame in Hp; [| exact H | exact Hout].
      erewrite vec_get_set_same in Hp by eassumption.
      injection Hp as <-. eexists. split; eassumption.
Qed.

Lemma zeros_below (n : nat) : Forall (fun b => (b < n)%nat) (repeat 0%nat n).
Proof.
  destruct n as [|n]; [constructor|].
  apply Forall_forall. intros x Hx. apply repeat_spec in Hx. lia.
Qed.

(** Every index the selection by fronts produces comes from the fronts it
    is given or is one of the zeros the index vector starts with. *)
Lemma nspso_selection_survivors
  (a : Nspso.nspso) (swarm_size : nat) (fnds_res : list (list nat))
  (next_pop_list survivors : list Nspso.nspso_individual) (e e' : engine) :
  (forall (l : list nat) (g : engine), Permutation (fst (shuffle l g)) l) ->
  String.eqb (Nspso.m_diversity_mechanism a) "max min" = false ->
  Forall (Forall (fun b => (b < swarm_size)%nat)) fnds_res ->
  Nspso.environmental_selection a swarm_size fnds_res next_pop_list e
  = Some (survivors, e') ->
  forall i p,
    Vec.get survivors i = Some p ->
    exists b, (b < swarm_size)%nat /\ Vec.get next_pop_list b = Some p.
Proof.
  intros Hshuffle Hmech Hfronts H i p Hp.
  unfold Nspso.environmental_selection in H. rewrite Hmech in H. simpl in H.
  checked_inv H. injection H as <- <-.
  match goal with
  | E : Nspso.select_by_fronts _ _ _ _ = Some (?best, _) |- _ =>
      assert (Hbest : Forall (fun b => (b < swarm_size)%nat) best);
      [ unfold Nspso.select_by_fronts in E;
        eapply front_loop_forall;
        [exact Hshuffle | exact E | exact Hfronts | apply zeros_below] |]
  end.
  match goal with
  | E : Nspso.pick _ _ _ _ = Some _ |- _ =>
      pose proof E as Hlen; apply pick_length in Hlen;
      rewrite repeat_length in Hlen;
      assert (Hi : (i < swarm_size)%nat)
        by (rewrite <- Hlen; apply nth_error_Some; unfold Vec.get in Hp; congruence);
      eapply pick_rows in E; [| apply in_seq; split; [apply Nat.le_0_l | exact Hi] | exact Hp];
      destruct E as [b [Hb Hnext]]
  end.
  exists b. split; [|exact Hnext].
  eapply (@vec_get_forall _ (fun b => (b < swarm_size)%nat)); eassumption.
Qed.


(** C1, as the code has it.  Outside the MaxMin mechanism the fronts that
    the selection walks are those of [fnds_res], the sorting of the [N]
    current fitness vectors made at the top of the generation; the sorting
    of the combined matrix is computed and left aside.  Every index the
    selection produces is therefore below [N]: each survivor is one of the
    [N] current particles, whatever the offspring are. *)
Theorem nspso_selection_keeps_current_particles
  (a : Nspso.nspso) (swarm_size : nat)
  (pop_fit : list vector_double)
  (next_pop_list survivors : list Nspso.nspso_individual) (e e' : engine) :
  (forall (l : list nat) (g : engine), Permutation (fst (shuffle l g)) l) ->
  (forall fit, Forall (Forall (fun b => (b < length fit)%nat))
                 (Nspso.fast_non_dominated_sorting fit)) ->
  String.eqb (Nspso.m_diversity_mechanism a) "max min" = false ->
  length pop_fit = swarm_size ->
  Nspso.environmental_selection a swarm_size
    (Nspso.fast_non_dominated_sorting pop_fit) next_pop_list e
  = Some (survivors, e') ->
  forall i p,
    Vec.get survivors i = Some p ->
    exists b, (b < swarm_size)%nat /\ Vec.get next_pop_list b = Some p.
Proof.
  intros Hshuffle Hfnds Hmech Hlen H i p Hp.
  eapply nspso_selection_survivors; [exact Hshuffle | exact Hmech | | exact H | exact Hp].
  rewrite <- Hlen. apply Hfnds.
Qed.

End NspsoSurvivors.

Lemma reference_shuffle_permutes (l : list nat) (g : @Pagmo.engine Reference.services) :
  Permutation (fst (@Pagmo.shuffle Reference.services l g)) l.
Proof.
  simpl. apply Permutation_sym, Permutation_rev.
Qed.

Lemma reference_peel_in_range (P : nat -> Prop) (fit : list vector_double)
  (fuel : nat) :
  forall remaining, Forall P remaining ->
    Forall (Forall P) (Reference.peel fuel fit remaining).
Proof.
  induction fuel as [|fuel IH]; intros remaining H; simpl.
  - destruct remaining; constructor.
  - destruct remaining as [|r rest]; [constructor|].
    assert (Hsub : forall f l, Forall P l -> Forall P (filter f l)).
    { intros f l Hl. apply Forall_forall. intros x Hx.
      apply filter_In in Hx. rewrite Forall_forall in Hl. apply Hl, Hx. }
    constructor.
    + apply Hsub, H.
    + apply IH, Hsub, H.
Qed.

Lemma reference_fronts_in_range (fit : list vector_double) :
  Forall (Forall (fun b => (b < length fit)%nat))
    (@Nspso.fast_non_dominated_sorting Reference.utilities fit).
Proof.
  simpl. unfold Reference.fronts. apply reference_peel_in_range.
  apply Forall_forall. intros x Hx. apply in_seq in Hx. lia.
Qed.

(** A swarm of two whose offspring dominate both current particles: the
    first survivor is the current particle 0. *)
Lemma nspso_selection_witness :
  exists b, (b < 2)%nat /\
            Vec.get NspsoInputs.combined b
            = Some (NspsoInputs.particle (1 # 2) [1; 1] 0).
Proof.
  apply (@nspso_selection_keeps_current_particles
           Reference.services Reference.utilities
           (NspsoInputs.swarm_of 1 "crowding distance") 2
           (Pagmo.get_f NspsoInputs.duo_pop)
           NspsoInputs.combined
           [NspsoInputs.particle (1 # 2) [1; 1] 0; NspsoInputs.particle 1 [2; 2] 0]
           5%nat 6%nat) with (i := 0%nat).
  - exact reference_shuffle_permutes.
  - exact reference_fronts_in_range.
  - reflexivity.
  - reflexivity.
  - vm_compute. reflexivity.
  - reflexivity.
Defined.

(** On that swarm the selection of the specification keeps the two
    offspring (indices 2 and 3 of the combined buffer); the selection of the
    code keeps the two current particles. *)
Lemma nspso_selection_differs_from_combined_sorting :
  NspsoSpec.select_by_combined_fronts (services := Reference.services)
    (utilities := Reference.utilities) 2
    (map Nspso.best_f NspsoInputs.combined) 5%nat
  = Some ([2; 3]%nat, 6%nat) /\
  Nspso.select_by_fronts (services := Reference.services)
    (utilities := Reference.utilities) 2
    (Reference.fronts (Pagmo.get_f NspsoInputs.duo_pop))
    (map Nspso.best_f NspsoInputs.combined) 5%nat
  = Some ([0; 1]%nat, 6%nat) /\
  Nspso.environmental_selection (services := Reference.services)
    (utilities := Reference.utilities)
    (NspsoInputs.swarm_of 1 "crowding distance") 2
    (Reference.fronts (Pagmo.get_f NspsoInputs.duo_pop))
    NspsoInputs.combined 5%nat
  = Some ([NspsoInputs.particle (1 # 2) [1; 1] 0;
           NspsoInputs.particle 1 [2; 2] 0], 6%nat).
Proof.
  repeat split; vm_compute; reflexivity.
Qed.

(** ** Two runs from the same seed *)

Section NspsoRuns.
Import Pagmo.
Context {services : Services} {utilities : Nspso.Utilities}.

(** A call of [evolve] that comes back leaves the members of the object as
    it found them: it returned before touching them, or threw. *)
Lemma nspso_evolve_keeps_object (fuel : nat) (a : Nspso.nspso) (prob : problem)
  (pop : population) (fevals : nat) :
  fst (Nspso.evolve fuel a prob pop fevals) = a.
Proof.
  unfold Nspso.evolve.
  destruct (get_nx prob =? 0)%nat; [reflexivity|].
  destruct (is_stochastic prob); [reflexivity|].
  destruct (negb (get_nc prob =? 0)%nat); [reflexivity|].
  destruct (get_nf prob <? 2)%nat; [reflexivity|].
  destruct (size pop =? 0)%nat eqn:Hsize; [reflexivity|].
  destruct (Nspso.m_gen a =? 0)%nat; [reflexivity|].
  rewrite evolve_body_undefined by (apply Nat.eqb_neq; exact Hsize).
  reflexivity.
Qed.

Lemma nspso_construct_state gen min_w max_w c1 c2 chi v_coeff range mechanism seed a :
  Nspso.construct gen min_w max_w c1 c2 chi v_coeff range mechanism seed = Some a ->
  Nspso.m_velocity a = [] /\ Nspso.m_log a = [] /\ Nspso.seeded_with seed a.
Proof.
  unfold Nspso.construct. intro H.
  repeat match type of H with
         | (if ?b then _ else _) = Some _ => destruct b; [discriminate H|]
         end.
  injection H as <-. repeat split.
Qed.

(** No reachable object carries cached velocities or log lines. *)
Lemma nspso_reachable_state (a : Nspso.nspso) :
  Nspso.reachable a -> Nspso.m_velocity a = [] /\ Nspso.m_log a = [].
Proof.
  induction 1 as [gen min_w max_w c1 c2 chi v_coeff range mechanism seed a Hc
                 | a seed _ IH | a level _ IH | fuel a prob pop fevals _ IH _].
  - apply nspso_construct_state in Hc. tauto.
  - exact IH.
  - exact IH.
  - rewrite nspso_evolve_keeps_object. exact IH.
Qed.

Lemma nspso_same_object (a1 a2 : Nspso.nspso) (seed : nat) :
  Nspso.reachable a1 -> Nspso.reachable a2 ->
  Nspso.configuration a1 = Nspso.configuration a2 ->
  Nspso.seeded_with seed a1 -> Nspso.seeded_with seed a2 ->
  a1 = a2.
Proof.
  intros R1 R2 Hc [He1 Hs1] [He2 Hs2].
  apply nspso_reachable_state in R1, R2.
  destruct R1 as [Hv1 Hl1], R2 as [Hv2 Hl2].
  destruct a1, a2. unfold Nspso.configuration in Hc. simpl in *.
  injection Hc as -> -> -> -> -> -> -> -> -> ->.
  congruence.
Qed.

End NspsoRuns.

(** ** [nspso]: the velocity band *)

Section FlowChecked.
Import Pagmo.
Variables R A : Type.

Lemma checked_go_inv (o : option A) (a : A) :
  @checked R A o = Go a -> o = Some a.
Proof.
  destruct o; simpl; intro H; [injection H as ->; reflexivity | discriminate].
Qed.

End FlowChecked.

(** Turns the checked accesses that fell through into equations. *)
Ltac checked_go :=
  repeat match goal with
         | E : Pagmo.checked _ = Pagmo.Go _ |- _ => apply checked_go_inv in E
         end.

Section NspsoBand.
Import Pagmo.
Context {services : Services} {utilities : Nspso.Utilities}.
Variable a : Nspso.nspso.
Variable prob : problem.

(** The bounds of the problem are ordered, [lb[j] <= ub[j]]. *)
Hypothesis bounds_ordered :
  forall j l u,
    Vec.get (get_lb prob) j = Some l -> Vec.get (get_ub prob) j = Some u -> l <= u.

Hypothesis coefficient_positive : 0 <= Nspso.m_v_coeff a.

Local Abbreviation in_band :=
  (NspsoSpec.in_band (Nspso.m_v_coeff a) (get_lb prob) (get_ub prob)).
Local Abbreviation lower_end :=
  (NspsoSpec.lower_end (Nspso.m_v_coeff a) (get_lb prob) (get_ub prob)).
Local Abbreviation upper_end :=
  (NspsoSpec.upper_end (Nspso.m_v_coeff a) (get_lb prob) (get_ub prob)).
Local Abbreviation ends_ok :=
  (NspsoSpec.ends_ok (Nspso.m_v_coeff a) (get_lb prob) (get_ub prob)).
Local Abbreviation row_in_band :=
  (NspsoSpec.banded (Nspso.m_v_coeff a) (get_lb prob) (get_ub prob)).
Local Abbreviation particle_in_band :=
  (NspsoSpec.particle_banded (Nspso.m_v_coeff a) (get_lb prob) (get_ub prob)).

Lemma band_width_nonnegative (j : nat) (l u : Q) :
  Vec.get (get_lb prob) j = Some l -> Vec.get (get_ub prob) j = Some u ->
  0 <= (u - l) * Nspso.m_v_coeff a.
Proof.
  intros Hl Hu. apply Qmult_le_0_compat; [|exact coefficient_positive].
  pose proof (bounds_ordered _ Hl Hu) as H.
  apply Qle_minus_iff in H. exact H.
Qed.

Lemma zero_in_band (j : nat) : in_band j 0.
Proof.
  intros l u Hl Hu. simpl. apply (band_width_nonnegative _ Hl Hu).
Qed.

Lemma zero_lower_end (j : nat) : lower_end j 0.
Proof.
  intros l u Hl Hu. split; [|apply Qle_refl].
  pose proof (band_width_nonnegative _ Hl Hu) as H.
  apply Qopp_le_compat in H. exact H.
Qed.

Lemma zero_upper_end (j : nat) : upper_end j 0.
Proof.
  intros l u Hl Hu. split; [apply Qle_refl|].
  apply (band_width_nonnegative _ Hl Hu).
Qed.

Lemma between_ends_in_band (j : nat) (lo hi x : Q) :
  lower_end j lo -> upper_end j hi -> lo <= x -> x <= hi -> in_band j x.
Proof.
  intros Hlo Hhi H1 H2 l u Hl Hu.
  destruct (Hlo l u Hl Hu) as [L1 _]. destruct (Hhi l u Hl Hu) as [_ U2].
  apply Qabs_Qle_condition. split.
  - eapply Qle_trans; eassumption.
  - eapply Qle_trans; eassumption.
Qed.

Lemma lower_end_in_band (j : nat) (lo : Q) : lower_end j lo -> in_band j lo.
Proof.
  intros Hlo l u Hl Hu. destruct (Hlo l u Hl Hu) as [L1 L2].
  apply Qabs_Qle_condition. split; [exact L1|].
  eapply Qle_trans; [exact L2 | apply (band_width_nonnegative _ Hl Hu)].
Qed.

Lemma upper_end_in_band (j : nat) (hi : Q) : upper_end j hi -> in_band j hi.
Proof.
  intros Hhi l u Hl Hu. destruct (Hhi l u Hl Hu) as [U1 U2].
  apply Qabs_Qle_condition. split; [|exact U2].
  eapply Qle_trans; [|exact U1].
  pose proof (band_width_nonnegative _ Hl Hu) as H.
  apply Qopp_le_compat in H. exact H.
Qed.

Lemma repeat_get (A : Type) (x y : A) (n j : nat) :
  Vec.get (repeat x n) j = Some y -> y = x.
Proof.
  intro H. apply nth_error_In in H. apply repeat_spec in H. exact H.
Qed.

Lemma vec_get_set_cases (A : Type) (v v' : list A) (i j : nat) (x y : A) :
  Vec.set v i x = Some v' -> Vec.get v' j = Some y ->
  (j = i /\ y = x) \/ Vec.get v j = Some y.
Proof.
  intros Hs Hg. destruct (Nat.eq_dec j i) as [->|Hne].
  - left. split; [reflexivity|].
    erewrite vec_get_set_same in Hg by eassumption. congruence.
  - right. erewrite vec_get_set_other in Hg by eassumption. exact Hg.
Qed.

Lemma band_loop_ends (idx : list nat) :
  forall minv maxv minv' maxv',
    Nspso.band_loop (Nspso.m_v_coeff a) (get_lb prob) (get_ub prob) idx minv maxv
    = Some (minv', maxv') ->
    ends_ok minv maxv -> ends_ok minv' maxv'.
Proof.
  induction idx as [|i idx IH]; intros minv maxv minv' maxv' H Hok; simpl in H.
  - injection H as <- <-. exact Hok.
  - destruct (Vec.get (get_ub prob) i) as [ui|] eqn:Eu; [|discriminate].
    destruct (Vec.get (get_lb prob) i) as [li|] eqn:El; [|discriminate].
    simpl in H.
    destruct (Vec.set minv i _) as [minv1|] eqn:Em; [|discriminate].
    simpl in H.
    destruct (Vec.set maxv i _) as [maxv1|] eqn:Ex; [|discriminate].
    simpl in H.
    eapply IH; [exact H|].
    destruct Hok as [Hlo Hhi]. split.
    + intros j lo Hg.
      eapply vec_get_set_cases in Hg; [| exact Em].
      destruct Hg as [[-> ->]|Hold]; [|eapply Hlo; exact Hold].
      intros l u Hl Hu.
      assert (l = li /\ u = ui) as [-> ->] by (split; congruence).
      pose proof (band_width_nonnegative _ Hl Hu) as W.
      setoid_replace (- (1) * ((ui - li) * Nspso.m_v_coeff a))
        with (- ((ui - li) * Nspso.m_v_coeff a)) by ring.
      split; [apply Qle_refl|].
      apply Qopp_le_compat in W. exact W.
    + intros j hi Hg.
      eapply vec_get_set_cases in Hg; [| exact Ex].
      destruct Hg as [[-> ->]|Hold]; [|eapply Hhi; exact Hold].
      intros l u Hl Hu.
      assert (l = li /\ u = ui) as [-> ->] by (split; congruence).
      split; [apply (band_width_nonnegative _ Hl Hu) | apply Qle_refl].
Qed.

Lemma velocity_band_ends (minv maxv : vector_double) :
  Nspso.velocity_band a prob = Some (minv, maxv) -> ends_ok minv maxv.
Proof.
  unfold Nspso.velocity_band. intro H.
  eapply band_loop_ends; [exact H|].
  split; intros j x Hg; apply repeat_get in Hg; subst x;
    [apply zero_lower_end | apply zero_upper_end].
Qed.

(** *** Sampling the velocities *)

(** What the algorithm relies on from [uniform_real_from_range]: the draw
    lies between the two ends. *)
Hypothesis sampler_in_range :
  forall (lo hi : Q) (e : engine),
    lo <= hi ->
    lo <= fst (uniform_real_from_range lo hi e) /\
    fst (uniform_real_from_range lo hi e) <= hi.

Lemma zeros_in_band (n : nat) : row_in_band (repeat 0 n).
Proof.
  intros j x Hg. apply repeat_get in Hg. subst x. apply zero_in_band.
Qed.

Lemma sample_row_in_band (minv maxv : vector_double) (js : list nat) :
  ends_ok minv maxv ->
  forall row e row' e',
    Nspso.sample_row minv maxv js row e = Some (row', e') ->
    row_in_band row -> row_in_band row'.
Proof.
  intros [Hlo Hhi].
  induction js as [|j js IH]; intros row e row' e' H Hrow; simpl in H.
  - injection H as <- _. exact Hrow.
  - destruct (Vec.get minv j) as [lo|] eqn:Elo; [|discriminate].
    destruct (Vec.get maxv j) as [hi|] eqn:Ehi; [|discriminate].
    simpl in H.
    destruct (uniform_real_from_range lo hi e) as [r e1] eqn:Er.
    destruct (Vec.set row j r) as [row1|] eqn:Es; [|discriminate].
    simpl in H.
    eapply IH; [exact H|].
    intros k x Hg.
    eapply vec_get_set_cases in Hg; [| exact Es].
    destruct Hg as [[-> ->]|Hold]; [|apply Hrow; exact Hold].
    intros l u Hl Hu.
    pose proof (Hlo _ _ Elo l u Hl Hu) as [L1 L2].
    pose proof (Hhi _ _ Ehi l u Hl Hu) as [U1 U2].
    assert (Hle : lo <= hi) by (eapply Qle_trans; eassumption).
    pose proof (sampler_in_range e Hle) as [S1 S2]. rewrite Er in S1, S2. simpl in S1, S2.
    apply Qabs_Qle_condition. split; eapply Qle_trans; eassumption.
Qed.

Lemma sample_rows_in_band (minv maxv : vector_double) (n_x : nat) (idx : list nat) :
  ends_ok minv maxv ->
  forall velocity e velocity' e',
    Nspso.sample_rows minv maxv n_x idx velocity e = Some (velocity', e') ->
    Forall row_in_band velocity -> Forall row_in_band velocity'.
Proof.
  intro Hends.
  induction idx as [|i idx IH]; intros velocity e velocity' e' H Hv; simpl in H.
  - injection H as <- _. exact Hv.
  - destruct (Vec.get velocity i) as [row|] eqn:Eg; [|discriminate].
    simpl in H.
    destruct (Nspso.sample_row minv maxv (seq 0 n_x) row e) as [[row1 e1]|] eqn:Er;
      [|discriminate].
    simpl in H.
    destruct (Vec.set velocity i row1) as [velocity1|] eqn:Es; [|discriminate].
    simpl in H.
    eapply IH; [exact H|].
    eapply vec_set_forall; [exact Es | exact Hv |].
    eapply sample_row_in_band; [exact Hends | exact Er |].
    eapply vec_get_forall; eassumption.
Qed.

(** The velocities [evolve] starts from are within the band when they are
    sampled, and when the cached ones were. *)
Lemma init_velocity_in_band (minv maxv : vector_double) (n_x swarm_size : nat)
  (velocity velocity' : list vector_double) (e e' : engine) :
  ends_ok minv maxv ->
  Nspso.init_velocity minv maxv n_x swarm_size velocity e = Some (velocity', e') ->
  length velocity <> swarm_size \/ Forall row_in_band velocity ->
  Forall row_in_band velocity'.
Proof.
  intros Hends H Hcache. unfold Nspso.init_velocity in H.
  destruct (length velocity =? swarm_size)%nat eqn:E; simpl in H.
  - injection H as <- _. destruct Hcache as [Hne|Hok]; [|exact Hok].
    apply Nat.eqb_eq in E. contradiction.
  - eapply sample_rows_in_band; [exact Hends | exact H |].
    apply Forall_forall. intros row Hrow. apply repeat_spec in Hrow. subst row.
    apply zeros_in_band.
Qed.

(** *** Moving a particle *)

Lemma move_coordinate_in_band (minv maxv : vector_double) (w r1 r2 : Q)
  (cur_vel best_dvs cur_dvs leader : vector_double) (i : nat) (v x : Q) :
  ends_ok minv maxv ->
  Nspso.move_coordinate a w r1 r2 cur_vel best_dvs cur_dvs leader minv maxv
    (get_lb prob) (get_ub prob) i = Some (v, x) ->
  in_band i v.
Proof.
  intros [Hlo Hhi] H. unfold Nspso.move_coordinate in H.
  destruct (Vec.get cur_vel i) as [cv|]; [|discriminate].
  destruct (Vec.get best_dvs i) as [bd|]; [|discriminate].
  destruct (Vec.get cur_dvs i) as [cd|]; [|discriminate].
  destruct (Vec.get leader i) as [ld|]; [|discriminate].
  simpl in H.
  destruct (Vec.get maxv i) as [mx|] eqn:Emx; [|discriminate].
  simpl in H.
  set (v0 := w * cv + Nspso.m_c1 a * r1 * (bd - cd) + Nspso.m_c2 a * r2 * (ld - cd)) in H.
  assert (Hclamped :
            forall v1,
              (if Qltb mx v0 then Some mx
               else obind (Vec.get minv i)
                      (fun mn => Some (if Qltb v0 mn then mn else v0))) = Some v1 ->
              in_band i v1).
  { intros v1 Hv1. destruct (Qltb mx v0) eqn:E1.
    - injection Hv1 as <-. apply upper_end_in_band. eapply Hhi. exact Emx.
    - destruct (Vec.get minv i) as [mn|] eqn:Emn; [|discriminate].
      simpl in Hv1. destruct (Qltb v0 mn) eqn:E2; injection Hv1 as <-.
      + apply lower_end_in_band. eapply Hlo. exact Emn.
      + apply Qltb_false in E1, E2.
        eapply between_ends_in_band; [eapply Hlo; exact Emn | eapply Hhi; exact Emx | | ];
          assumption. }
  destruct (if Qltb mx v0 then Some mx
            else obind (Vec.get minv i)
                   (fun mn => Some (if Qltb v0 mn then mn else v0))) as [v1|] eqn:Ev;
    [|discriminate].
  simpl in H. specialize (Hclamped v1 eq_refl).
  destruct (Vec.get (get_ub prob) i) as [u|]; [|discriminate].
  simpl in H.
  destruct (Qltb u (cd + Nspso.m_chi a * v1)).
  - injection H as <- _. apply zero_in_band.
  - destruct (Vec.get (get_lb prob) i) as [l|]; [|discriminate].
    simpl in H.
    destruct (Qltb (cd + Nspso.m_chi a * v1) l); injection H as <- _;
      [apply zero_in_band | exact Hclamped].
Qed.

Lemma move_loop_in_band (minv maxv : vector_double) (w r1 r2 : Q)
  (cur_vel best_dvs cur_dvs leader : vector_double) (idx : list nat) :
  ends_ok minv maxv ->
  forall new_dvs new_vel new_dvs' new_vel',
    Nspso.move_loop a w r1 r2 cur_vel best_dvs cur_dvs leader minv maxv
      (get_lb prob) (get_ub prob) idx new_dvs new_vel = Some (new_dvs', new_vel') ->
    row_in_band new_vel -> row_in_band new_vel'.
Proof.
  intro Hends.
  induction idx as [|i idx IH]; intros new_dvs new_vel new_dvs' new_vel' H Hv; simpl in H.
  - injection H as _ <-. exact Hv.
  - destruct (Nspso.move_coordinate _ _ _ _ _ _ _ _ _ _ _ _ _) as [[v x]|] eqn:Em;
      [|discriminate].
    simpl in H.
    destruct (Vec.set new_vel i v) as [new_vel1|] eqn:Es; [|discriminate].
    simpl in H.
    destruct (Vec.set new_dvs i x) as [new_dvs1|]; [|discriminate].
    simpl in H.
    eapply IH; [exact H|].
    intros k y Hg.
    eapply vec_get_set_cases in Hg; [| exact Es].
    destruct Hg as [[-> ->]|Hold]; [|apply Hv; exact Hold].
    eapply move_coordinate_in_band; eassumption.
Qed.

(** *** A generation *)

Lemma blank_in_band : particle_in_band Nspso.blank.
Proof.
  intros j x Hg. destruct j; discriminate.
Qed.

Lemma modify_forall (v v' : list Nspso.nspso_individual) (i : nat)
  (f : Nspso.nspso_individual -> Nspso.nspso_individual) :
  Nspso.modify v i f = Some v' ->
  Forall particle_in_band v ->
  (forall p, particle_in_band p -> particle_in_band (f p)) ->
  Forall particle_in_band v'.
Proof.
  unfold Nspso.modify. intros H Hv Hf.
  destruct (Vec.get v i) as [p|] eqn:Eg; [|discriminate]. simpl in H.
  eapply vec_set_forall; [exact H | exact Hv |].
  apply Hf. eapply vec_get_forall; eassumption.
Qed.

Lemma move_particle_in_band (R : Type) (fuel : nat) (minv maxv : vector_double)
  (swarm_size : nat) (w : Q) (best : list nat) (idx : nat)
  (l l' : list Nspso.nspso_individual) (e e' : engine) (fevals fevals' : nat) :
  ends_ok minv maxv ->
  @Nspso.move_particle _ R fuel a prob minv maxv swarm_size w best idx (l, e, fevals)
  = Go (l', e', fevals') ->
  Forall particle_in_band l -> Forall particle_in_band l'.
Proof.
  intros Hends H Hl. unfold Nspso.move_particle in H.
  flow_go H. checked_go. injection H as <- _ _.
  match goal with
  | E : Nspso.move_loop _ _ _ _ _ _ _ _ _ _ _ _ _ _ _ = Some (_, ?nv) |- _ =>
      assert (Hnv : row_in_band nv)
        by (eapply move_loop_in_band; [exact Hends | exact E | apply zeros_in_band])
  end.
  match goal with
  | E : obind (Nspso.modify _ _ _) _ = Some _ |- _ => checked_inv E
  end.
  assert (Hkeep : forall (f : Nspso.nspso_individual -> Nspso.nspso_individual),
             (forall p, Nspso.cur_v (f p) = Nspso.cur_v p) ->
             forall p, particle_in_band p -> particle_in_band (f p)).
  { intros f Hf p Hp. unfold NspsoSpec.particle_banded. rewrite Hf. exact Hp. }
  eapply modify_forall; [eassumption | | apply Hkeep; reflexivity].
  eapply modify_forall; [eassumption | | apply Hkeep; reflexivity].
  eapply modify_forall; [eassumption | | intros p _; exact Hnv].
  eapply modify_forall; [eassumption | | apply Hkeep; reflexivity].
  eapply modify_forall; [eassumption | | apply Hkeep; reflexivity].
  unfold Vec.push_back. apply Forall_app. split; [exact Hl|].
  constructor; [apply blank_in_band | constructor].
Qed.

Lemma move_particles_in_band (R : Type) (fuel : nat) (minv maxv : vector_double)
  (swarm_size : nat) (w : Q) (best : list nat) (idx : list nat) :
  ends_ok minv maxv ->
  forall (l l' : list Nspso.nspso_individual) (e e' : engine) (fevals fevals' : nat),
    @Nspso.move_particles _ R fuel a prob minv maxv swarm_size w best idx (l, e, fevals)
    = Go (l', e', fevals') ->
    Forall particle_in_band l -> Forall particle_in_band l'.
Proof.
  intro Hends.
  induction idx as [|i idx IH]; intros l l' e e' fevals fevals' H Hl; simpl in H.
  - injection H as <- _ _. exact Hl.
  - apply bind_go_inv in H. destruct H as [[[l1 e1] f1] [E H]].
    eapply IH; [exact H|].
    eapply move_particle_in_band; eassumption.
Qed.

Lemma pick_in_band (next_pop_list : list Nspso.nspso_individual)
  (best : list nat) (idx : list nat) :
  Forall particle_in_band next_pop_list ->
  forall tmp_pop tmp_pop',
    Nspso.pick next_pop_list best idx tmp_pop = Some tmp_pop' ->
    Forall particle_in_band tmp_pop -> Forall particle_in_band tmp_pop'.
Proof.
  intro Hnext.
  induction idx as [|i idx IH]; intros tmp_pop tmp_pop' H Ht; simpl in H.
  - injection H as <-. exact Ht.
  - checked_inv H. eapply IH; [exact H|].
    eapply vec_set_forall; [eassumption | exact Ht |].
    eapply vec_get_forall; eassumption.
Qed.

(** The survivors of the selection are particles of the combined buffer. *)
Lemma environmental_selection_in_band (swarm_size : nat)
  (fnds_res : list (list nat))
  (next_pop_list survivors : list Nspso.nspso_individual) (e e' : engine) :
  Nspso.environmental_selection a swarm_size fnds_res next_pop_list e
  = Some (survivors, e') ->
  Forall particle_in_band next_pop_list -> Forall particle_in_band survivors.
Proof.
  intros H Hnext. unfold Nspso.environmental_selection in H.
  destruct (if negb (String.eqb (Nspso.m_diversity_mechanism a) "max min")
            then Nspso.select_by_fronts swarm_size fnds_res
                   (map Nspso.best_f next_pop_list) e
            else obind (Nspso.select_by_maxmin swarm_size
                          (map Nspso.best_f next_pop_list))
                   (fun l => Some (l, e))) as [[best e1]|]; [|discriminate].
  simpl in H.
  destruct (Nspso.pick next_pop_list best (seq 0 swarm_size)
              (repeat Nspso.blank swarm_size)) as [tmp_pop|] eqn:Ep; [|discriminate].
  simpl in H. injection H as <- _.
  eapply pick_in_band; [exact Hnext | exact Ep |].
  apply Forall_forall. intros p Hp. apply repeat_spec in Hp. subst p.
  apply blank_in_band.
Qed.

(** A generation keeps every velocity of the working buffer within the
    band. *)
Lemma generation_in_band (R : Type) (fuel : nat) (minv maxv : vector_double)
  (swarm_size gen : nat) (s s' : Nspso.swarm) :
  ends_ok minv maxv ->
  @Nspso.generation _ _ R fuel a prob minv maxv swarm_size gen s = Go s' ->
  Forall particle_in_band (Nspso.s_list s) ->
  Forall particle_in_band (Nspso.s_list s').
Proof.
  intros Hends H Hs. unfold Nspso.generation in H.
  flow_go H. checked_go. injection H as <-. simpl.
  eapply environmental_selection_in_band; [eassumption|].
  eapply move_particles_in_band; eassumption.
Qed.

(** *** The copy into the working buffer *)

Lemma copy_particle_in_band (pop : population) (velocity : list vector_double)
  (i : nat) (l l' : list Nspso.nspso_individual) :
  Forall row_in_band velocity ->
  Nspso.copy_particle pop velocity i l = Some l' ->
  Forall particle_in_band l -> Forall particle_in_band l'.
Proof.
  intros Hvel H Hl. unfold Nspso.copy_particle in H.
  destruct (Vec.set l i Nspso.blank) as [l0|] eqn:E0; [|discriminate]. simpl in H.
  destruct (Vec.get (get_x pop) i) as [x|]; [|discriminate]. simpl in H.
  destruct (Nspso.modify l0 i (Nspso.set_cur_x x)) as [l1|] eqn:E1; [|discriminate].
  simpl in H.
  destruct (Nspso.modify l1 i (Nspso.set_best_x x)) as [l2|] eqn:E2; [|discriminate].
  simpl in H.
  destruct (Vec.get velocity i) as [v|] eqn:Ev; [|discriminate]. simpl in H.
  destruct (Nspso.modify l2 i (Nspso.set_cur_v v)) as [l3|] eqn:E3; [|discriminate].
  simpl in H.
  destruct (Vec.get (get_f pop) i) as [f|]; [|discriminate]. simpl in H.
  destruct (Nspso.modify l3 i (Nspso.set_cur_f f)) as [l4|] eqn:E4; [|discriminate].
  simpl in H.
  assert (H0 : Forall particle_in_band l0)
    by (eapply vec_set_forall; [exact E0 | exact Hl | apply blank_in_band]).
  assert (H1 : Forall particle_in_band l1)
    by (eapply modify_forall; [exact E1 | exact H0 | intros p Hp; exact Hp]).
  assert (H2 : Forall particle_in_band l2)
    by (eapply modify_forall; [exact E2 | exact H1 | intros p Hp; exact Hp]).
  assert (H3 : Forall particle_in_band l3).
  { eapply modify_forall; [exact E3 | exact H2 |]. intros p _.
    eapply (@vec_get_forall _ row_in_band); eassumption. }
  assert (H4 : Forall particle_in_band l4)
    by (eapply modify_forall; [exact E4 | exact H3 | intros p Hp; exact Hp]).
  eapply modify_forall; [exact H | exact H4 | intros p Hp; exact Hp].
Qed.

(** The working buffer takes its velocities from the velocity vectors. *)
Lemma copy_population_in_band (pop : population) (velocity : list vector_double)
  (swarm_size : nat) (l : list Nspso.nspso_individual) :
  Forall row_in_band velocity ->
  Nspso.copy_population pop velocity swarm_size = Some l ->
  Forall particle_in_band l.
Proof.
  intros Hvel. unfold Nspso.copy_population.
  assert (G : forall idx l0 l1,
             Nspso.copy_loop pop velocity idx l0 = Some l1 ->
             Forall particle_in_band l0 -> Forall particle_in_band l1).
  { induction idx as [|i idx IH]; intros l0 l1 H Hl0; simpl in H.
    - injection H as <-. exact Hl0.
    - destruct (Nspso.copy_particle pop velocity i l0) as [l2|] eqn:E; [|discriminate].
      simpl in H. eapply IH; [exact H|].
      eapply copy_particle_in_band; eassumption. }
  intro H. eapply G; [exact H | constructor].
Qed.

End NspsoBand.

Section NspsoCoefficient.
Import Pagmo.
Context {services : Services} {utilities : Nspso.Utilities}.

(** The constructor admits a velocity coefficient in ]0, 1] only. *)
Lemma nspso_reachable_coefficient (a : Nspso.nspso) :
  Nspso.reachable a -> 0 < Nspso.m_v_coeff a.
Proof.
  induction 1 as [gen min_w max_w c1 c2 chi v_coeff range mechanism seed a Hc
                 | a seed _ IH | a level _ IH | fuel a prob pop fevals _ IH _].
  - unfold Nspso.construct in Hc.
    destruct (_ || _ || _ || _ || _); [discriminate|].
    destruct (Qltb max_w min_w); [discriminate|].
    destruct (Qle_bool v_coeff 0 || Qltb 1 v_coeff) eqn:E; [discriminate|].
    apply orb_false_iff in E. destruct E as [E _].
    repeat match type of Hc with
           | (if ?b then _ else _) = Some _ => destruct b; [discriminate Hc|]
           end.
    injection Hc as <-. simpl.
    apply Qnot_le_lt. intro L. apply Qle_bool_iff in L. congruence.
  - exact IH.
  - exact IH.
  - rewrite nspso_evolve_keeps_object. exact IH.
Qed.

End NspsoCoefficient.

(** ** [nspso]: what a generation does to the swarm *)

Section NspsoStandstill.
Import Pagmo.
Context {services : Services} {utilities : Nspso.Utilities}.

Lemma vec_set_last (A : Type) (l : list A) (x y : A) :
  Vec.set (l ++ [x]) (length l) y = Some (l ++ [y]).
Proof.
  induction l as [|h t IH]; simpl; [reflexivity|]. rewrite IH. reflexivity.
Qed.

Lemma modify_last (l : list Nspso.nspso_individual) (p : Nspso.nspso_individual)
  (f : Nspso.nspso_individual -> Nspso.nspso_individual) :
  Nspso.modify (l ++ [p]) (length l) f = Some (l ++ [f p]).
Proof.
  unfold Nspso.modify, Vec.get.
  rewrite nth_error_app2, Nat.sub_diag by apply Nat.le_refl. simpl.
  apply vec_set_last.
Qed.

(** A particle that moves is appended to the buffer; the particles already
    there stay as they are. *)
Lemma move_particle_appends (R : Type) (fuel : nat) (a : Nspso.nspso)
  (prob : problem) (minv maxv : vector_double) (swarm_size : nat) (w : Q)
  (best : list nat) (idx : nat)
  (l l' : list Nspso.nspso_individual) (e e' : engine) (fevals fevals' : nat) :
  length l = (idx + swarm_size)%nat ->
  @Nspso.move_particle _ R fuel a prob minv maxv swarm_size w best idx (l, e, fevals)
  = Go (l', e', fevals') ->
  exists p, l' = l ++ [p].
Proof.
  intros Hlen H. unfold Nspso.move_particle in H.
  flow_go H. checked_go. injection H as <- _ _.
  match goal with
  | E : obind (Nspso.modify _ _ _) _ = Some _ |- _ =>
      unfold Vec.push_back in E; rewrite <- Hlen in E;
      rewrite modify_last in E; simpl obind in E;
      rewrite modify_last in E; simpl obind in E;
      rewrite modify_last in E; simpl obind in E;
      rewrite modify_last in E; simpl obind in E;
      rewrite modify_last in E; injection E as <-
  end.
  eexists. reflexivity.
Qed.

Lemma move_particles_append (R : Type) (fuel : nat) (a : Nspso.nspso)
  (prob : problem) (minv maxv : vector_double) (swarm_size : nat) (w : Q)
  (best : list nat) (count : nat) :
  forall (first : nat) (l l' : list Nspso.nspso_individual) (e e' : engine)
         (fevals fevals' : nat),
    length l = (first + swarm_size)%nat ->
    @Nspso.move_particles _ R fuel a prob minv maxv swarm_size w best
      (seq first count) (l, e, fevals) = Go (l', e', fevals') ->
    exists offspring, l' = l ++ offspring.
Proof.
  induction count as [|count IH]; intros first l l' e e' fevals fevals' Hlen H; simpl in H.
  - injection H as <- _ _. exists []. symmetry. apply app_nil_r.
  - apply bind_go_inv in H. destruct H as [[[l1 e1] f1] [E H]].
    eapply move_particle_appends in E; [| exact Hlen]. destruct E as [p ->].
    apply IH in H; [| rewrite length_app; simpl; lia].
    destruct H as [offspring ->]. exists (p :: offspring).
    rewrite <- app_assoc. reflexivity.
Qed.

(** Outside the MaxMin mechanism a generation leaves in the working buffer
    only particles that were in it before: with the fronts taken from the
    sorting of the current population, no offspring survives. *)
Lemma nspso_generation_keeps_the_swarm (R : Type) (fuel : nat) (a : Nspso.nspso)
  (prob : problem) (minv maxv : vector_double) (swarm_size gen : nat)
  (s s' : Nspso.swarm) :
  (forall (l : list nat) (g : engine), Permutation (fst (shuffle l g)) l) ->
  (forall fit, Forall (Forall (fun b => (b < length fit)%nat))
                 (Nspso.fast_non_dominated_sorting fit)) ->
  String.eqb (Nspso.m_diversity_mechanism a) "max min" = false ->
  length (Nspso.s_list s) = swarm_size ->
  length (get_f (Nspso.s_pop s)) = swarm_size ->
  @Nspso.generation _ _ R fuel a prob minv maxv swarm_size gen s = Go s' ->
  forall p, In p (Nspso.s_list s') -> In p (Nspso.s_list s).
Proof.
  intros Hshuffle Hfnds Hmech Hlist Hfit H p Hp.
  unfold Nspso.generation in H.
  flow_go H. checked_go. injection H as <-. simpl in Hp.
  match goal with
  | E : Nspso.move_particles _ _ _ _ _ _ _ _ _ _ = Go _ |- _ =>
      apply (move_particles_append _ _ _ _ _ _ _ _ swarm_size 0) in E;
      [destruct E as [offspring ->] | exact Hlist]
  end.
  apply In_nth_error in Hp. destruct Hp as [i Hi].
  match goal with
  | E : Nspso.environmental_selection _ _ _ _ _ = Some _ |- _ =>
      eapply nspso_selection_survivors in E;
      [destruct E as [b [Hb Hnext]] | exact Hshuffle | exact Hmech | | exact Hi]
  end.
  - unfold Vec.get in Hnext. rewrite nth_error_app1 in Hnext by lia.
    eapply nth_error_In. exact Hnext.
  - pose proof (Hfnds (get_f (Nspso.s_pop s))) as F. rewrite Hfit in F. exact F.
Qed.

End NspsoStandstill.

(** * The algorithm objects

    What the constructors check stays true of every object a program can
    hold, and the checks at the top of [evolve] decide which calls throw. *)

Lemma Qle_bool_false_lt (a b : Q) : Qle_bool a b = false -> b < a.
Proof.
  intro H. apply Qltb_true. unfold Qltb. rewrite H. reflexivity.
Qed.

Section NspsoObject.
Import Pagmo.
Context {services : Services} {utilities : Nspso.Utilities}.

(** The parameter ranges that the constructor of [nspso] enforces hold of
    every object a program can hold: no member function writes the
    parameters again.  The range the constructor enforces on the leader
    selection range is [0, 100]: with the other parameters in their ranges,
    it accepts a leader selection range of 0 and stores it. *)
Theorem nspso_parameters_stay_valid :
  (forall a : Nspso.nspso,
      Nspso.reachable a ->
      0 < Nspso.m_min_w a /\ Nspso.m_min_w a <= Nspso.m_max_w a /\
      0 < Nspso.m_c1 a /\ 0 < Nspso.m_c2 a /\ 0 < Nspso.m_chi a /\
      0 < Nspso.m_v_coeff a /\ Nspso.m_v_coeff a <= 1 /\
      (Nspso.m_leader_selection_range a <= 100)%nat /\
      (Nspso.m_diversity_mechanism a = "crowding distance"%string \/
       Nspso.m_diversity_mechanism a = "niche count"%string \/
       Nspso.m_diversity_mechanism a = "max min"%string)) /\
  (forall (gen : nat) (min_w max_w c1 c2 chi v_coeff : Q)
          (mechanism : String.string) (seed : nat),
      0 < min_w -> min_w <= max_w -> 0 < c1 -> 0 < c2 -> 0 < chi ->
      0 < v_coeff -> v_coeff <= 1 ->
      (mechanism = "crowding distance"%string \/
       mechanism = "niche count"%string \/
       mechanism = "max min"%string) ->
      exists a : Nspso.nspso,
        Nspso.construct gen min_w max_w c1 c2 chi v_coeff 0 mechanism seed = Some a /\
        Nspso.reachable a /\
        Nspso.m_leader_selection_range a = 0%nat).
Proof.
  split.
  - induction 1 as [gen min_w max_w c1 c2 chi v_coeff range mechanism seed a Hc
                   | a seed _ IH | a level _ IH | fuel a prob pop fevals _ IH _].
    + unfold Nspso.construct in Hc.
      destruct (Qle_bool min_w 0 || Qle_bool max_w 0 || Qle_bool c1 0
                || Qle_bool c2 0 || Qle_bool chi 0) eqn:E1; [discriminate|].
      destruct (Qltb max_w min_w) eqn:E2; [discriminate|].
      destruct (Qle_bool v_coeff 0 || Qltb 1 v_coeff) eqn:E3; [discriminate|].
      destruct (100 <? range)%nat eqn:E4; [discriminate|].
      destruct (negb (String.eqb mechanism "crowding distance")
                && negb (String.eqb mechanism "niche count")
                && negb (String.eqb mechanism "max min")) eqn:E5; [discriminate|].
      injection Hc as <-. simpl.
      repeat rewrite orb_false_iff in E1.
      destruct E1 as [[[[Hmin Hmax] Hc1] Hc2] Hchi].
      apply orb_false_iff in E3. destruct E3 as [Hv0 Hv1].
      repeat split; try (apply Qle_bool_false_lt; assumption).
      * apply Qltb_false. exact E2.
      * apply Qltb_false. exact Hv1.
      * apply Nat.ltb_ge. exact E4.
      * destruct (String.eqb mechanism "crowding distance") eqn:M1;
          [left; apply String.eqb_eq; exact M1|].
        destruct (String.eqb mechanism "niche count") eqn:M2;
          [right; left; apply String.eqb_eq; exact M2|].
        destruct (String.eqb mechanism "max min") eqn:M3;
          [right; right; apply String.eqb_eq; exact M3|].
        discriminate E5.
    + exact IH.
    + exact IH.
    + rewrite nspso_evolve_keeps_object. exact IH.
  - intros gen min_w max_w c1 c2 chi v_coeff mechanism seed
      Hmin Hmax Hc1 Hc2 Hchi Hv0 Hv1 Hmech.
    assert (Hpos : forall q, 0 < q -> Qle_bool q 0 = false).
    { intros q Hq. destruct (Qle_bool q 0) eqn:E; [|reflexivity].
      apply Qle_bool_iff in E. exfalso. exact (Qlt_not_le _ _ Hq E). }
    assert (Hmax0 : 0 < max_w) by (apply Qlt_le_trans with min_w; assumption).
    assert (C : Nspso.construct gen min_w max_w c1 c2 chi v_coeff 0 mechanism seed
                <> None).
    { unfold Nspso.construct.
      rewrite !Hpos by assumption. cbn [orb].
      replace (Qltb max_w min_w) with false by (symmetry; apply Qltb_false; exact Hmax).
      replace (Qltb 1 v_coeff) with false by (symmetry; apply Qltb_false; exact Hv1).
      cbn [Nat.ltb Nat.leb].
      destruct Hmech as [-> | [-> | ->]]; discriminate. }
    destruct (Nspso.construct gen min_w max_w c1 c2 chi v_coeff 0 mechanism seed)
      as [a|] eqn:E; [|contradiction].
    exists a. split; [reflexivity|]. split.
    + eapply Nspso.reach_construct. exact E.
    + unfold Nspso.construct in E.
      repeat match type of E with
             | (if ?b then _ else _) = Some _ => destruct b; [discriminate E|]
             end.
      injection E as <-. reflexivity.
Qed.

(** [nspso::evolve] throws exactly on the five conditions tested at its
    top: a problem without variables, a stochastic problem, declared
    constraints, fewer than two fitness components, an empty population.
    The tests precede the early return for zero generations, and nothing
    after them throws. *)
Theorem nspso_evolve_throws_iff (fuel : nat) (a : Nspso.nspso) (prob : problem)
  (pop : population) (fevals : nat) :
  snd (Nspso.evolve fuel a prob pop fevals) = Threw <->
  (get_nx prob = 0%nat \/ is_stochastic prob = true \/ get_nc prob <> 0%nat \/
   (get_nf prob < 2)%nat \/ size pop = 0%nat).
Proof.
  unfold Nspso.evolve.
  destruct (get_nx prob =? 0)%nat eqn:E1.
  { apply Nat.eqb_eq in E1. simpl. tauto. }
  destruct (is_stochastic prob) eqn:E2.
  { simpl. tauto. }
  destruct (negb (get_nc prob =? 0)%nat) eqn:E3.
  { apply negb_true_iff, Nat.eqb_neq in E3. simpl. tauto. }
  destruct (get_nf prob <? 2)%nat eqn:E4.
  { apply Nat.ltb_lt in E4. simpl. tauto. }
  destruct (size pop =? 0)%nat eqn:E5.
  { apply Nat.eqb_eq in E5. simpl. tauto. }
  apply Nat.eqb_neq in E1. apply negb_false_iff, Nat.eqb_eq in E3.
  apply Nat.ltb_ge in E4. apply Nat.eqb_neq in E5.
  assert (Hno : ~ (get_nx prob = 0%nat \/ false = true \/ get_nc prob <> 0%nat \/
                   (get_nf prob < 2)%nat \/ size pop = 0%nat)).
  { intros [H|[H|[H|[H|H]]]]; try contradiction; try discriminate; lia. }
  destruct (Nspso.m_gen a =? 0)%nat.
  { simpl. split; [discriminate | intro H; contradiction]. }
  rewrite evolve_body_undefined by exact E5. simpl.
  split; [discriminate | intro H; contradiction].
Qed.

End NspsoObject.

(** An object out of the constructor, reseeded and given a verbosity, and
    the constructor called with a leader selection range of 0. *)
Lemma nspso_parameters_witness :
  (0 < 1 # 2 /\ 1 # 2 <= 1 /\ 0 < 1 /\ 0 < 1 /\ 0 < 1 /\ 0 < 1 # 2 /\ 1 # 2 <= 1 /\
   (100 <= 100)%nat /\
   ("max min"%string = "crowding distance"%string \/
    "max min"%string = "niche count"%string \/
    "max min"%string = "max min"%string)) /\
  exists a : @Nspso.nspso Reference.services,
    Nspso.construct 5 (1 # 2) 1 1 1 1 (1 # 2) 0 "max min" 9 = Some a /\
    Nspso.reachable (utilities := Reference.utilities) a /\
    Nspso.m_leader_selection_range a = 0%nat.
Proof.
  destruct (@nspso_parameters_stay_valid Reference.services Reference.utilities)
    as [Hranges Hzero].
  split.
  - apply (Hranges
             (Nspso.set_verbosity
                (Nspso.set_seed (NspsoInputs.swarm_with 9 0 "max min") 7) 2)).
    apply Nspso.reach_set_verbosity, Nspso.reach_set_seed.
    apply (@Nspso.reach_construct Reference.services Reference.utilities
             0 (1 # 2) 1 1 1 1 (1 # 2) 100 "max min" 9). reflexivity.
  - apply Hzero; try reflexivity; try discriminate.
    right; right; reflexivity.
Defined.

Section AcoObject.
Import Pagmo.
Context {services : Services}.

Lemma aco_evolve_object (fuel : nat) (a : GiAcoMo.gi_aco_mo) (prob : problem)
  (pop : population) (fevals : nat) :
  fst (GiAcoMo.evolve fuel a prob pop fevals) = a \/
  fst (GiAcoMo.evolve fuel a prob pop fevals) = GiAcoMo.clear_log a.
Proof.
  unfold GiAcoMo.evolve.
  repeat match goal with
         | |- context [if ?b then _ else _] => destruct b; [left; reflexivity|]
         end.
  right. reflexivity.
Qed.

(** The parameter ranges that the two constructors of [gi_aco_mo] enforce
    (accuracy and focus in [0, 1), oracle not negative) hold of every object
    a program can hold.  Nothing else is checked: the stopping thresholds
    and the size of the archive are stored as given. *)
Theorem aco_parameters_stay_valid (a : GiAcoMo.gi_aco_mo) :
  GiAcoMo.reachable a ->
  0 <= GiAcoMo.m_acc a /\ GiAcoMo.m_acc a < 1 /\
  0 <= GiAcoMo.m_focus a /\ GiAcoMo.m_focus a < 1 /\
  0 <= GiAcoMo.m_oracle a.
Proof.
  induction 1 as [gen acc fstop impstop evalstop focus ker oracle seed a Hc
                 | gen acc fstop impstop evalstop focus ker oracle paretomax epsilon seed a Hc
                 | a seed _ IH | a level _ IH | fuel a prob pop fevals _ IH _].
  - unfold GiAcoMo.construct in Hc.
    destruct (Qle_bool 1 acc || Qltb acc 0) eqn:E1; [discriminate|].
    destruct (Qle_bool 1 focus || Qltb focus 0) eqn:E2; [discriminate|].
    destruct (Qltb oracle 0) eqn:E3; [discriminate|].
    injection Hc as <-. simpl.
    apply orb_false_iff in E1, E2. destruct E1 as [A1 A0], E2 as [F1 F0].
    repeat split;
      try (apply Qltb_false; assumption);
      try (apply Qle_bool_false_lt; assumption).
  - unfold GiAcoMo.construct_mo in Hc.
    destruct (Qle_bool 1 acc || Qltb acc 0) eqn:E1; [discriminate|].
    destruct (Qle_bool 1 focus || Qltb focus 0) eqn:E2; [discriminate|].
    destruct (Qltb oracle 0) eqn:E3; [discriminate|].
    destruct (Qle_bool 1 epsilon || Qltb epsilon 0) eqn:E4; [discriminate|].
    injection Hc as <-. simpl.
    apply orb_false_iff in E1, E2. destruct E1 as [A1 A0], E2 as [F1 F0].
    repeat split;
      try (apply Qltb_false; assumption);
      try (apply Qle_bool_false_lt; assumption).
  - exact IH.
  - exact IH.
  - destruct (aco_evolve_object fuel a prob pop fevals) as [-> | ->]; exact IH.
Qed.

End AcoObject.

(** An object out of the multi-objective constructor, reseeded. *)
Lemma aco_parameters_witness :
  0 <= 1 # 2 /\ 1 # 2 < 1 /\ 0 <= 1 # 4 /\ 1 # 4 < 1 /\ 0 <= 3.
Proof.
  apply (@aco_parameters_stay_valid Reference.services
           (GiAcoMo.set_seed
              {| GiAcoMo.m_gen := 5; GiAcoMo.m_acc := 1 # 2; GiAcoMo.m_fstop := 0;
                 GiAcoMo.m_impstop := 1; GiAcoMo.m_evalstop := 1;
                 GiAcoMo.m_focus := 1 # 4; GiAcoMo.m_ker := 2%nat;
                 GiAcoMo.m_oracle := 3; GiAcoMo.m_paretomax := 10;
                 GiAcoMo.m_epsilon := 1 # 2;
                 GiAcoMo.m_e := @Pagmo.seeded Reference.services 9;
                 GiAcoMo.m_seed := 9%nat;
                 GiAcoMo.m_verbosity := 0%nat; GiAcoMo.m_log := [] |} 7)).
  apply GiAcoMo.reach_set_seed.
  apply (@GiAcoMo.reach_construct_mo Reference.services
           5 (1 # 2) 0 1 1 (1 # 4) 2 3 10 (1 # 2) 9). reflexivity.
Defined.

(** * [gi_aco_mo]: screening and penalties *)

Lemma existsb_false (A : Type) (f : A -> bool) (l : list A) :
  existsb f l = false <-> forall x, In x l -> f x = false.
Proof.
  induction l as [|h t IH]; simpl.
  - split; [intros _ x [] | reflexivity].
  - rewrite orb_false_iff, IH. split.
    + intros [Hh Ht] x [<-|Hx]; [exact Hh | apply Ht; exact Hx].
    + intro H. split; [apply H; left; reflexivity | intros x Hx; apply H; right; exact Hx].
Qed.

Section AcoFeasibility.
Import Pagmo.

Lemma equality_screen_value (acc : Q) (fi : vector_double) (idx : list nat) :
  forall T, Forall (fun k => (k < length fi)%nat) idx ->
    GiAcoMo.equality_screen acc fi idx T
    = Some (T || existsb (fun k => Qltb acc (Qabs (nth k fi 0))) idx).
Proof.
  induction idx as [|k idx IH]; intros T H; simpl.
  - rewrite orb_false_r. reflexivity.
  - destruct T; [reflexivity|].
    inversion H as [|? ? Hk Hrest]; subst.
    unfold Vec.get. destruct (nth_error fi k) as [v|] eqn:E.
    + simpl. rewrite (IH _ Hrest). rewrite (nth_error_nth _ _ _ E). reflexivity.
    + apply nth_error_None in E. lia.
Qed.

Lemma inequality_screen_value (acc : Q) (fi : vector_double) (idx : list nat) :
  forall T_2, Forall (fun k => (k < length fi)%nat) idx ->
    GiAcoMo.inequality_screen acc fi idx T_2
    = Some (T_2 || existsb (fun k => Qle_bool (- acc) (nth k fi 0)) idx).
Proof.
  induction idx as [|k idx IH]; intros T_2 H; simpl.
  - rewrite orb_false_r. reflexivity.
  - destruct T_2; [reflexivity|].
    inversion H as [|? ? Hk Hrest]; subst.
    unfold Vec.get. destruct (nth_error fi k) as [v|] eqn:E.
    + simpl. rewrite (IH _ Hrest). rewrite (nth_error_nth _ _ _ E). reflexivity.
    + apply nth_error_None in E. lia.
Qed.

Lemma columns_in_range (fi : vector_double) (n : nat) :
  (n < length fi)%nat -> Forall (fun k => (k < length fi)%nat) (seq 1 n).
Proof.
  intro H. apply Forall_forall. intros k Hk. apply in_seq in Hk. lia.
Qed.

(** The two screening loops let an individual through exactly when the
    entries 1 .. NEC of its fitness vector are within [m_acc] in absolute
    value and the entries 1 .. NIC are below [-m_acc].  Both loops count
    their columns from 1. *)
Theorem aco_screen_accepts_iff (acc : Q) (fi : vector_double) (nec nic : nat) :
  (nec < length fi)%nat -> (nic < length fi)%nat ->
  (GiAcoMo.equality_screen acc fi (seq 1 nec) false = Some false /\
   GiAcoMo.inequality_screen acc fi (seq 1 nic) false = Some false) <->
  ((forall k, (1 <= k <= nec)%nat -> Qabs (nth k fi 0) <= acc) /\
   (forall k, (1 <= k <= nic)%nat -> nth k fi 0 < - acc)).
Proof.
  intros Hec Hic.
  rewrite equality_screen_value by (apply columns_in_range; exact Hec).
  rewrite inequality_screen_value by (apply columns_in_range; exact Hic).
  simpl. split.
  - intros [E I]. injection E as E. injection I as I.
    rewrite existsb_false in E, I. split; intros k Hk.
    + apply Qltb_false. apply E. apply in_seq. lia.
    + apply Qle_bool_false_lt. apply I. apply in_seq. lia.
  - intros [E I]. split; f_equal; apply existsb_false; intros k Hk;
      apply in_seq in Hk.
    + apply Qltb_false. apply E. lia.
    + specialize (I k ltac:(lia)).
      destruct (Qle_bool (- acc) (nth k fi 0)) eqn:B; [|reflexivity].
      apply Qle_bool_iff in B. exfalso. apply (Qlt_not_le _ _ I). exact B.
Qed.

End AcoFeasibility.

(** One equality residual within the accuracy, one inequality column read
    at the same place. *)
Lemma aco_screen_witness :
  (GiAcoMo.equality_screen (1 # 2) [1; -1; -5] (seq 1 1) false = Some false /\
   GiAcoMo.inequality_screen (1 # 2) [1; -1; -5] (seq 1 1) false = Some false) <->
  ((forall k, (1 <= k <= 1)%nat -> Qabs (nth k [1; -1; -5] 0) <= 1 # 2) /\
   (forall k, (1 <= k <= 1)%nat -> nth k [1; -1; -5] 0 < - (1 # 2))).
Proof.
  apply (@aco_screen_accepts_iff (1 # 2) [1; -1; -5] 1 1); simpl; lia.
Defined.

Section AcoPenalty.
Import Pagmo.
Context {services : Services}.

Lemma std_min_abs_zero (v : Q) : GiAcoMo.std_min (Qabs v) 0 == 0.
Proof.
  unfold GiAcoMo.std_min. destruct (Qltb 0 (Qabs v)) eqn:E; [reflexivity|].
  apply Qltb_false in E. apply Qle_antisym; [exact E | apply Qabs_nonneg].
Qed.

(** The loop over the inequality residuals adds [min(|f[j]|, 0)] and its
    square to the two sums, and that minimum is 0 whatever the residual:
    the sums come out as they went in. *)
Theorem aco_inequality_residuals_add_nothing (f : vector_double) (first : nat)
  (idx : list nat) (s1 s2 m s1' s2' m' : Q) :
  GiAcoMo.ic_loop f first idx (s1, s2, m) = Some (s1', s2', m') ->
  s1' == s1 /\ s2' == s2.
Proof.
  revert s1 s2 m. induction idx as [|j idx IH]; intros s1 s2 m H; simpl in H.
  - injection H as <- <- _. split; reflexivity.
  - destruct (Vec.get f j) as [v|]; [|discriminate]. simpl in H.
    apply IH in H. destruct H as [H1 H2].
    rewrite H1, H2, (std_min_abs_zero v). split; ring.
Qed.

Lemma ec_loop_total (f : vector_double) (nfunc : nat) (idx : list nat) :
  forall st, Forall (fun k => (k < length f)%nat) idx ->
    exists st', GiAcoMo.ec_loop f nfunc idx st = Some st'.
Proof.
  induction idx as [|i idx IH]; intros [[s1 s2] m] H; simpl.
  - eexists; reflexivity.
  - inversion H as [|? ? Hi Hrest]; subst.
    unfold Vec.get. destruct (nth_error f i) as [v|] eqn:E.
    + simpl. apply IH. exact Hrest.
    + apply nth_error_None in E. lia.
Qed.

Lemma ic_loop_total (f : vector_double) (first : nat) (idx : list nat) :
  forall st, Forall (fun k => (k < length f)%nat) idx ->
    exists st', GiAcoMo.ic_loop f first idx st = Some st'.
Proof.
  induction idx as [|i idx IH]; intros [[s1 s2] m] H; simpl.
  - eexists; reflexivity.
  - inversion H as [|? ? Hi Hrest]; subst.
    unfold Vec.get. destruct (nth_error f i) as [v|] eqn:E.
    + simpl. apply IH. exact Hrest.
    + apply nth_error_None in E. lia.
Qed.

Lemma penalty_loops_total (prob : problem) (f : vector_double) (st st2 : Q * Q * Q) :
  (get_nf prob <= length f)%nat ->
  (exists st', GiAcoMo.ec_loop f (get_nobj prob)
                 (seq (get_nobj prob) (get_nec prob)) st = Some st') /\
  (exists st', GiAcoMo.ic_loop f (get_nobj prob + get_nec prob)
                 (seq (get_nobj prob + get_nec prob)
                      (get_nf prob - (get_nobj prob + get_nec prob))) st2 = Some st').
Proof.
  intro H. unfold get_nf in *. split.
  - apply ec_loop_total. apply Forall_forall. intros k Hk. apply in_seq in Hk. lia.
  - apply ic_loop_total. apply Forall_forall. intros k Hk. apply in_seq in Hk. lia.
Qed.

(** [penalty_computation] returns on every fitness vector that has its
    [n_f] entries and an entry at the subscript [n_obj + n_ec]. *)
Lemma penalty_computation_total (a : GiAcoMo.gi_aco_mo) (prob : problem)
  (f : vector_double) :
  (get_nf prob <= length f)%nat ->
  (get_nobj prob + get_nec prob < length f)%nat ->
  exists p, GiAcoMo.penalty_computation a prob f = Some p.
Proof.
  intros Hnf Hlen. unfold GiAcoMo.penalty_computation.
  destruct (Vec.get f (get_nobj prob)) as [m1|] eqn:E1;
    [| unfold Vec.get in E1; apply nth_error_None in E1; lia].
  destruct (Vec.get f (get_nobj prob + get_nec prob)) as [m2|] eqn:E2;
    [| unfold Vec.get in E2; apply nth_error_None in E2; lia].
  cbn [obind].
  destruct (penalty_loops_total prob f (0, 0, m1) (0, 0, m2) Hnf)
    as [[[[e1 e2] e3] He] [[[i1 i2] i3] Hi]].
  rewrite He. cbn [obind]. rewrite Hi. cbn [obind].
  destruct (Vec.get f 0) as [f0|] eqn:E0.
  - cbn [obind]. eexists. reflexivity.
  - unfold Vec.get in E0. apply nth_error_None in E0. lia.
Qed.

(** The two reads that open [penalty_computation], [f[nfunc]] and
    [f[nfunc+nec]], leave a fitness vector that ends with its equality
    residuals. *)
Lemma penalty_computation_out_of_range (a : GiAcoMo.gi_aco_mo) (prob : problem)
  (f : vector_double) :
  (length f <= get_nobj prob + get_nec prob)%nat ->
  GiAcoMo.penalty_computation a prob f = None.
Proof.
  intro H. unfold GiAcoMo.penalty_computation.
  destruct (Vec.get f (get_nobj prob)) as [m1|]; [|reflexivity].
  cbn [obind].
  replace (Vec.get f (get_nobj prob + get_nec prob)) with (@None Q);
    [reflexivity|].
  symmetry. unfold Vec.get. apply nth_error_None. exact H.
Qed.

(** An individual whose objective is not above the oracle gets the penalty
    [-|f[0] - oracle|], whatever its constraint residuals are, as long as
    its fitness vector reaches past the subscript [n_obj + n_ec] that the
    function reads first. *)
Theorem aco_penalty_below_oracle (a : GiAcoMo.gi_aco_mo) (prob : problem)
  (f : vector_double) (f0 : Q) :
  (get_nf prob <= length f)%nat ->
  (get_nobj prob + get_nec prob < length f)%nat ->
  Vec.get f 0 = Some f0 ->
  f0 <= GiAcoMo.m_oracle a ->
  GiAcoMo.penalty_computation a prob f
  = Some (- Qabs (f0 - GiAcoMo.m_oracle a)).
Proof.
  intros Hnf Hlen Hf0 Hle. unfold GiAcoMo.penalty_computation.
  destruct (Vec.get f (get_nobj prob)) as [m1|] eqn:E1;
    [| unfold Vec.get in E1; apply nth_error_None in E1; lia].
  destruct (Vec.get f (get_nobj prob + get_nec prob)) as [m2|] eqn:E2;
    [| unfold Vec.get in E2; apply nth_error_None in E2; lia].
  cbn [obind].
  destruct (penalty_loops_total prob f (0, 0, m1) (0, 0, m2) Hnf)
    as [[[[e1 e2] e3] He] [[[i1 i2] i3] Hi]].
  rewrite He. cbn [obind]. rewrite Hi. cbn [obind].
  rewrite Hf0. cbn [obind].
  assert (B : Qltb (GiAcoMo.m_oracle a) f0 = false) by (apply Qltb_false; exact Hle).
  rewrite B. reflexivity.
Qed.

End AcoPenalty.

(** A row with one equality and one inequality residual: the sums stay at
    7 and 9. *)
Lemma aco_inequality_residuals_witness :
  GiAcoMo.ic_loop [1; 0; 3; 0] 2 [2%nat; 3%nat] (7, 9, 3) = Some (7, 9, 0) /\
  7 == 7 /\ 9 == 9.
Proof.
  split; [reflexivity|].
  apply (@aco_inequality_residuals_add_nothing [1; 0; 3; 0] 2 [2%nat; 3%nat]
           7 9 3 7 9 0).
  reflexivity.
Defined.

(** Objective 1/2 under the oracle 1, with an equality residual of 4. *)
Lemma aco_penalty_witness :
  GiAcoMo.penalty_computation (AcoInputs.colony_of 1 0 0 2)
    AcoInputs.two_residuals [1 # 2; 4; -5]
  = Some (- Qabs ((1 # 2) - GiAcoMo.m_oracle (AcoInputs.colony_of 1 0 0 2))).
Proof.
  apply (@aco_penalty_below_oracle Reference.services
           (AcoInputs.colony_of 1 0 0 2) AcoInputs.two_residuals
           [1 # 2; 4; -5] (1 # 2)).
  - unfold Pagmo.get_nf. simpl. lia.
  - simpl. lia.
  - reflexivity.
  - simpl. unfold Qle. simpl. lia.
Defined.

(** * [gi_aco_mo]: the objective stopping criterion *)

Section AcoFstop.
Import Pagmo.
Context {services : Services}.

Lemma screen_loop_stops (R : Type) (a : GiAcoMo.gi_aco_mo) (prob : problem)
  (ret : R) (fit : list vector_double) :
  (1 <= get_nobj prob)%nat ->
  Qeq_bool (GiAcoMo.m_fstop a) 0 = false ->
  Forall (fun fj => (get_nf prob <= length fj)%nat /\
                    (get_nobj prob + get_nec prob < length fj)%nat) fit ->
  forall (idx : list nat) (penalties : list xdouble) (feasible_set : nat),
    Forall (fun j => (j < length fit)%nat) idx ->
    (exists i fi f0, In i idx /\ Vec.get fit i = Some fi /\
                     Vec.get fi 0 = Some f0 /\ f0 <= GiAcoMo.m_fstop a) ->
    GiAcoMo.screen_loop a prob ret fit idx penalties feasible_set
    = Return StopFstop ret.
Proof.
  intros one_objective fstop_set Hrows. induction idx as [|j idx IH];
    intros penalties feasible_set Hidx [i [fi [f0 [Hin [Hfi [Hf0 Hle]]]]]].
  - destruct Hin.
  - inversion Hidx as [|? ? Hj Hrest]; subst. cbn [GiAcoMo.screen_loop].
    destruct (Vec.get fit j) as [fj|] eqn:Efj;
      [| unfold Vec.get in Efj; apply nth_error_None in Efj; lia].
    assert (Hlen : (get_nf prob <= length fj)%nat /\
                   (get_nobj prob + get_nec prob < length fj)%nat).
    { rewrite Forall_forall in Hrows. apply Hrows.
      eapply nth_error_In. exact Efj. }
    destruct Hlen as [Hlen Hpast]. unfold get_nf in Hlen.
    destruct (Vec.get fj 0) as [g0|] eqn:Eg0;
      [| unfold Vec.get in Eg0; apply nth_error_None in Eg0; lia].
    cbn [bind checked]. rewrite fstop_set, Eg0. cbn [bind checked].
    destruct (Qle_bool g0 (GiAcoMo.m_fstop a)) eqn:Estop; [reflexivity|].
    assert (Htail : exists i fi f0, In i idx /\ Vec.get fit i = Some fi /\
                      Vec.get fi 0 = Some f0 /\ f0 <= GiAcoMo.m_fstop a).
    { destruct Hin as [<-|Hin].
      - exfalso. rewrite Hfi in Efj. injection Efj as <-.
        rewrite Hf0 in Eg0. injection Eg0 as <-.
        apply Qle_bool_iff in Hle. congruence.
      - exists i, fi, f0. repeat split; assumption. }
    rewrite equality_screen_value by (apply columns_in_range; lia).
    rewrite inequality_screen_value by (apply columns_in_range; lia).
    cbn [bind checked].
    destruct (negb _ && negb _).
    + destruct (penalty_computation_total a prob fj) as [p Hp];
        [unfold get_nf; lia | lia |].
      rewrite Hp. cbn [bind checked]. apply IH; assumption.
    + apply IH; assumption.
Qed.

(** When [m_fstop] is not 0 and some individual of the population has an
    objective value that does not exceed it, [evolve] returns the
    population it was given, in the first generation and before any
    evaluation: the test comes first in the loop over the individuals.  The
    individuals in front of that one go through the screen and the penalty,
    which reads [f[n_obj + n_ec]]: the fitness vectors reach past that
    subscript. *)
Theorem aco_evolve_stops_at_fstop (fuel : nat) (a : GiAcoMo.gi_aco_mo)
  (prob : problem) (pop : population) (fevals : nat) (i : nat)
  (fi : vector_double) (f0 : Q) :
  ~ GiAcoMo.m_fstop a == 0 ->
  is_stochastic prob = false -> get_nc prob = 0%nat -> get_nobj prob = 1%nat ->
  GiAcoMo.m_gen a <> 0%nat -> (0 < fuel)%nat ->
  (GiAcoMo.m_ker a <= size pop)%nat ->
  (0 <= GiAcoMo.m_impstop a)%Z -> (0 <= GiAcoMo.m_evalstop a)%Z ->
  length (get_f pop) = size pop ->
  Forall (fun fj => (get_nf prob <= length fj)%nat /\
                    (get_nobj prob + get_nec prob < length fj)%nat) (get_f pop) ->
  Vec.get (get_f pop) i = Some fi -> Vec.get fi 0 = Some f0 ->
  f0 <= GiAcoMo.m_fstop a ->
  GiAcoMo.evolve fuel a prob pop fevals
  = (GiAcoMo.clear_log a,
     Returned StopFstop {| ev_pop := pop; ev_fevals := fevals; ev_log := [] |}).
Proof.
  intros Hfstop Hst Hnc Hobj Hgen Hfuel Hker Himp Heval Hlen Hrows Hfi Hf0 Hle.
  assert (Hi : (i < size pop)%nat).
  { rewrite <- Hlen. apply nth_error_Some. unfold Vec.get in Hfi. congruence. }
  unfold GiAcoMo.evolve.
  destruct (size pop =? 0)%nat eqn:E0; [apply Nat.eqb_eq in E0; lia|].
  rewrite Hst, Hnc. simpl.
  destruct (GiAcoMo.m_gen a =? 0)%nat eqn:E1; [apply Nat.eqb_eq in E1; contradiction|].
  destruct (size pop <? GiAcoMo.m_ker a)%nat eqn:E2; [apply Nat.ltb_lt in E2; lia|].
  f_equal. destruct fuel as [|fuel]; [lia|]. cbn [GiAcoMo.main_loop].
  replace (1 <=? N.of_nat (GiAcoMo.m_gen (GiAcoMo.clear_log a)))%N with true
    by (symmetry; apply N.leb_le; cbn [GiAcoMo.m_gen GiAcoMo.clear_log]; lia).
  unfold GiAcoMo.generation. rewrite Hobj. simpl.
  replace (negb (GiAcoMo.m_impstop a =? 0)%Z && (GiAcoMo.m_impstop a <=? 0)%Z)
    with false
    by (symmetry; destruct (GiAcoMo.m_impstop a =? 0)%Z eqn:Z1; simpl;
        [reflexivity | apply Z.eqb_neq in Z1; apply Z.leb_gt; lia]).
  replace (negb (GiAcoMo.m_evalstop a =? 0)%Z && (GiAcoMo.m_evalstop a <=? 0)%Z)
    with false
    by (symmetry; destruct (GiAcoMo.m_evalstop a =? 0)%Z eqn:Z1; simpl;
        [reflexivity | apply Z.eqb_neq in Z1; apply Z.leb_gt; lia]).
  rewrite screen_loop_stops.
  - reflexivity.
  - lia.
  - simpl. destruct (Qeq_bool (GiAcoMo.m_fstop a) 0) eqn:B; [|reflexivity].
    apply Qeq_bool_iff in B. contradiction.
  - exact Hrows.
  - apply Forall_forall. intros j Hj. apply in_seq in Hj. lia.
  - exists i, fi, f0. repeat split; try assumption. apply in_seq. lia.
Qed.

End AcoFstop.

(** The criterion at 2 on a population whose first individual, with
    objective 3, goes through the screen and the penalty, and whose second
    individual, with objective 1, stops the run. *)
Lemma aco_fstop_witness :
  GiAcoMo.evolve 3 (AcoCases.colony_stopping_at 2 3 2) AcoInputs.one_inequality
    AcoCases.late_stopper 0
  = (GiAcoMo.clear_log (AcoCases.colony_stopping_at 2 3 2),
     Pagmo.Returned Pagmo.StopFstop
       {| Pagmo.ev_pop := AcoCases.late_stopper; Pagmo.ev_fevals := 0;
          Pagmo.ev_log := [] |}).
Proof.
  apply (@aco_evolve_stops_at_fstop Reference.services 3
           (AcoCases.colony_stopping_at 2 3 2) AcoInputs.one_inequality
           AcoCases.late_stopper 0 1 [1; -5] 1).
  - simpl. intro H. discriminate H.
  - reflexivity.
  - reflexivity.
  - reflexivity.
  - simpl. discriminate.
  - lia.
  - unfold Pagmo.size. simpl. lia.
  - simpl. lia.
  - simpl. lia.
  - reflexivity.
  - unfold Pagmo.get_nf. simpl. repeat constructor.
  - reflexivity.
  - reflexivity.
  - simpl. unfold Qle. simpl. lia.
Defined.

(** On that run the penalty of the first individual is computed before the
    second one stops the loop; the same run on fitness vectors without the
    inequality residual leaves the vector at that computation. *)
Lemma aco_fstop_run_computes_a_penalty :
  (exists p,
      GiAcoMo.penalty_computation (AcoCases.colony_stopping_at 2 3 2)
        AcoInputs.one_inequality [3; -5] = Some p /\ p == 4 # 3) /\
  snd (GiAcoMo.evolve 3 (AcoCases.colony_stopping_at 2 3 2) AcoInputs.unconstrained
         {| Pagmo.get_x := [[5]; [7]]; Pagmo.get_f := [[3]; [1]] |} 0)
  = Pagmo.UndefinedBehaviour.
Proof.
  split; [eexists; split; [vm_compute; reflexivity | reflexivity]|].
  vm_compute. reflexivity.
Qed.

(** * [gi_aco_mo]: the generations after the first *)

Section AcoLaterGenerations.
Import Pagmo.
Context {services : Services}.

(** The re-ordering loop of [update_SA] writes [variables[i]] for every
    position of [sorted_list]: it leaves the vector when the list is longer
    than the population. *)
Lemma reorder_out_of_range (pop : population) (sorted_list : list nat) :
  forall (i : nat) (variables objectives : list vector_double),
    (i <= length variables)%nat ->
    (length variables < i + length sorted_list)%nat ->
    GiAcoMo.reorder pop sorted_list i variables objectives = None.
Proof.
  induction sorted_list as [|s rest IH]; intros i variables objectives Hi H;
    simpl in *.
  - lia.
  - destruct (Vec.get (get_x pop) s) as [x|]; [|reflexivity]. simpl.
    destruct (Vec.set variables i x) as [variables'|] eqn:Ev; [|reflexivity].
    simpl.
    destruct (Vec.get (get_f pop) s) as [f|]; [|reflexivity]. simpl.
    destruct (Vec.set objectives i f) as [objectives'|]; [|reflexivity]. simpl.
    pose proof (vec_set_length _ _ _ Ev) as Hlen.
    assert (i < length variables)%nat.
    { destruct (Nat.lt_ge_cases i (length variables)) as [Hlt|Hge]; [exact Hlt|].
      rewrite vec_set_none in Ev by exact Hge. discriminate. }
    apply IH; rewrite Hlen; lia.
Qed.

Lemma set_xf_size (pop pop' : population) (i : nat) (x f : vector_double) :
  set_xf pop i x f = Some pop' -> size pop' = size pop.
Proof.
  unfold set_xf, size. intro H.
  destruct (Vec.set (get_x pop) i x) as [xs|] eqn:Ex; [|discriminate].
  destruct (Vec.set (get_f pop) i f) as [fs|]; [|discriminate].
  injection H as <-. simpl. eapply vec_set_length. exact Ex.
Qed.

Lemma store_ants_size (prob : problem) (new_ants : list vector_double)
  (idx : list nat) :
  forall (pop pop' : population) (fevals fevals' : nat),
    GiAcoMo.store_ants prob new_ants idx pop fevals = Some (pop', fevals') ->
    size pop' = size pop.
Proof.
  induction idx as [|i idx IH]; intros pop pop' fevals fevals' H; simpl in H.
  - injection H as <- _. reflexivity.
  - checked_inv H. apply IH in H. rewrite H. eapply set_xf_size. eassumption.
Qed.

Lemma generation_size (a : GiAcoMo.gi_aco_mo) (prob : problem) (NP gen : nat)
  (c c' : GiAcoMo.colony) :
  GiAcoMo.generation a prob NP gen c = Go c' ->
  size (GiAcoMo.c_pop c') = size (GiAcoMo.c_pop c).
Proof.
  intro H. unfold GiAcoMo.generation in H.
  destruct (1 <? get_nobj prob)%nat; [injection H as <-; reflexivity|].
  flow_go H; checked_go; injection H as <-; simpl;
    eapply store_ants_size; eassumption.
Qed.

(** A generation other than the first does not run to its end on a
    single-objective problem: [update_SA] is handed a [sort_list] of at
    least [2 * NP] positions. *)
Lemma later_generation_stops (a : GiAcoMo.gi_aco_mo) (prob : problem)
  (NP gen : nat) (c c' : GiAcoMo.colony) :
  (get_nobj prob <= 1)%nat -> gen <> 1%nat ->
  (size (GiAcoMo.c_pop c) < 2 * NP)%nat ->
  GiAcoMo.generation a prob NP gen c = Go c' -> False.
Proof.
  intros Hobj Hgen Hsize H. unfold GiAcoMo.generation in H.
  destruct (1 <? get_nobj prob)%nat eqn:E; [apply Nat.ltb_lt in E; lia|].
  destruct (gen =? 1)%nat eqn:G; [apply Nat.eqb_eq in G; contradiction|].
  flow_go H. checked_go.
  match goal with
  | S : GiAcoMo.screen_loop _ _ _ _ _ _ _ = Go _ |- _ =>
      apply screen_loop_appends in S; destruct S as [tail [-> Htail]];
      rewrite length_seq in Htail
  end.
  match goal with
  | U : GiAcoMo.update_SA _ _ _ _ _ _ _ _ = Some _ |- _ =>
      unfold GiAcoMo.update_SA in U; rewrite reorder_out_of_range in U;
      [discriminate U | apply Nat.le_0_l |]
  end.
  match goal with
  | |- context [GiAcoMo.build_sort_list ?sp 0 ?pen ?init] =>
      destruct (build_sort_list_extends sp pen 0 init) as [more ->]
  end.
  rewrite !length_app, !repeat_length, Htail. unfold size in Hsize. lia.
Qed.

Lemma generation_return (a : GiAcoMo.gi_aco_mo) (prob : problem) (NP gen : nat)
  (c : GiAcoMo.colony) (w : exit_point) (r : GiAcoMo.colony) :
  GiAcoMo.generation a prob NP gen c = Return w r -> w <> LoopDone.
Proof.
  intro H. unfold GiAcoMo.generation in H.
  destruct (1 <? get_nobj prob)%nat; [discriminate|].
  destruct (negb _ && _); [injection H as <- _; discriminate|].
  destruct (negb _ && _); [injection H as <- _; discriminate|].
  apply bind_return_inv in H. destruct H as [H | [[penalties feasible_set] [_ H]]].
  - apply screen_loop_exit in H. destruct H as [-> _]. discriminate.
  - exfalso. flow_inv H.
Qed.

Lemma main_loop_return (a : GiAcoMo.gi_aco_mo) (prob : problem) (NP : nat)
  (fuel : nat) (gen : N) (c : GiAcoMo.colony) (w : exit_point)
  (r : GiAcoMo.colony) :
  GiAcoMo.main_loop fuel a prob NP gen c = Return w r -> w <> LoopDone.
Proof.
  intro H. apply aco_main_loop_returns in H. destruct H as [gen' [c' H]].
  eapply generation_return. exact H.
Qed.

(** On a single-objective problem a call of [evolve] for two generations or
    more never comes to the [return] after the loop: the second generation
    returns early through a stopping test, throws, or leaves the vectors
    of the population in [update_SA]. *)
Theorem aco_second_generation_never_completes (fuel : nat)
  (a : GiAcoMo.gi_aco_mo) (prob : problem) (pop : population) (fevals : nat)
  (r : evolved) :
  (get_nobj prob <= 1)%nat -> (2 <= GiAcoMo.m_gen a)%nat ->
  snd (GiAcoMo.evolve fuel a prob pop fevals) <> Returned LoopDone r.
Proof.
  intros Hobj Hgen H. unfold GiAcoMo.evolve in H.
  destruct (size pop =? 0)%nat eqn:E0; [discriminate|].
  apply Nat.eqb_neq in E0.
  destruct (is_stochastic prob); [discriminate|].
  destruct (negb (get_nc prob =? 0)%nat); [discriminate|].
  destruct (GiAcoMo.m_gen a =? 0)%nat eqn:E1; [apply Nat.eqb_eq in E1; lia|].
  destruct (size pop <? GiAcoMo.m_ker a)%nat; [discriminate|].
  cbn [snd] in H.
  destruct (GiAcoMo.main_loop _ _ _ _ _ _) as [c|w c| | |] eqn:M; try discriminate.
  - destruct fuel as [|fuel]; cbn [GiAcoMo.main_loop] in M;
      replace (1 <=? N.of_nat (GiAcoMo.m_gen (GiAcoMo.clear_log a)))%N with true in M
        by (symmetry; apply N.leb_le; cbn [GiAcoMo.m_gen GiAcoMo.clear_log]; lia);
      [discriminate|].
    apply bind_go_inv in M. destruct M as [c1 [G1 M]].
    change (unsigned_succ 1) with 2%N in M.
    destruct fuel as [|fuel]; cbn [GiAcoMo.main_loop] in M;
      replace (2 <=? N.of_nat (GiAcoMo.m_gen (GiAcoMo.clear_log a)))%N with true in M
        by (symmetry; apply N.leb_le; cbn [GiAcoMo.m_gen GiAcoMo.clear_log]; lia);
      [discriminate|].
    apply bind_go_inv in M. destruct M as [c2 [G2 _]].
    apply generation_size in G1. simpl in G1.
    eapply later_generation_stops; [exact Hobj | | | exact G2].
    + discriminate.
    + rewrite G1. lia.
  - apply main_loop_return in M. injection H as -> _. contradiction.
Qed.

End AcoLaterGenerations.

(** Two generations on a population of three with two feasible
    individuals. *)
Lemma aco_second_generation_witness :
  snd (GiAcoMo.evolve 2 (AcoInputs.colony_of 2 0 0 2) AcoInputs.one_inequality
         AcoInputs.trio_pop 0)
  <> Pagmo.Returned Pagmo.LoopDone
       {| Pagmo.ev_pop := AcoInputs.trio_pop; Pagmo.ev_fevals := 6;
          Pagmo.ev_log := [] |}.
Proof.
  apply (@aco_second_generation_never_completes Reference.services 2
           (AcoInputs.colony_of 2 0 0 2) AcoInputs.one_inequality
           AcoInputs.trio_pop 0).
  - simpl. lia.
  - simpl. lia.
Defined.

(** * [gi_aco_mo]: [update_SA] *)

Section AcoUpdate.
Import Pagmo.
Context {services : Services}.

Lemma walk_archive_halts (ker nx : nat) (variables objectives : list vector_double)
  (sorted_vector : list xdouble) (candidates js : list nat)
  (SA : list GiAcoMo.sa_row) (c : GiAcoMo.counters) :
  GiAcoMo.walk_archive ker nx variables objectives sorted_vector candidates js
    SA false c = Some (SA, c).
Proof.
  destruct js; reflexivity.
Qed.

(** When the best candidate of the generation has a penalty above the one
    of the last row of the archive, [update_SA] leaves the archive as it
    is, sets the counter of runs without improvement to 0 and adds 1 to the
    counter of evaluations without improvement. *)
Theorem aco_update_without_improvement (a : GiAcoMo.gi_aco_mo) (prob : problem)
  (pop : population) (sorted_vector : list xdouble) (sorted_list : list nat)
  (SA : list GiAcoMo.sa_row) (n_impstop n_evalstop : Z)
  (variables objectives : list vector_double)
  (row : GiAcoMo.sa_row) (sv : xdouble) :
  GiAcoMo.reorder pop sorted_list 0 (get_x pop) (get_f pop)
  = Some (variables, objectives) ->
  sorted_list <> [] ->
  (0 < GiAcoMo.m_ker a)%nat ->
  Vec.get SA (GiAcoMo.m_ker a - 1) = Some row ->
  Vec.get sorted_vector 0 = Some sv ->
  xltb (GiAcoMo.row_penalty row) sv = true ->
  GiAcoMo.update_SA a prob pop sorted_vector sorted_list SA n_impstop n_evalstop
  = Some (SA, 0%Z, (n_evalstop + 1)%Z).
Proof.
  intros Hre Hne Hker Hrow Hsv Hworse. unfold GiAcoMo.update_SA.
  rewrite Hre. cbn [obind].
  destruct (GiAcoMo.m_ker a) as [|k] eqn:K; [lia|].
  replace (S k - 1)%nat with k in Hrow by lia.
  rewrite seq_S, rev_app_distr. simpl rev at 1. cbn [app].
  destruct sorted_list as [|s0 rest]; [contradiction|].
  cbn [length seq GiAcoMo.walk_archive GiAcoMo.scan_candidates].
  rewrite Hsv. cbn [obind]. rewrite Hrow. cbn [obind].
  unfold xleb. rewrite Hworse. cbn [negb obind].
  rewrite Nat.eqb_refl. cbn [negb andb].
  rewrite walk_archive_halts. reflexivity.
Qed.

End AcoUpdate.

(** * [gi_aco_mo]: the pheromone values *)

Lemma Qdiv_nonneg (x y : Q) : 0 <= x -> 0 <= y -> 0 <= x / y.
Proof.
  intros Hx Hy. unfold Qdiv. apply Qmult_le_0_compat; [exact Hx|].
  apply Qinv_le_0_compat. exact Hy.
Qed.

Section AcoPheromone.
Import Pagmo.
Context {services : Services}.

Lemma spread_inner_ordered (SA : list GiAcoMo.sa_row) (h count : nat) (ks : list nat) :
  forall (D_min D_max D_min' D_max' : Q),
    GiAcoMo.spread_inner SA h count ks (D_min, D_max) = Some (D_min', D_max') ->
    D_min <= D_max -> D_min' <= D_max'.
Proof.
  induction ks as [|k ks IH]; intros D_min D_max D_min' D_max' H Hle; simpl in H.
  - injection H as <- <-. exact Hle.
  - destruct (GiAcoMo.gap SA count k h) as [g|]; [|discriminate]. simpl in H.
    eapply IH; [exact H|].
    destruct (Qltb g D_min) eqn:E1; destruct (Qltb D_max g) eqn:E2;
      try apply Qltb_true in E1; try apply Qltb_true in E2;
      try apply Qltb_false in E1; try apply Qltb_false in E2.
    + apply Qle_refl.
    + exact E2.
    + exact E1.
    + exact Hle.
Qed.

Lemma spread_outer_ordered (ker : nat) (SA : list GiAcoMo.sa_row) (h : nat)
  (counts : list nat) :
  forall (D_min D_max D_min' D_max' : Q),
    GiAcoMo.spread_outer ker SA h counts (D_min, D_max) = Some (D_min', D_max') ->
    D_min <= D_max -> D_min' <= D_max'.
Proof.
  induction counts as [|count counts IH];
    intros D_min D_max D_min' D_max' H Hle; simpl in H.
  - injection H as <- <-. exact Hle.
  - destruct (GiAcoMo.spread_inner _ _ _ _ _) as [[d1 d2]|] eqn:E; [|discriminate].
    simpl in H. eapply IH; [exact H|].
    eapply spread_inner_ordered; eassumption.
Qed.

(** The standard deviation computed for a variable is never negative, and
    with a focus other than 0 it does not exceed the width of the box
    divided by the focus. *)
Theorem aco_sigma_bounds (a : GiAcoMo.gi_aco_mo) (prob : problem)
  (SA : list GiAcoMo.sa_row) (h : nat) (s : Q) :
  GiAcoMo.sigma_of a prob SA h = Some s ->
  0 <= GiAcoMo.m_focus a ->
  (forall l u, Vec.get (get_lb prob) (h - 1) = Some l ->
               Vec.get (get_ub prob) (h - 1) = Some u -> l <= u) ->
  0 <= s /\
  (~ GiAcoMo.m_focus a == 0 ->
   forall l u, Vec.get (get_lb prob) (h - 1) = Some l ->
               Vec.get (get_ub prob) (h - 1) = Some u ->
               s <= (u - l) / GiAcoMo.m_focus a).
Proof.
  intros H Hfocus Hbox. unfold GiAcoMo.sigma_of in H.
  destruct (GiAcoMo.gap SA 0 1 h) as [d0|]; [|discriminate]. cbn [obind] in H.
  destruct (GiAcoMo.spread_outer _ _ _ _ _) as [[D_min D_max]|] eqn:E;
    [|discriminate].
  cbn [obind] in H.
  apply spread_outer_ordered in E; [|apply Qle_refl].
  assert (Hgen : 0 <= inject_Z (Z.of_nat (GiAcoMo.m_gen a))).
  { change 0 with (inject_Z 0). rewrite <- Zle_Qle. lia. }
  assert (Hraw : 0 <= (D_max - D_min) / inject_Z (Z.of_nat (GiAcoMo.m_gen a))).
  { apply Qdiv_nonneg; [|exact Hgen].
    apply (Qplus_le_l _ _ D_min). ring_simplify. exact E. }
  destruct (Qeq_bool (GiAcoMo.m_focus a) 0) eqn:F.
  - injection H as <-. split; [exact Hraw|].
    intro Hn. apply Qeq_bool_iff in F. contradiction.
  - destruct (Vec.get (get_ub prob) (h - 1)) as [u|] eqn:Eu; [|discriminate].
    cbn [obind] in H.
    destruct (Vec.get (get_lb prob) (h - 1)) as [l|] eqn:El; [|discriminate].
    cbn [obind] in H.
    destruct (Qltb _ _) eqn:C; injection H as <-.
    + split.
      * apply Qdiv_nonneg; [|exact Hfocus].
        apply (Qplus_le_l _ _ l). ring_simplify. apply Hbox; reflexivity.
      * intros _ l' u' Hl Hu. injection Hl as <-. injection Hu as <-.
        apply Qle_refl.
    + split; [exact Hraw|].
      intros _ l' u' Hl Hu. injection Hl as <-. injection Hu as <-.
      apply Qltb_false. exact C.
Qed.

(** With fewer than two rows in the archive the computation of the standard
    deviations reads a row that is not there: [D_min] starts from
    [|SA[0][h] - SA[1][h]|]. *)
Lemma pheromone_needs_two_rows (a : GiAcoMo.gi_aco_mo) (prob : problem)
  (SA : list GiAcoMo.sa_row) :
  (length SA <= 1)%nat -> (1 <= get_nx prob)%nat ->
  GiAcoMo.pheromone_computation a prob SA = None.
Proof.
  intros Hlen Hnx. unfold GiAcoMo.pheromone_computation.
  destruct (GiAcoMo.omega_weights (GiAcoMo.m_ker a)) as [OMEGA|]; [|reflexivity].
  cbn [obind].
  destruct (get_nx prob) as [|n]; [lia|].
  cbn [seq GiAcoMo.sigma_loop]. unfold GiAcoMo.sigma_of, GiAcoMo.gap.
  destruct (Vec.get SA 0) as [a1|]; [|reflexivity]. cbn [obind].
  destruct (GiAcoMo.row_get a1 1) as [x1|]; [|reflexivity]. cbn [obind].
  unfold Vec.get at 1.
  replace (nth_error SA 1) with (@None GiAcoMo.sa_row)
    by (symmetry; apply nth_error_None; exact Hlen).
  reflexivity.
Qed.

Lemma init_SA_length (penalties sorted_penalties : list xdouble)
  (sort_list : list nat) (X fit : list vector_double) (idx : list nat) :
  forall SA SA',
    GiAcoMo.init_SA penalties sorted_penalties sort_list X fit idx SA = Some SA' ->
    length SA' = length SA.
Proof.
  induction idx as [|i idx IH]; intros SA SA' H; simpl in H.
  - injection H as <-. reflexivity.
  - checked_inv H. apply IH in H. rewrite H. eapply vec_set_length. eassumption.
Qed.

(** On a single-objective problem with at least one variable, a call of
    [evolve] with an archive of one row (or none) never comes to the
    [return] after the loop: the first generation reads the second row of
    the archive. *)
Theorem aco_archive_of_one_row_never_completes (fuel : nat)
  (a : GiAcoMo.gi_aco_mo) (prob : problem) (pop : population) (fevals : nat)
  (r : evolved) :
  (GiAcoMo.m_ker a <= 1)%nat -> (get_nobj prob <= 1)%nat ->
  (1 <= get_nx prob)%nat -> GiAcoMo.m_gen a <> 0%nat ->
  snd (GiAcoMo.evolve fuel a prob pop fevals) <> Returned LoopDone r.
Proof.
  intros Hker Hobj Hnx Hgen H. unfold GiAcoMo.evolve in H.
  destruct (size pop =? 0)%nat; [discriminate|].
  destruct (is_stochastic prob); [discriminate|].
  destruct (negb (get_nc prob =? 0)%nat); [discriminate|].
  destruct (GiAcoMo.m_gen a =? 0)%nat eqn:E1;
    [apply Nat.eqb_eq in E1; contradiction|].
  destruct (size pop <? GiAcoMo.m_ker a)%nat; [discriminate|].
  cbn [snd] in H.
  destruct (GiAcoMo.main_loop _ _ _ _ _ _) as [c|w c| | |] eqn:M; try discriminate.
  - destruct fuel as [|fuel]; cbn [GiAcoMo.main_loop] in M;
      replace (1 <=? N.of_nat (GiAcoMo.m_gen (GiAcoMo.clear_log a)))%N with true in M
        by (symmetry; apply N.leb_le; cbn [GiAcoMo.m_gen GiAcoMo.clear_log]; lia);
      [discriminate|].
    apply bind_go_inv in M. destruct M as [c1 [G1 _]].
    unfold GiAcoMo.generation in G1.
    destruct (1 <? get_nobj prob)%nat eqn:E; [apply Nat.ltb_lt in E; lia|].
    change (N.to_nat 1 =? 1)%nat with true in G1.
    flow_go G1.
    match goal with
    | E : (if _ then Throw else _) = Go _ |- _ => flow_go E; injection E as <- _ _
    end.
    checked_go.
    match goal with
    | I : GiAcoMo.init_SA _ _ _ _ _ _ _ = Some _ |- _ =>
        apply init_SA_length in I; simpl in I; rewrite repeat_length in I
    end.
    match goal with
    | P : GiAcoMo.pheromone_computation _ _ _ = Some _ |- _ =>
        rewrite pheromone_needs_two_rows in P; [discriminate P | lia | exact Hnx]
    end.
  - apply main_loop_return in M. injection H as -> _. contradiction.
Qed.

End AcoPheromone.

(** Two candidates with penalties 5 and 6 against an archive whose last row
    has penalty 0. *)
Lemma aco_update_witness :
  GiAcoMo.update_SA (AcoInputs.colony_of 1 0 0 3) AcoInputs.one_inequality
    AcoInputs.trio_pop [Fin 5; Fin 6] [1%nat; 2%nat] AcoArchives.spread_archive 4 4
  = Some (AcoArchives.spread_archive, 0%Z, (4 + 1)%Z).
Proof.
  apply (@aco_update_without_improvement Reference.services
           (AcoInputs.colony_of 1 0 0 3) AcoInputs.one_inequality
           AcoInputs.trio_pop [Fin 5; Fin 6] [1%nat; 2%nat]
           AcoArchives.spread_archive 4 4
           [[7]; [8]; [8]] [[1; -5]; [1; -5]; [1; -5]]
           (AcoArchives.archive_row 0 9 1 0) (Fin 5)).
  - reflexivity.
  - discriminate.
  - simpl. lia.
  - reflexivity.
  - reflexivity.
  - reflexivity.
Defined.

(** Rows at 1, 4 and 9 in a box of width 10, with focus 1/2 and one
    generation: the deviation is 2, below the cap of 20. *)
Lemma aco_sigma_witness :
  0 <= 2 /\
  (~ GiAcoMo.m_focus (AcoArchives.colony_focused_on (1 # 2) 1 3) == 0 ->
   forall l u,
     Vec.get (Pagmo.get_lb AcoInputs.one_inequality) (1 - 1) = Some l ->
     Vec.get (Pagmo.get_ub AcoInputs.one_inequality) (1 - 1) = Some u ->
     2 <= (u - l) / GiAcoMo.m_focus (AcoArchives.colony_focused_on (1 # 2) 1 3)).
Proof.
  apply (@aco_sigma_bounds Reference.services
           (AcoArchives.colony_focused_on (1 # 2) 1 3) AcoInputs.one_inequality
           AcoArchives.spread_archive 1 2).
  - reflexivity.
  - simpl. unfold Qle. simpl. lia.
  - intros l u Hl Hu. injection Hl as <-. injection Hu as <-.
    unfold Qle. simpl. lia.
Defined.

(** An archive of one row on a population of three. *)
Lemma aco_archive_of_one_row_witness :
  snd (GiAcoMo.evolve 1 (AcoInputs.colony_of 1 0 0 1) AcoInputs.one_inequality
         AcoInputs.trio_pop 0)
  <> Pagmo.Returned Pagmo.LoopDone
       {| Pagmo.ev_pop := AcoInputs.trio_pop; Pagmo.ev_fevals := 3;
          Pagmo.ev_log := [] |}.
Proof.
  apply (@aco_archive_of_one_row_never_completes Reference.services 1
           (AcoInputs.colony_of 1 0 0 1) AcoInputs.one_inequality
           AcoInputs.trio_pop 0).
  - simpl. lia.
  - simpl. lia.
  - simpl. lia.
  - simpl. discriminate.
Defined.

(** * [gi_aco_mo]: the new ants *)

Section AcoAnts.
Import Pagmo.
Context {services : Services}.
Variables omega sigma : vector_double.
Variable SA : list GiAcoMo.sa_row.
Variable n_con : nat.
Hypothesis weights : (length SA <= length omega)%nat.
Hypothesis deviations : (n_con <= length sigma)%nat.
Hypothesis rows : Forall (fun row => (n_con <= length (GiAcoMo.row_cells row))%nat) SA.

Lemma kernel_loop_total (h : nat) (ks : list nat) :
  (h < n_con)%nat ->
  Forall (fun k => (k < length SA)%nat) ks ->
  forall (g_h : Q) (generator : engine),
  exists r, GiAcoMo.kernel_loop omega sigma SA h ks g_h generator = Some r.
Proof.
  intros Hh. induction ks as [|k ks IH]; intros Hks g_h generator; simpl.
  - eexists; reflexivity.
  - inversion Hks as [|? ? Hk Hrest]; subst.
    destruct (Vec.get SA k) as [row|] eqn:Erow;
      [| unfold Vec.get in Erow; apply nth_error_None in Erow; lia].
    cbn [obind].
    assert (Hrow : (n_con <= length (GiAcoMo.row_cells row))%nat).
    { rewrite Forall_forall in rows. apply rows. eapply nth_error_In. exact Erow. }
    destruct (Vec.get (GiAcoMo.row_cells row) h) as [mean|] eqn:Em;
      [| unfold Vec.get in Em; apply nth_error_None in Em; lia].
    cbn [obind].
    destruct (Vec.get sigma h) as [sd|] eqn:Es;
      [| unfold Vec.get in Es; apply nth_error_None in Es; lia].
    cbn [obind].
    destruct (Vec.get omega k) as [w|] eqn:Ew;
      [| unfold Vec.get in Ew; apply nth_error_None in Ew; lia].
    cbn [obind].
    destruct (normal_distribution mean sd generator) as [draw generator'].
    apply IH. exact Hrest.
Qed.

Lemma variable_loop_total (hs : list nat) :
  Forall (fun h => (h < n_con)%nat) hs ->
  forall (X_new_k : vector_double) (generator : engine),
  exists X generator',
    GiAcoMo.variable_loop omega sigma SA hs X_new_k generator = Some (X, generator') /\
    length X = (length X_new_k + length hs)%nat.
Proof.
  induction hs as [|h hs IH]; intros Hhs X_new_k generator; simpl.
  - exists X_new_k, generator. split; [reflexivity | lia].
  - inversion Hhs as [|? ? Hh Hrest]; subst.
    destruct (kernel_loop_total (ks := seq 0 (length SA)) Hh) with
      (g_h := 0) (generator := generator) as [[g_h generator'] E].
    { apply Forall_forall. intros k Hk. apply in_seq in Hk. lia. }
    rewrite E. cbn [obind].
    destruct (IH Hrest (Vec.push_back X_new_k g_h) generator') as [X [e' [HX Hlen]]].
    exists X, e'. split; [exact HX|].
    rewrite Hlen. unfold Vec.push_back. rewrite length_app. simpl. lia.
Qed.

Lemma ant_loop_total (js : list nat) :
  forall (X_new : list vector_double) (generator : engine),
  exists tail,
    GiAcoMo.ant_loop omega sigma SA n_con js X_new generator = Some (X_new ++ tail) /\
    length tail = length js /\
    Forall (fun x => length x = n_con) tail.
Proof.
  induction js as [|j js IH]; intros X_new generator; simpl.
  - exists []. rewrite app_nil_r. repeat split. constructor.
  - destruct (variable_loop_total (hs := seq 0 n_con)) with
      (X_new_k := @nil Q) (generator := generator) as [X [e' [HX Hlen]]].
    { apply Forall_forall. intros h Hh. apply in_seq in Hh. lia. }
    rewrite HX. cbn [obind].
    destruct (IH (Vec.push_back X_new X) e') as [tail [Ht [Hl Hf]]].
    exists (X :: tail). unfold Vec.push_back in Ht. rewrite <- app_assoc in Ht.
    split; [exact Ht|]. split; [simpl; rewrite Hl; reflexivity|].
    constructor; [|exact Hf]. rewrite Hlen, length_seq. reflexivity.
Qed.

(** With a weight for every row of the archive, a deviation for every
    variable and rows that hold the variables, [generate_new_ants] returns
    one ant per individual, each with one value per variable. *)
Theorem aco_new_ants_shape (a : GiAcoMo.gi_aco_mo) (pop_size : nat) :
  exists X_new,
    GiAcoMo.generate_new_ants a omega sigma SA n_con pop_size = Some X_new /\
    length X_new = pop_size /\
    Forall (fun x => length x = n_con) X_new.
Proof.
  unfold GiAcoMo.generate_new_ants.
  destruct (ant_loop_total (seq 0 pop_size) [] (seeded (GiAcoMo.m_seed a)))
    as [tail [Ht [Hl Hf]]].
  exists tail. split; [exact Ht|]. split; [|exact Hf].
  rewrite Hl. apply length_seq.
Qed.

End AcoAnts.

(** Three ants of one variable from an archive of three rows, with the
    weights [pheromone_computation] gives three rows. *)
Lemma aco_new_ants_witness :
  exists X_new,
    GiAcoMo.generate_new_ants (AcoInputs.colony_of 1 0 0 3)
      [4 # 6; 3 # 6; 2 # 6] [2] AcoArchives.spread_archive 1 3 = Some X_new /\
    length X_new = 3%nat /\
    Forall (fun x => length x = 1%nat) X_new.
Proof.
  apply (@aco_new_ants_shape Reference.services [4 # 6; 3 # 6; 2 # 6] [2]
           AcoArchives.spread_archive 1).
  - simpl. lia.
  - simpl. lia.
  - repeat constructor.
Defined.

(** * [gi_aco_mo]: storing the new ants *)

Section PopulationStores.
Import Pagmo.

Lemma set_xf_stores (pop pop' : population) (i : nat) (x f : vector_double) :
  set_xf pop i x f = Some pop' ->
  Vec.get (get_x pop') i = Some x /\ Vec.get (get_f pop') i = Some f /\
  (forall j, j <> i ->
     Vec.get (get_x pop') j = Vec.get (get_x pop) j /\
     Vec.get (get_f pop') j = Vec.get (get_f pop) j) /\
  length (get_x pop') = length (get_x pop) /\
  length (get_f pop') = length (get_f pop).
Proof.
  unfold set_xf. intro H.
  destruct (Vec.set (get_x pop) i x) as [xs|] eqn:Ex; [|discriminate].
  destruct (Vec.set (get_f pop) i f) as [fs|] eqn:Ef; [|discriminate].
  injection H as <-. simpl. repeat split.
  - eapply vec_get_set_same. exact Ex.
  - eapply vec_get_set_same. exact Ef.
  - eapply vec_get_set_other; eassumption.
  - eapply vec_get_set_other; eassumption.
  - eapply vec_set_length. exact Ex.
  - eapply vec_set_length. exact Ef.
Qed.

Lemma set_xf_total (pop : population) (i : nat) (x f : vector_double) :
  (i < length (get_x pop))%nat -> (i < length (get_f pop))%nat ->
  exists pop', set_xf pop i x f = Some pop'.
Proof.
  intros Hx Hf. unfold set_xf.
  destruct (vec_set_some (get_x pop) x Hx) as [xs ->].
  destruct (vec_set_some (get_f pop) f Hf) as [fs ->].
  eexists. reflexivity.
Qed.

End PopulationStores.

Section AcoStore.
Import Pagmo.
Variable prob : problem.
Variable new_ants : list vector_double.

Lemma store_ants_stores (idx : list nat) :
  NoDup idx ->
  forall (pop pop' : population) (fevals fevals' : nat),
    GiAcoMo.store_ants prob new_ants idx pop fevals = Some (pop', fevals') ->
    fevals' = (fevals + length idx)%nat /\
    (forall i, In i idx ->
       exists ant, Vec.get new_ants i = Some ant /\
                   Vec.get (get_x pop') i = Some ant /\
                   Vec.get (get_f pop') i = Some (fitness prob ant)) /\
    (forall j, ~ In j idx ->
       Vec.get (get_x pop') j = Vec.get (get_x pop) j /\
       Vec.get (get_f pop') j = Vec.get (get_f pop) j).
Proof.
  induction idx as [|i idx IH]; intros Hnd pop pop' fevals fevals' H; simpl in H.
  - injection H as <- <-. split; [simpl; lia|]. split.
    + intros i [].
    + intros j _. split; reflexivity.
  - inversion Hnd as [|? ? Hni Hnd']; subst.
    destruct (Vec.get new_ants i) as [ant|] eqn:Ea; [|discriminate].
    cbn [obind] in H.
    destruct (set_xf pop i ant (fitness prob ant)) as [pop1|] eqn:Es; [|discriminate].
    cbn [obind] in H.
    apply set_xf_stores in Es. destruct Es as [Sx [Sf [Sother _]]].
    destruct (IH Hnd' _ _ _ _ H) as [Hfe [Hin Hout]].
    split; [simpl; lia|]. split.
    + intros k [<-|Hk].
      * exists ant. destruct (Hout i Hni) as [Ox Of].
        rewrite Ox, Of. repeat split; assumption.
      * apply Hin. exact Hk.
    + intros j Hj. destruct (Hout j) as [Ox Of].
      { intro Hj'. apply Hj. right. exact Hj'. }
      destruct (Sother j) as [Px Pf].
      { intro Hji. apply Hj. left. symmetry. exact Hji. }
      rewrite Ox, Of. split; assumption.
Qed.

Lemma store_ants_total (idx : list nat) :
  forall (pop : population) (fevals : nat),
    Forall (fun i => (i < length new_ants)%nat /\ (i < length (get_x pop))%nat /\
                     (i < length (get_f pop))%nat) idx ->
    exists r, GiAcoMo.store_ants prob new_ants idx pop fevals = Some r.
Proof.
  induction idx as [|i idx IH]; intros pop fevals H; simpl.
  - eexists; reflexivity.
  - inversion H as [|? ? [Ha [Hx Hf]] Hrest]; subst.
    destruct (Vec.get new_ants i) as [ant|] eqn:Ea;
      [| unfold Vec.get in Ea; apply nth_error_None in Ea; lia].
    cbn [obind].
    destruct (@set_xf_total pop i ant (fitness prob ant) Hx Hf) as [pop1 Es].
    rewrite Es. cbn [obind].
    apply set_xf_stores in Es. destruct Es as [_ [_ [_ [Lx Lf]]]].
    apply IH. rewrite Lx, Lf. exact Hrest.
Qed.

(** The loop that stores the new ants returns on a population of [NP]
    individuals handed [NP] ants; it calls the fitness once per ant and
    leaves every individual replaced by its ant with the fitness of the
    ant. *)
Theorem aco_store_ants_replaces_population (NP : nat) (pop : population)
  (fevals : nat) :
  (NP <= length new_ants)%nat -> (NP <= length (get_x pop))%nat ->
  (NP <= length (get_f pop))%nat ->
  exists pop',
    GiAcoMo.store_ants prob new_ants (seq 0 NP) pop fevals
    = Some (pop', (fevals + NP)%nat) /\
    forall i, (i < NP)%nat ->
      exists ant, Vec.get new_ants i = Some ant /\
                  Vec.get (get_x pop') i = Some ant /\
                  Vec.get (get_f pop') i = Some (fitness prob ant).
Proof.
  intros Ha Hx Hf.
  destruct (@store_ants_total (seq 0 NP) pop fevals) as [[pop' fevals'] E].
  { apply Forall_forall. intros i Hi. apply in_seq in Hi. lia. }
  destruct (store_ants_stores (seq_NoDup NP 0) _ _ E) as [Hfe [Hin _]].
  rewrite length_seq in Hfe. subst fevals'.
  exists pop'. split; [exact E|].
  intros i Hi. apply Hin. apply in_seq. lia.
Qed.

End AcoStore.

(** Two ants stored in a population of two. *)
Lemma aco_store_ants_witness :
  exists pop',
    GiAcoMo.store_ants AcoInputs.unconstrained [[3]; [4]] (seq 0 2)
      AcoInputs.plain_pop 0
    = Some (pop', (0 + 2)%nat) /\
    forall i, (i < 2)%nat ->
      exists ant, Vec.get [[3]; [4]] i = Some ant /\
                  Vec.get (Pagmo.get_x pop') i = Some ant /\
                  Vec.get (Pagmo.get_f pop') i
                  = Some (Pagmo.fitness AcoInputs.unconstrained ant).
Proof.
  apply (@aco_store_ants_replaces_population AcoInputs.unconstrained
           [[3]; [4]] 2 AcoInputs.plain_pop 0); simpl; lia.
Defined.

(** * [nspso]: the leaders *)

Section NspsoLeaders.
Import Pagmo.
Context {services : Services} {utilities : Nspso.Utilities}.

(** Under the niche-count mechanism the chromosomes of the first front are
    stored by subscript into a vector declared empty: with a first front
    that is not empty the generation leaves that vector at its first
    store. *)
Theorem nspso_niche_count_leaves_the_vector (R : Type) (fuel : nat)
  (a : Nspso.nspso) (prob : problem) (minv maxv : vector_double)
  (swarm_size gen : nat) (s : Nspso.swarm)
  (p : nat) (front : list nat) (fronts : list (list nat)) :
  Nspso.m_diversity_mechanism a = "niche count"%string ->
  Nspso.fast_non_dominated_sorting (get_f (Nspso.s_pop s))
  = (p :: front) :: fronts ->
  @Nspso.generation _ _ R fuel a prob minv maxv swarm_size gen s = Undefined.
Proof.
  intros Hmech Hfronts. unfold Nspso.generation.
  rewrite Hfronts. unfold Nspso.leader_set. rewrite Hmech. simpl String.eqb.
  cbn iota. unfold Nspso.niche_leaders. cbn [Vec.get nth_error obind Nspso.gather].
  destruct (Vec.get (Nspso.s_list s) p); reflexivity.
Qed.

(** The extent of the leader draw.  When the product of the number of
    leaders and the selection range is below 100 the integer quotient is 0
    and the subtraction of 1 wraps around; otherwise, for a range of at most
    100 and two leaders or more, the extent is a position of the leader
    set. *)
Theorem nspso_leader_extent_cases (leaders range : nat) :
  ((leaders * range < 100)%nat ->
   Nspso.leader_extent leaders range = (2 ^ 32 - 1)%N) /\
  ((100 <= leaders * range)%nat -> (range <= 100)%nat -> (2 <= leaders)%nat ->
   (1 <= Nspso.leader_extent leaders range)%N /\
   (N.to_nat (Nspso.leader_extent leaders range) < leaders)%nat).
Proof.
  unfold Nspso.leader_extent. split.
  - intro H. rewrite (Nat.div_small _ _ H). reflexivity.
  - intros H Hr Hl.
    assert (Hq1 : (1 <= leaders * range / 100)%nat).
    { apply Nat.div_le_lower_bound; lia. }
    assert (Hq2 : (leaders * range / 100 <= leaders)%nat).
    { apply Nat.Div0.div_le_upper_bound. nia. }
    destruct (N.of_nat (leaders * range / 100) =? 0)%N eqn:E.
    { apply N.eqb_eq in E. lia. }
    destruct (N.of_nat (leaders * range / 100) - 1 <? 1)%N eqn:E2.
    + split; lia.
    + apply N.ltb_ge in E2. split; lia.
Qed.

(** The loop that draws the leader only ends on a position of the leader
    set that holds another particle than the one being moved. *)
Theorem nspso_leader_is_another_particle (R : Type) (fuel : nat)
  (best_non_dom_indices : list nat) (ext : N) (idx : nat) (e e' : engine)
  (leader_idx : nat) :
  @Nspso.draw_leader _ R fuel best_non_dom_indices ext idx e
  = Go (leader_idx, e') ->
  exists b, Vec.get best_non_dom_indices leader_idx = Some b /\ b <> idx.
Proof.
  revert e. induction fuel as [|fuel IH]; intros e H; simpl in H.
  - discriminate.
  - destruct (uniform_int 0 ext e) as [k e1].
    apply bind_go_inv in H. destruct H as [b [Hb H]].
    apply checked_go_inv in Hb.
    destruct (b =? idx)%nat eqn:E.
    + eapply IH. exact H.
    + injection H as <- <-. exists b. split; [exact Hb|].
      apply Nat.eqb_neq. exact E.
Qed.

End NspsoLeaders.

(** A swarm of two under the niche-count mechanism. *)
Lemma nspso_niche_count_witness :
  @Nspso.generation Reference.services Reference.utilities Empty_set 10
    (NspsoInputs.swarm_of 1 "niche count") NspsoInputs.line_problem
    [-1 # 2] [1 # 2] 2 1
    {| Nspso.s_pop := NspsoInputs.duo_pop;
       Nspso.s_list := [NspsoInputs.particle (1 # 2) [1; 1] 0;
                        NspsoInputs.particle 1 [2; 2] 0];
       Nspso.s_e := @Pagmo.seeded Reference.services 5;
       Nspso.s_fevals := 0; Nspso.s_log := [] |}
  = Pagmo.Undefined.
Proof.
  apply (@nspso_niche_count_leaves_the_vector Reference.services
           Reference.utilities Empty_set 10
           (NspsoInputs.swarm_of 1 "niche count") NspsoInputs.line_problem
           [-1 # 2] [1 # 2] 2 1 _ 0%nat [] [[1%nat]]).
  - reflexivity.
  - reflexivity.
Defined.

(** Two leaders, the particle 0 being moved: the draw ends on position 1. *)
Lemma nspso_leader_witness :
  exists b, Vec.get [0%nat; 1%nat] 1 = Some b /\ b <> 0%nat.
Proof.
  apply (@nspso_leader_is_another_particle Reference.services Empty_set 10
           [0%nat; 1%nat] 1%N 0 5%nat 6%nat 1).
  reflexivity.
Defined.

(** * [nspso]: the move of a particle *)

Section NspsoMove.
Import Pagmo.
Context {services : Services} {utilities : Nspso.Utilities}.
Variable a : Nspso.nspso.
Variables w r1 r2 : Q.
Variables cur_vel best_dvs cur_dvs leader minv maxv lb ub : vector_double.

Lemma move_coordinate_in_box (i : nat) (v x l u : Q) :
  Nspso.move_coordinate a w r1 r2 cur_vel best_dvs cur_dvs leader minv maxv
    lb ub i = Some (v, x) ->
  Vec.get lb i = Some l -> Vec.get ub i = Some u -> l <= u ->
  l <= x /\ x <= u.
Proof.
  intros H Hl Hu Hbox. unfold Nspso.move_coordinate in H.
  destruct (Vec.get cur_vel i) as [cv|]; [|discriminate]. cbn [obind] in H.
  destruct (Vec.get best_dvs i) as [bd|]; [|discriminate]. cbn [obind] in H.
  destruct (Vec.get cur_dvs i) as [cd|]; [|discriminate]. cbn [obind] in H.
  destruct (Vec.get leader i) as [ld|]; [|discriminate]. cbn [obind] in H.
  destruct (Vec.get maxv i) as [mx|]; [|discriminate]. cbn [obind] in H.
  destruct (if Qltb mx _ then _ else _) as [v1|]; [|discriminate].
  cbn [obind] in H. rewrite Hu in H. cbn [obind] in H.
  destruct (Qltb u (cd + Nspso.m_chi a * v1)) eqn:Eu.
  - injection H as <- <-. split; [exact Hbox | apply Qle_refl].
  - rewrite Hl in H. cbn [obind] in H.
    destruct (Qltb (cd + Nspso.m_chi a * v1) l) eqn:El; injection H as <- <-.
    + split; [apply Qle_refl | exact Hbox].
    + split; [apply Qltb_false; exact El | apply Qltb_false; exact Eu].
Qed.

Lemma move_loop_frame (idx : list nat) :
  forall new_dvs new_vel dvs vel,
    Nspso.move_loop a w r1 r2 cur_vel best_dvs cur_dvs leader minv maxv lb ub
      idx new_dvs new_vel = Some (dvs, vel) ->
    (forall j, ~ In j idx -> Vec.get dvs j = Vec.get new_dvs j) /\
    length dvs = length new_dvs /\ length vel = length new_vel.
Proof.
  induction idx as [|i idx IH]; intros new_dvs new_vel dvs vel H; simpl in H.
  - injection H as <- <-. repeat split.
  - destruct (Nspso.move_coordinate _ _ _ _ _ _ _ _ _ _ _ _ _) as [[v x]|];
      [|discriminate].
    cbn [obind] in H.
    destruct (Vec.set new_vel i v) as [new_vel'|] eqn:Ev; [|discriminate].
    cbn [obind] in H.
    destruct (Vec.set new_dvs i x) as [new_dvs'|] eqn:Ex; [|discriminate].
    cbn [obind] in H.
    apply IH in H. destruct H as [Hframe [Ld Lv]].
    rewrite Ld, Lv, (vec_set_length _ _ _ Ev), (vec_set_length _ _ _ Ex).
    repeat split. intros j Hj. rewrite Hframe.
    + eapply vec_get_set_other; [exact Ex|]. intro E. apply Hj. left. symmetry. exact E.
    + intro Hj'. apply Hj. right. exact Hj'.
Qed.

(** The new position of a particle lies inside the box on every coordinate
    the loop goes through: a coordinate that would leave the box is put on
    the bound it crossed. *)
Theorem nspso_moved_position_in_box (idx : list nat)
  (new_dvs new_vel dvs vel : vector_double) :
  NoDup idx ->
  Nspso.move_loop a w r1 r2 cur_vel best_dvs cur_dvs leader minv maxv lb ub
    idx new_dvs new_vel = Some (dvs, vel) ->
  forall i l u,
    In i idx -> Vec.get lb i = Some l -> Vec.get ub i = Some u -> l <= u ->
    exists x, Vec.get dvs i = Some x /\ l <= x /\ x <= u.
Proof.
  intros Hnd. revert new_dvs new_vel.
  induction idx as [|k idx IH]; intros new_dvs new_vel H i l u Hin Hl Hu Hbox.
  - destruct Hin.
  - inversion Hnd as [|? ? Hk Hnd']; subst. simpl in H.
    destruct (Nspso.move_coordinate _ _ _ _ _ _ _ _ _ _ _ _ _) as [[v x]|] eqn:Em;
      [|discriminate].
    cbn [obind] in H.
    destruct (Vec.set new_vel k v) as [new_vel'|] eqn:Ev; [|discriminate].
    cbn [obind] in H.
    destruct (Vec.set new_dvs k x) as [new_dvs'|] eqn:Ex; [|discriminate].
    cbn [obind] in H.
    destruct Hin as [<-|Hin].
    + exists x. split.
      * apply move_loop_frame in H. destruct H as [Hframe _].
        rewrite (Hframe k Hk). eapply vec_get_set_same. exact Ex.
      * eapply move_coordinate_in_box; eassumption.
    + eapply IH; eassumption.
Qed.

(** The loop over the coordinates leaves [new_vel] as soon as it comes to a
    coordinate the vector does not have. *)
Lemma move_loop_out_of_range (idx : list nat) :
  forall new_dvs new_vel,
    (exists i, In i idx /\ (length new_vel <= i)%nat) ->
    Nspso.move_loop a w r1 r2 cur_vel best_dvs cur_dvs leader minv maxv lb ub
      idx new_dvs new_vel = None.
Proof.
  induction idx as [|k idx IH]; intros new_dvs new_vel [i [Hin Hi]]; simpl.
  - destruct Hin.
  - destruct (Nspso.move_coordinate _ _ _ _ _ _ _ _ _ _ _ _ _) as [[v x]|];
      [|reflexivity].
    cbn [obind].
    destruct (Vec.set new_vel k v) as [new_vel'|] eqn:Ev; [|reflexivity].
    cbn [obind].
    destruct (Vec.set new_dvs k x) as [new_dvs'|]; [|reflexivity].
    cbn [obind].
    destruct Hin as [<-|Hin].
    + rewrite vec_set_none in Ev by exact Hi. discriminate.
    + apply IH. exists i. split; [exact Hin|].
      rewrite (vec_set_length _ _ _ Ev). exact Hi.
Qed.

End NspsoMove.

Section NspsoIntegerPart.
Import Pagmo.
Context {services : Services} {utilities : Nspso.Utilities}.

(** The vectors of the new position and velocity have [n_x - n_ix] entries
    and the loop over the coordinates runs over the whole current position:
    the move of a particle whose position has more coordinates than that,
    as on every problem with an integer part, does not come to its end. *)
Theorem nspso_integer_part_leaves_the_vector (R : Type) (fuel : nat)
  (a : Nspso.nspso) (prob : problem) (minv maxv : vector_double)
  (swarm_size : nat) (w : Q) (best_non_dom_indices : list nat) (idx : nat)
  (next_pop_list : list Nspso.nspso_individual) (e : engine) (fevals : nat)
  (p : Nspso.nspso_individual)
  (st : list Nspso.nspso_individual * engine * nat) :
  Vec.get next_pop_list idx = Some p ->
  (get_nx prob - get_nix prob < length (Nspso.cur_x p))%nat ->
  @Nspso.move_particle _ R fuel a prob minv maxv swarm_size w
    best_non_dom_indices idx (next_pop_list, e, fevals) <> Go st.
Proof.
  intros Hp Hlen H. unfold Nspso.move_particle in H.
  rewrite Hp in H. cbn [checked bind] in H.
  flow_go H. checked_go.
  match goal with
  | M : Nspso.move_loop _ _ _ _ _ _ _ _ _ _ _ _ _ _ _ = Some _ |- _ =>
      rewrite move_loop_out_of_range in M; [discriminate M|]
  end.
  exists (get_nx prob - get_nix prob)%nat. split.
  - apply in_seq. lia.
  - rewrite repeat_length. apply Nat.le_refl.
Qed.

End NspsoIntegerPart.

(** A particle at 1 pulled to 9/8: the new position is the upper bound 1. *)
Lemma nspso_moved_position_witness :
  exists x, Vec.get [1] 0 = Some x /\ 0 <= x /\ x <= 1.
Proof.
  apply (@nspso_moved_position_in_box Reference.services
           (NspsoInputs.swarm_of 1 "crowding distance") 1 (1 # 4) (1 # 2)
           [1 # 2] [1 # 2] [1] [1 # 2] [-1 # 2] [1 # 2] [0] [1]
           [0%nat] [0] [0] [1] [0]).
  - repeat constructor. intros [].
  - reflexivity.
  - left. reflexivity.
  - reflexivity.
  - reflexivity.
  - discriminate.
Defined.

(** The line problem with its variable declared an integer. *)
Lemma nspso_integer_part_witness :
  @Nspso.move_particle Reference.services Empty_set 10
    (NspsoInputs.swarm_of 1 "crowding distance") NspsoCases.integer_line
    [-1 # 2] [1 # 2] 2 1 [0%nat; 1%nat] 0 (NspsoCases.resting_pair, 5%nat, 0%nat)
  <> Pagmo.Go (NspsoCases.resting_pair, 5%nat, 0%nat).
Proof.
  apply (@nspso_integer_part_leaves_the_vector Reference.services Empty_set 10
           (NspsoInputs.swarm_of 1 "crowding distance") NspsoCases.integer_line
           [-1 # 2] [1 # 2] 2 1 [0%nat; 1%nat] 0 NspsoCases.resting_pair
           5%nat 0%nat (NspsoInputs.particle (1 # 2) [1; 1] 0)).
  - reflexivity.
  - simpl. lia.
Defined.

(** * [nspso]: which particles the selection keeps *)

Section VecMiddle.
Variable A : Type.

Lemma vec_set_middle (pre : list A) (x y : A) (post : list A) :
  Vec.set (pre ++ x :: post) (length pre) y = Some (pre ++ y :: post).
Proof.
  induction pre as [|h pre IH]; simpl; [reflexivity|].
  rewrite IH. reflexivity.
Qed.

Lemma skipn_cons_nth (l : list A) :
  forall j, (j < length l)%nat ->
    exists p, Vec.get l j = Some p /\ skipn j l = p :: skipn (S j) l.
Proof.
  induction l as [|h t IH]; intros j Hj; simpl in Hj; [lia|].
  destruct j as [|j].
  - exists h. split; reflexivity.
  - destruct (IH j) as [p [Hg Hs]]; [lia|].
    exists p. split; [exact Hg | exact Hs].
Qed.

End VecMiddle.

Section NspsoSelectionWalk.
Import Pagmo.
Context {services : Services} {utilities : Nspso.Utilities}.

Lemma absorb_front_writes (front : list nat) :
  forall pre mid post, length mid = length front ->
    Nspso.absorb_front front (pre ++ mid ++ post) (length pre)
    = Some (pre ++ front ++ post, (length pre + length front)%nat).
Proof.
  induction front as [|p front IH]; intros pre mid post H.
  - destruct mid; [|discriminate]. simpl. rewrite Nat.add_0_r. reflexivity.
  - destruct mid as [|m mid]; [discriminate|]. simpl in H. injection H as H.
    cbn [Nspso.absorb_front app]. rewrite vec_set_middle. cbn [obind].
    replace (pre ++ p :: mid ++ post) with ((pre ++ [p]) ++ mid ++ post)
      by (rewrite <- app_assoc; reflexivity).
    replace (S (length pre)) with (length (pre ++ [p]))
      by (rewrite length_app; simpl; lia).
    rewrite (IH _ _ _ H). rewrite <- app_assoc, length_app. simpl.
    f_equal. f_equal. lia.
Qed.

Lemma fill_from_writes (front : list nat) (k : nat) :
  forall j0 pre mid post, length mid = k -> (j0 + k <= length front)%nat ->
    Nspso.fill_from front (seq j0 k) (pre ++ mid ++ post) (length pre)
    = Some (pre ++ firstn k (skipn j0 front) ++ post, (length pre + k)%nat).
Proof.
  induction k as [|k IH]; intros j0 pre mid post H Hk.
  - destruct mid; [|discriminate]. simpl. rewrite Nat.add_0_r. reflexivity.
  - destruct mid as [|m mid]; [discriminate|]. simpl in H. injection H as H.
    destruct (@skipn_cons_nth _ front j0) as [p [Hg Hs]]; [lia|].
    cbn [seq Nspso.fill_from app]. rewrite Hg. cbn [obind].
    rewrite vec_set_middle. cbn [obind].
    replace (pre ++ p :: mid ++ post) with ((pre ++ [p]) ++ mid ++ post)
      by (rewrite <- app_assoc; reflexivity).
    replace (S (length pre)) with (length (pre ++ [p]))
      by (rewrite length_app; simpl; lia).
    rewrite (IH (S j0) _ _ _ H) by lia.
    rewrite Hs. cbn [firstn]. rewrite <- app_assoc, length_app. simpl.
    f_equal. f_equal. lia.
Qed.

Hypothesis shuffle_permutes :
  forall (l : list nat) (g : engine), Permutation (fst (shuffle l g)) l.

(** The walk over fronts whose sizes add up to the free places of the
    index vector returns, and fills those places with the members of the
    fronts. *)
Lemma front_loop_permutes (swarm_size : nat) (fronts : list (list nat)) :
  forall (done rest : list nat) (e : engine),
    length rest = length (concat fronts) ->
    swarm_size = (length done + length rest)%nat ->
    exists best e',
      Nspso.front_loop swarm_size fronts (done ++ rest) (length done) e
      = Some (best, e') /\
      Permutation best (done ++ concat fronts).
Proof.
  induction fronts as [|front fronts IH]; intros done rest e Hrest Hsize.
  - destruct rest; [|discriminate]. simpl.
    exists (done ++ []), e. split; [reflexivity | apply Permutation_refl].
  - cbn [concat] in Hrest. rewrite length_app in Hrest.
    cbn [Nspso.front_loop concat].
    destruct (length done <? swarm_size)%nat eqn:E1.
    + apply Nat.ltb_lt in E1.
      replace (swarm_size - length done)%nat with (length rest) by lia.
      destruct (length front <? length rest)%nat eqn:E2.
      * apply Nat.ltb_lt in E2.
        rewrite <- (firstn_skipn (length front) rest).
        rewrite absorb_front_writes by (rewrite length_firstn; lia).
        cbn [obind]. rewrite app_assoc.
        replace (length done + length front)%nat with (length (done ++ front))
          by (rewrite length_app; reflexivity).
        destruct (IH (done ++ front) (skipn (length front) rest) e)
          as [best [e' [Hb Hp]]].
        { rewrite length_skipn. lia. }
        { rewrite length_app, length_skipn. lia. }
        exists best, e'. split; [exact Hb|].
        rewrite <- app_assoc in Hp. exact Hp.
      * apply Nat.ltb_ge in E2.
        destruct (shuffle front e) as [shuffled e1] eqn:Es.
        pose proof (shuffle_permutes front e) as Hperm.
        rewrite Es in Hperm. cbn [fst] in Hperm.
        pose proof (Permutation_length Hperm) as Hlen.
        assert (Hnone : length (concat fronts) = 0%nat) by lia.
        apply length_zero_iff_nil in Hnone.
        replace (done ++ rest) with (done ++ rest ++ [])
          by (rewrite app_nil_r; reflexivity).
        rewrite fill_from_writes by lia.
        cbn [obind skipn].
        rewrite firstn_all2 by lia. rewrite app_nil_r.
        replace (length done + length rest)%nat with (length (done ++ shuffled))
          by (rewrite length_app; lia).
        destruct (IH (done ++ shuffled) [] e1) as [best [e' [Hb Hp]]].
        { rewrite Hnone. reflexivity. }
        { rewrite length_app. simpl. lia. }
        rewrite app_nil_r in Hb.
        exists best, e'. split; [exact Hb|].
        rewrite Hnone in *. rewrite !app_nil_r in *.
        eapply Permutation_trans; [exact Hp|].
        apply Permutation_app_head. exact Hperm.
    + apply Nat.ltb_ge in E1.
      assert (Hnone : length (front ++ concat fronts) = 0%nat)
        by (rewrite length_app; lia).
      apply length_zero_iff_nil in Hnone. rewrite Hnone.
      exists (done ++ rest), e. split; [reflexivity|].
      assert (rest = []) by (apply length_zero_iff_nil; lia). subst rest.
      apply Permutation_refl.
Qed.

(** When the fronts handed to the selection list every index below the
    swarm size once, as the fronts of the current population do, the
    selection by fronts returns and its result lists every index below the
    swarm size once: each current particle is kept, in some order. *)
Theorem nspso_selection_by_fronts_keeps_every_particle (swarm_size : nat)
  (fnds_res : list (list nat)) (next_pop_fit : list vector_double) (e : engine) :
  Permutation (concat fnds_res) (seq 0 swarm_size) ->
  exists best e',
    Nspso.select_by_fronts swarm_size fnds_res next_pop_fit e = Some (best, e') /\
    Permutation best (seq 0 swarm_size).
Proof.
  intro Hperm. unfold Nspso.select_by_fronts.
  pose proof (Permutation_length Hperm) as Hlen. rewrite length_seq in Hlen.
  destruct (@front_loop_permutes swarm_size fnds_res [] (repeat 0%nat swarm_size) e)
    as [best [e' [Hb Hp]]].
  - rewrite repeat_length. symmetry. exact Hlen.
  - rewrite repeat_length. reflexivity.
  - exists best, e'. split; [exact Hb|].
    eapply Permutation_trans; [exact Hp | exact Hperm].
Qed.

End NspsoSelectionWalk.

Section NspsoSelectionByMaxMin.
Import Pagmo.
Context {services : Services} {utilities : Nspso.Utilities}.

Hypothesis sort_permutes :
  forall (lt : nat -> nat -> bool) (idx : list nat),
    Permutation (Nspso.sort_indices lt idx) idx.

(** Under the MaxMin mechanism the index vector that is sorted has one
    entry per particle of the swarm, not one per entry of the combined
    buffer: the selection returns the indices below the swarm size, each
    once, in the order of their MaxMin values. *)
Theorem nspso_selection_by_maxmin_keeps_every_particle (swarm_size : nat)
  (next_pop_fit : list vector_double) :
  (length next_pop_fit <= 2 * swarm_size)%nat ->
  exists best,
    Nspso.select_by_maxmin swarm_size next_pop_fit = Some best /\
    Permutation best (seq 0 swarm_size).
Proof.
  intro Hlen. unfold Nspso.select_by_maxmin, Nspso.store_maxmin.
  rewrite repeat_length.
  destruct (length next_pop_fit <=? 2 * swarm_size)%nat eqn:E;
    [| apply Nat.leb_gt in E; lia].
  cbn [obind].
  match goal with
  | |- context [Nspso.sort_indices ?lt ?idx] =>
      pose proof (sort_permutes lt idx) as Hp; set (sorted := Nspso.sort_indices lt idx) in *
  end.
  pose proof (Permutation_length Hp) as Hl. rewrite length_seq in Hl.
  rewrite Hl, Nat.leb_refl.
  exists (firstn swarm_size sorted). split; [reflexivity|].
  rewrite firstn_all2 by lia. exact Hp.
Qed.

(** The leader set of the MaxMin mechanism has at least two entries and at
    most one per particle; on a swarm of one particle the cut of the index
    vector at two entries goes past its end. *)
Theorem nspso_maxmin_leaders_count (fit : list vector_double) (swarm_size : nat)
  (leaders : list nat) :
  Nspso.maxmin_leaders fit swarm_size = Some leaders ->
  (2 <= length leaders)%nat /\ (length leaders <= swarm_size)%nat.
Proof.
  unfold Nspso.maxmin_leaders. intro H.
  destruct (Nspso.store_maxmin _ _) as [maxmin|]; [|discriminate].
  cbn [obind] in H.
  match type of H with
  | context [Nspso.sort_indices ?lt ?idx] =>
      pose proof (Permutation_length (sort_permutes lt idx)) as Hl;
      set (sorted := Nspso.sort_indices lt idx) in *
  end.
  rewrite length_seq in Hl.
  destruct (Nspso.negative_run _ _ _ _) as [i|]; [|discriminate].
  cbn [obind] in H.
  set (k := if (i <? 2)%nat then 2%nat else i) in H.
  assert (Hk : (2 <= k)%nat).
  { unfold k. destruct (i <? 2)%nat eqn:E; [lia | apply Nat.ltb_ge in E; exact E]. }
  destruct (k <=? length sorted)%nat eqn:E2; [|discriminate].
  apply Nat.leb_le in E2. injection H as <-.
  rewrite length_firstn. lia.
Qed.

End NspsoSelectionByMaxMin.

Section NspsoSwarmPermuted.
Import Pagmo.
Context {services : Services} {utilities : Nspso.Utilities}.

Lemma move_particles_offspring (R : Type) (fuel : nat) (a : Nspso.nspso)
  (prob : problem) (minv maxv : vector_double) (swarm_size : nat) (w : Q)
  (best : list nat) (count : nat) :
  forall (first : nat) (l l' : list Nspso.nspso_individual) (e e' : engine)
         (fevals fevals' : nat),
    length l = (first + swarm_size)%nat ->
    @Nspso.move_particles _ R fuel a prob minv maxv swarm_size w best
      (seq first count) (l, e, fevals) = Go (l', e', fevals') ->
    exists offspring, l' = l ++ offspring /\ length offspring = count.
Proof.
  induction count as [|count IH]; intros first l l' e e' fevals fevals' Hlen H;
    simpl in H.
  - injection H as <- _ _. exists []. split; [symmetry; apply app_nil_r | reflexivity].
  - apply bind_go_inv in H. destruct H as [[[l1 e1] f1] [E H]].
    eapply move_particle_appends in E; [| exact Hlen]. destruct E as [p ->].
    apply IH in H; [| rewrite length_app; simpl; lia].
    destruct H as [offspring [-> Hc]]. exists (p :: offspring).
    rewrite <- app_assoc. split; [reflexivity | simpl; rewrite Hc; reflexivity].
Qed.

Lemma pick_is_map (next_pop_list : list Nspso.nspso_individual)
  (best : list nat) (n : nat) (tmp_pop : list Nspso.nspso_individual) :
  Nspso.pick next_pop_list best (seq 0 n) (repeat Nspso.blank n) = Some tmp_pop ->
  length best = n ->
  tmp_pop = map (fun b => nth b next_pop_list Nspso.blank) best.
Proof.
  intros H Hbest. pose proof (pick_length _ _ _ _ H) as Hlen.
  rewrite repeat_length in Hlen.
  apply nth_error_ext. intro i. rewrite nth_error_map.
  destruct (Nat.lt_ge_cases i n) as [Hi|Hi].
  - destruct (nth_error tmp_pop i) as [p|] eqn:Ep;
      [| apply nth_error_None in Ep; lia].
    destruct (@pick_rows next_pop_list best (seq 0 n) _ _ i p H) as [b [Hb Hn]].
    + apply in_seq. lia.
    + exact Ep.
    + unfold Vec.get in Hb, Hn. rewrite Hb. simpl.
      rewrite (nth_error_nth _ _ _ Hn). reflexivity.
  - replace (nth_error tmp_pop i) with (@None Nspso.nspso_individual)
      by (symmetry; apply nth_error_None; lia).
    replace (nth_error best i) with (@None nat)
      by (symmetry; apply nth_error_None; lia).
    reflexivity.
Qed.

Lemma map_nth_prefix (A : Type) (s o : list A) (d : A) :
  map (fun b => nth b (s ++ o) d) (seq 0 (length s)) = s.
Proof.
  apply nth_error_ext. intro i. rewrite nth_error_map, nth_error_seq.
  destruct (i <? length s)%nat eqn:E.
  - apply Nat.ltb_lt in E. simpl. rewrite app_nth1 by exact E.
    symmetry. apply nth_error_nth'. exact E.
  - apply Nat.ltb_ge in E. simpl. symmetry. apply nth_error_None. exact E.
Qed.

(** Whatever the diversity mechanism, a generation that runs to its end
    leaves in the working buffer the particles that were in it, in some
    order: the sorted fronts are those of the current population and the
    index vector sorted by MaxMin has one entry per current particle, so
    no particle that the generation moved is kept. *)
Theorem nspso_generation_permutes_the_swarm (R : Type) (fuel : nat)
  (a : Nspso.nspso) (prob : problem) (minv maxv : vector_double)
  (swarm_size gen : nat) (s s' : Nspso.swarm) :
  (forall (l : list nat) (g : engine), Permutation (fst (shuffle l g)) l) ->
  (forall (lt : nat -> nat -> bool) (idx : list nat),
      Permutation (Nspso.sort_indices lt idx) idx) ->
  Permutation
    (concat (Nspso.fast_non_dominated_sorting (get_f (Nspso.s_pop s))))
    (seq 0 swarm_size) ->
  length (Nspso.s_list s) = swarm_size ->
  @Nspso.generation _ _ R fuel a prob minv maxv swarm_size gen s = Go s' ->
  Permutation (Nspso.s_list s') (Nspso.s_list s).
Proof.
  intros Hshuffle Hsort Hfnds Hlist H.
  unfold Nspso.generation in H.
  flow_go H. checked_go. injection H as <-. cbn [Nspso.s_list].
  match goal with
  | E : Nspso.move_particles _ _ _ _ _ _ _ _ _ _ = Go _ |- _ =>
      apply (move_particles_offspring _ _ _ _ _ _ _ _ swarm_size 0) in E;
      [destruct E as [offspring [-> Hoff]] | exact Hlist]
  end.
  match goal with
  | E : Nspso.environmental_selection _ _ _ _ _ = Some _ |- _ =>
      unfold Nspso.environmental_selection in E; rename E into Hsel
  end.
  assert (Hbest : exists best,
             Nspso.pick (Nspso.s_list s ++ offspring) best (seq 0 swarm_size)
               (repeat Nspso.blank swarm_size) = Some l0 /\
             Permutation best (seq 0 swarm_size)).
  { destruct (negb (String.eqb (Nspso.m_diversity_mechanism a) "max min")).
    - unfold Nspso.select_by_fronts in Hsel.
      destruct (@front_loop_permutes _ Hshuffle swarm_size
                  (Nspso.fast_non_dominated_sorting (get_f (Nspso.s_pop s)))
                  [] (repeat 0%nat swarm_size) e)
        as [best [e1 [Hb Hp]]].
      + rewrite repeat_length.
        rewrite (Permutation_length Hfnds), length_seq. reflexivity.
      + rewrite repeat_length. reflexivity.
      + cbn [app length] in Hb. rewrite Hb in Hsel. cbn [obind] in Hsel.
        checked_inv Hsel. injection Hsel as <- <-.
        exists best. split; [assumption|].
        eapply Permutation_trans; [exact Hp|]. cbn [app]. exact Hfnds.
    - unfold Nspso.select_by_maxmin, Nspso.store_maxmin in Hsel.
      rewrite repeat_length, length_map, length_app in Hsel.
      replace (length (Nspso.s_list s) + length offspring <=? 2 * swarm_size)%nat
        with true in Hsel by (symmetry; apply Nat.leb_le; lia).
      cbn [obind] in Hsel.
      match type of Hsel with
      | context [Nspso.sort_indices ?lt ?idx] =>
          pose proof (Hsort lt idx) as Hp;
          set (sorted := Nspso.sort_indices lt idx) in *
      end.
      pose proof (Permutation_length Hp) as Hl. rewrite length_seq in Hl.
      rewrite Hl, Nat.leb_refl in Hsel. cbn [obind] in Hsel.
      rewrite firstn_all2 in Hsel by lia.
      checked_inv Hsel. injection Hsel as <- <-.
      exists sorted. split; assumption. }
  destruct Hbest as [best [Hpick Hp]].
  apply pick_is_map in Hpick;
    [| rewrite (Permutation_length Hp); apply length_seq].
  rewrite Hpick.
  eapply Permutation_trans; [apply Permutation_map; exact Hp|].
  rewrite <- Hlist. rewrite map_nth_prefix. apply Permutation_refl.
Qed.

End NspsoSwarmPermuted.

Lemma reference_insert_permutes (lt : nat -> nat -> bool) (a : nat) (l : list nat) :
  Permutation (Reference.insert_by lt a l) (a :: l).
Proof.
  induction l as [|b t IH]; simpl.
  - apply Permutation_refl.
  - destruct (lt a b); [apply Permutation_refl|].
    eapply Permutation_trans; [apply perm_skip; exact IH | apply perm_swap].
Qed.

Lemma reference_sort_permutes (lt : nat -> nat -> bool) (idx : list nat) :
  Permutation (@Nspso.sort_indices Reference.utilities lt idx) idx.
Proof.
  simpl. induction idx as [|a idx IH]; simpl.
  - apply Permutation_refl.
  - eapply Permutation_trans; [apply reference_insert_permutes|].
    apply perm_skip. exact IH.
Qed.

(** The fronts [[0]; [1]] of a swarm of two. *)
Lemma nspso_selection_by_fronts_witness :
  exists best e',
    @Nspso.select_by_fronts Reference.services Reference.utilities 2
      [[0%nat]; [1%nat]] (map Nspso.best_f NspsoInputs.combined) 5%nat
    = Some (best, e') /\
    Permutation best (seq 0 2).
Proof.
  apply (@nspso_selection_by_fronts_keeps_every_particle Reference.services
           Reference.utilities reference_shuffle_permutes 2 [[0%nat]; [1%nat]]
           (map Nspso.best_f NspsoInputs.combined) 5%nat).
  apply Permutation_refl.
Defined.

(** The combined buffer of a swarm of two under the MaxMin mechanism. *)
Lemma nspso_selection_by_maxmin_witness :
  exists best,
    @Nspso.select_by_maxmin Reference.utilities 2
      (map Nspso.best_f NspsoInputs.combined) = Some best /\
    Permutation best (seq 0 2).
Proof.
  apply (@nspso_selection_by_maxmin_keeps_every_particle Reference.utilities
           reference_sort_permutes 2 (map Nspso.best_f NspsoInputs.combined)).
  simpl. lia.
Defined.

(** Three mutually non-dominated particles: all three lead. *)
Lemma nspso_maxmin_leaders_witness :
  (2 <= length [2%nat; 1%nat; 0%nat])%nat /\
  (length [2%nat; 1%nat; 0%nat] <= 3)%nat.
Proof.
  apply (@nspso_maxmin_leaders_count Reference.utilities reference_sort_permutes
           MaxMinInputs.front_fit 3 [2%nat; 1%nat; 0%nat]).
  vm_compute. reflexivity.
Defined.

(** One generation under the MaxMin mechanism on a swarm of two at rest:
    the two particles are kept where they are. *)
Lemma nspso_generation_permutes_witness :
  Permutation NspsoCases.resting_pair NspsoCases.resting_pair.
Proof.
  apply (@nspso_generation_permutes_the_swarm Reference.services
           Reference.utilities Empty_set 10
           (NspsoInputs.swarm_with 3 1 "max min") NspsoInputs.line_problem
           [-1 # 2] [1 # 2] 2 1 NspsoCases.resting_swarm
           {| Nspso.s_pop := NspsoInputs.duo_pop;
              Nspso.s_list := NspsoCases.resting_pair;
              Nspso.s_e := @Pagmo.seeded Reference.services 11;
              Nspso.s_fevals := 2; Nspso.s_log := [] |}).
  - exact reference_shuffle_permutes.
  - exact reference_sort_permutes.
  - apply Permutation_refl.
  - reflexivity.
  - vm_compute. reflexivity.
Defined.

(** * [nspso]: writing the swarm back *)

Section NspsoWriteBack.
Import Pagmo.

Lemma write_back_stores (next_pop_list : list Nspso.nspso_individual)
  (idx : list nat) :
  NoDup idx ->
  forall (pop pop' : population),
    Nspso.write_back next_pop_list idx pop = Some pop' ->
    (forall i, In i idx ->
       exists p, Vec.get next_pop_list i = Some p /\
                 Vec.get (get_x pop') i = Some (Nspso.cur_x p) /\
                 Vec.get (get_f pop') i = Some (Nspso.cur_f p)) /\
    (forall j, ~ In j idx ->
       Vec.get (get_x pop') j = Vec.get (get_x pop) j /\
       Vec.get (get_f pop') j = Vec.get (get_f pop) j).
Proof.
  induction idx as [|i idx IH]; intros Hnd pop pop' H; simpl in H.
  - injection H as <-. split.
    + intros i [].
    + intros j _. split; reflexivity.
  - inversion Hnd as [|? ? Hni Hnd']; subst.
    destruct (Vec.get next_pop_list i) as [p|] eqn:Ep; [|discriminate].
    cbn [obind] in H.
    destruct (set_xf pop i (Nspso.cur_x p) (Nspso.cur_f p)) as [pop1|] eqn:Es;
      [|discriminate].
    cbn [obind] in H.
    apply set_xf_stores in Es. destruct Es as [Sx [Sf [Sother _]]].
    destruct (IH Hnd' _ _ H) as [Hin Hout].
    split.
    + intros k [<-|Hk].
      * exists p. destruct (Hout i Hni) as [Ox Of].
        rewrite Ox, Of. repeat split; assumption.
      * apply Hin. exact Hk.
    + intros j Hj. destruct (Hout j) as [Ox Of].
      { intro Hj'. apply Hj. right. exact Hj'. }
      destruct (Sother j) as [Px Pf].
      { intro Hji. apply Hj. left. symmetry. exact Hji. }
      rewrite Ox, Of. split; assumption.
Qed.

Lemma write_back_total (next_pop_list : list Nspso.nspso_individual)
  (idx : list nat) :
  forall (pop : population),
    Forall (fun i => (i < length next_pop_list)%nat /\
                     (i < length (get_x pop))%nat /\
                     (i < length (get_f pop))%nat) idx ->
    exists pop', Nspso.write_back next_pop_list idx pop = Some pop'.
Proof.
  induction idx as [|i idx IH]; intros pop H; simpl.
  - eexists; reflexivity.
  - inversion H as [|? ? [Hl [Hx Hf]] Hrest]; subst.
    destruct (Vec.get next_pop_list i) as [p|] eqn:Ep;
      [| unfold Vec.get in Ep; apply nth_error_None in Ep; lia].
    cbn [obind].
    destruct (@set_xf_total pop i (Nspso.cur_x p) (Nspso.cur_f p) Hx Hf)
      as [pop1 Es].
    rewrite Es. cbn [obind].
    apply set_xf_stores in Es. destruct Es as [_ [_ [_ [Lx Lf]]]].
    apply IH. rewrite Lx, Lf. exact Hrest.
Qed.

(** The last step of a generation returns on a population and a working
    buffer of at least [swarm_size] entries, and leaves every individual of
    the population with the current position and the current fitness of the
    particle at the same index; no fitness is evaluated. *)
Theorem nspso_write_back_copies_the_swarm
  (next_pop_list : list Nspso.nspso_individual) (swarm_size : nat)
  (pop : population) :
  (swarm_size <= length next_pop_list)%nat ->
  (swarm_size <= length (get_x pop))%nat ->
  (swarm_size <= length (get_f pop))%nat ->
  exists pop',
    Nspso.write_back next_pop_list (seq 0 swarm_size) pop = Some pop' /\
    forall i, (i < swarm_size)%nat ->
      exists p, Vec.get next_pop_list i = Some p /\
                Vec.get (get_x pop') i = Some (Nspso.cur_x p) /\
                Vec.get (get_f pop') i = Some (Nspso.cur_f p).
Proof.
  intros Hl Hx Hf.
  destruct (@write_back_total next_pop_list (seq 0 swarm_size) pop) as [pop' E].
  { apply Forall_forall. intros i Hi. apply in_seq in Hi. lia. }
  destruct (@write_back_stores next_pop_list _ (seq_NoDup swarm_size 0) _ _ E) as [Hin _].
  exists pop'. split; [exact E|].
  intros i Hi. apply Hin. apply in_seq. lia.
Qed.

End NspsoWriteBack.

(** The two offspring of the combined buffer written over a population of
    two. *)
Lemma nspso_write_back_witness :
  exists pop',
    Nspso.write_back (skipn 2 NspsoInputs.combined) (seq 0 2) NspsoInputs.duo_pop
    = Some pop' /\
    forall i, (i < 2)%nat ->
      exists p, Vec.get (skipn 2 NspsoInputs.combined) i = Some p /\
                Vec.get (Pagmo.get_x pop') i = Some (Nspso.cur_x p) /\
                Vec.get (Pagmo.get_f pop') i = Some (Nspso.cur_f p).
Proof.
  apply (@nspso_write_back_copies_the_swarm (skipn 2 NspsoInputs.combined) 2
           NspsoInputs.duo_pop); simpl; lia.
Defined.

(** * [nspso]: the velocity band and the velocity cache *)

Section NspsoBandValues.
Import Pagmo.
Variable v_coeff : Q.
Variables lb ub : vector_double.

Lemma band_loop_values (idx : list nat) :
  NoDup idx ->
  forall minv maxv,
    Forall (fun i => (i < length lb)%nat /\ (i < length ub)%nat /\
                     (i < length minv)%nat /\ (i < length maxv)%nat) idx ->
    exists minv' maxv',
      Nspso.band_loop v_coeff lb ub idx minv maxv = Some (minv', maxv') /\
      length minv' = length minv /\ length maxv' = length maxv /\
      (forall i l u, In i idx ->
         Vec.get lb i = Some l -> Vec.get ub i = Some u ->
         Vec.get maxv' i = Some ((u - l) * v_coeff) /\
         Vec.get minv' i = Some (- (1) * ((u - l) * v_coeff))) /\
      (forall j, ~ In j idx ->
         Vec.get minv' j = Vec.get minv j /\ Vec.get maxv' j = Vec.get maxv j).
Proof.
  induction idx as [|i idx IH]; intros Hnd minv maxv H.
  - exists minv, maxv.
    split; [reflexivity|]. split; [reflexivity|]. split; [reflexivity|].
    split; [intros i l u [] | intros j _; split; reflexivity].
  - inversion Hnd as [|? ? Hni Hnd']; subst.
    inversion H as [|? ? [Hl [Hu [Hmin Hmax]]] Hrest]; subst.
    cbn [Nspso.band_loop].
    destruct (Vec.get ub i) as [u|] eqn:Eu;
      [| unfold Vec.get in Eu; apply nth_error_None in Eu; lia].
    destruct (Vec.get lb i) as [l|] eqn:El;
      [| unfold Vec.get in El; apply nth_error_None in El; lia].
    cbn [obind].
    destruct (vec_set_some minv (- (1) * ((u - l) * v_coeff)) Hmin) as [minv1 Em].
    destruct (vec_set_some maxv ((u - l) * v_coeff) Hmax) as [maxv1 Ex].
    rewrite Em. cbn [obind]. rewrite Ex. cbn [obind].
    destruct (IH Hnd' minv1 maxv1) as [minv' [maxv' [Hb [Lm [Lx [Hin Hout]]]]]].
    { rewrite (vec_set_length _ _ _ Em), (vec_set_length _ _ _ Ex). exact Hrest. }
    exists minv', maxv'. split; [exact Hb|].
    rewrite Lm, Lx, (vec_set_length _ _ _ Em), (vec_set_length _ _ _ Ex).
    split; [reflexivity|]. split; [reflexivity|]. split.
    + intros k l' u' Hk Hl' Hu'. destruct Hk as [<-|Hk].
      * destruct (Hout i Hni) as [Om Ox]. rewrite Om, Ox.
        rewrite El in Hl'. injection Hl' as <-.
        rewrite Eu in Hu'. injection Hu' as <-.
        split; eapply vec_get_set_same; eassumption.
      * eapply Hin; eassumption.
    + intros j Hj.
      destruct (Hout j) as [Om Ox]; [intro Hj'; apply Hj; right; exact Hj'|].
      rewrite Om, Ox.
      split; (eapply vec_get_set_other; [eassumption|];
              intro E; apply Hj; left; symmetry; exact E).
Qed.

End NspsoBandValues.

Section NspsoBandAndCache.
Import Pagmo.
Context {services : Services}.

(** With bounds for each of the [n_x] variables, the loop that sets the
    velocity band returns two vectors of [n_x] entries:
    [maxv[i] = (ub[i] - lb[i]) * m_v_coeff] and [minv[i] = -1. * maxv[i]]. *)
Theorem nspso_velocity_band_values (a : Nspso.nspso) (prob : problem) :
  (get_nx prob <= length (get_lb prob))%nat ->
  (get_nx prob <= length (get_ub prob))%nat ->
  exists minv maxv,
    Nspso.velocity_band a prob = Some (minv, maxv) /\
    length minv = get_nx prob /\ length maxv = get_nx prob /\
    forall i l u,
      (i < get_nx prob)%nat ->
      Vec.get (get_lb prob) i = Some l -> Vec.get (get_ub prob) i = Some u ->
      Vec.get maxv i = Some ((u - l) * Nspso.m_v_coeff a) /\
      Vec.get minv i = Some (- (1) * ((u - l) * Nspso.m_v_coeff a)).
Proof.
  intros Hl Hu. unfold Nspso.velocity_band.
  destruct (@band_loop_values (Nspso.m_v_coeff a) (get_lb prob) (get_ub prob)
              (seq 0 (get_nx prob)) (seq_NoDup _ 0)
              (repeat 0 (get_nx prob)) (repeat 0 (get_nx prob)))
    as [minv [maxv [Hb [Lm [Lx [Hin _]]]]]].
  { apply Forall_forall. intros i Hi. apply in_seq in Hi.
    rewrite repeat_length. lia. }
  exists minv, maxv. split; [exact Hb|].
  rewrite repeat_length in Lm, Lx.
  split; [exact Lm|]. split; [exact Lx|].
  intros i l u Hi. apply Hin. apply in_seq. lia.
Qed.

Lemma sample_row_total (minv maxv : vector_double) (js : list nat) :
  forall (row : vector_double) (e : engine),
    Forall (fun j => (j < length minv)%nat /\ (j < length maxv)%nat /\
                     (j < length row)%nat) js ->
    exists row' e',
      Nspso.sample_row minv maxv js row e = Some (row', e') /\
      length row' = length row.
Proof.
  induction js as [|j js IH]; intros row e H.
  - exists row, e. split; reflexivity.
  - inversion H as [|? ? [Hmin [Hmax Hrow]] Hrest]; subst.
    cbn [Nspso.sample_row].
    destruct (Vec.get minv j) as [lo|] eqn:Elo;
      [| unfold Vec.get in Elo; apply nth_error_None in Elo; lia].
    destruct (Vec.get maxv j) as [hi|] eqn:Ehi;
      [| unfold Vec.get in Ehi; apply nth_error_None in Ehi; lia].
    cbn [obind].
    destruct (uniform_real_from_range lo hi e) as [r e1].
    destruct (vec_set_some row r Hrow) as [row1 Er].
    rewrite Er. cbn [obind].
    destruct (IH row1 e1) as [row' [e' [Hs Hlen]]].
    { rewrite (vec_set_length _ _ _ Er). exact Hrest. }
    exists row', e'. split; [exact Hs|].
    rewrite Hlen. eapply vec_set_length. exact Er.
Qed.

Lemma sample_rows_total (minv maxv : vector_double) (n_x : nat) (idx : list nat) :
  (n_x <= length minv)%nat -> (n_x <= length maxv)%nat ->
  forall (velocity : list vector_double) (e : engine),
    Forall (fun i => (i < length velocity)%nat) idx ->
    Forall (fun row => length row = n_x) velocity ->
    exists velocity' e',
      Nspso.sample_rows minv maxv n_x idx velocity e = Some (velocity', e') /\
      length velocity' = length velocity /\
      Forall (fun row => length row = n_x) velocity'.
Proof.
  intros Hmin Hmax. induction idx as [|i idx IH]; intros velocity e Hidx Hrows.
  - exists velocity, e. repeat split. exact Hrows.
  - inversion Hidx as [|? ? Hi Hrest]; subst.
    cbn [Nspso.sample_rows].
    destruct (Vec.get velocity i) as [row|] eqn:Erow;
      [| unfold Vec.get in Erow; apply nth_error_None in Erow; lia].
    cbn [obind].
    assert (Hrow : length row = n_x).
    { rewrite Forall_forall in Hrows. apply Hrows. eapply nth_error_In. exact Erow. }
    destruct (@sample_row_total minv maxv (seq 0 n_x) row e) as [row' [e1 [Hs Hlen]]].
    { apply Forall_forall. intros j Hj. apply in_seq in Hj. lia. }
    rewrite Hs. cbn [obind].
    destruct (vec_set_some velocity row' Hi) as [velocity1 Ev].
    rewrite Ev. cbn [obind].
    destruct (IH velocity1 e1) as [velocity' [e' [Hv [Lv Fv]]]].
    { rewrite (vec_set_length _ _ _ Ev). exact Hrest. }
    { eapply vec_set_forall; [exact Ev | exact Hrows | lia]. }
    exists velocity', e'. split; [exact Hv|]. split; [|exact Fv].
    rewrite Lv. eapply vec_set_length. exact Ev.
Qed.


End NspsoBandAndCache.

(** The line problem: a band of half the width of the box. *)
Lemma nspso_velocity_band_witness :
  exists minv maxv,
    Nspso.velocity_band (NspsoInputs.swarm_of 1 "max min") NspsoInputs.line_problem
    = Some (minv, maxv) /\
    length minv = Pagmo.get_nx NspsoInputs.line_problem /\
    length maxv = Pagmo.get_nx NspsoInputs.line_problem /\
    forall i l u,
      (i < Pagmo.get_nx NspsoInputs.line_problem)%nat ->
      Vec.get (Pagmo.get_lb NspsoInputs.line_problem) i = Some l ->
      Vec.get (Pagmo.get_ub NspsoInputs.line_problem) i = Some u ->
      Vec.get maxv i
      = Some ((u - l) * Nspso.m_v_coeff (NspsoInputs.swarm_of 1 "max min")) /\
      Vec.get minv i
      = Some (- (1) * ((u - l) * Nspso.m_v_coeff (NspsoInputs.swarm_of 1 "max min"))).
Proof.
  apply (@nspso_velocity_band_values Reference.services
           (NspsoInputs.swarm_of 1 "max min") NspsoInputs.line_problem);
    simpl; lia.
Defined.

(** * [nspso]: the niche count *)

Section NspsoNicheCount.
Import Pagmo.
Context {services : Services}.
Variable delta : Q.

Lemma squared_gaps_total (x y : vector_double) :
  forall (i : nat) (sum : Q),
    (i + length x <= length y)%nat ->
    exists s, Nspso.squared_gaps x y i sum = Some s.
Proof.
  induction x as [|xi x IH]; intros i sum H; simpl in *.
  - eexists; reflexivity.
  - destruct (Vec.get y i) as [yi|] eqn:Ey;
      [| unfold Vec.get in Ey; apply nth_error_None in Ey; lia].
    cbn [obind]. apply IH. lia.
Qed.

Lemma euclidian_distance_total (x y : vector_double) :
  (length x <= length y)%nat ->
  exists d, Nspso.euclidian_distance x y = Some d.
Proof.
  intro H. unfold Nspso.euclidian_distance.
  destruct (@squared_gaps_total x y 0 0) as [s Hs]; [simpl; lia|].
  rewrite Hs. cbn [obind]. eexists; reflexivity.
Qed.

(** The loop of [euclidian_distance] adds up the squared differences of the
    coordinates. *)
Lemma squared_gaps_value (x : vector_double) :
  forall (y : vector_double) (i : nat) (sum : Q),
    (i + length x <= length y)%nat ->
    Nspso.squared_gaps x y i sum
    = Some (fold_left Qplus
              (map NspsoNiche.squared_difference (combine x (skipn i y))) sum).
Proof.
  induction x as [|xi x IH]; intros y i sum H; simpl in H.
  - reflexivity.
  - destruct (@skipn_cons_nth Q y i) as [yi [Hg Hs]]; [lia|].
    cbn [Nspso.squared_gaps]. rewrite Hg. cbn [obind].
    rewrite Hs. cbn [combine map fold_left].
    rewrite IH by lia. reflexivity.
Qed.

Lemma euclidian_distance_value (x y : vector_double) :
  (length x <= length y)%nat ->
  Nspso.euclidian_distance x y = Some (NspsoNiche.distance x y).
Proof.
  intro H. unfold Nspso.euclidian_distance, NspsoNiche.distance.
  rewrite squared_gaps_value by (simpl; lia). reflexivity.
Qed.

Lemma niche_row_counts (chromosomes : list vector_double) (ci : vector_double)
  (i : nat) (others : list vector_double) :
  Forall (fun cj => (length ci <= length cj)%nat) others ->
  forall (count : list nat) (c0 : nat),
    Vec.get count i = Some c0 ->
    exists count',
      Nspso.niche_row chromosomes ci i others count delta = Some count' /\
      Vec.get count' i
      = Some (c0 + length (filter (NspsoNiche.close_by delta ci) others))%nat /\
      (forall j, j <> i -> Vec.get count' j = Vec.get count j) /\
      length count' = length count.
Proof.
  induction others as [|cj others IH]; intros Hall count c0 Hc0.
  - exists count. simpl. rewrite Nat.add_0_r. repeat split. exact Hc0.
  - inversion Hall as [|? ? Hcj Hrest]; subst.
    cbn [Nspso.niche_row filter].
    rewrite (euclidian_distance_value ci cj Hcj). cbn [obind].
    unfold NspsoNiche.close_by at 1.
    destruct (Qltb (NspsoNiche.distance ci cj) delta).
    + unfold Nspso.modify. rewrite Hc0. cbn [obind].
      assert (Hi : (i < length count)%nat).
      { apply nth_error_Some. unfold Vec.get in Hc0. congruence. }
      destruct (vec_set_some count (S c0) Hi) as [count1 E1].
      rewrite E1. cbn [obind].
      destruct (IH Hrest count1 (S c0)) as [count' [Hn [Hg [Hf Hl]]]].
      { eapply vec_get_set_same. exact E1. }
      exists count'. split; [exact Hn|]. split.
      * rewrite Hg. f_equal. simpl. lia.
      * split.
        -- intros j Hj. rewrite (Hf j Hj). eapply vec_get_set_other; eassumption.
        -- rewrite Hl. eapply vec_set_length. exact E1.
    + cbn [obind]. apply IH; assumption.
Qed.

Lemma niche_rows_count (chromosomes : list vector_double) (n : nat) :
  Forall (fun c => length c = n) chromosomes ->
  forall (idx : list nat),
    NoDup idx ->
    Forall (fun i => (i < length chromosomes)%nat) idx ->
    forall (count : list nat),
      (forall i, In i idx -> Vec.get count i = Some 0%nat) ->
      exists count',
        Nspso.niche_rows chromosomes idx count delta = Some count' /\
        (forall i ci, In i idx -> Vec.get chromosomes i = Some ci ->
           Vec.get count' i = Some (NspsoNiche.neighbours delta chromosomes ci)) /\
        (forall j, ~ In j idx -> Vec.get count' j = Vec.get count j) /\
        length count' = length count.
Proof.
  intros Hrows. induction idx as [|i idx IH]; intros Hnd Hidx count Hzero.
  - exists count. simpl. split; [reflexivity|]. split; [intros i ci []|].
    split; [intros j _; reflexivity | reflexivity].
  - inversion Hnd as [|? ? Hni Hnd']; subst.
    inversion Hidx as [|? ? Hi Hrest]; subst.
    cbn [Nspso.niche_rows].
    destruct (Vec.get chromosomes i) as [ci|] eqn:Eci;
      [| unfold Vec.get in Eci; apply nth_error_None in Eci; lia].
    cbn [obind].
    assert (Hci : length ci = n).
    { rewrite Forall_forall in Hrows. apply Hrows. eapply nth_error_In. exact Eci. }
    destruct (@niche_row_counts chromosomes ci i chromosomes) with
      (count := count) (c0 := 0%nat) as [count1 [Hn [Hg [Hf Hl]]]].
    { apply Forall_forall. intros cj Hcj. rewrite Forall_forall in Hrows.
      rewrite (Hrows cj Hcj). lia. }
    { apply Hzero. left. reflexivity. }
    rewrite Hn. cbn [obind].
    destruct (IH Hnd' Hrest count1) as [count' [Hn' [Hin [Hout Hl']]]].
    { intros k Hk. rewrite Hf.
      - apply Hzero. right. exact Hk.
      - intro E. subst k. contradiction. }
    exists count'. split; [exact Hn'|]. split.
    + intros k ck [<-|Hk] Hck.
      * rewrite (Hout i Hni), Hg. rewrite Eci in Hck. injection Hck as <-.
        reflexivity.
      * eapply Hin; eassumption.
    + split.
      * intros j Hj. rewrite Hout by (intro Hj'; apply Hj; right; exact Hj').
        apply Hf. intro E. apply Hj. left. symmetry. exact E.
      * rewrite Hl'. exact Hl.
Qed.

(** On chromosomes of one length and a vector of counts with an entry for
    each of them, [compute_niche_count] returns, and leaves in [count[i]]
    the number of chromosomes whose Euclidean distance from the [i]-th (the
    square root of the sum of the squared differences of the coordinates)
    is below [delta], the [i]-th itself included when it is. *)
Theorem nspso_niche_count_counts_neighbours (count : list nat)
  (chromosomes : list vector_double) (n : nat) :
  Forall (fun c => length c = n) chromosomes ->
  (length chromosomes <= length count)%nat ->
  exists count',
    Nspso.compute_niche_count count chromosomes delta = Some count' /\
    length count' = length count /\
    forall i ci, Vec.get chromosomes i = Some ci ->
      Vec.get count' i = Some (NspsoNiche.neighbours delta chromosomes ci).
Proof.
  intros Hrows Hlen. unfold Nspso.compute_niche_count.
  destruct (@niche_rows_count chromosomes n Hrows (seq 0 (length chromosomes))
              (seq_NoDup _ 0)) with (count := repeat 0%nat (length count))
    as [count' [Hn [Hin [_ Hl]]]].
  - apply Forall_forall. intros i Hi. apply in_seq in Hi. lia.
  - intros i Hi. apply in_seq in Hi. unfold Vec.get.
    apply nth_error_repeat. lia.
  - exists count'. split; [exact Hn|]. split.
    + rewrite Hl. apply repeat_length.
    + intros i ci Hci. apply Hin; [|exact Hci].
      apply in_seq. split; [lia|]. simpl.
      apply nth_error_Some. unfold Vec.get in Hci. congruence.
Qed.

End NspsoNicheCount.

(** Three points on a line through the origin, at the distances 5, 10 and 5
    from one another, counted within the distance 6. *)
Lemma nspso_niche_count_neighbours_witness :
  exists count',
    @Nspso.compute_niche_count Reference.services [0; 0; 0]%nat
      [[0; 0]; [3; 4]; [6; 8]] 6 = Some count' /\
    length count' = length [0; 0; 0]%nat /\
    forall i ci, Vec.get [[0; 0]; [3; 4]; [6; 8]] i = Some ci ->
      Vec.get count' i
      = Some (@NspsoNiche.neighbours Reference.services 6
                [[0; 0]; [3; 4]; [6; 8]] ci).
Proof.
  apply (@nspso_niche_count_counts_neighbours Reference.services 6
           [0; 0; 0]%nat [[0; 0]; [3; 4]; [6; 8]] 2).
  - repeat constructor.
  - simpl. lia.
Defined.

(** On those points the distances are exact, and the counts are 2, 3 and
    2. *)
Lemma nspso_niche_count_of_three_points :
  @NspsoNiche.distance Reference.services [0; 0] [3; 4] == 5 /\
  @NspsoNiche.distance Reference.services [0; 0] [6; 8] == 10 /\
  @NspsoNiche.distance Reference.services [3; 4] [6; 8] == 5 /\
  @Nspso.compute_niche_count Reference.services [0; 0; 0]%nat
    [[0; 0]; [3; 4]; [6; 8]] 6 = Some [2; 3; 2]%nat.
Proof.
  repeat split; vm_compute; reflexivity.
Qed.

(** * [gi_aco_mo]: the calls that throw and the calls that do nothing *)

Lemma map_nth_all (A : Type) (l : list A) (d : A) :
  map (fun j => nth j l d) (seq 0 (length l)) = l.
Proof.
  pose proof (map_nth_prefix l [] d) as H. rewrite app_nil_r in H. exact H.
Qed.

Section AcoChecks.
Import Pagmo.
Context {services : Services}.

Lemma generation_return_kind (a : GiAcoMo.gi_aco_mo) (prob : problem)
  (NP gen : nat) (c : GiAcoMo.colony) (w : exit_point) (r : GiAcoMo.colony) :
  GiAcoMo.generation a prob NP gen c = Return w r -> w <> NothingToDo.
Proof.
  intro H. unfold GiAcoMo.generation in H.
  destruct (1 <? get_nobj prob)%nat; [discriminate|].
  destruct (negb _ && _); [injection H as <- _; discriminate|].
  destruct (negb _ && _); [injection H as <- _; discriminate|].
  apply bind_return_inv in H. destruct H as [H | [[penalties feasible_set] [_ H]]].
  - apply screen_loop_exit in H. destruct H as [-> _]. discriminate.
  - exfalso. flow_inv H.
Qed.

Lemma main_loop_return_kind (a : GiAcoMo.gi_aco_mo) (prob : problem) (NP : nat)
  (fuel : nat) (gen : N) (c : GiAcoMo.colony) (w : exit_point)
  (r : GiAcoMo.colony) :
  GiAcoMo.main_loop fuel a prob NP gen c = Return w r -> w <> NothingToDo.
Proof.
  intro H. apply aco_main_loop_returns in H. destruct H as [gen' [c' H]].
  eapply generation_return_kind. exact H.
Qed.

(** [evolve] comes back through its first [return] exactly when the
    population is not empty, the problem is neither stochastic nor
    constrained and the number of generations is 0; the population, the
    evaluation count and the log are then as they were.  The size of the
    archive is compared with the size of the population after that
    [return] only. *)
Theorem aco_evolve_nothing_to_do (fuel : nat) (a : GiAcoMo.gi_aco_mo)
  (prob : problem) (pop : population) (fevals : nat) (r : evolved) :
  snd (GiAcoMo.evolve fuel a prob pop fevals) = Returned NothingToDo r <->
  (size pop <> 0%nat /\ is_stochastic prob = false /\ get_nc prob = 0%nat /\
   GiAcoMo.m_gen a = 0%nat /\
   r = {| ev_pop := pop; ev_fevals := fevals; ev_log := GiAcoMo.m_log a |}).
Proof.
  unfold GiAcoMo.evolve.
  destruct (size pop =? 0)%nat eqn:E0.
  { apply Nat.eqb_eq in E0. simpl. split; [discriminate | tauto]. }
  apply Nat.eqb_neq in E0.
  destruct (is_stochastic prob) eqn:E1.
  { simpl. split; [discriminate | intros [_ [H _]]; discriminate]. }
  destruct (negb (get_nc prob =? 0)%nat) eqn:E2.
  { apply negb_true_iff, Nat.eqb_neq in E2. simpl. split; [discriminate | tauto]. }
  apply negb_false_iff, Nat.eqb_eq in E2.
  destruct (GiAcoMo.m_gen a =? 0)%nat eqn:E3.
  { apply Nat.eqb_eq in E3. simpl. split.
    - intro H. injection H as <-. repeat split; assumption.
    - intros [_ [_ [_ [_ ->]]]]. reflexivity. }
  apply Nat.eqb_neq in E3.
  destruct (size pop <? GiAcoMo.m_ker a)%nat.
  { simpl. split; [discriminate | tauto]. }
  cbn [snd].
  destruct (GiAcoMo.main_loop _ _ _ _ _ _) as [c|w c| | |] eqn:M;
    (split; [| tauto]); try discriminate.
  intro H. injection H as -> _. apply main_loop_return_kind in M. contradiction.
Qed.

Lemma screen_loop_counts (R : Type) (a : GiAcoMo.gi_aco_mo) (prob : problem)
  (ret : R) (fit : list vector_double) :
  (1 <= get_nobj prob)%nat ->
  Qeq_bool (GiAcoMo.m_fstop a) 0 = true ->
  Forall (fun fj =>
            (get_nf prob <= length fj)%nat /\
            (AcoScreening.screened_in (GiAcoMo.m_acc a) (get_nec prob)
               (get_nic prob) fj = true ->
             (get_nobj prob + get_nec prob < length fj)%nat)) fit ->
  forall (idx : list nat) (penalties : list xdouble) (feasible_set : nat),
    Forall (fun j => (j < length fit)%nat) idx ->
    exists penalties',
      GiAcoMo.screen_loop a prob ret fit idx penalties feasible_set
      = Go (penalties',
            (feasible_set
             + length (filter (AcoScreening.screened_in (GiAcoMo.m_acc a)
                                 (get_nec prob) (get_nic prob))
                         (map (fun j => nth j fit []) idx)))%nat).
Proof.
  intros Hobj Hfstop Hrows. induction idx as [|j idx IH];
    intros penalties feasible_set Hidx.
  - exists penalties. simpl. rewrite Nat.add_0_r. reflexivity.
  - inversion Hidx as [|? ? Hj Hrest]; subst. cbn [GiAcoMo.screen_loop map filter].
    destruct (Vec.get fit j) as [fj|] eqn:Efj;
      [| unfold Vec.get in Efj; apply nth_error_None in Efj; lia].
    assert (Hlen : (get_nf prob <= length fj)%nat /\
                   (AcoScreening.screened_in (GiAcoMo.m_acc a) (get_nec prob)
                      (get_nic prob) fj = true ->
                    (get_nobj prob + get_nec prob < length fj)%nat)).
    { rewrite Forall_forall in Hrows. apply Hrows.
      eapply nth_error_In. exact Efj. }
    destruct Hlen as [Hlen Hpast].
    unfold Vec.get in Efj. rewrite (nth_error_nth _ _ _ Efj).
    unfold get_nf in Hlen.
    cbn [bind checked]. rewrite Hfstop. cbn [bind checked].
    rewrite equality_screen_value by (apply columns_in_range; lia).
    rewrite inequality_screen_value by (apply columns_in_range; lia).
    cbn [bind checked orb]. unfold AcoScreening.screened_in at 1.
    destruct (negb _ && negb _) eqn:Escr.
    + destruct (penalty_computation_total a prob fj) as [p Hp];
        [unfold get_nf; lia | apply Hpast; exact Escr |].
      rewrite Hp. cbn [bind checked].
      destruct (IH (Vec.push_back penalties (Fin p)) (S feasible_set) Hrest)
        as [penalties' Hs].
      exists penalties'. rewrite Hs. f_equal. f_equal. simpl. lia.
    + apply IH. exact Hrest.
Qed.

(** On a single-objective problem with the objective stopping criterion
    off, [evolve] throws in its first generation when fewer than [m_ker]
    individuals pass the screen, or none at all.  The penalty of an
    individual that passes the screen reads [f[n_obj + n_ec]]: the fitness
    vectors of those individuals reach past that subscript. *)
Theorem aco_evolve_throws_without_feasible (fuel : nat) (a : GiAcoMo.gi_aco_mo)
  (prob : problem) (pop : population) (fevals : nat) :
  size pop <> 0%nat -> is_stochastic prob = false -> get_nc prob = 0%nat ->
  get_nobj prob = 1%nat -> GiAcoMo.m_gen a <> 0%nat -> (0 < fuel)%nat ->
  (GiAcoMo.m_ker a <= size pop)%nat ->
  (0 <= GiAcoMo.m_impstop a)%Z -> (0 <= GiAcoMo.m_evalstop a)%Z ->
  GiAcoMo.m_fstop a == 0 ->
  length (get_f pop) = size pop ->
  Forall (fun fj =>
            (get_nf prob <= length fj)%nat /\
            (AcoScreening.screened_in (GiAcoMo.m_acc a) (get_nec prob)
               (get_nic prob) fj = true ->
             (get_nobj prob + get_nec prob < length fj)%nat)) (get_f pop) ->
  (length (filter (AcoScreening.screened_in (GiAcoMo.m_acc a)
                     (get_nec prob) (get_nic prob)) (get_f pop))
   < Nat.max 1 (GiAcoMo.m_ker a))%nat ->
  GiAcoMo.evolve fuel a prob pop fevals = (GiAcoMo.clear_log a, Threw).
Proof.
  intros Hnp Hst Hnc Hobj Hgen Hfuel Hker Himp Heval Hfstop Hlen Hrows Hfew.
  unfold GiAcoMo.evolve.
  destruct (size pop =? 0)%nat eqn:E0; [apply Nat.eqb_eq in E0; contradiction|].
  rewrite Hst, Hnc. simpl.
  destruct (GiAcoMo.m_gen a =? 0)%nat eqn:E1;
    [apply Nat.eqb_eq in E1; contradiction|].
  destruct (size pop <? GiAcoMo.m_ker a)%nat eqn:E2; [apply Nat.ltb_lt in E2; lia|].
  f_equal. destruct fuel as [|fuel]; [lia|]. cbn [GiAcoMo.main_loop].
  replace (1 <=? N.of_nat (GiAcoMo.m_gen (GiAcoMo.clear_log a)))%N with true
    by (symmetry; apply N.leb_le; cbn [GiAcoMo.m_gen GiAcoMo.clear_log]; lia).
  unfold GiAcoMo.generation. rewrite Hobj. simpl.
  replace (negb (GiAcoMo.m_impstop a =? 0)%Z && (GiAcoMo.m_impstop a <=? 0)%Z)
    with false
    by (symmetry; destruct (GiAcoMo.m_impstop a =? 0)%Z eqn:Z1; simpl;
        [reflexivity | apply Z.eqb_neq in Z1; apply Z.leb_gt; lia]).
  replace (negb (GiAcoMo.m_evalstop a =? 0)%Z && (GiAcoMo.m_evalstop a <=? 0)%Z)
    with false
    by (symmetry; destruct (GiAcoMo.m_evalstop a =? 0)%Z eqn:Z1; simpl;
        [reflexivity | apply Z.eqb_neq in Z1; apply Z.leb_gt; lia]).
  match goal with
  | |- context [GiAcoMo.screen_loop ?b prob ?ret (get_f pop) ?xs ?pn 0] =>
      destruct (@screen_loop_counts _ b prob ret (get_f pop)) with
        (idx := xs) (penalties := pn) (feasible_set := 0%nat)
        as [penalties' Hs]
  end.
  - lia.
  - simpl. apply Qeq_bool_iff. exact Hfstop.
  - exact Hrows.
  - apply Forall_forall. intros j Hj. apply in_seq in Hj. lia.
  - rewrite Hs. cbn [bind].
    rewrite <- Hlen.
    rewrite map_nth_all.
    cbn [Nat.add]. simpl GiAcoMo.m_acc. simpl GiAcoMo.m_ker.
    set (n := length (filter _ (get_f pop))) in *. clearbody n.
    destruct n as [|n0]; [reflexivity|].
    destruct (S n0 <? GiAcoMo.m_ker a)%nat eqn:F2; [reflexivity|].
    apply Nat.ltb_ge in F2. lia.
Qed.

End AcoChecks.

(** An archive of two rows and a population with a single individual that
    passes the screen: its penalty is computed, and the call throws. *)
Lemma aco_throws_without_feasible_witness :
  GiAcoMo.evolve 1 (AcoInputs.colony_of 1 0 0 2) AcoInputs.one_inequality
    {| Pagmo.get_x := [[5]; [7]; [8]];
       Pagmo.get_f := [[1; 3]; [1; 3]; [1; -5]] |} 0
  = (GiAcoMo.clear_log (AcoInputs.colony_of 1 0 0 2), Pagmo.Threw).
Proof.
  apply (@aco_evolve_throws_without_feasible Reference.services 1
           (AcoInputs.colony_of 1 0 0 2) AcoInputs.one_inequality
           {| Pagmo.get_x := [[5]; [7]; [8]];
              Pagmo.get_f := [[1; 3]; [1; 3]; [1; -5]] |} 0).
  - unfold Pagmo.size. simpl. discriminate.
  - reflexivity.
  - reflexivity.
  - reflexivity.
  - simpl. discriminate.
  - lia.
  - unfold Pagmo.size. simpl. lia.
  - simpl. lia.
  - simpl. lia.
  - reflexivity.
  - reflexivity.
  - unfold Pagmo.get_nf. simpl.
    repeat (apply Forall_cons; [split; [simpl; lia | intros _; simpl; lia]|]).
    apply Forall_nil.
  - vm_compute. lia.
Defined.

(** The same call on fitness vectors that end with the objective: the
    individuals pass the screen, and the penalty of the first one reads past
    the end of its fitness vector. *)
Lemma aco_unconstrained_run_leaves_the_vector :
  AcoScreening.screened_in (1 # 2) 0 0 [1] = true /\
  GiAcoMo.penalty_computation (AcoInputs.colony_of 1 0 0 2)
    AcoInputs.unconstrained [1] = None /\
  snd (GiAcoMo.evolve 1 (AcoInputs.colony_of 1 0 0 2) AcoInputs.unconstrained
         AcoInputs.plain_pop 0)
  = Pagmo.UndefinedBehaviour.
Proof.
  repeat split; vm_compute; reflexivity.
Qed.

(** * [gi_aco_mo]: [update_SA] with a candidate better than every row *)

Lemma xleb_refl (a : xdouble) : xleb a a = true.
Proof.
  unfold xleb. destruct a as [q|]; simpl; [|reflexivity].
  unfold Qltb. rewrite negb_involutive. apply Qle_bool_iff. apply Qle_refl.
Qed.

Section AcoUpdateCollapse.
Import Pagmo.
Context {services : Services}.

Lemma write_cells_writes (first : nat) (src : vector_double) (k : nat) :
  forall (t0 : nat) (p : xdouble) (pre mid post : vector_double),
    length mid = k -> (first + t0 = S (length pre))%nat ->
    (t0 + k <= length src)%nat ->
    GiAcoMo.write_cells
      {| GiAcoMo.row_penalty := p; GiAcoMo.row_cells := pre ++ mid ++ post |}
      first src (seq t0 k)
    = Some {| GiAcoMo.row_penalty := p;
              GiAcoMo.row_cells := pre ++ firstn k (skipn t0 src) ++ post |}.
Proof.
  induction k as [|k IH]; intros t0 p pre mid post Hmid Hfirst Hsrc.
  - destruct mid; [|discriminate]. reflexivity.
  - destruct mid as [|m mid]; [discriminate|]. simpl in Hmid. injection Hmid as Hmid.
    destruct (@skipn_cons_nth _ src t0) as [v [Hg Hs]]; [lia|].
    cbn [seq GiAcoMo.write_cells]. rewrite Hg. cbn [obind].
    rewrite Hfirst. unfold GiAcoMo.row_set. cbn [GiAcoMo.row_cells GiAcoMo.row_penalty app].
    rewrite vec_set_middle. cbn [obind].
    replace (pre ++ v :: mid ++ post) with ((pre ++ [v]) ++ mid ++ post)
      by (rewrite <- app_assoc; reflexivity).
    rewrite (IH (S t0) p (pre ++ [v]) mid post Hmid).
    + rewrite Hs. cbn [firstn]. rewrite <- app_assoc. reflexivity.
    + rewrite length_app. simpl. lia.
    + lia.
Qed.

Variable nx : nat.
Variables variables objectives : list vector_double.
Variable sorted_vector : list xdouble.
Variable m : nat.
Variable sv0 : xdouble.
Variables x0 f0 : vector_double.
Hypothesis some_candidate : (1 <= m)%nat.
Hypothesis best_penalty : Vec.get sorted_vector 0 = Some sv0.
Hypothesis next_penalty :
  (2 <= m)%nat ->
  exists sv1, Vec.get sorted_vector 1 = Some sv1 /\ xltb sv0 sv1 = true.
Hypothesis best_variables : Vec.get variables 0 = Some x0.
Hypothesis best_objectives : Vec.get objectives 0 = Some f0.
Hypothesis variables_width : length x0 = nx.

(** The row every slot of the archive is overwritten with. *)
Local Abbreviation best_row :=
  {| GiAcoMo.row_penalty := sv0; GiAcoMo.row_cells := x0 ++ f0 |}.

(** A row the best candidate may replace. *)
Local Abbreviation replaceable row :=
  (xleb sv0 (GiAcoMo.row_penalty row) = true /\
   length (GiAcoMo.row_cells row) = (nx + length f0)%nat).

(** The counter of evaluations without improvement once the first row has
    been written. *)
Local Abbreviation evalstop_reset c :=
  (GiAcoMo.N_evalstop c = 0%Z /\ GiAcoMo.N_evalstop_count c = true).

Lemma scan_candidates_replaces (j : nat) (SA : list GiAcoMo.sa_row)
  (row : GiAcoMo.sa_row) (c : GiAcoMo.counters) :
  Vec.get SA j = Some row -> replaceable row ->
  exists SA' c',
    GiAcoMo.scan_candidates nx variables objectives sorted_vector j (seq 0 m)
      SA false c = Some (SA', true, c') /\
    Vec.set SA j best_row = Some SA' /\
    GiAcoMo.N_impstop c' = GiAcoMo.N_impstop c /\
    GiAcoMo.N_impstop_count c' = GiAcoMo.N_impstop_count c /\
    (evalstop_reset c -> evalstop_reset c') /\
    (j = 0%nat -> length f0 <> 0%nat -> evalstop_reset c').
Proof.
  intros Hrow [Hle Hcells].
  destruct m as [|m']; [lia|].
  cbn [seq GiAcoMo.scan_candidates].
  rewrite best_penalty. cbn [obind]. rewrite Hrow. cbn [obind]. rewrite Hle.
  rewrite best_variables. cbn [obind].
  rewrite <- (firstn_skipn nx (GiAcoMo.row_cells row)).
  rewrite <- (firstn_skipn (length f0) (skipn nx (GiAcoMo.row_cells row))).
  assert (L1 : length (firstn nx (GiAcoMo.row_cells row)) = nx)
    by (rewrite length_firstn; lia).
  assert (L2 : length (firstn (length f0) (skipn nx (GiAcoMo.row_cells row)))
               = length f0)
    by (rewrite length_firstn, length_skipn; lia).
  assert (L3 : skipn (length f0) (skipn nx (GiAcoMo.row_cells row)) = [])
    by (apply skipn_all2; rewrite length_skipn; lia).
  rewrite L3, app_nil_r.
  rewrite <- (app_nil_l (firstn nx _ ++ _)).
  rewrite (@write_cells_writes 1 x0 (length x0) 0 sv0 []
             (firstn nx (GiAcoMo.row_cells row)))
    by (simpl; lia).
  cbn [obind skipn app]. rewrite firstn_all.
  rewrite best_objectives. cbn [obind].
  rewrite <- (app_nil_r (firstn (length f0) _)).
  rewrite (@write_cells_writes (1 + nx) f0 (length f0) 0 sv0 x0
             (firstn (length f0) (skipn nx (GiAcoMo.row_cells row))) [])
    by (simpl; lia).
  cbn [obind skipn]. rewrite firstn_all, app_nil_r.
  assert (Hj : (j < length SA)%nat).
  { apply nth_error_Some. unfold Vec.get in Hrow. congruence. }
  destruct (vec_set_some SA best_row Hj) as [SA' Es].
  rewrite Es. cbn [obind].
  set (c1 := if (j =? 0)%nat && negb (length f0 =? 0)%nat
             then {| GiAcoMo.N_impstop := GiAcoMo.N_impstop c;
                     GiAcoMo.N_evalstop := 0;
                     GiAcoMo.N_impstop_count := GiAcoMo.N_impstop_count c;
                     GiAcoMo.N_evalstop_count := true |}
             else c).
  assert (Hc1 : GiAcoMo.N_impstop c1 = GiAcoMo.N_impstop c /\
                GiAcoMo.N_impstop_count c1 = GiAcoMo.N_impstop_count c /\
                (evalstop_reset c -> evalstop_reset c1) /\
                (j = 0%nat -> length f0 <> 0%nat -> evalstop_reset c1)).
  { unfold c1. destruct ((j =? 0)%nat && negb (length f0 =? 0)%nat) eqn:B.
    - simpl. split; [reflexivity|]. split; [reflexivity|].
      split; [intros _; split; reflexivity | intros _ _; split; reflexivity].
    - split; [reflexivity|]. split; [reflexivity|]. split; [tauto|].
      intros -> Hf. apply Nat.eqb_neq in Hf. rewrite Hf in B. discriminate. }
  exists SA', c1. split; [|split; [reflexivity | exact Hc1]].
  destruct m' as [|m'']; [reflexivity|].
  cbn [seq GiAcoMo.scan_candidates].
  destruct next_penalty as [sv1 [Hsv1 Hlt]]; [lia|].
  rewrite Hsv1. cbn [obind].
  rewrite (vec_get_set_same _ _ _ Es). cbn [obind GiAcoMo.row_penalty].
  unfold xleb. rewrite Hlt. reflexivity.
Qed.

Lemma walk_archive_replaces (ker : nat) (js : list nat) :
  NoDup js ->
  forall (SA : list GiAcoMo.sa_row) (c : GiAcoMo.counters),
    (forall j, In j js ->
       exists row, Vec.get SA j = Some row /\ replaceable row) ->
    exists SA' c',
      GiAcoMo.walk_archive ker nx variables objectives sorted_vector (seq 0 m)
        js SA true c = Some (SA', c') /\
      (forall j, In j js -> Vec.get SA' j = Some best_row) /\
      (forall j, ~ In j js -> Vec.get SA' j = Vec.get SA j) /\
      GiAcoMo.N_impstop c' = GiAcoMo.N_impstop c /\
      GiAcoMo.N_impstop_count c' = GiAcoMo.N_impstop_count c /\
      (evalstop_reset c -> evalstop_reset c') /\
      (In 0%nat js -> length f0 <> 0%nat -> evalstop_reset c').
Proof.
  induction js as [|j js IH]; intros Hnd SA c Hrows.
  - exists SA, c. simpl. split; [reflexivity|]. split; [intros j []|].
    split; [reflexivity|]. split; [reflexivity|]. split; [reflexivity|].
    split; [tauto | intros []].
  - apply NoDup_cons_iff in Hnd. destruct Hnd as [Hni Hnd'].
    destruct (Hrows j) as [row [Hrow Hok]]; [left; reflexivity|].
    destruct (scan_candidates_replaces j SA c Hrow Hok)
      as [SA1 [c1 [Hscan [Hset [Hi1 [Hf1 [Hkeep1 Hzero1]]]]]]].
    cbn [GiAcoMo.walk_archive]. rewrite Hscan. cbn [obind negb andb].
    destruct (IH Hnd' SA1 c1) as [SA' [c' [Hwalk [Hin [Hout [Hi [Hf [Hkeep Hzero]]]]]]]].
    { intros k Hk. destruct (Hrows k) as [rk [Hrk Hokk]]; [right; exact Hk|].
      exists rk. split; [|exact Hokk].
      rewrite (vec_get_set_other _ _ Hset); [exact Hrk|].
      intro E. subst k. contradiction. }
    exists SA', c'. split; [exact Hwalk|]. split.
    + intros k [<-|Hk].
      * rewrite (Hout j Hni). eapply vec_get_set_same. exact Hset.
      * apply Hin. exact Hk.
    + split.
      * intros k Hk. rewrite Hout by (intro Hk'; apply Hk; right; exact Hk').
        eapply vec_get_set_other; [exact Hset|].
        intro E. apply Hk. left. symmetry. exact E.
      * split; [congruence|]. split; [congruence|]. split.
        -- intro Hc. apply Hkeep, Hkeep1, Hc.
        -- intros [E0|H0] Hlen.
           ++ apply Hkeep. apply Hzero1; [exact E0 | exact Hlen].
           ++ apply Hzero; assumption.
Qed.

End AcoUpdateCollapse.

Section AcoUpdateBest.
Import Pagmo.
Context {services : Services}.

(** When the best candidate of the generation is at least as good as every
    row of the archive and strictly better than the next candidate,
    [update_SA] overwrites every row of the archive with that one
    candidate; it then adds 1 to the counter of runs without improvement
    and sets the counter of evaluations without improvement to 0. *)
Theorem aco_update_with_best_candidate (a : GiAcoMo.gi_aco_mo) (prob : problem)
  (pop : population) (sorted_vector : list xdouble) (sorted_list : list nat)
  (SA : list GiAcoMo.sa_row) (n_impstop n_evalstop : Z)
  (variables objectives : list vector_double)
  (sv0 : xdouble) (x0 f0 : vector_double) :
  GiAcoMo.reorder pop sorted_list 0 (get_x pop) (get_f pop)
  = Some (variables, objectives) ->
  sorted_list <> [] ->
  Vec.get sorted_vector 0 = Some sv0 ->
  ((2 <= length sorted_list)%nat ->
   exists sv1, Vec.get sorted_vector 1 = Some sv1 /\ xltb sv0 sv1 = true) ->
  Vec.get variables 0 = Some x0 -> Vec.get objectives 0 = Some f0 ->
  length x0 = get_nx prob -> f0 <> [] ->
  (0 < GiAcoMo.m_ker a)%nat -> length SA = GiAcoMo.m_ker a ->
  Forall (fun row => xleb sv0 (GiAcoMo.row_penalty row) = true /\
                     length (GiAcoMo.row_cells row)
                     = (get_nx prob + length f0)%nat) SA ->
  GiAcoMo.update_SA a prob pop sorted_vector sorted_list SA n_impstop n_evalstop
  = Some (repeat {| GiAcoMo.row_penalty := sv0;
                    GiAcoMo.row_cells := x0 ++ f0 |} (GiAcoMo.m_ker a),
          (n_impstop + 1)%Z, 0%Z).
Proof.
  intros Hre Hne Hsv0 Hsv1 Hx0 Hf0 Hwidth Hf0ne Hker Hlen Hrows.
  unfold GiAcoMo.update_SA. rewrite Hre. cbn [obind].
  assert (Hm : (1 <= length sorted_list)%nat).
  { destruct sorted_list; [contradiction | simpl; lia]. }
  assert (Hjs : NoDup (rev (seq 0 (GiAcoMo.m_ker a)))).
  { apply NoDup_rev, seq_NoDup. }
  destruct (@walk_archive_replaces (get_nx prob) variables objectives
              sorted_vector (length sorted_list) sv0 x0 f0 Hm Hsv0 Hsv1 Hx0 Hf0
              Hwidth (GiAcoMo.m_ker a) _ Hjs SA
              {| GiAcoMo.N_impstop := n_impstop; GiAcoMo.N_evalstop := n_evalstop;
                 GiAcoMo.N_impstop_count := false;
                 GiAcoMo.N_evalstop_count := false |})
    as [SA' [c' [Hwalk [Hin [Hout [Hi [Hf [_ Hzero]]]]]]]].
  { intros j Hj. apply in_rev, in_seq in Hj.
    destruct (nth_error SA j) as [row|] eqn:Erow;
      [| apply nth_error_None in Erow; lia].
    exists row. split; [exact Erow|].
    rewrite Forall_forall in Hrows. apply Hrows. eapply nth_error_In. exact Erow. }
  rewrite Hwalk. cbn [obind].
  destruct Hzero as [Hz Hflag].
  { apply -> in_rev. apply in_seq. lia. }
  { destruct f0; [contradiction | simpl; discriminate]. }
  simpl in Hi, Hf. rewrite Hf, Hflag, Hi, Hz.
  f_equal. f_equal. f_equal.
  apply nth_error_ext. intro n.
  destruct (Nat.lt_ge_cases n (GiAcoMo.m_ker a)) as [Hn|Hn].
  - rewrite nth_error_repeat by exact Hn.
    apply Hin. apply -> in_rev. apply in_seq. lia.
  - replace (nth_error (repeat _ (GiAcoMo.m_ker a)) n)
      with (@None GiAcoMo.sa_row)
      by (symmetry; apply nth_error_None; rewrite repeat_length; exact Hn).
    unfold Vec.get in Hout. rewrite Hout.
    + apply nth_error_None. lia.
    + intro Hj. apply in_rev, in_seq in Hj. lia.
Qed.

End AcoUpdateBest.

(** Two candidates with penalties -5 and -4 against an archive whose rows
    have the penalties -2, -1 and 0. *)
Lemma aco_update_best_witness :
  GiAcoMo.update_SA (AcoInputs.colony_of 1 0 0 3) AcoInputs.one_inequality
    AcoInputs.trio_pop [Fin (-5); Fin (-4)] [1%nat; 2%nat]
    AcoArchives.spread_archive 4 4
  = Some (repeat {| GiAcoMo.row_penalty := Fin (-5);
                    GiAcoMo.row_cells := [7] ++ [1; -5] |}
                 (GiAcoMo.m_ker (AcoInputs.colony_of 1 0 0 3)),
          (4 + 1)%Z, 0%Z).
Proof.
  apply (@aco_update_with_best_candidate Reference.services
           (AcoInputs.colony_of 1 0 0 3) AcoInputs.one_inequality
           AcoInputs.trio_pop [Fin (-5); Fin (-4)] [1%nat; 2%nat]
           AcoArchives.spread_archive 4 4
           [[7]; [8]; [8]] [[1; -5]; [1; -5]; [1; -5]]
           (Fin (-5)) [7] [1; -5]).
  - reflexivity.
  - discriminate.
  - reflexivity.
  - intros _. exists (Fin (-4)). split; reflexivity.
  - reflexivity.
  - reflexivity.
  - reflexivity.
  - discriminate.
  - simpl. lia.
  - reflexivity.
  - repeat constructor.
Defined.

(** * [nspso]: the velocities *)

Section NspsoVelocityUpdate.
Import Pagmo.
Context {services : Services} {utilities : Nspso.Utilities}.
Variable a : Nspso.nspso.
Variables w r1 r2 : Q.
Variables cur_vel best_dvs cur_dvs leader minv maxv lb ub : vector_double.

(** The two stores of one turn of the loop over the coordinates: the
    velocity is the update clamped to [[lo, hi]], or 0 when the position it
    leads to is outside [[l, u]]. *)
Lemma move_coordinate_value (i : nat) (cv bd cd ld lo hi l u lo' hi' : Q) :
  Vec.get cur_vel i = Some cv -> Vec.get best_dvs i = Some bd ->
  Vec.get cur_dvs i = Some cd -> Vec.get leader i = Some ld ->
  Vec.get minv i = Some lo -> Vec.get maxv i = Some hi ->
  Vec.get lb i = Some l -> Vec.get ub i = Some u ->
  lo == lo' -> hi == hi' -> lo' <= hi' ->
  exists v,
    v == NspsoSpec.clamped lo' hi'
           (NspsoSpec.updated_velocity w (Nspso.m_c1 a) r1 (Nspso.m_c2 a) r2
              cv bd cd ld) /\
    Nspso.move_coordinate a w r1 r2 cur_vel best_dvs cur_dvs leader minv maxv
      lb ub i
    = Some (if Qltb u (cd + Nspso.m_chi a * v) then (0, u)
            else if Qltb (cd + Nspso.m_chi a * v) l then (0, l)
                 else (v, cd + Nspso.m_chi a * v)).
Proof.
  intros Hcv Hbd Hcd Hld Hlo Hhi Hl Hu Elo Ehi Hle.
  unfold Nspso.move_coordinate.
  rewrite Hcv, Hbd, Hcd, Hld. cbn [obind]. rewrite Hhi. cbn [obind].
  fold (NspsoSpec.updated_velocity w (Nspso.m_c1 a) r1 (Nspso.m_c2 a) r2 cv bd cd ld).
  set (raw := NspsoSpec.updated_velocity w (Nspso.m_c1 a) r1 (Nspso.m_c2 a) r2
                cv bd cd ld).
  unfold NspsoSpec.clamped.
  destruct (Qltb hi raw) eqn:E1.
  - exists hi. split.
    + apply Qltb_true in E1. rewrite Ehi in E1 |- *.
      rewrite (Q.min_l hi' raw) by (apply Qlt_le_weak; exact E1).
      symmetry. apply Q.max_r. exact Hle.
    + cbn [obind]. rewrite Hu. cbn [obind].
      destruct (Qltb u (cd + Nspso.m_chi a * hi)); [reflexivity|].
      rewrite Hl. cbn [obind].
      destruct (Qltb (cd + Nspso.m_chi a * hi) l); reflexivity.
  - rewrite Hlo. cbn [obind]. apply Qltb_false in E1.
    destruct (Qltb raw lo) eqn:E2.
    + exists lo. split.
      * apply Qltb_true in E2. rewrite Ehi in E1. rewrite Elo in E2 |- *.
        rewrite (Q.min_r hi' raw) by exact E1.
        symmetry. apply Q.max_l. apply Qlt_le_weak. exact E2.
      * rewrite Hu. cbn [obind].
        destruct (Qltb u (cd + Nspso.m_chi a * lo)); [reflexivity|].
        rewrite Hl. cbn [obind].
        destruct (Qltb (cd + Nspso.m_chi a * lo) l); reflexivity.
    + exists raw. split.
      * apply Qltb_false in E2. rewrite Ehi in E1. rewrite Elo in E2.
        rewrite (Q.min_r hi' raw) by exact E1.
        symmetry. apply Q.max_r. exact E2.
      * rewrite Hu. cbn [obind].
        destruct (Qltb u (cd + Nspso.m_chi a * raw)); [reflexivity|].
        rewrite Hl. cbn [obind].
        destruct (Qltb (cd + Nspso.m_chi a * raw) l); reflexivity.
Qed.

(** The loop over the coordinates comes to its end on vectors that have the
    coordinates it goes through, and leaves in [new_vel[i]] and [new_dvs[i]]
    what the turn for [i] stores. *)
Lemma move_loop_values (n : nat) (idx : list nat) :
  NoDup idx ->
  Forall (fun i => (i < n)%nat) idx ->
  length cur_vel = n -> length best_dvs = n -> length cur_dvs = n ->
  length leader = n -> length minv = n -> length maxv = n ->
  length lb = n -> length ub = n ->
  forall new_dvs new_vel,
    length new_dvs = n -> length new_vel = n ->
    exists dvs vel,
      Nspso.move_loop a w r1 r2 cur_vel best_dvs cur_dvs leader minv maxv lb ub
        idx new_dvs new_vel = Some (dvs, vel) /\
      length dvs = n /\ length vel = n /\
      forall i, In i idx ->
        exists v x,
          Nspso.move_coordinate a w r1 r2 cur_vel best_dvs cur_dvs leader
            minv maxv lb ub i = Some (v, x) /\
          Vec.get vel i = Some v /\ Vec.get dvs i = Some x.
Proof.
  intros Hnd Hidx Lcv Lbd Lcd Lld Lmin Lmax Llb Lub.
  induction idx as [|i idx IH]; intros new_dvs new_vel Ldvs Lvel.
  - exists new_dvs, new_vel. split; [reflexivity|].
    split; [exact Ldvs|]. split; [exact Lvel|]. intros i [].
  - apply NoDup_cons_iff in Hnd. destruct Hnd as [Hni Hnd].
    apply Forall_cons_iff in Hidx. destruct Hidx as [Hi Hidx].
    assert (G : forall (v : vector_double), length v = n ->
                  exists q, Vec.get v i = Some q).
    { intros v Lv. destruct (Vec.get v i) as [q|] eqn:E; [eexists; reflexivity|].
      unfold Vec.get in E. apply nth_error_None in E. lia. }
    destruct (G cur_vel Lcv) as [cv Hcv]. destruct (G best_dvs Lbd) as [bd Hbd].
    destruct (G cur_dvs Lcd) as [cd Hcd]. destruct (G leader Lld) as [ld Hld].
    destruct (G minv Lmin) as [lo Hlo]. destruct (G maxv Lmax) as [hi Hhi].
    destruct (G lb Llb) as [l Hl]. destruct (G ub Lub) as [u Hu].
    assert (M : exists v x,
               Nspso.move_coordinate a w r1 r2 cur_vel best_dvs cur_dvs leader
                 minv maxv lb ub i = Some (v, x)).
    { unfold Nspso.move_coordinate.
      rewrite Hcv, Hbd, Hcd, Hld. cbn [obind]. rewrite Hhi. cbn [obind].
      destruct (Qltb hi _); [|rewrite Hlo]; cbn [obind]; rewrite Hu; cbn [obind];
        (destruct (Qltb u _); [eexists; eexists; reflexivity|]);
        rewrite Hl; cbn [obind];
        (destruct (Qltb _ l); eexists; eexists; reflexivity). }
    destruct M as [v [x M]].
    cbn [Nspso.move_loop]. rewrite M. cbn [obind].
    destruct (@vec_set_some Q new_vel i v) as [new_vel1 Ev]; [lia|].
    destruct (@vec_set_some Q new_dvs i x) as [new_dvs1 Ex]; [lia|].
    rewrite Ev. cbn [obind]. rewrite Ex. cbn [obind].
    destruct (IH Hnd Hidx new_dvs1 new_vel1) as [dvs [vel [Hm [Ld [Lv Hin]]]]].
    { rewrite (vec_set_length _ _ _ Ex). exact Ldvs. }
    { rewrite (vec_set_length _ _ _ Ev). exact Lvel. }
    exists dvs, vel. split; [exact Hm|]. split; [exact Ld|]. split; [exact Lv|].
    intros k [<-|Hk]; [|apply Hin; exact Hk].
    exists v, x. split; [exact M|].
    assert (F : forall j, ~ In j idx ->
                  Vec.get vel j = Vec.get new_vel1 j /\
                  Vec.get dvs j = Vec.get new_dvs1 j).
    { clear - Hm. revert new_dvs1 new_vel1 Hm.
      induction idx as [|k idx IHf]; intros nd nv Hm j Hj; simpl in Hm.
      - injection Hm as <- <-. split; reflexivity.
      - destruct (Nspso.move_coordinate _ _ _ _ _ _ _ _ _ _ _ _ _) as [[v x]|];
          [|discriminate].
        cbn [obind] in Hm.
        destruct (Vec.set nv k v) as [nv'|] eqn:Ev; [|discriminate].
        cbn [obind] in Hm.
        destruct (Vec.set nd k x) as [nd'|] eqn:Ex; [|discriminate].
        cbn [obind] in Hm.
        destruct (IHf _ _ Hm j) as [F1 F2];
          [intro Hj'; apply Hj; right; exact Hj'|].
        rewrite F1, F2.
        split; (eapply vec_get_set_other; [eassumption|];
                intro E; apply Hj; left; symmetry; exact E). }
    destruct (F i Hni) as [F1 F2]. rewrite F1, F2.
    split; eapply vec_get_set_same; eassumption.
Qed.

End NspsoVelocityUpdate.


Section NspsoBandInvariant.
Import Pagmo.
Context {services : Services} {utilities : Nspso.Utilities}.

(** The generations of [evolve] keep every velocity of the working buffer
    within the band. *)
Lemma main_loop_in_band (a : Nspso.nspso) (prob : problem)
  (minv maxv : vector_double) (swarm_size fuel rounds : nat) :
  (forall j l u,
      Vec.get (get_lb prob) j = Some l -> Vec.get (get_ub prob) j = Some u ->
      l <= u) ->
  0 <= Nspso.m_v_coeff a ->
  NspsoSpec.ends_ok (Nspso.m_v_coeff a) (get_lb prob) (get_ub prob) minv maxv ->
  forall (gen : N) (s s' : Nspso.swarm),
    Forall (NspsoSpec.particle_banded (Nspso.m_v_coeff a) (get_lb prob)
              (get_ub prob)) (Nspso.s_list s) ->
    @Nspso.main_loop _ _ Empty_set rounds fuel a prob minv maxv swarm_size gen s
    = Go s' ->
    Forall (NspsoSpec.particle_banded (Nspso.m_v_coeff a) (get_lb prob)
              (get_ub prob)) (Nspso.s_list s').
Proof.
  intros Hbounds Hcoeff Hends.
  induction rounds as [|rounds IH]; intros gen s s' Hs H;
    cbn [Nspso.main_loop] in H;
    destruct (gen <=? N.of_nat (Nspso.m_gen a))%N;
    try discriminate; try (injection H as <-; exact Hs).
  apply bind_go_inv in H. destruct H as [s1 [G H]].
  eapply IH; [|exact H].
  eapply generation_in_band; eassumption.
Qed.


End NspsoBandInvariant.

Lemma reference_sampler_in_range (lo hi : Q) (g : @Pagmo.engine Reference.services) :
  lo <= hi ->
  lo <= fst (@Pagmo.uniform_real_from_range Reference.services lo hi g) /\
  fst (@Pagmo.uniform_real_from_range Reference.services lo hi g) <= hi.
Proof.
  intro H.
  set (u := inject_Z (Z.of_nat (g mod 4)) / 4).
  change (lo <= lo + u * (hi - lo) /\ lo + u * (hi - lo) <= hi).
  assert (Hu0 : 0 <= u).
  { unfold u. apply Qle_shift_div_l; [reflexivity|]. rewrite Qmult_0_l.
    change 0 with (inject_Z 0). rewrite <- Zle_Qle. lia. }
  assert (Hu1 : u <= 1).
  { unfold u. apply Qle_shift_div_r; [reflexivity|]. rewrite Qmult_1_l.
    change 4 with (inject_Z 4). rewrite <- Zle_Qle.
    pose proof (Nat.mod_upper_bound g 4). lia. }
  assert (Hd : 0 <= hi - lo) by (apply Qle_minus_iff in H; exact H).
  split.
  - apply Qle_minus_iff.
    setoid_replace (lo + u * (hi - lo) + - lo) with (u * (hi - lo)) by ring.
    apply Qmult_le_0_compat; assumption.
  - apply Qle_minus_iff.
    setoid_replace (hi + - (lo + u * (hi - lo))) with ((1 - u) * (hi - lo)) by ring.
    apply Qmult_le_0_compat; [|exact Hd].
    apply Qle_minus_iff in Hu1. exact Hu1.
Qed.


(** On that problem the band is [[-1/2, 1/2]].  The velocities sampled for a
    swarm of two lie in it.  A particle at 0 with velocity 1/2 and inertia 3
    gets the velocity 3/2 clamped to 1/2 and moves to 1/2; a particle at 1
    with velocity 1/2 would leave the box: it stays at 1 and its velocity
    is 0.  One generation of the main loop from two particles at rest comes
    to its end. *)
Lemma nspso_velocities_example :
  Nspso.velocity_band (NspsoInputs.swarm_with 3 1 "crowding distance")
    NspsoInputs.line_problem = Some ([-1 # 2], [1 # 2]) /\
  Nspso.init_velocity [-1 # 2] [1 # 2] 1 2 [] (@Pagmo.seeded Reference.services 3)
  = Some ([[8 # 32]; [-16 # 32]], 5%nat) /\
  Nspso.move_loop (NspsoInputs.swarm_with 3 1 "crowding distance") 3 0 0
    [1 # 2] [0] [0] [0] [-1 # 2] [1 # 2] [0] [1] (seq 0 1) [0] [0]
  = Some ([1 # 2], [1 # 2]) /\
  Nspso.move_loop (NspsoInputs.swarm_with 3 1 "crowding distance") 1 0 0
    [1 # 2] [1] [1] [1] [-1 # 2] [1 # 2] [0] [1] (seq 0 1) [0] [0]
  = Some ([1], [0]) /\
  exists s',
    @Nspso.main_loop Reference.services Reference.utilities Empty_set 1 10
      (NspsoInputs.swarm_with 3 1 "max min") NspsoInputs.line_problem
      [-1 # 2] [1 # 2] 2 1
      {| Nspso.s_pop := NspsoInputs.duo_pop;
         Nspso.s_list := [NspsoInputs.particle (1 # 2) [1; 1] 0;
                          NspsoInputs.particle 1 [2; 2] 0];
         Nspso.s_e := @Pagmo.seeded Reference.services 5;
         Nspso.s_fevals := 0; Nspso.s_log := [] |}
    = Pagmo.Go s'.
Proof.
  split; [vm_compute; reflexivity|].
  split; [vm_compute; reflexivity|].
  split; [vm_compute; reflexivity|].
  split; [vm_compute; reflexivity|].
  eexists. vm_compute. reflexivity.
Qed.


(** * Two runs from the same seed *)

Section AcoRuns.
Import Pagmo.
Context {services : Services}.
Variable a : GiAcoMo.gi_aco_mo.
Variable e : engine.

(** The object [a] with another state of its engine [m_e]. *)
Local Abbreviation a' := (GiAcoMo.with_engine a e (GiAcoMo.m_seed a)).

Lemma screen_loop_ignores_engine (R : Type) (prob : problem) (ret : R)
  (fit : list vector_double) (idx : list nat) :
  forall (penalties : list xdouble) (feasible_set : nat),
    GiAcoMo.screen_loop a' prob ret fit idx penalties feasible_set
    = GiAcoMo.screen_loop a prob ret fit idx penalties feasible_set.
Proof.
  induction idx as [|i idx IH]; intros penalties feasible_set;
    cbn [GiAcoMo.screen_loop]; [reflexivity|].
  destruct (checked (Vec.get fit i)) as [fi| | | |]; cbn [bind]; try reflexivity.
  change (GiAcoMo.m_fstop a') with (GiAcoMo.m_fstop a).
  change (GiAcoMo.m_acc a') with (GiAcoMo.m_acc a).
  change (GiAcoMo.penalty_computation a' prob fi)
    with (GiAcoMo.penalty_computation a prob fi).
  destruct (if Qeq_bool (GiAcoMo.m_fstop a) 0 then _ else _) as [[|]| | | |];
    cbn [bind]; try reflexivity.
  destruct (checked (GiAcoMo.equality_screen _ _ _ _)) as [T| | | |];
    cbn [bind]; try reflexivity.
  destruct (checked (GiAcoMo.inequality_screen _ _ _ _)) as [T2| | | |];
    cbn [bind]; try reflexivity.
  destruct (negb T && negb T2); [|apply IH].
  destruct (checked (GiAcoMo.penalty_computation a prob fi)) as [p| | | |];
    cbn [bind]; try reflexivity.
  apply IH.
Qed.

Lemma sigma_loop_ignores_engine (prob : problem) (SA : list GiAcoMo.sa_row)
  (hs : list nat) :
  forall SIGMA,
    GiAcoMo.sigma_loop a' prob SA hs SIGMA = GiAcoMo.sigma_loop a prob SA hs SIGMA.
Proof.
  induction hs as [|h hs IH]; intro SIGMA; cbn [GiAcoMo.sigma_loop]; [reflexivity|].
  change (GiAcoMo.sigma_of a' prob SA h) with (GiAcoMo.sigma_of a prob SA h).
  destruct (GiAcoMo.sigma_of a prob SA h); cbn [obind]; [apply IH | reflexivity].
Qed.

Lemma generation_ignores_engine (prob : problem) (NP gen : nat)
  (c : GiAcoMo.colony) :
  GiAcoMo.generation a' prob NP gen c = GiAcoMo.generation a prob NP gen c.
Proof.
  unfold GiAcoMo.generation.
  rewrite screen_loop_ignores_engine.
  unfold GiAcoMo.pheromone_computation.
  change (GiAcoMo.m_ker a') with (GiAcoMo.m_ker a).
  change (GiAcoMo.m_impstop a') with (GiAcoMo.m_impstop a).
  change (GiAcoMo.m_evalstop a') with (GiAcoMo.m_evalstop a).
  destruct (1 <? get_nobj prob)%nat; [reflexivity|].
  destruct (negb _ && _); [reflexivity|].
  destruct (negb _ && _); [reflexivity|].
  destruct (GiAcoMo.screen_loop _ _ _ _ _ _ _) as [[penalties feasible_set]| | | |];
    cbn [bind]; try reflexivity.
  destruct (1 <=? feasible_set)%nat; [|reflexivity].
  match goal with
  | |- bind ?m _ = bind ?m' _ => change m with m'; destruct m' as [[[SA ci] ce]| | | |]
  end; cbn [bind]; try reflexivity.
  rewrite sigma_loop_ignores_engine.
  destruct (checked _) as [[omega sigma]| | | |]; cbn [bind]; try reflexivity.
Qed.

Lemma main_loop_ignores_engine (prob : problem) (NP : nat) (fuel : nat) :
  forall (gen : N) (c : GiAcoMo.colony),
    GiAcoMo.main_loop fuel a' prob NP gen c = GiAcoMo.main_loop fuel a prob NP gen c.
Proof.
  induction fuel as [|fuel IH]; intros gen c; cbn [GiAcoMo.main_loop];
    change (GiAcoMo.m_gen a') with (GiAcoMo.m_gen a); [reflexivity|].
  destruct (gen <=? N.of_nat (GiAcoMo.m_gen a))%N; [|reflexivity].
  rewrite generation_ignores_engine.
  destruct (GiAcoMo.generation a prob NP (N.to_nat gen) c); cbn [bind];
    try reflexivity.
  apply IH.
Qed.

End AcoRuns.

Section AcoRunsAgree.
Import Pagmo.
Context {services : Services}.

(** [evolve] never draws from the engine [m_e] of the object: it hands no
    other engine to [generate_new_ants] than one seeded with [m_seed]. *)
Lemma aco_evolve_ignores_engine (fuel : nat) (a : GiAcoMo.gi_aco_mo) (e : engine)
  (prob : problem) (pop : population) (fevals : nat) :
  snd (GiAcoMo.evolve fuel (GiAcoMo.with_engine a e (GiAcoMo.m_seed a)) prob pop fevals)
  = snd (GiAcoMo.evolve fuel a prob pop fevals).
Proof.
  unfold GiAcoMo.evolve.
  change (GiAcoMo.m_gen (GiAcoMo.with_engine a e (GiAcoMo.m_seed a)))
    with (GiAcoMo.m_gen a).
  change (GiAcoMo.m_ker (GiAcoMo.with_engine a e (GiAcoMo.m_seed a)))
    with (GiAcoMo.m_ker a).
  destruct (size pop =? 0)%nat; [reflexivity|].
  destruct (is_stochastic prob); [reflexivity|].
  destruct (negb (get_nc prob =? 0)%nat); [reflexivity|].
  destruct (GiAcoMo.m_gen a =? 0)%nat; [reflexivity|].
  destruct (size pop <? GiAcoMo.m_ker a)%nat; [reflexivity|].
  cbn [snd].
  change (GiAcoMo.clear_log (GiAcoMo.with_engine a e (GiAcoMo.m_seed a)))
    with (GiAcoMo.with_engine (GiAcoMo.clear_log a) e
            (GiAcoMo.m_seed (GiAcoMo.clear_log a))).
  rewrite main_loop_ignores_engine. reflexivity.
Qed.

(** Two objects with the same configuration, the same seed and the same log
    differ in the state of their engine at most. *)
Lemma aco_same_settings (c1 c2 : GiAcoMo.gi_aco_mo) :
  GiAcoMo.configuration c1 = GiAcoMo.configuration c2 ->
  GiAcoMo.m_seed c1 = GiAcoMo.m_seed c2 ->
  GiAcoMo.m_log c1 = GiAcoMo.m_log c2 ->
  c2 = GiAcoMo.with_engine c1 (GiAcoMo.m_e c2) (GiAcoMo.m_seed c1).
Proof.
  intros Hc Hs Hl. destruct c1, c2. unfold GiAcoMo.configuration in Hc.
  simpl in *. injection Hc as -> -> -> -> -> -> -> -> -> -> ->.
  subst. reflexivity.
Qed.

End AcoRunsAgree.

Section NspsoRunsAgree.
Import Pagmo.
Context {services : Services} {utilities : Nspso.Utilities}.
Variable a : Nspso.nspso.
Variable velocity : list vector_double.
Variable e : engine.
Variable seed : nat.
Variable log : list log_line_type.

(** The object [a] with other values of the members that are not part of
    its configuration. *)
Local Abbreviation a' :=
  (Nspso.with_state a velocity e seed (Nspso.m_verbosity a) log).

Lemma move_loop_reads_configuration (w r1 r2 : Q)
  (cur_vel best_dvs cur_dvs leader minv maxv lb ub : vector_double)
  (idx : list nat) :
  forall new_dvs new_vel,
    Nspso.move_loop a' w r1 r2 cur_vel best_dvs cur_dvs leader minv maxv lb ub
      idx new_dvs new_vel
    = Nspso.move_loop a w r1 r2 cur_vel best_dvs cur_dvs leader minv maxv lb ub
        idx new_dvs new_vel.
Proof.
  induction idx as [|i idx IH]; intros new_dvs new_vel; cbn [Nspso.move_loop];
    [reflexivity|].
  change (Nspso.move_coordinate a' w r1 r2 cur_vel best_dvs cur_dvs leader
            minv maxv lb ub i)
    with (Nspso.move_coordinate a w r1 r2 cur_vel best_dvs cur_dvs leader
            minv maxv lb ub i).
  destruct (Nspso.move_coordinate a w r1 r2 cur_vel best_dvs cur_dvs leader
              minv maxv lb ub i) as [[v x]|]; cbn [obind]; [|reflexivity].
  destruct (Vec.set new_vel i v); cbn [obind]; [|reflexivity].
  destruct (Vec.set new_dvs i x); cbn [obind]; [apply IH | reflexivity].
Qed.

Lemma move_particle_reads_configuration (R : Type) (fuel : nat) (prob : problem)
  (minv maxv : vector_double) (swarm_size : nat) (w : Q)
  (best : list nat) (idx : nat)
  (st : list Nspso.nspso_individual * engine * nat) :
  @Nspso.move_particle _ R fuel a' prob minv maxv swarm_size w best idx st
  = Nspso.move_particle fuel a prob minv maxv swarm_size w best idx st.
Proof.
  unfold Nspso.move_particle. destruct st as [[l g] fevals].
  change (Nspso.m_leader_selection_range a')
    with (Nspso.m_leader_selection_range a).
  destruct (checked (Vec.get l idx)) as [p| | | |]; cbn [bind]; try reflexivity.
  destruct (Nspso.draw_leader _ _ _ _ _) as [[leader_idx e1]| | | |];
    cbn [bind]; try reflexivity.
  destruct (checked _) as [lead| | | |]; cbn [bind]; try reflexivity.
  destruct (uniform_real e1) as [r1 e2]. destruct (uniform_real e2) as [r2 e3].
  rewrite move_loop_reads_configuration. reflexivity.
Qed.

Lemma move_particles_read_configuration (R : Type) (fuel : nat) (prob : problem)
  (minv maxv : vector_double) (swarm_size : nat) (w : Q)
  (best : list nat) (idx : list nat) :
  forall (st : list Nspso.nspso_individual * engine * nat),
    @Nspso.move_particles _ R fuel a' prob minv maxv swarm_size w best idx st
    = Nspso.move_particles fuel a prob minv maxv swarm_size w best idx st.
Proof.
  induction idx as [|i idx IH]; intro st; cbn [Nspso.move_particles];
    [reflexivity|].
  rewrite move_particle_reads_configuration.
  destruct (Nspso.move_particle _ _ _ _ _ _ _ _ _ _); cbn [bind];
    try reflexivity.
  apply IH.
Qed.

Lemma generation_reads_configuration (R : Type) (fuel : nat) (prob : problem)
  (minv maxv : vector_double) (swarm_size gen : nat) (s : Nspso.swarm) :
  @Nspso.generation _ _ R fuel a' prob minv maxv swarm_size gen s
  = Nspso.generation fuel a prob minv maxv swarm_size gen s.
Proof.
  unfold Nspso.generation.
  change (Nspso.m_verbosity a') with (Nspso.m_verbosity a).
  change (Nspso.m_max_w a') with (Nspso.m_max_w a).
  change (Nspso.m_min_w a') with (Nspso.m_min_w a).
  change (Nspso.m_gen a') with (Nspso.m_gen a).
  match goal with
  | |- bind (checked ?m) _ = bind (checked ?m') _ => change m with m'
  end.
  destruct (checked _) as [best| | | |]; cbn [bind]; try reflexivity.
  rewrite move_particles_read_configuration.
  destruct (Nspso.move_particles _ _ _ _ _ _ _ _ _ _) as [[[l g] fevals]| | | |];
    cbn [bind]; try reflexivity.
Qed.

Lemma main_loop_reads_configuration (R : Type) (fuel : nat) (prob : problem)
  (minv maxv : vector_double) (swarm_size : nat) (rounds : nat) :
  forall (gen : N) (s : Nspso.swarm),
    @Nspso.main_loop _ _ R rounds fuel a' prob minv maxv swarm_size gen s
    = Nspso.main_loop rounds fuel a prob minv maxv swarm_size gen s.
Proof.
  induction rounds as [|rounds IH]; intros gen s; cbn [Nspso.main_loop];
    change (Nspso.m_gen a') with (Nspso.m_gen a); [reflexivity|].
  destruct (gen <=? N.of_nat (Nspso.m_gen a))%N; [|reflexivity].
  rewrite generation_reads_configuration.
  destruct (Nspso.generation _ _ _ _ _ _ _ _); cbn [bind]; try reflexivity.
  apply IH.
Qed.

End NspsoRunsAgree.

Section NspsoSameConfiguration.
Import Pagmo.
Context {services : Services} {utilities : Nspso.Utilities}.

(** Two objects with the same configuration differ in the velocity cache,
    the engine, the seed and the log at most. *)
Lemma nspso_same_configuration (p1 p2 : Nspso.nspso) :
  Nspso.configuration p1 = Nspso.configuration p2 ->
  p2 = Nspso.with_state p1 (Nspso.m_velocity p2) (Nspso.m_e p2) (Nspso.m_seed p2)
         (Nspso.m_verbosity p1) (Nspso.m_log p2).
Proof.
  intro Hc. destruct p1, p2. unfold Nspso.configuration in Hc.
  simpl in *. injection Hc as -> -> -> -> -> -> -> -> -> ->.
  reflexivity.
Qed.

End NspsoSameConfiguration.



(** The runs of the witness, evaluated: the call of [nspso::evolve] leaves
    the working buffer, the generation loop comes to its end, the call of
    [gi_aco_mo::evolve] returns three new individuals, and the three ants
    are those of the first three draws of the generator. *)
Lemma evolve_two_runs_example :
  snd (Nspso.evolve (utilities := Reference.utilities) 10
         (NspsoInputs.swarm_with 7 1 "max min") NspsoInputs.line_problem
         NspsoInputs.duo_pop 0)
  = Pagmo.UndefinedBehaviour /\
  (exists s',
      @Nspso.main_loop Reference.services Reference.utilities Empty_set 1 10
        (NspsoInputs.swarm_with 7 1 "max min") NspsoInputs.line_problem
        [-1 # 2] [1 # 2] 2 1 NspsoCases.resting_swarm
      = Pagmo.Go s') /\
  snd (GiAcoMo.evolve 1 (AcoInputs.colony_with 7 1 0 0 2) AcoInputs.one_inequality
         AcoInputs.trio_pop 0)
  = Pagmo.Returned Pagmo.LoopDone
      {| Pagmo.ev_pop :=
           {| Pagmo.get_x := [[75 # 9]; [75 # 9]; [75 # 9]];
              Pagmo.get_f := [[1; -5]; [1; -5]; [1; -5]] |};
         Pagmo.ev_fevals := 3; Pagmo.ev_log := [] |} /\
  exists X_new,
    GiAcoMo.generate_new_ants (AcoInputs.colony_with 7 1 0 0 3)
      [4 # 6; 3 # 6; 2 # 6] [2] AcoArchives.spread_archive 1 3 = Some X_new /\
    length X_new = 3%nat.
Proof.
  split; [vm_compute; reflexivity|].
  split; [eexists; vm_compute; reflexivity|].
  split; [vm_compute; reflexivity|].
  eexists. split; vm_compute; reflexivity.
Qed.

(** * The first reads of the penalty *)

Section AcoPenaltyReads.
Import Pagmo.
Context {services : Services}.

(** On a single-objective problem whose fitness vectors carry no inequality
    residual (as those of every problem without constraints), with the
    objective stopping criterion off, a call of [evolve] whose individual 0
    passes the screen does not come back: [penalty_computation] starts from
    [f[nfunc + nec]], one past the end of the fitness vector. *)
Theorem aco_evolve_reads_past_the_residuals (fuel : nat)
  (a : GiAcoMo.gi_aco_mo) (prob : problem) (pop : population) (fevals : nat)
  (f0 : vector_double) :
  size pop <> 0%nat -> is_stochastic prob = false -> get_nc prob = 0%nat ->
  get_nobj prob = 1%nat -> get_nic prob = 0%nat ->
  GiAcoMo.m_gen a <> 0%nat -> (0 < fuel)%nat ->
  (GiAcoMo.m_ker a <= size pop)%nat ->
  (0 <= GiAcoMo.m_impstop a)%Z -> (0 <= GiAcoMo.m_evalstop a)%Z ->
  GiAcoMo.m_fstop a == 0 ->
  Vec.get (get_f pop) 0 = Some f0 ->
  length f0 = get_nf prob ->
  AcoScreening.screened_in (GiAcoMo.m_acc a) (get_nec prob) (get_nic prob) f0
  = true ->
  GiAcoMo.evolve fuel a prob pop fevals
  = (GiAcoMo.clear_log a, UndefinedBehaviour).
Proof.
  intros Hnp Hst Hnc Hobj Hnic Hgen Hfuel Hker Himp Heval Hfstop Hf0 Hlen Hscr.
  unfold GiAcoMo.evolve.
  destruct (size pop =? 0)%nat eqn:E0; [apply Nat.eqb_eq in E0; contradiction|].
  rewrite Hst, Hnc. simpl.
  destruct (GiAcoMo.m_gen a =? 0)%nat eqn:E1;
    [apply Nat.eqb_eq in E1; contradiction|].
  destruct (size pop <? GiAcoMo.m_ker a)%nat eqn:E2; [apply Nat.ltb_lt in E2; lia|].
  f_equal. destruct fuel as [|fuel]; [lia|]. cbn [GiAcoMo.main_loop].
  replace (1 <=? N.of_nat (GiAcoMo.m_gen (GiAcoMo.clear_log a)))%N with true
    by (symmetry; apply N.leb_le; cbn [GiAcoMo.m_gen GiAcoMo.clear_log]; lia).
  unfold GiAcoMo.generation. rewrite Hobj. simpl.
  replace (negb (GiAcoMo.m_impstop a =? 0)%Z && (GiAcoMo.m_impstop a <=? 0)%Z)
    with false
    by (symmetry; destruct (GiAcoMo.m_impstop a =? 0)%Z eqn:Z1; simpl;
        [reflexivity | apply Z.eqb_neq in Z1; apply Z.leb_gt; lia]).
  replace (negb (GiAcoMo.m_evalstop a =? 0)%Z && (GiAcoMo.m_evalstop a <=? 0)%Z)
    with false
    by (symmetry; destruct (GiAcoMo.m_evalstop a =? 0)%Z eqn:Z1; simpl;
        [reflexivity | apply Z.eqb_neq in Z1; apply Z.leb_gt; lia]).
  destruct (size pop) as [|n]; [contradiction|].
  cbn [seq GiAcoMo.screen_loop]. rewrite Hf0. cbn [bind checked].
  replace (Qeq_bool (GiAcoMo.m_fstop (GiAcoMo.clear_log a)) 0) with true
    by (symmetry; apply Qeq_bool_iff; exact Hfstop).
  cbn [bind checked].
  unfold get_nf in Hlen. rewrite Hobj, Hnic in Hlen.
  rewrite equality_screen_value by (apply columns_in_range; lia).
  rewrite inequality_screen_value by (apply columns_in_range; lia).
  cbn [bind checked orb].
  unfold AcoScreening.screened_in in Hscr.
  change (GiAcoMo.m_acc (GiAcoMo.clear_log a)) with (GiAcoMo.m_acc a).
  rewrite Hscr.
  rewrite penalty_computation_out_of_range by (rewrite Hobj; lia).
  reflexivity.
Qed.

End AcoPenaltyReads.

(** The population of two on the problem without constraints: the call
    leaves the fitness vector of individual 0. *)
Lemma aco_reads_past_the_residuals_witness :
  GiAcoMo.evolve 1 (AcoInputs.colony_of 1 0 0 2) AcoInputs.unconstrained
    AcoInputs.plain_pop 0
  = (GiAcoMo.clear_log (AcoInputs.colony_of 1 0 0 2), Pagmo.UndefinedBehaviour).
Proof.
  apply (@aco_evolve_reads_past_the_residuals Reference.services 1
           (AcoInputs.colony_of 1 0 0 2) AcoInputs.unconstrained
           AcoInputs.plain_pop 0 [1]).
  - unfold Pagmo.size. simpl. discriminate.
  - reflexivity.
  - reflexivity.
  - reflexivity.
  - reflexivity.
  - simpl. discriminate.
  - lia.
  - unfold Pagmo.size. simpl. lia.
  - simpl. lia.
  - simpl. lia.
  - reflexivity.
  - reflexivity.
  - reflexivity.
  - reflexivity.
Defined.
